(** * Source-map codec, tracer and remapper: a shallow embedding

    The development follows the TypeScript sources: the VLQ codec
    ([decode], [encode]), the binary search with its memo slot, the bias
    directed lookup of the tracer, and the remapper's graph construction and
    recursive composition. *)

From Stdlib Require Import ZArith Lia Bool.
From Stdlib Require Sorting.Sorted.
From stdpp Require Import gmap strings list.

Local Open Scope Z_scope.

(** ** JavaScript 32-bit integer conversions *)

Module JS.

(** [ToUint32] and [ToInt32] of an integral number. *)
Definition toUint32 (x : Z) : Z := x mod 2 ^ 32.
Definition toInt32 (x : Z) : Z := (x + 2 ^ 31) mod 2 ^ 32 - 2 ^ 31.

(** [a << s]: the left operand is taken as an int32, the shift count is
    masked to five bits, the result is an int32. *)
Definition shl (a s : Z) : Z := toInt32 (Z.shiftl (toInt32 a) (toUint32 s mod 32)).

(** [a >>> s]: the left operand is taken as a uint32. *)
Definition shru (a s : Z) : Z := Z.shiftr (toUint32 a) (toUint32 s mod 32).

(** [a >> s]: sign-propagating shift of an int32. *)
Definition shr (a s : Z) : Z := Z.shiftr (toInt32 a) (toUint32 s mod 32).

(** [a | b] and [a & b] on int32 operands; the bitwise operations of [Z] are
    two's complement, so the result of int32 operands is again an int32. *)
Definition or (a b : Z) : Z := Z.lor (toInt32 a) (toInt32 b).
Definition and (a b : Z) : Z := Z.land (toInt32 a) (toInt32 b).

(** [x & m] where [x] was read from a typed array and may be [undefined]
    (an index outside the array): [ToInt32(undefined)] is 0. *)
Definition and_undef (x : option Z) (m : Z) : Z :=
  match x with
  | Some v => and v m
  | None => 0
  end.

(** How a call completes: it returns a value or throws. *)
Inductive error : Type :=
| TypeError
| Error (message : string).

Inductive completion (A : Type) : Type :=
| Normal (a : A)
| Throw (e : error).

Arguments Normal {A} a.
Arguments Throw {A} e.

(** [array[i]]: [undefined] outside the array. *)
Definition at_index {B : Type} (l : list B) (i : Z) : option B :=
  if 0 <=? i then l !! Z.to_nat i else None.

(** Char codes of a string literal. *)
Definition codes (s : string) : list Z :=
  map (fun a => Z.of_N (Ascii.N_of_ascii a)) (String.list_ascii_of_string s).

End JS.

(** ** sourcemap-codec *)

Module Codec.

Inductive SourceMapSegment : Type :=
| Seg1 (genCol : Z)
| Seg4 (genCol sourcesIndex sourceLine sourceColumn : Z)
| Seg5 (genCol sourcesIndex sourceLine sourceColumn namesIndex : Z).

Abbreviation SourceMapLine := (list SourceMapSegment).
Abbreviation SourceMapMappings := (list (list SourceMapSegment)).

(** [segment[0]] *)
Definition genCol (s : SourceMapSegment) : Z :=
  match s with
  | Seg1 c => c
  | Seg4 c _ _ _ => c
  | Seg5 c _ _ _ _ => c
  end.

(** [segment.length] *)
Definition seg_length (s : SourceMapSegment) : Z :=
  match s with
  | Seg1 _ => 1
  | Seg4 _ _ _ _ => 4
  | Seg5 _ _ _ _ _ => 5
  end.

(** [segment[j]]; the encoder reads only fields below [segment.length]. *)
Definition field (s : SourceMapSegment) (j : nat) : option Z :=
  match s, j with
  | Seg1 c, 0%nat => Some c
  | Seg4 c _ _ _, 0%nat => Some c
  | Seg4 _ a _ _, 1%nat => Some a
  | Seg4 _ _ b _, 2%nat => Some b
  | Seg4 _ _ _ d, 3%nat => Some d
  | Seg5 c _ _ _ _, 0%nat => Some c
  | Seg5 _ a _ _ _, 1%nat => Some a
  | Seg5 _ _ b _ _, 2%nat => Some b
  | Seg5 _ _ _ d _, 3%nat => Some d
  | Seg5 _ _ _ _ n, 4%nat => Some n
  | _, _ => None
  end.

Definition comma : Z := 44.
Definition semicolon : Z := 59.
Definition chars : list Z :=
  JS.codes "ABCDEFGHIJKLMNOPQRSTUVWXYZabcdefghijklmnopqrstuvwxyz0123456789+/=".

(** Position of [c] in [l] counted from [i]; 0 when absent (a [Uint8Array]
    is zero-filled). *)
Fixpoint index_from (i : Z) (c : Z) (l : list Z) : Z :=
  match l with
  | [] => 0
  | x :: l' => if x =? c then i else index_from (i + 1) c l'
  end.

(** [intToChar[i]]: a [Uint8Array(65)] filled by the loop over [chars]. *)
Definition intToChar (i : Z) : option Z :=
  if (0 <=? i) && (i <? 65) then chars !! Z.to_nat i else None.

(** [charToInteger[c]]: a [Uint8Array(123)]; entries the loop over [chars]
    does not write stay 0, an index outside the array reads [undefined]. *)
Definition charToInteger (c : Z) : option Z :=
  if (0 <=? c) && (c <? 123) then Some (index_from 0 c chars) else None.

(** The five running values, an [Int32Array(5)]. *)
Record Int32x5 : Type := mkState { s0 : Z; s1 : Z; s2 : Z; s3 : Z; s4 : Z }.

Definition state_new : Int32x5 := mkState 0 0 0 0 0.

(** [state[j]] *)
Definition sget (j : nat) (st : Int32x5) : Z :=
  match j with
  | 0%nat => s0 st
  | 1%nat => s1 st
  | 2%nat => s2 st
  | 3%nat => s3 st
  | _ => s4 st
  end.

(** [state[j] = v]: a store into an [Int32Array] wraps to int32. *)
Definition sset (j : nat) (v : Z) (st : Int32x5) : Int32x5 :=
  let w := JS.toInt32 v in
  match j with
  | 0%nat => mkState w (s1 st) (s2 st) (s3 st) (s4 st)
  | 1%nat => mkState (s0 st) w (s2 st) (s3 st) (s4 st)
  | 2%nat => mkState (s0 st) (s1 st) w (s3 st) (s4 st)
  | 3%nat => mkState (s0 st) (s1 st) (s2 st) w (s4 st)
  | _ => mkState (s0 st) (s1 st) (s2 st) (s3 st) w
  end.

(** The [do ... while (integer & 32)] loop of [decodeInteger]. The string is
    represented from the current position on: [rest] is [mappings] from
    [pos]. Reading past the end gives [NaN], [charToInteger[NaN]] is
    [undefined], both masks are then 0 and the loop ends. *)
Fixpoint decodeInteger_loop (rest : list Z) (value shift : Z) : Z * list Z :=
  match rest with
  | [] => (JS.or value (JS.shl (JS.and_undef None 31) shift), [])
  | c :: rest' =>
      let integer := charToInteger c in
      let value := JS.or value (JS.shl (JS.and_undef integer 31) shift) in
      let shift := shift + 5 in
      if JS.and_undef integer 32 =? 0 then (value, rest')
      else decodeInteger_loop rest' value shift
  end.

Definition decodeInteger (rest : list Z) (state : Int32x5) (j : nat)
  : list Z * Int32x5 :=
  let '(value, rest') := decodeInteger_loop rest 0 0 in
  let shouldNegate := JS.and value 1 in
  let value := JS.shru value 1 in
  let value :=
    if shouldNegate =? 0 then value
    else if value =? 0 then - 2147483648 else - value in
  (rest', sset j (sget j state + value) state).

Definition hasMoreSegments (rest : list Z) : bool :=
  match rest with
  | [] => false
  | c :: _ => if (c =? comma) || (c =? semicolon) then false else true
  end.

(** [line.sort(sortComparator)] with [a[0] - b[0]]: [Array.prototype.sort]
    is stable, modelled by a stable insertion sort on the generated column. *)
Fixpoint sort_insert (a : SourceMapSegment) (l : SourceMapLine) : SourceMapLine :=
  match l with
  | [] => [a]
  | b :: l' => if genCol b <=? genCol a then b :: sort_insert a l' else a :: l
  end.

Definition sort (line : SourceMapLine) : SourceMapLine :=
  fold_left (fun acc a => sort_insert a acc) line [].

(** The [for] loop of [decode], for a given in-place sort [sortf] of a row
    ([decode] runs it with [sort]). *)
Section DecodeLoop.

Variable sortf : SourceMapLine -> SourceMapLine.

(** [if (!sorted) sort(line); decoded.push(line)] *)
Definition push_line (decoded : SourceMapMappings) (sorted : bool)
  (line : SourceMapLine) : SourceMapMappings :=
  decoded ++ [if sorted then line else sortf line].

(** Every iteration consumes at least one character, so [length rest]
    iterations are enough ([decode_loop_fuel]). *)
Fixpoint decode_loop (fuel : nat) (rest : list Z) (state : Int32x5)
  (decoded : SourceMapMappings) (line : SourceMapLine) (sorted : bool)
  (lastCol : Z) : SourceMapMappings :=
  match rest, fuel with
  | [], _ => push_line decoded sorted line
  | _ :: _, O => push_line decoded sorted line
  | c :: rest', S fuel =>
      if c =? comma then
        decode_loop fuel rest' state decoded line sorted lastCol
      else if c =? semicolon then
        decode_loop fuel rest' (sset 0 0 state) (push_line decoded sorted line)
          [] true 0
      else
        let '(rest1, state) := decodeInteger rest state 0 in
        let col := sget 0 state in
        let sorted := if col <? lastCol then false else sorted in
        let lastCol := col in
        if negb (hasMoreSegments rest1) then
          decode_loop fuel rest1 state decoded (line ++ [Seg1 col]) sorted lastCol
        else
          let '(rest2, state) := decodeInteger rest1 state 1 in
          let '(rest3, state) := decodeInteger rest2 state 2 in
          let '(rest4, state) := decodeInteger rest3 state 3 in
          if negb (hasMoreSegments rest4) then
            decode_loop fuel rest4 state decoded
              (line ++ [Seg4 col (sget 1 state) (sget 2 state) (sget 3 state)])
              sorted lastCol
          else
            let '(rest5, state) := decodeInteger rest4 state 4 in
            decode_loop fuel rest5 state decoded
              (line ++ [Seg5 col (sget 1 state) (sget 2 state) (sget 3 state)
                          (sget 4 state)])
              sorted lastCol
  end.

Definition decode_with (mappings : list Z) : SourceMapMappings :=
  decode_loop (length mappings) mappings state_new [] [] true 0.

End DecodeLoop.

Definition decode (mappings : list Z) : SourceMapMappings :=
  decode_with sort mappings.

(** The [do ... while (num > 0)] loop of [encodeInteger]. The byte buffer is
    represented by the bytes written so far, [buf[0 .. pos)]. A write of
    [undefined] into a [Uint8Array] stores 0. *)
Fixpoint encodeInteger_loop (fuel : nat) (buf : list Z) (num : Z) : list Z :=
  match fuel with
  | O => buf
  | S fuel =>
      let clamped := JS.and num 31 in
      let num := JS.shru num 5 in
      let clamped := if 0 <? num then JS.or clamped 32 else clamped in
      let buf := buf ++ [default 0 (intToChar clamped)] in
      if 0 <? num then encodeInteger_loop fuel buf num else buf
  end.

(** [num] is a uint32 after the first [>>>= 5], so the loop runs at most
    seven times ([encodeInteger_loop_fuel]). [segment[j]] is read below
    [segment.length] only; [undefined] would give [NaN], written as 0. *)
Definition encodeInteger (buf : list Z) (state : Int32x5)
  (segment : SourceMapSegment) (j : nat) : list Z * Int32x5 :=
  let next := default 0 (field segment j) in
  let num := next - sget j state in
  let state := sset j next state in
  let num := if num <? 0 then JS.or (JS.shl (- num) 1) 1 else JS.shl num 1 in
  (encodeInteger_loop 7 buf num, state).

(** The inner [for] loop of [encode] over the segments of a line, from
    segment [j] on. [reserve] only grows the capacity of the buffer: it
    holds at least 1000 bytes and is doubled when fewer than 37 bytes are
    free, and a segment writes at most 36 ([encodeInteger_loop_length]). *)
Fixpoint encode_segments (j : nat) (line : SourceMapLine) (buf : list Z)
  (state : Int32x5) : list Z * Int32x5 :=
  match line with
  | [] => (buf, state)
  | segment :: line' =>
      let buf := if (0 <? j)%nat then buf ++ [comma] else buf in
      let '(buf, state) := encodeInteger buf state segment 0 in
      if seg_length segment =? 1 then encode_segments (S j) line' buf state
      else
        let '(buf, state) := encodeInteger buf state segment 1 in
        let '(buf, state) := encodeInteger buf state segment 2 in
        let '(buf, state) := encodeInteger buf state segment 3 in
        if seg_length segment =? 4 then encode_segments (S j) line' buf state
        else
          let '(buf, state) := encodeInteger buf state segment 4 in
          encode_segments (S j) line' buf state
  end.

(** The outer [for] loop of [encode], from line [i] on. *)
Fixpoint encode_lines (i : nat) (decoded : SourceMapMappings) (buf : list Z)
  (state : Int32x5) : list Z :=
  match decoded with
  | [] => buf
  | line :: decoded' =>
      let buf := if (0 <? i)%nat then buf ++ [semicolon] else buf in
      if (length line =? 0)%nat then encode_lines (S i) decoded' buf state
      else
        let state := sset 0 0 state in
        let '(buf, state) := encode_segments 0 line buf state in
        encode_lines (S i) decoded' buf state
  end.

Definition encode (decoded : SourceMapMappings) : list Z :=
  encode_lines 0 decoded [] state_new.

(** *** Well-formed decoded mappings *)

(** [x0 <= x1 <= ...] *)
Fixpoint nondecreasing (l : list Z) : bool :=
  match l with
  | x :: (y :: _) as l' => (x <=? y) && nondecreasing l'
  | _ => true
  end.

(** A row sorted by generated column, and a map whose rows all are. *)
Definition row_sorted (line : SourceMapLine) : bool :=
  nondecreasing (map genCol line).

Definition rows_sorted (decoded : SourceMapMappings) : bool :=
  forallb row_sorted decoded.

(** The fields of a segment. *)
Definition seg_fields (s : SourceMapSegment) : list Z :=
  match s with
  | Seg1 c => [c]
  | Seg4 c a b d => [c; a; b; d]
  | Seg5 c a b d n => [c; a; b; d; n]
  end.

Definition int32 (v : Z) : bool := (- 2 ^ 31 <=? v) && (v <? 2 ^ 31).
Definition nonneg_int32 (v : Z) : bool := (0 <=? v) && (v <? 2 ^ 31).

(** Every field of every segment is a 32-bit integer, or a non-negative
    one as the data model has it. *)
Definition all_fields (P : Z -> bool) (decoded : SourceMapMappings) : bool :=
  forallb (forallb (fun s => forallb P (seg_fields s))) decoded.

(** The segments of a row at one generated column, in row order. *)
Definition at_column (c : Z) (line : SourceMapLine) : SourceMapLine :=
  filter (fun s => genCol s = c) line.

(** *** Malformed strings *)

(** A character of the mappings grammar: a base64 character or a separator. *)
Definition valid_char (c : Z) : bool :=
  existsb (Z.eqb c) chars || (c =? comma) || (c =? semicolon).

(** The continuation bit of a character, as the decoder reads it. *)
Definition continues (c : Z) : bool :=
  negb (JS.and_undef (charToInteger c) 32 =? 0).

(** A malformed string: it holds a character outside the grammar, or it ends
    on a character whose continuation bit is set. *)
Definition malformed (mappings : list Z) : bool :=
  existsb (fun c => negb (valid_char c)) mappings
  || match last mappings with
     | Some c => continues c
     | None => false
     end.

(** What the decoder makes of a character outside the grammar: the digit 0
    without continuation, as ['A']. *)
Definition as_read (c : Z) : Z := if valid_char c then c else 65.

End Codec.

(** ** trace-mapping: binary search with a memo slot *)

Module BinarySearch.

(** Element 0 of a segment, [COLUMN]: the generated column of a
    [SourceMapSegment], the original column of a [ReverseSegment]. *)
Class HasColumn (A : Type) := column : A -> Z.

#[export] Instance SourceMapSegment_column : HasColumn Codec.SourceMapSegment :=
  Codec.genCol.

Record MemoState : Type := mkMemo { lastKey : Z; lastNeedle : Z; lastIndex : Z }.

Section Search.

Context {A : Type} `{HasColumn A}.

(** The [while (low <= high)] loop. Reading element 0 of [undefined] is a
    [TypeError]. The interval shrinks at every iteration, so
    [high - low + 1] iterations are enough ([binarySearch_loop_range]). *)
Fixpoint binarySearch_loop (fuel : nat) (haystack : list A) (needle low high : Z)
  : JS.completion Z :=
  if low <=? high then
    match fuel with
    | O => JS.Normal (low - 1)
    | S fuel =>
        let mid := low + JS.shr (high - low) 1 in
        match JS.at_index haystack mid with
        | None => JS.Throw JS.TypeError
        | Some item =>
            let cmp := column item - needle in
            if cmp =? 0 then JS.Normal mid
            else if cmp <? 0 then binarySearch_loop fuel haystack needle (mid + 1) high
            else binarySearch_loop fuel haystack needle low (mid - 1)
        end
    end
  else JS.Normal (low - 1).

Definition binarySearch (haystack : list A) (needle low high : Z) : JS.completion Z :=
  binarySearch_loop (Z.to_nat (high - low + 1)) haystack needle low high.

Definition memoizedState : MemoState := mkMemo (-1) (-1) (-1).

(** The memo object is mutated in place; the model returns its new value.
    When [binarySearch] throws, [lastKey] and [lastNeedle] are already
    written and [lastIndex] is not. *)
Definition memoizedBinarySearch (haystack : list A) (needle : Z)
  (state : MemoState) (key : Z) : JS.completion Z * MemoState :=
  let search (low high : Z) :=
    match binarySearch haystack needle low high with
    | JS.Normal index => (JS.Normal index, mkMemo key needle index)
    | JS.Throw e => (JS.Throw e, mkMemo key needle (lastIndex state))
    end in
  let low := 0 in
  let high := Z.of_nat (length haystack) - 1 in
  if key =? lastKey state then
    if needle =? lastNeedle state then (JS.Normal (lastIndex state), state)
    else if needle >=? lastNeedle state then search (Z.max (lastIndex state) 0) high
    else search low (lastIndex state)
  else search low high.

(** Modelled from the spec: the side flag [found] of the binary-search
    module, which the version of the module in src/ does not define. The
    search "publishes a side flag found indicating exact match": the flag
    is true exactly when the returned index holds a segment whose column is
    the needle. *)
Definition found (haystack : list A) (needle index : Z) : bool :=
  match JS.at_index haystack index with
  | Some item => column item =? needle
  | None => false
  end.

(** Modelled from the spec: [lowerBound] of the binary-search module, not in
    src/. It widens "a matched index to the lowest index with the same
    column": it walks down from [index] while the segment below has column
    [needle]. [n] is the number of segments below the current index. *)
Fixpoint lowerBound_loop (haystack : list A) (needle : Z) (n : nat) : Z :=
  match n with
  | O => 0
  | S m =>
      match haystack !! m with
      | Some item =>
          if column item =? needle then lowerBound_loop haystack needle m
          else Z.of_nat n
      | None => Z.of_nat n
      end
  end.

Definition lowerBound (haystack : list A) (needle index : Z) : Z :=
  if index <? 0 then index else lowerBound_loop haystack needle (Z.to_nat index).

(** Modelled from the spec: [upperBound] of the binary-search module, not in
    src/. The spec words it in two ways: "the index just past the highest
    same-column match", and the end of the closed span of the public
    contract, which "widens to [lowerBound, upperBound] over that matched
    column and returns every reverse-segment in the span". The code in src/
    that calls it decides between them: [sliceGeneratedPositions] reads
    [segments[max]] in [for (; min <= max; min++)], and
    [traceSegmentInternal] returns its result as the index of a segment. It
    is the highest index of the run of segments at column [needle] that
    [index] is in: it walks up from [index] while the next segment has
    column [needle]. *)
Fixpoint upperBound_loop (rest : list A) (needle index : Z) : Z :=
  match rest with
  | [] => index
  | item :: rest' =>
      if column item =? needle then upperBound_loop rest' needle (index + 1)
      else index
  end.

Definition upperBound_spec (haystack : list A) (needle index : Z) : Z :=
  if index <? 0 then index
  else upperBound_loop (drop (S (Z.to_nat index)) haystack) needle index.

(** *** Rows and what a search finds in them *)

(** [haystack[i][0]] *)
Definition col_at (haystack : list A) (i : Z) : option Z :=
  column <$> JS.at_index haystack i.

(** A row sorted non-decreasing by column. *)
Definition sorted_by_column (haystack : list A) : bool :=
  Codec.nondecreasing (map column haystack).

(** Some segment of the row has column [needle]. *)
Definition occurs (haystack : list A) (needle : Z) : Prop :=
  exists i, col_at haystack i = Some needle.

(** [r] is the greatest index whose column is at most [needle], or -1 when
    there is none. *)
Definition greatest_le (haystack : list A) (needle r : Z) : Prop :=
  (r = -1 \/ exists x, col_at haystack r = Some x /\ x <= needle) /\
  forall i x, col_at haystack i = Some x -> x <= needle -> i <= r.

(** [r] is the least index whose column is at least [needle], or -1 when
    there is none. *)
Definition least_ge (haystack : list A) (needle r : Z) : Prop :=
  (r = -1 \/ exists x, col_at haystack r = Some x /\ needle <= x) /\
  forall i x, col_at haystack i = Some x -> needle <= x -> r <> -1 /\ r <= i.

(** [r] is the least index whose column is [needle]. *)
Definition least_eq (haystack : list A) (needle r : Z) : Prop :=
  col_at haystack r = Some needle /\
  forall i, col_at haystack i = Some needle -> r <= i.

(** [r] is the greatest index whose column is [needle]. *)
Definition greatest_eq (haystack : list A) (needle r : Z) : Prop :=
  col_at haystack r = Some needle /\
  forall i, col_at haystack i = Some needle -> i <= r.

(** At most one segment of the row has column [needle]. *)
Definition at_most_once (haystack : list A) (needle : Z) : Prop :=
  forall i j,
    col_at haystack i = Some needle -> col_at haystack j = Some needle -> i = j.

(** What a search finds for [needle]: an index [r] that holds the needle's
    column, or the gap where that column would be: every column up to [r]
    is below the needle and every column after [r] is above it. *)
Definition exact (haystack : list A) (needle r : Z) : Prop :=
  col_at haystack r = Some needle.

Definition gap (haystack : list A) (needle r : Z) : Prop :=
  -1 <= r < Z.of_nat (length haystack) /\
  (forall i x, i <= r -> col_at haystack i = Some x -> x < needle) /\
  (forall i x, r < i -> col_at haystack i = Some x -> needle < x).

Definition hit (haystack : list A) (needle r : Z) : Prop :=
  exact haystack needle r \/ gap haystack needle r.

(** A memo slot as the searches leave it: when it is about the row
    [haystack] (its key is [key]), its index is what a search of that row
    finds for its needle. The fresh slot has key -1. *)
Definition memo_ok (haystack : list A) (key : Z) (state : MemoState) : Prop :=
  lastKey state = key -> hit haystack (lastNeedle state) (lastIndex state).

(** A sequence of searches in one row under one key, each with the memo the
    search before it left. *)
Fixpoint run_queries (haystack : list A) (key : Z) (needles : list Z)
  (state : MemoState) : list (JS.completion Z) :=
  match needles with
  | [] => []
  | needle :: needles' =>
      let '(r, state) := memoizedBinarySearch haystack needle state key in
      r :: run_queries haystack key needles' state
  end.

(** The result [r] of a memoized search against the cold search of the
    whole row: both return, with the same index, or with two different
    indices that both hold the needle's column. *)
Definition agrees_with_cold (haystack : list A) (needle : Z)
  (r : JS.completion Z) : Prop :=
  exists i c,
    r = JS.Normal i /\
    binarySearch haystack needle 0 (Z.of_nat (length haystack) - 1) = JS.Normal c /\
    (i = c \/ (i <> c /\ col_at haystack i = Some needle /\
               col_at haystack c = Some needle)).

(** A memo slot whose index can be used as a bound in the row it is about:
    [rows key] is the row searched under [key]. *)
Definition memo_in_range (rows : Z -> option (list A)) (state : MemoState) : Prop :=
  forall haystack,
    rows (lastKey state) = Some haystack ->
    -1 <= lastIndex state < Z.of_nat (length haystack).

End Search.

End BinarySearch.

(** ** trace-mapping: the tracer *)

Module TraceMapping.

Import Codec BinarySearch.

Definition LINE_GTR_ZERO : string :=
  "`line` must be greater than 0 (lines start at line 1)".
Definition COL_GTR_EQ_ZERO : string :=
  "`column` must be greater than or equal to 0 (columns start at column 0)".

Definition LEAST_UPPER_BOUND : Z := -1.
Definition GREATEST_LOWER_BOUND : Z := 1.

(** [[origCol, genLine, genCol]] *)
Record ReverseSegment : Type :=
  mkRev { rev_column : Z; rev_generated_line : Z; rev_generated_column : Z }.

#[export] Instance ReverseSegment_column : HasColumn ReverseSegment := rev_column.

(** One source of the by-source index: rows of reverse segments by original
    line; a line without mappings has no row. *)
Abbreviation Source := (gmap Z (list ReverseSegment)).

Record TraceMap : Type := mkTraceMap {
  names : list string;
  sources : list (option string);
  resolvedSources : list string;
  _encoded : option (list Z);
  _decoded : option SourceMapMappings;
  _decodedMemo : MemoState;
  _bySources : option (list Source);
  _bySourceMemos : option (list MemoState)
}.

Record Needle : Type := mkNeedle { line : Z; column_ : Z; bias : option Z }.
Record SourceNeedle : Type :=
  mkSourceNeedle { sn_source : string; sn_line : Z; sn_column : Z; sn_bias : option Z }.

(** [{ source, line, column, name }]; [None] is [null] (or [undefined] when an
    index read past its array). *)
Record OriginalMapping : Type :=
  OMapping { om_source : option string; om_line : option Z;
             om_column : option Z; om_name : option string }.

Record GeneratedMapping : Type :=
  GMapping { gm_line : option Z; gm_column : option Z }.

(** [bias || dflt]: [undefined] and [0] are falsy. *)
Definition bias_or (bias : option Z) (dflt : Z) : Z :=
  match bias with
  | Some b => if b =? 0 then dflt else b
  | None => dflt
  end.

(** [{ line, column }] or, for [allGeneratedPositionsFor], an array of them. *)
Inductive GeneratedResult : Type :=
| One (m : GeneratedMapping)
| All (l : list GeneratedMapping).

(** [array.indexOf(x)] *)
Fixpoint indexOf_from {B : Type} `{EqDecision B} (i : Z) (l : list B) (x : B) : Z :=
  match l with
  | [] => -1
  | y :: l' => if decide (y = x) then i else indexOf_from (i + 1) l' x
  end.

Definition indexOf {B : Type} `{EqDecision B} (l : list B) (x : B) : Z :=
  indexOf_from 0 l x.

(** Stable insertion sort of a row of reverse segments by original column. *)
Fixpoint rev_insert (a : ReverseSegment) (l : list ReverseSegment)
  : list ReverseSegment :=
  match l with
  | [] => [a]
  | b :: l' =>
      if rev_column b <=? rev_column a then b :: rev_insert a l' else a :: l
  end.

Definition rev_sort (l : list ReverseSegment) : list ReverseSegment :=
  fold_left (fun acc a => rev_insert a acc) l [].

(** Modelled from the spec: [buildBySources] of the by-source module, not in
    src/. "Given a decoded map with N sources, compute an array
    bySource[0..N)"; "single pass over the decoded forward map; for each
    segment of arity >= 4, append (origCol, genLine, genCol) to
    bySource[sourceIdx][srcLine]. After insertion, each original-line row is
    sorted by origCol. Rows not touched remain absent". [N] is the number of
    memo slots, one per source. The spec does not say what happens to a
    segment whose source index is outside [0..N): here it is skipped. *)
Definition bySource_add (genLine : Z) (acc : list Source) (seg : SourceMapSegment)
  : list Source :=
  match seg with
  | Seg1 _ => acc
  | Seg4 c src l k | Seg5 c src l k _ =>
      if (0 <=? src) && (src <? Z.of_nat (length acc)) then
        alter (fun rows : Source =>
                 <[l := default [] (rows !! l) ++ [mkRev k genLine c]]> rows)
          (Z.to_nat src) acc
      else acc
  end.

Fixpoint bySource_lines (genLine : Z) (decoded : SourceMapMappings)
  (acc : list Source) : list Source :=
  match decoded with
  | [] => acc
  | line :: decoded' =>
      bySource_lines (genLine + 1) decoded' (fold_left (bySource_add genLine) line acc)
  end.

Definition buildBySources (decoded : SourceMapMappings) (memos : list MemoState)
  : list Source :=
  map (fun rows : Source => rev_sort <$> rows)
    (bySource_lines 0 decoded (replicate (length memos) (∅ : Source))).

Section Internal.

(** [upperBound] of the binary-search module is not in src/: it is a
    parameter of the tracer, and [upperBound_spec] above is the instance
    modelled from the spec. *)
Variable upperBound : forall (A : Type), HasColumn A -> list A -> Z -> Z -> Z.

Definition traceSegmentInternal {A : Type} `{HasColumn A} (segments : list A)
  (memo : MemoState) (line column bias : Z) : JS.completion Z * MemoState :=
  let '(r, memo) := memoizedBinarySearch segments column memo line in
  match r with
  | JS.Throw e => (JS.Throw e, memo)
  | JS.Normal index =>
      let index :=
        if found segments column index then
          if bias =? LEAST_UPPER_BOUND then upperBound A _ segments column index
          else lowerBound segments column index
        else if bias =? LEAST_UPPER_BOUND then index + 1
        else index in
      if (index =? -1) || (index =? Z.of_nat (length segments))
      then (JS.Normal (-1), memo)
      else (JS.Normal index, memo)
  end.

(** [if (index === -1 || index === segments.length) return -1] *)
Definition in_row {A : Type} (segments : list A) (index : Z) : Z :=
  if (index =? -1) || (index =? Z.of_nat (length segments)) then -1 else index.

(** What the lookup returns with the [GREATEST_LOWER_BOUND] bias: the
    lowest index at the needle's column when the row has that column, else
    the greatest index whose column is below the needle, -1 when there is
    none. *)
Definition glb_result {A : Type} `{HasColumn A} (segments : list A)
  (column r : Z) : Prop :=
  (occurs segments column -> least_eq segments column r) /\
  (~ occurs segments column -> greatest_le segments column r).

(** What the lookup returns with the [LEAST_UPPER_BOUND] bias: the least
    index whose column is above the needle, -1 when there is none, when the
    row does not have the needle's column; else what [upperBound] makes of
    an index at that column. *)
Definition lub_result {A : Type} `{HasColumn A} (segments : list A)
  (column r : Z) : Prop :=
  (~ occurs segments column -> least_ge segments column r) /\
  (occurs segments column ->
   exists i, col_at segments i = Some column /\
             r = in_row segments (upperBound A _ segments column i)).

(** [map._decoded ||= decode(map._encoded!)]: an array is truthy;
    [decode(undefined)] reads [undefined.length]. *)
Definition decodedMappings (map : TraceMap)
  : JS.completion SourceMapMappings * TraceMap :=
  match _decoded map with
  | Some decoded => (JS.Normal decoded, map)
  | None =>
      match _encoded map with
      | Some encoded =>
          let decoded := decode encoded in
          (JS.Normal decoded,
           mkTraceMap (names map) (sources map) (resolvedSources map)
             (_encoded map) (Some decoded) (_decodedMemo map)
             (_bySources map) (_bySourceMemos map))
      | None => (JS.Throw JS.TypeError, map)
      end
  end.

Definition set_decodedMemo (map : TraceMap) (memo : MemoState) : TraceMap :=
  mkTraceMap (names map) (sources map) (resolvedSources map) (_encoded map)
    (_decoded map) memo (_bySources map) (_bySourceMemos map).

Definition set_bySources (map : TraceMap) (generated : list Source)
  (memos : list MemoState) : TraceMap :=
  mkTraceMap (names map) (sources map) (resolvedSources map) (_encoded map)
    (_decoded map) (_decodedMemo map) (Some generated) (Some memos).

Definition set_bySourceMemos (map : TraceMap) (memos : option (list MemoState))
  : TraceMap :=
  mkTraceMap (names map) (sources map) (resolvedSources map) (_encoded map)
    (_decoded map) (_decodedMemo map) (_bySources map) memos.

Definition originalPositionFor (map : TraceMap) (needle : Needle)
  : JS.completion OriginalMapping * TraceMap :=
  let line := line needle - 1 in
  let column := column_ needle in
  if line <? 0 then (JS.Throw (JS.Error LINE_GTR_ZERO), map)
  else if column <? 0 then (JS.Throw (JS.Error COL_GTR_EQ_ZERO), map)
  else
    let '(r, map) := decodedMappings map in
    match r with
    | JS.Throw e => (JS.Throw e, map)
    | JS.Normal decoded =>
        if line >=? Z.of_nat (length decoded)
        then (JS.Normal (OMapping None None None None), map)
        else
          match JS.at_index decoded line with
          | None => (JS.Throw JS.TypeError, map)
          | Some segments =>
              let '(r, memo) :=
                traceSegmentInternal segments (_decodedMemo map) line column
                  (bias_or (bias needle) GREATEST_LOWER_BOUND) in
              let map := set_decodedMemo map memo in
              match r with
              | JS.Throw e => (JS.Throw e, map)
              | JS.Normal index =>
                  if index =? -1
                  then (JS.Normal (OMapping None None None None), map)
                  else
                    match JS.at_index segments index with
                    | None => (JS.Throw JS.TypeError, map)
                    | Some (Seg1 _) =>
                        (JS.Normal (OMapping None None None None), map)
                    | Some (Seg4 _ src l c) =>
                        (JS.Normal
                           (OMapping (JS.at_index (resolvedSources map) src)
                              (Some (l + 1)) (Some c) None), map)
                    | Some (Seg5 _ src l c n) =>
                        (JS.Normal
                           (OMapping (JS.at_index (resolvedSources map) src)
                              (Some (l + 1)) (Some c)
                              (JS.at_index (names map) n)), map)
                    end
              end
          end
    end.

(** The [for (; min <= max; min++)] loop of [sliceGeneratedPositions];
    [n] is [max - min + 1]. *)
Fixpoint slice_loop (segments : list ReverseSegment) (min : Z) (n : nat)
  (result : list GeneratedMapping) : JS.completion (list GeneratedMapping) :=
  match n with
  | O => JS.Normal result
  | S n' =>
      match JS.at_index segments min with
      | None => JS.Throw JS.TypeError
      | Some segment =>
          slice_loop segments (min + 1) n'
            (result ++ [GMapping (Some (rev_generated_line segment + 1))
                          (Some (rev_generated_column segment))])
      end
  end.

(** [bsFound] is read after [traceSegmentInternal] ran the search with the
    [GREATEST_LOWER_BOUND] bias: the index it returned holds the needle's
    column exactly when the flag is set. *)
Definition sliceGeneratedPositions (segments : list ReverseSegment)
  (memo : MemoState) (line column bias : Z)
  : JS.completion (list GeneratedMapping) * MemoState :=
  let '(r, memo) :=
    traceSegmentInternal segments memo line column GREATEST_LOWER_BOUND in
  match r with
  | JS.Throw e => (JS.Throw e, memo)
  | JS.Normal min =>
      let bsFound := found segments column min in
      let min := if negb bsFound && (bias =? LEAST_UPPER_BOUND) then min + 1 else min in
      if (min =? -1) || (min =? Z.of_nat (length segments)) then (JS.Normal [], memo)
      else
        match JS.at_index segments min with
        | None => (JS.Throw JS.TypeError, memo)
        | Some segment =>
            let matchedColumn := if bsFound then column else rev_column segment in
            let min := if bsFound then min else lowerBound segments matchedColumn min in
            let max := upperBound _ _ segments matchedColumn min in
            (slice_loop segments min (Z.to_nat (max - min + 1)) [], memo)
        end
  end.

(** [map._bySources ||= buildBySources(decodedMappings(map),
    (map._bySourceMemos = sources.map(memoizedState)))] *)
Definition bySources (map : TraceMap) : JS.completion (list Source) * TraceMap :=
  match _bySources map with
  | Some generated => (JS.Normal generated, map)
  | None =>
      let '(r, map) := decodedMappings map in
      match r with
      | JS.Throw e => (JS.Throw e, map)
      | JS.Normal decoded =>
          let memos := (fun _ => memoizedState) <$> sources map in
          let generated := buildBySources decoded memos in
          (JS.Normal generated, set_bySources map generated memos)
      end
  end.

Definition generatedPosition (map : TraceMap) (source : string)
  (line column bias : Z) (all : bool) : JS.completion GeneratedResult * TraceMap :=
  let line := line - 1 in
  if line <? 0 then (JS.Throw (JS.Error LINE_GTR_ZERO), map)
  else if column <? 0 then (JS.Throw (JS.Error COL_GTR_EQ_ZERO), map)
  else
    let none := if all then All [] else One (GMapping None None) in
    let sourceIndex := indexOf (sources map) (Some source) in
    let sourceIndex :=
      if sourceIndex =? -1 then indexOf (resolvedSources map) source
      else sourceIndex in
    if sourceIndex =? -1 then (JS.Normal none, map)
    else
      let '(r, map) := bySources map in
      match r with
      | JS.Throw e => (JS.Throw e, map)
      | JS.Normal generated =>
          match JS.at_index generated sourceIndex with
          | None => (JS.Throw JS.TypeError, map)
          | Some rows =>
              match rows !! line with
              | None => (JS.Normal none, map)
              | Some segments =>
                  match _bySourceMemos map ≫= (fun ms => JS.at_index ms sourceIndex) with
                  | None => (JS.Throw JS.TypeError, map)
                  | Some memo =>
                      let store memo :=
                        set_bySourceMemos map
                          (<[Z.to_nat sourceIndex := memo]> <$> _bySourceMemos map) in
                      if all then
                        let '(r, memo) :=
                          sliceGeneratedPositions segments memo line column bias in
                        match r with
                        | JS.Throw e => (JS.Throw e, store memo)
                        | JS.Normal l => (JS.Normal (All l), store memo)
                        end
                      else
                        let '(r, memo) :=
                          traceSegmentInternal segments memo line column bias in
                        match r with
                        | JS.Throw e => (JS.Throw e, store memo)
                        | JS.Normal index =>
                            if index =? -1
                            then (JS.Normal (One (GMapping None None)), store memo)
                            else
                              match JS.at_index segments index with
                              | None => (JS.Throw JS.TypeError, store memo)
                              | Some segment =>
                                  (JS.Normal
                                     (One (GMapping
                                             (Some (rev_generated_line segment + 1))
                                             (Some (rev_generated_column segment)))),
                                   store memo)
                              end
                        end
                  end
              end
          end
      end.

Definition generatedPositionFor (map : TraceMap) (needle : SourceNeedle)
  : JS.completion GeneratedResult * TraceMap :=
  generatedPosition map (sn_source needle) (sn_line needle) (sn_column needle)
    (bias_or (sn_bias needle) GREATEST_LOWER_BOUND) false.

Definition allGeneratedPositionsFor (map : TraceMap) (needle : SourceNeedle)
  : JS.completion GeneratedResult * TraceMap :=
  generatedPosition map (sn_source needle) (sn_line needle) (sn_column needle)
    (bias_or (sn_bias needle) LEAST_UPPER_BOUND) true.

(** What the tracer needs of [upperBound]: from an index of the row it
    returns an index of the row or the row's length. *)
Definition upperBound_in_range : Prop :=
  forall (A : Type) (H : HasColumn A) (segments : list A) (needle index : Z),
    0 <= index < Z.of_nat (length segments) ->
    -1 <= upperBound A H segments needle index <= Z.of_nat (length segments).

End Internal.

(** *** The state of a [TraceMap] between queries *)

(** The decoded mappings of a map, held or still to be decoded. *)
Definition decoded_of (map : TraceMap) : option SourceMapMappings :=
  match _decoded map with
  | Some decoded => Some decoded
  | None => decode <$> _encoded map
  end.

(** Invariant 2 of the data model: source indices are within [sources]. *)
Definition source_in_range (n : nat) (s : SourceMapSegment) : Prop :=
  match s with
  | Seg1 _ => True
  | Seg4 _ src _ _ | Seg5 _ src _ _ _ => 0 <= src < Z.of_nat n
  end.

(** A map as its constructor and its queries leave it: it holds its
    mappings in one form at least, with fewer than [2^31] segments and
    source indices within [sources]; [resolvedSources] is parallel to
    [sources]; the memo of the decoded rows can be used in the row it is
    about; the by-source index, once built, has one source and one memo per
    entry of [sources], rows of at most [2^31] segments, and memos that can
    be used in the rows they are about. *)
Record map_ok (map : TraceMap) : Prop := mkMapOk {
  ok_decoded :
    exists decoded,
      decoded_of map = Some decoded /\
      Z.of_nat (length (concat decoded)) <= 2 ^ 31 /\
      Forall (Forall (source_in_range (length (sources map)))) decoded /\
      memo_in_range (JS.at_index decoded) (_decodedMemo map);
  ok_resolved : length (resolvedSources map) = length (sources map);
  ok_bySources :
    match _bySources map, _bySourceMemos map with
    | None, _ => True
    | Some generated, None => False
    | Some generated, Some memos =>
        length generated = length (sources map) /\
        length memos = length (sources map) /\
        forall (i : nat) (rows : Source) (memo : MemoState),
          generated !! i = Some rows -> memos !! i = Some memo ->
          (forall l segments,
              rows !! l = Some segments ->
              Z.of_nat (length segments) <= 2 ^ 31) /\
          memo_in_range (fun l => rows !! l) memo
    end
}.

(** A call that throws. *)
Definition throws {R : Type} (r : JS.completion R) : Prop :=
  exists e, r = JS.Throw e.

Section Queries.

Variable upperBound : forall (A : Type), HasColumn A -> list A -> Z -> Z -> Z.

(** What the two position queries do on a map: they throw exactly on a
    needle with [line < 1] or [column < 0], they leave the map in a state
    in which it can be queried again, and a line past the last row gives
    the all-null record. *)
Definition queries_spec (map : TraceMap) : Prop :=
  (forall needle,
      throws (fst (originalPositionFor upperBound map needle)) <->
      line needle < 1 \/ column_ needle < 0) /\
  (forall needle,
      throws (fst (generatedPositionFor upperBound map needle)) <->
      sn_line needle < 1 \/ sn_column needle < 0) /\
  (forall needle, map_ok (snd (originalPositionFor upperBound map needle))) /\
  (forall needle, map_ok (snd (generatedPositionFor upperBound map needle))) /\
  (forall needle decoded,
      1 <= line needle -> 0 <= column_ needle ->
      decoded_of map = Some decoded ->
      Z.of_nat (length decoded) < line needle ->
      fst (originalPositionFor upperBound map needle)
      = JS.Normal (OMapping None None None None)).

End Queries.

(** What the lookup returns with the [LEAST_UPPER_BOUND] bias and the
    [upperBound] above: the highest index at the needle's column when the
    row has that column, else the least index whose column is above the
    needle, -1 when there is none. *)
Definition lub_found {A : Type} `{HasColumn A} (segments : list A)
  (column r : Z) : Prop :=
  (occurs segments column -> greatest_eq segments column r) /\
  (~ occurs segments column -> least_ge segments column r).

(** What the bias-directed lookup does in a row: with either bias it
    returns, leaving a memo the next lookup in the row can use; the index is
    the lowest, or the highest, of the indices at the needle's column when
    there are such, and else the nearest index on the side of the bias; when
    at most one segment is at the needle's column, it is the greatest index
    whose column is at most the needle, or the least index whose column is
    at least the needle. *)
Definition bias_spec {A : Type} `{HasColumn A} (segments : list A)
  (memo : MemoState) (line column : Z) : Prop :=
  (exists r memo',
      traceSegmentInternal (@upperBound_spec) segments memo line column
        GREATEST_LOWER_BOUND = (JS.Normal r, memo') /\
      memo_ok segments line memo' /\ glb_result segments column r /\
      (at_most_once segments column -> greatest_le segments column r)) /\
  (exists r memo',
      traceSegmentInternal (@upperBound_spec) segments memo line column
        LEAST_UPPER_BOUND = (JS.Normal r, memo') /\
      memo_ok segments line memo' /\ lub_found segments column r /\
      (at_most_once segments column -> least_ge segments column r)).

(** The decoded map of the test suite. *)
Definition test_map : TraceMap :=
  mkTraceMap ["foo"; "bar"; "Error"]%string [Some "input.js"%string]
    ["https://astexplorer.net/input.js"%string] None
    (Some
       [[Seg4 0 0 0 0; Seg5 9 0 0 9 0; Seg4 12 0 0 0; Seg5 13 0 0 13 1;
         Seg4 16 0 0 0; Seg4 18 0 0 33];
        [Seg4 4 0 1 4; Seg4 8 0 1 10; Seg5 12 0 1 14 2; Seg4 17 0 1 10;
         Seg4 18 0 1 20; Seg4 32 0 1 10; Seg4 33 0 1 4];
        [Seg4 0 0 2 1];
        [];
        [Seg5 0 0 3 0 0; Seg4 3 0 3 3]])
    memoizedState None None.

End TraceMapping.

(** ** remapping *)

Module Remapping.

Import Codec BinarySearch.

Record RawSourceMap : Type := mkRaw {
  raw_file : option string;
  raw_names : list string;
  raw_sourceRoot : option string;
  raw_sources : list string;
  raw_sourcesContent : option (list (option string));
  raw_mappings : list Z
}.

Record DecodedSourceMap : Type := mkMap {
  file : option string;
  names : list string;
  sourceRoot : option string;
  sources : list string;
  sourcesContent : option (list (option string));
  mappings : SourceMapMappings
}.

(** A [SourceMapInput] after [JSON.parse], which is outside this model. *)
Inductive SourceMapInput : Type :=
| Raw (map : RawSourceMap)
| Decoded (map : DecodedSourceMap).

(** [OriginalSource]: [filename] and [content]. *)
Record OriginalSource : Type :=
  mkOriginal { filename : string; content : option string }.

(** [name] is a string, or [undefined] when a names index read past the
    names array. *)
Record SourceMapSegmentObject : Type := mkTraced {
  so_column : Z;
  so_line : Z;
  so_name : option string;
  so_source : OriginalSource
}.

(** [FastStringArray] *)
Record FastStringArray : Type :=
  mkFast { indexes : gmap string Z; array : list string }.

Definition FastStringArray_new : FastStringArray := mkFast ∅ [].

Definition put (strarr : FastStringArray) (key : string) : Z * FastStringArray :=
  match indexes strarr !! key with
  | Some index => (index, strarr)
  | None =>
      let index := Z.of_nat (length (array strarr)) in
      (index, mkFast (<[key := index]> (indexes strarr)) (array strarr ++ [key]))
  end.

(** [type Graph = OriginalSource | SourceMapTree] *)
#[local] Set Warnings "-register-all".
Inductive Graph : Type :=
| Original (source : OriginalSource)
| SourceMapTree (map : DecodedSourceMap) (sources : list Graph).

(** [array[i] = v]: an index past the end extends the array, the slots
    between are holes (read as [undefined], here [hole]). *)
Definition array_set {B : Type} (hole : B) (l : list B) (i : Z) (v : B) : list B :=
  if i <? 0 then l
  else if i <? Z.of_nat (length l) then <[Z.to_nat i := v]> l
  else l ++ replicate (Z.to_nat i - length l) hole ++ [v].

(** Modelled from the spec: [binarySearch(haystack, needle, comparator)] of
    the remapper's binary-search module, not in src/. "On a graph node,
    binary-search the row srcLine for a segment with the
    GREATEST_LOWER_BOUND of srcCol; if none, the segment contributes
    nothing": the full-range search of the tracer, with
    [segmentComparator(segment, column) = segment[0] - column]. *)
Definition binarySearch (haystack : SourceMapLine) (needle : Z) : JS.completion Z :=
  BinarySearch.binarySearch haystack needle 0 (Z.of_nat (length haystack) - 1).

Definition INVALID_LINE : string := "sourcemap pointed to invalid line".

(** [traceSegment] of [OriginalSource] and of [SourceMapTree]. A [null]
    result is [Normal None]. Calling [traceSegment] on [undefined]
    ([this.sources[i]] outside the array) is a [TypeError]. *)
Fixpoint traceSegment (g : Graph) (line column : Z) (name : option string)
  {struct g} : JS.completion (option SourceMapSegmentObject) :=
  match g with
  | Original source => JS.Normal (Some (mkTraced column line name source))
  | SourceMapTree map sources =>
      let trace_source :=
        fix trace_source (l : list Graph) (i : nat) (line column : Z)
            (name : option string) :=
          match l, i with
          | [], _ => JS.Throw JS.TypeError
          | source :: _, O => traceSegment source line column name
          | _ :: l', S i' => trace_source l' i' line column name
          end in
      match JS.at_index (mappings map) line with
      | None => JS.Throw (JS.Error INVALID_LINE)
      | Some segments =>
          match binarySearch segments column with
          | JS.Throw e => JS.Throw e
          | JS.Normal index =>
              if index <? 0 then JS.Normal None
              else
                match JS.at_index segments index with
                | None => JS.Throw JS.TypeError
                | Some (Seg1 _) => JS.Normal None
                | Some (Seg4 _ src l c) =>
                    if src <? 0 then JS.Throw JS.TypeError
                    else trace_source sources (Z.to_nat src) l c name
                | Some (Seg5 _ src l c n) =>
                    if src <? 0 then JS.Throw JS.TypeError
                    else trace_source sources (Z.to_nat src) l c
                           (JS.at_index (names map) n)
                end
          end
      end
  end.

(** [this.sources[i].traceSegment(line, column, name)] *)
Definition traceSource (sources : list Graph) (i line column : Z)
  (name : option string) : JS.completion (option SourceMapSegmentObject) :=
  match JS.at_index sources i with
  | None => JS.Throw JS.TypeError
  | Some source => traceSegment source line column name
  end.

(** [if (name)]: [undefined] and the empty string are falsy. *)
Definition truthy (name : option string) : bool :=
  match name with
  | Some s => negb (String.eqb s "")
  | None => false
  end.

(** The tables [traceMappings] builds. *)
Record Tables : Type := mkTables {
  t_names : FastStringArray;
  t_sources : FastStringArray;
  t_sourcesContent : list (option string)
}.

(** The body of the inner loop of [traceMappings] for one segment of the
    root map: the traced segments of the row and the tables after it. *)
Definition traceMappings_segment (mapNames : list string) (sources : list Graph)
  (segment : SourceMapSegment) (tracedSegments : SourceMapLine) (tb : Tables)
  : JS.completion (SourceMapLine * Tables) :=
  match segment with
  | Seg1 _ => JS.Normal (tracedSegments, tb)
  | Seg4 c src l k | Seg5 c src l k _ =>
      let name :=
        match segment with
        | Seg5 _ _ _ _ n => JS.at_index mapNames n
        | _ => Some ""%string
        end in
      match traceSource sources src l k name with
      | JS.Throw e => JS.Throw e
      | JS.Normal None => JS.Normal (tracedSegments, tb)
      | JS.Normal (Some traced) =>
          let '(sourceIndex, srcs) := put (t_sources tb) (filename (so_source traced)) in
          let sourcesContent :=
            array_set None (t_sourcesContent tb) sourceIndex
              (content (so_source traced)) in
          if truthy (so_name traced) then
            let '(nameIndex, nms) := put (t_names tb) (default ""%string (so_name traced)) in
            JS.Normal
              (tracedSegments ++
                 [Seg5 c sourceIndex (so_line traced) (so_column traced) nameIndex],
               mkTables nms srcs sourcesContent)
          else
            JS.Normal
              (tracedSegments ++
                 [Seg4 c sourceIndex (so_line traced) (so_column traced)],
               mkTables (t_names tb) srcs sourcesContent)
      end
  end.

(** The inner loop over the segments of one row. *)
Fixpoint traceMappings_row (mapNames : list string) (sources : list Graph)
  (segments : SourceMapLine) (tracedSegments : SourceMapLine) (tb : Tables)
  : JS.completion (SourceMapLine * Tables) :=
  match segments with
  | [] => JS.Normal (tracedSegments, tb)
  | segment :: segments' =>
      match traceMappings_segment mapNames sources segment tracedSegments tb with
      | JS.Throw e => JS.Throw e
      | JS.Normal (tracedSegments, tb) =>
          traceMappings_row mapNames sources segments' tracedSegments tb
      end
  end.

(** The outer loop over the rows of the root map. *)
Fixpoint traceMappings_rows (mapNames : list string) (sources : list Graph)
  (mapMappings : SourceMapMappings) (mappings : SourceMapMappings) (tb : Tables)
  : JS.completion (SourceMapMappings * Tables) :=
  match mapMappings with
  | [] => JS.Normal (mappings, tb)
  | segments :: mapMappings' =>
      match traceMappings_row mapNames sources segments [] tb with
      | JS.Throw e => JS.Throw e
      | JS.Normal (tracedSegments, tb) =>
          traceMappings_rows mapNames sources mapMappings'
            (mappings ++ [tracedSegments]) tb
      end
  end.

(** [traceMappings] of a [SourceMapTree]. Modelled from the spec: [defaults]
    is not in src/; the composed map holds the mappings and the "fresh
    unique tables for names, sources, and a parallel sourcesContent" built
    here, its other fields are those of [this.map]. *)
Definition traceMappings (map : DecodedSourceMap) (sources : list Graph)
  : JS.completion DecodedSourceMap :=
  match traceMappings_rows (names map) sources (mappings map) []
          (mkTables FastStringArray_new FastStringArray_new []) with
  | JS.Throw e => JS.Throw e
  | JS.Normal (mappings, tb) =>
      JS.Normal
        (mkMap (file map) (array (t_names tb)) (sourceRoot map)
           (array (t_sources tb)) (Some (t_sourcesContent tb)) mappings)
  end.

(** A root segment that gets an output segment: it has a source, and its
    trace ends at an original source. *)
Definition contributes (mapNames : list string) (sources : list Graph)
  (segment : SourceMapSegment) : bool :=
  match segment with
  | Seg1 _ => false
  | Seg4 _ src l k =>
      match traceSource sources src l k (Some ""%string) with
      | JS.Normal (Some _) => true
      | _ => false
      end
  | Seg5 _ src l k n =>
      match traceSource sources src l k (JS.at_index mapNames n) with
      | JS.Normal (Some _) => true
      | _ => false
      end
  end.

(** The name [traceMappings] passes down for a root segment:
    [segment.length === 5 ? mapNames[segment[4]] : ''] *)
Definition root_name (mapNames : list string) (segment : SourceMapSegment)
  : option string :=
  match segment with
  | Seg5 _ _ _ _ n => JS.at_index mapNames n
  | _ => Some ""%string
  end.

(** The row that comes out for a row of the root map holds the generated
    columns of the root segments that contribute, in their order. *)
Definition row_kept (mapNames : list string) (sources : list Graph)
  (outRow rootRow : SourceMapLine) : Prop :=
  map genCol outRow = map genCol (List.filter (contributes mapNames sources) rootRow).

(** A [FastStringArray] whose index of a key is the place of the key in its
    array, as [put] keeps it. *)
Definition fast_ok (strarr : FastStringArray) : Prop :=
  forall key index,
    indexes strarr !! key = Some index ->
    JS.at_index (array strarr) index = Some key.

Section Build.

(** [decode] of the package 'sourcemap-codec', which [decodeSourceMap]
    imports, is not in src/ (the codec above is '@jridgewell/sourcemap-codec',
    the one the tracer imports): it is a parameter, a function of the
    mappings string that returns the decoded rows or throws. *)
Variable decode : list Z -> JS.completion SourceMapMappings.

(** [resolve] of the resolve module is not in src/: a pure function of the
    source name and the source root. *)
Variable resolve : string -> option string -> string.

(** The loader callback; [None] is [null] or [undefined]. *)
Variable loader : string -> option SourceMapInput.

(** [decodeSourceMap]: a string of mappings is decoded, and an error of the
    decoder is the error of [decodeSourceMap]; a decoded map is kept.
    Modelled from the spec: [defaults] is not in src/; "decode the root
    map" leaves the other fields of the map as they are. *)
Definition decodeSourceMap (map : SourceMapInput) : JS.completion DecodedSourceMap :=
  match map with
  | Raw r =>
      match decode (raw_mappings r) with
      | JS.Throw e => JS.Throw e
      | JS.Normal mappings =>
          JS.Normal
            (mkMap (raw_file r) (raw_names r) (raw_sourceRoot r) (raw_sources r)
               (raw_sourcesContent r) mappings)
      end
  | Decoded d => JS.Normal d
  end.

(** The callback of [sources.map(...)] in [buildSourceMapGraph], run over
    the entries of [sources] from index [i] on; [build] is the recursive
    call. The result carries the arguments of the calls of [loader], in the
    order they were made; when a map the loader returned does not decode,
    the error ends the loop after the calls made so far. [None] is a
    recursion that did not end within its bound. *)
Fixpoint buildChildren
  (build : SourceMapInput -> option (JS.completion Graph * list string))
  (map : DecodedSourceMap) (l : list string) (i : nat)
  : option (JS.completion (list Graph) * list string) :=
  match l with
  | [] => Some (JS.Normal [], [])
  | sourceFile :: l' =>
      let file := resolve sourceFile (sourceRoot map) in
      let child :=
        match loader file with
        | None =>
            let sourceContent :=
              match sourcesContent map with
              | Some sc => mjoin (sc !! i)
              | None => None
              end in
            Some (JS.Normal (Original (mkOriginal sourceFile sourceContent)), [])
        | Some sourceMap =>
            match decodeSourceMap sourceMap with
            | JS.Throw e => Some (JS.Throw e, [])
            | JS.Normal decoded => build (Decoded decoded)
            end
        end in
      match child with
      | None => None
      | Some (JS.Throw e, calls1) => Some (JS.Throw e, file :: calls1)
      | Some (JS.Normal g, calls1) =>
          match buildChildren build map l' (S i) with
          | None => None
          | Some (JS.Throw e, calls2) => Some (JS.Throw e, file :: calls1 ++ calls2)
          | Some (JS.Normal gs, calls2) =>
              Some (JS.Normal (g :: gs), file :: calls1 ++ calls2)
          end
      end
  end.

(** [buildSourceMapGraph]: the graph, or the error of a map that did not
    decode, and the calls of the loader. The recursion follows the maps the
    loader returns and need not end: [fuel] bounds its depth, and [None] is
    returned when it is exceeded. *)
Fixpoint buildSourceMapGraph (fuel : nat) (map : SourceMapInput)
  : option (JS.completion Graph * list string) :=
  match fuel with
  | O => None
  | S fuel =>
      match decodeSourceMap map with
      | JS.Throw e => Some (JS.Throw e, [])
      | JS.Normal map =>
          match buildChildren (buildSourceMapGraph fuel) map (sources map) O with
          | None => None
          | Some (JS.Throw e, calls) => Some (JS.Throw e, calls)
          | Some (JS.Normal gs, calls) => Some (JS.Normal (SourceMapTree map gs), calls)
          end
      end
  end.

(** [child] is a map the loader returns for a source of [parent]. *)
Definition loads (child parent : DecodedSourceMap) : Prop :=
  exists sourceFile input,
    sourceFile ∈ sources parent /\
    loader (resolve sourceFile (sourceRoot parent)) = Some input /\
    decodeSourceMap input = JS.Normal child.

(** The error [e] is that of a map the loader returned for one of [calls]
    and that did not decode. *)
Definition decode_error (e : JS.error) (calls : list string) : Prop :=
  exists file input,
    file ∈ calls /\ loader file = Some input /\ decodeSourceMap input = JS.Throw e.

End Build.

(** The loader calls read off a graph: for every map of the graph one call
    per entry of its sources, in order, the calls for a child map right
    after the call that returned it. *)
Fixpoint graph_loads (resolve : string -> option string -> string) (g : Graph)
  : list string :=
  match g with
  | Original _ => []
  | SourceMapTree map children =>
      (fix entries (cs : list Graph) (l : list string) {struct cs} : list string :=
         match cs, l with
         | child :: cs', sourceFile :: l' =>
             resolve sourceFile (sourceRoot map)
               :: graph_loads resolve child ++ entries cs' l'
         | _, _ => []
         end) children (sources map)
  end.

(** The number of source entries of the maps of a graph. *)
Fixpoint graph_entries (g : Graph) : nat :=
  match g with
  | Original _ => 0%nat
  | SourceMapTree map children =>
      (length (sources map)
       + (fix sum (cs : list Graph) : nat :=
            match cs with
            | [] => 0
            | child :: cs' => graph_entries child + sum cs'
            end) children)%nat
  end.

(** *** A chain of two maps *)

(** A root map whose source is a child map over ["original.js"]. The first
    root segment points before the child's only segment, the second has no
    source, the third carries the name ["rootName"] and lands on the
    child's segment, which carries ["childName"]. *)
Definition original_js : OriginalSource :=
  mkOriginal "original.js" (Some "let x;"%string).

Definition child_map : DecodedSourceMap :=
  mkMap (Some "child.js"%string) ["childName"%string] None ["original.js"%string]
    (Some [Some "let x;"%string]) [[Seg5 3 0 0 1 0]].

Definition root_map : DecodedSourceMap :=
  mkMap (Some "root.js"%string) ["rootName"%string] None ["child.js"%string] None
    [[Seg4 0 0 0 0; Seg1 5; Seg5 9 0 0 9 0]; []].

Definition root_sources : list Graph :=
  [SourceMapTree child_map [Original original_js]].

Definition composed_map : DecodedSourceMap :=
  mkMap (Some "root.js"%string) ["childName"%string] None ["original.js"%string]
    (Some [Some "let x;"%string]) [[Seg5 9 0 0 1 0]; []].

(** A loader for that chain, and one that knows no map. *)
Definition chain_loader (file : string) : option SourceMapInput :=
  if String.eqb file "child.js" then Some (Decoded child_map) else None.

Definition no_loader (file : string) : option SourceMapInput := None.

(** A loader that returns a child whose mappings are the string ["!"], a
    character outside the base64 alphabet. *)
Definition raw_loader (file : string) : option SourceMapInput :=
  if String.eqb file "child.js"
  then Some (Raw (mkRaw (Some "child.js"%string) ["childName"%string] None
                    ["original.js"%string] (Some [Some "let x;"%string])
                    (JS.codes "!")))
  else None.

(** The maps of the examples are decoded maps, which [decodeSourceMap]
    keeps without calling the decoder, or have the mappings ["!"]; the
    examples run with a decoder that rejects its argument. *)
Definition INVALID_CHARACTER : string := "Invalid character (!)".

Definition reject_mappings (mappings : list Z) : JS.completion SourceMapMappings :=
  JS.Throw (JS.Error INVALID_CHARACTER).

(** A resolver that leaves names as they are. *)
Definition resolve_id (input : string) (base : option string) : string := input.

(** A map that lists one source twice. *)
Definition twice_map : DecodedSourceMap :=
  mkMap None [] None ["a.js"%string; "a.js"%string] None [[]].

End Remapping.

(** ** sourcemap-codec: the byte buffer of [encode] *)

Module Buffer.

Import Codec.

(** [buf[pos] = v] on a [Uint8Array]: the value is stored modulo 256, and a
    write at or past [buf.length] is dropped. *)
Definition store (buf : list Z) (pos : nat) (v : Z) : list Z :=
  <[pos := v mod 256]> buf.

(** [reserve(buf, pos, count)]: the buffer itself when more than
    [pos + count] bytes fit, else a zero-filled buffer of twice the length
    that starts with the bytes of [buf]. *)
Definition reserve (buf : list Z) (pos count : nat) : list Z :=
  if (pos + count <? length buf)%nat then buf
  else buf ++ replicate (length buf) 0.

(** The [do ... while (num > 0)] loop of [encodeInteger], writing into the
    buffer at [pos]. *)
Fixpoint encodeInteger_loop (fuel : nat) (buf : list Z) (pos : nat) (num : Z)
  : list Z * nat :=
  match fuel with
  | O => (buf, pos)
  | S fuel =>
      let clamped := JS.and num 31 in
      let num := JS.shru num 5 in
      let clamped := if 0 <? num then JS.or clamped 32 else clamped in
      let buf := store buf pos (default 0 (intToChar clamped)) in
      let pos := S pos in
      if 0 <? num then encodeInteger_loop fuel buf pos num else (buf, pos)
  end.

Definition encodeInteger (buf : list Z) (pos : nat) (state : Int32x5)
  (segment : SourceMapSegment) (j : nat) : list Z * nat * Int32x5 :=
  let next := default 0 (field segment j) in
  let num := next - sget j state in
  let state := sset j next state in
  let num := if num <? 0 then JS.or (JS.shl (- num) 1) 1 else JS.shl num 1 in
  (encodeInteger_loop 7 buf pos num, state).

(** The inner [for] loop of [encode], from segment [j] of the line on. *)
Fixpoint encode_segments (j : nat) (line : SourceMapLine) (buf : list Z)
  (pos : nat) (state : Int32x5) : list Z * nat * Int32x5 :=
  match line with
  | [] => (buf, pos, state)
  | segment :: line' =>
      let buf := reserve buf pos 36 in
      let '(buf, pos) :=
        if (0 <? j)%nat then (store buf pos comma, S pos) else (buf, pos) in
      let '(buf, pos, state) := encodeInteger buf pos state segment 0 in
      if seg_length segment =? 1 then encode_segments (S j) line' buf pos state
      else
        let '(buf, pos, state) := encodeInteger buf pos state segment 1 in
        let '(buf, pos, state) := encodeInteger buf pos state segment 2 in
        let '(buf, pos, state) := encodeInteger buf pos state segment 3 in
        if seg_length segment =? 4 then encode_segments (S j) line' buf pos state
        else
          let '(buf, pos, state) := encodeInteger buf pos state segment 4 in
          encode_segments (S j) line' buf pos state
  end.

(** The outer [for] loop of [encode], from line [i] on. *)
Fixpoint encode_lines (i : nat) (decoded : SourceMapMappings) (buf : list Z)
  (pos : nat) (state : Int32x5) : list Z * nat :=
  match decoded with
  | [] => (buf, pos)
  | line :: decoded' =>
      let '(buf, pos) :=
        if (0 <? i)%nat then
          let buf := reserve buf pos 1 in (store buf pos semicolon, S pos)
        else (buf, pos) in
      if (length line =? 0)%nat then encode_lines (S i) decoded' buf pos state
      else
        let state := sset 0 0 state in
        let '(buf, pos, state) := encode_segments 0 line buf pos state in
        encode_lines (S i) decoded' buf pos state
  end.

(** [encode]: a buffer of 1000 bytes to begin with; the result is the text
    of [buf.subarray(0, pos)], one character per byte. *)
Definition encode (decoded : SourceMapMappings) : list Z :=
  let '(buf, pos) := encode_lines 0 decoded (replicate 1000 0) 0 state_new in
  take pos buf.

End Buffer.

(** ** sourcemap-codec: texts and shapes *)

Module CodecShape.

Import Codec.

(** The character of a digit: a character of the grammar that is no
    separator. *)
Definition digit_ok (c : Z) : Prop :=
  valid_char c = true /\ c <> comma /\ c <> semicolon.

(** Two segments with the same number of fields. *)
Definition same_arity (a b : SourceMapSegment) : Prop := seg_length a = seg_length b.

End CodecShape.

(** ** trace-mapping: where the binary search would splice *)

Module Splice.

Import Codec BinarySearch.

(** The columns of the row after [array.splice(index + 1, 0, needle)]. *)
Definition spliced {A : Type} `{HasColumn A} (haystack : list A) (needle index : Z)
  : list Z :=
  take (Z.to_nat (index + 1)) (map column haystack) ++
  needle :: drop (Z.to_nat (index + 1)) (map column haystack).

End Splice.

(** ** trace-mapping: the tracer with one memo slot

    The version of the tracer that keeps its rows decoded and searches them
    with [memoizedBinarySearch] alone. *)

Module MemoTracer.

Import Codec BinarySearch.

Record TraceMap : Type := mkTraceMap {
  names : list string;
  resolvedSources : list string;
  _encoded : option (list Z);
  _decoded : SourceMapMappings;
  _binarySearchMemo : MemoState
}.

Record Needle : Type := mkNeedle { line : Z; column_ : Z }.

(** [{ source, line, column, name }]; [None] is [null], or [undefined] for
    an index read past its array. *)
Record Mapping : Type :=
  mkMapping { source : option string; m_line : option Z;
              m_column : option Z; name : option string }.

Definition INVALID_MAPPING : Mapping := mkMapping None None None None.

Definition set_memo (map : TraceMap) (memo : MemoState) : TraceMap :=
  mkTraceMap (names map) (resolvedSources map) (_encoded map) (_decoded map) memo.

(** [map._encoded ??= encode(map._decoded)] *)
Definition encodedMappings (map : TraceMap) : list Z * TraceMap :=
  match _encoded map with
  | Some encoded => (encoded, map)
  | None =>
      let encoded := encode (_decoded map) in
      (encoded,
       mkTraceMap (names map) (resolvedSources map) (Some encoded) (_decoded map)
         (_binarySearchMemo map))
  end.

Definition decodedMappings (map : TraceMap) : SourceMapMappings := _decoded map.

(** [traceSegment]: [None] is [null]. With a negative [line], [decoded[line]]
    is [undefined] and [memoizedBinarySearch] reads its [length]: a
    [TypeError]. *)
Definition traceSegment (map : TraceMap) (line column : Z)
  : JS.completion (option SourceMapSegment) * TraceMap :=
  let decoded := _decoded map in
  if line >=? Z.of_nat (length decoded) then (JS.Normal None, map)
  else
    match JS.at_index decoded line with
    | None => (JS.Throw JS.TypeError, map)
    | Some segments =>
        let '(r, memo) :=
          memoizedBinarySearch segments column (_binarySearchMemo map) line in
        let map := set_memo map memo in
        match r with
        | JS.Throw e => (JS.Throw e, map)
        | JS.Normal index =>
            if index <? 0 then (JS.Normal None, map)
            else (JS.Normal (JS.at_index segments index), map)
        end
    end.

Definition LINE_GTR_ZERO : string :=
  "`line` must be greater than 0 (lines start at line 1)".
Definition COL_GTR_EQ_ZERO : string :=
  "`column` must be greater than or equal to 0 (columns start at column 0)".

(** The record [originalPositionFor] makes of a segment. *)
Definition mapping_of (map : TraceMap) (segment : option SourceMapSegment) : Mapping :=
  match segment with
  | None => INVALID_MAPPING
  | Some (Seg1 _) => INVALID_MAPPING
  | Some (Seg4 _ src l c) =>
      mkMapping (JS.at_index (resolvedSources map) src) (Some (l + 1)) (Some c) None
  | Some (Seg5 _ src l c n) =>
      mkMapping (JS.at_index (resolvedSources map) src) (Some (l + 1)) (Some c)
        (JS.at_index (names map) n)
  end.

Definition originalPositionFor (map : TraceMap) (needle : Needle)
  : JS.completion Mapping * TraceMap :=
  if line needle <? 1 then (JS.Throw (JS.Error LINE_GTR_ZERO), map)
  else if column_ needle <? 0 then (JS.Throw (JS.Error COL_GTR_EQ_ZERO), map)
  else
    let '(r, map) := traceSegment map (line needle - 1) (column_ needle) in
    match r with
    | JS.Throw e => (JS.Throw e, map)
    | JS.Normal segment => (JS.Normal (mapping_of map segment), map)
    end.

(** *** Maps the tracer can search *)

(** The rows are sorted by generated column and hold at most [2^31]
    segments, and the memo slot is what a search left in the row it is
    about. *)
Definition searchable (map : TraceMap) : Prop :=
  Forall (fun row => row_sorted row = true /\ Z.of_nat (length row) <= 2 ^ 31)
    (_decoded map) /\
  forall row,
    JS.at_index (_decoded map) (lastKey (_binarySearchMemo map)) = Some row ->
    hit row (lastNeedle (_binarySearchMemo map)) (lastIndex (_binarySearchMemo map)).

(** [seg] is a segment of the row at the greatest generated column that is
    not above [column]. *)
Definition nearest_below (row : SourceMapLine) (column : Z)
  (seg : SourceMapSegment) : Prop :=
  seg ∈ row /\ genCol seg <= column /\
  forall s, s ∈ row -> genCol s <= column -> genCol s <= genCol seg.

(** What [traceSegment] returns for a line of the map: a segment nearest
    below the column, or [null] when every segment of the row is above it;
    [null] for a line past the last row. *)
Definition traced (map : TraceMap) (line column : Z)
  (r : option SourceMapSegment) : Prop :=
  match JS.at_index (_decoded map) line, r with
  | None, r => r = None
  | Some row, Some seg => nearest_below row column seg
  | Some row, None => forall s, s ∈ row -> column < genCol s
  end.

(** The map of the test suite. *)
Definition test_map : TraceMap :=
  mkTraceMap ["foo"; "bar"; "Error"]%string
    ["https://astexplorer.net/input.js"%string] None
    [[Seg4 0 0 0 0; Seg5 9 0 0 9 0; Seg4 12 0 0 0; Seg5 13 0 0 13 1;
      Seg4 16 0 0 0; Seg4 18 0 0 33];
     [Seg4 4 0 1 4; Seg4 8 0 1 10; Seg5 12 0 1 14 2; Seg4 17 0 1 10;
      Seg4 18 0 1 20; Seg4 32 0 1 10; Seg4 33 0 1 4];
     [Seg4 0 0 2 1];
     [];
     [Seg5 0 0 3 0 0; Seg4 3 0 3 3]]
    memoizedState.

End MemoTracer.

(** ** trace-mapping: the other queries of the tracer *)

Module TraceQueries.

Import Codec BinarySearch TraceMapping.

(** [map._encoded ??= encode(map._decoded!)]; [encode(undefined)] reads
    [undefined.length]. *)
Definition encodedMappings (map : TraceMap) : JS.completion (list Z) * TraceMap :=
  match _encoded map with
  | Some encoded => (JS.Normal encoded, map)
  | None =>
      match _decoded map with
      | Some decoded =>
          let encoded := encode decoded in
          (JS.Normal encoded,
           mkTraceMap (names map) (sources map) (resolvedSources map)
             (Some encoded) (_decoded map) (_decodedMemo map)
             (_bySources map) (_bySourceMemos map))
      | None => (JS.Throw JS.TypeError, map)
      end
  end.

Section Tracer.

Variable upperBound : forall (A : Type), HasColumn A -> list A -> Z -> Z -> Z.

(** [traceSegment]: [line] and [column] are 0-based; [None] is [null]. With
    a negative [line], [decoded[line]] is [undefined] and the search reads
    its [length]. *)
Definition traceSegment (map : TraceMap) (line column : Z)
  : JS.completion (option SourceMapSegment) * TraceMap :=
  let '(r, map) := decodedMappings map in
  match r with
  | JS.Throw e => (JS.Throw e, map)
  | JS.Normal decoded =>
      if line >=? Z.of_nat (length decoded) then (JS.Normal None, map)
      else
        match JS.at_index decoded line with
        | None => (JS.Throw JS.TypeError, map)
        | Some segments =>
            let '(r, memo) :=
              traceSegmentInternal upperBound segments (_decodedMemo map) line column
                GREATEST_LOWER_BOUND in
            let map := set_decodedMemo map memo in
            match r with
            | JS.Throw e => (JS.Throw e, map)
            | JS.Normal index =>
                if index =? -1 then (JS.Normal None, map)
                else (JS.Normal (JS.at_index segments index), map)
            end
        end
  end.

End Tracer.

(** The record [originalPositionFor] makes of the segment it found. *)
Definition mapping_of (map : TraceMap) (segment : option SourceMapSegment)
  : OriginalMapping :=
  match segment with
  | None | Some (Seg1 _) => OMapping None None None None
  | Some (Seg4 _ src l c) =>
      OMapping (JS.at_index (resolvedSources map) src) (Some (l + 1)) (Some c) None
  | Some (Seg5 _ src l c n) =>
      OMapping (JS.at_index (resolvedSources map) src) (Some (l + 1)) (Some c)
        (JS.at_index (names map) n)
  end.

(** The argument of the callback of [eachMapping]. *)
Record EachMapping : Type := mkEach {
  generatedLine : Z;
  generatedColumn : Z;
  em_source : option string;
  originalLine : option Z;
  originalColumn : option Z;
  em_name : option string
}.

(** The body of the inner loop of [eachMapping] for segment [seg] of row
    [i]. *)
Definition each_segment (map : TraceMap) (i : Z) (seg : SourceMapSegment)
  : EachMapping :=
  match seg with
  | Seg1 c => mkEach (i + 1) c None None None None
  | Seg4 c src l k =>
      mkEach (i + 1) c (JS.at_index (resolvedSources map) src) (Some (l + 1))
        (Some k) None
  | Seg5 c src l k n =>
      mkEach (i + 1) c (JS.at_index (resolvedSources map) src) (Some (l + 1))
        (Some k) (JS.at_index (names map) n)
  end.

(** The outer loop of [eachMapping], from row [i] on. *)
Fixpoint eachMapping_lines (map : TraceMap) (i : Z) (decoded : SourceMapMappings)
  : list EachMapping :=
  match decoded with
  | [] => []
  | line :: decoded' =>
      List.map (each_segment map i) line ++ eachMapping_lines map (i + 1) decoded'
  end.

(** [eachMapping]: the arguments the callback is called with, in the order
    of the calls. *)
Definition eachMapping (map : TraceMap)
  : JS.completion (list EachMapping) * TraceMap :=
  let '(r, map) := decodedMappings map in
  match r with
  | JS.Throw e => (JS.Throw e, map)
  | JS.Normal decoded => (JS.Normal (eachMapping_lines map 0 decoded), map)
  end.

(** Generated position order. *)
Definition position_le (a b : EachMapping) : Prop :=
  generatedLine a < generatedLine b \/
  (generatedLine a = generatedLine b /\ generatedColumn a <= generatedColumn b).

(** The record [originalPositionFor] would return for an argument of the
    callback: its four original fields. *)
Definition as_original (m : EachMapping) : OriginalMapping :=
  OMapping (em_source m) (originalLine m) (originalColumn m) (em_name m).

(** A map the tracer can search: it holds its mappings in one form at
    least, its rows are sorted by generated column and have at most [2^31]
    segments, and the memo of the decoded rows is what a search left in the
    row it is about. *)
Definition searchable (map : TraceMap) : Prop :=
  exists decoded,
    decoded_of map = Some decoded /\
    Forall (fun row => row_sorted row = true /\ Z.of_nat (length row) <= 2 ^ 31)
      decoded /\
    forall row,
      JS.at_index decoded (lastKey (_decodedMemo map)) = Some row ->
      hit row (lastNeedle (_decodedMemo map)) (lastIndex (_decodedMemo map)).

(** [sourceContentFor]. The tracer's record above leaves out
    [sourcesContent], which no other query reads; it is passed beside the
    map. [None] is [null] or [undefined]. *)
Definition sourceContentFor (map : TraceMap)
  (sourcesContent : option (list (option string))) (source : string)
  : option string :=
  match sourcesContent with
  | None => None
  | Some content =>
      let index := indexOf (sources map) (Some source) in
      let index :=
        if index =? -1 then indexOf (resolvedSources map) source else index in
      if index =? -1 then None else mjoin (JS.at_index content index)
  end.

(** *** What the position queries do not find *)

(** Some segment of the decoded mappings points at column [k] of line [l]
    of the source with index [src]. *)
Definition points_at (decoded : SourceMapMappings) (src l k : Z) : Prop :=
  exists row seg,
    row ∈ decoded /\ seg ∈ row /\
    match seg with
    | Seg1 _ => False
    | Seg4 _ src' l' k' | Seg5 _ src' l' k' _ => src' = src /\ l' = l /\ k' = k
    end.

(** The index [generatedPosition] looks a source up under:
    [sources.indexOf(source)], and when that is -1,
    [resolvedSources.indexOf(source)]. *)
Definition source_index (map : TraceMap) (source : string) : Z :=
  let sourceIndex := indexOf (sources map) (Some source) in
  if sourceIndex =? -1 then indexOf (resolvedSources map) source else sourceIndex.

(** The by-source index of a map, once built, is the index of its decoded
    mappings, and each of its memos is what a search left in the row it is
    about. *)
Definition indexed (map : TraceMap) : Prop :=
  match _bySources map, _bySourceMemos map with
  | Some generated, Some memos =>
      (exists decoded,
          decoded_of map = Some decoded /\
          generated = buildBySources decoded memos) /\
      forall (i : nat) (rows : Source) memo l segments,
        generated !! i = Some rows -> memos !! i = Some memo ->
        rows !! l = Some segments -> 0 <= l ->
        memo_ok segments l memo
  | _, _ => True
  end.

Section NotFound.

Variable upperBound : forall (A : Type), HasColumn A -> list A -> Z -> Z -> Z.

(** [originalPositionFor] on a needle with [line >= 1] and [column >= 0]:
    the record is that of the segment at the index the lookup returns in
    the row of the line. It is the all-null record when the line is past
    the last row, when the segment found has one field, when the bias is
    [GREATEST_LOWER_BOUND] (the default) and the column is before every
    segment of the row, and when the bias is [LEAST_UPPER_BOUND] and the
    column is after every segment of the row. With the default bias the
    index is the lowest index at the needle's column, else the greatest
    index whose column is below the needle. The map stays searchable. *)
Definition original_not_found (map : TraceMap) : Prop :=
  forall needle decoded,
    1 <= line needle -> 0 <= column_ needle ->
    decoded_of map = Some decoded ->
    let result := originalPositionFor upperBound map needle in
    let null := JS.Normal (OMapping None None None None) in
    searchable (snd result) /\
    (Z.of_nat (length decoded) < line needle -> fst result = null) /\
    forall row,
      JS.at_index decoded (line needle - 1) = Some row ->
      (exists r memo',
          traceSegmentInternal upperBound row (_decodedMemo map) (line needle - 1)
            (column_ needle) (bias_or (bias needle) GREATEST_LOWER_BOUND)
          = (JS.Normal r, memo') /\
          fst result = JS.Normal (mapping_of map (JS.at_index row r)) /\
          (forall c, JS.at_index row r = Some (Seg1 c) -> fst result = null) /\
          (bias_or (bias needle) GREATEST_LOWER_BOUND = GREATEST_LOWER_BOUND ->
           glb_result row (column_ needle) r)) /\
      (bias_or (bias needle) GREATEST_LOWER_BOUND = GREATEST_LOWER_BOUND ->
       (forall seg, seg ∈ row -> column_ needle < genCol seg) ->
       fst result = null) /\
      (bias_or (bias needle) GREATEST_LOWER_BOUND = LEAST_UPPER_BOUND ->
       (forall seg, seg ∈ row -> genCol seg < column_ needle) ->
       fst result = null).

(** [generatedPositionFor] on a needle with [line >= 1] and [column >= 0]:
    it returns the all-null record for a source that is neither in
    [sources] nor in [resolvedSources], when no segment of the map points
    at the line of the source, when the bias is [GREATEST_LOWER_BOUND] (the
    default) and the column is before every column of that line that a
    segment points at, and when the bias is [LEAST_UPPER_BOUND] and the
    column is after every such column. The by-source index stays the index
    of the map. *)
Definition generated_not_found (map : TraceMap) : Prop :=
  forall needle decoded,
    1 <= sn_line needle -> 0 <= sn_column needle ->
    decoded_of map = Some decoded ->
    let result := generatedPositionFor upperBound map needle in
    let null := JS.Normal (One (GMapping None None)) in
    let sourceIndex := source_index map (sn_source needle) in
    indexed (snd result) /\
    (sourceIndex = -1 -> fst result = null) /\
    ((forall k, ~ points_at decoded sourceIndex (sn_line needle - 1) k) ->
     fst result = null) /\
    (bias_or (sn_bias needle) GREATEST_LOWER_BOUND = GREATEST_LOWER_BOUND ->
     (forall k, points_at decoded sourceIndex (sn_line needle - 1) k ->
                sn_column needle < k) ->
     fst result = null) /\
    (bias_or (sn_bias needle) GREATEST_LOWER_BOUND = LEAST_UPPER_BOUND ->
     (forall k, points_at decoded sourceIndex (sn_line needle - 1) k ->
                k < sn_column needle) ->
     fst result = null).

(** The two queries keep a map searchable, and keep its by-source index
    the index of its mappings, whatever the needle. *)
Definition queries_keep (map : TraceMap) : Prop :=
  forall needle sneedle,
    (searchable map ->
     searchable (snd (originalPositionFor upperBound map needle)) /\
     searchable (snd (generatedPositionFor upperBound map sneedle))) /\
    (indexed map ->
     indexed (snd (originalPositionFor upperBound map needle)) /\
     indexed (snd (generatedPositionFor upperBound map sneedle))).

End NotFound.

(** A map with a segment of one field, an empty row and a row that starts
    at column 4. *)
Definition sparse_map : TraceMap :=
  mkTraceMap ["x"%string] [Some "a.js"%string] ["/src/a.js"%string] None
    (Some [[Seg1 2; Seg5 5 0 0 0 0]; []; [Seg4 4 0 3 7]])
    memoizedState None None.

End TraceQueries.

(** ** remapping: tables and graphs as the code leaves them *)

Module RemappingState.

Import Codec Remapping.

(** A [FastStringArray] after the keys [keys] were put into a new one, in
    order. *)
Definition puts (keys : list string) : FastStringArray :=
  fold_left (fun strarr key => snd (put strarr key)) keys FastStringArray_new.

(** [indexes] is the inverse of [array]. *)
Definition fast_inv (strarr : FastStringArray) : Prop :=
  forall key index,
    indexes strarr !! key = Some index <-> JS.at_index (array strarr) index = Some key.

(** A segment of a composed map whose indices are within tables of [ns]
    sources and [nn] names. *)
Definition seg_in_tables (ns nn : nat) (seg : SourceMapSegment) : Prop :=
  match seg with
  | Seg1 _ => False
  | Seg4 _ si _ _ => 0 <= si < Z.of_nat ns
  | Seg5 _ si _ _ ni => 0 <= si < Z.of_nat ns /\ 0 <= ni < Z.of_nat nn
  end.

(** The trace of a root segment throws. *)
Definition trace_throws (mapNames : list string) (sources : list Graph)
  (segment : SourceMapSegment) : bool :=
  match segment with
  | Seg1 _ => false
  | Seg4 _ src l k | Seg5 _ src l k _ =>
      match traceSource sources src l k (root_name mapNames segment) with
      | JS.Throw _ => true
      | JS.Normal _ => false
      end
  end.

(** The trace of a root segment that ends at an original source. *)
Definition trace_of (mapNames : list string) (sources : list Graph)
  (segment : SourceMapSegment) : option SourceMapSegmentObject :=
  match segment with
  | Seg1 _ => None
  | Seg4 _ src l k | Seg5 _ src l k _ =>
      match traceSource sources src l k (root_name mapNames segment) with
      | JS.Normal (Some traced) => Some traced
      | _ => None
      end
  end.

(** The output segment [out] carries the trace [traced] of a root segment
    at generated column [c], in tables with the sources [srcs] and the
    names [nms]: it keeps the column, its source index is the place of the
    traced file name, its line and column are the traced ones, and it has
    a names index, the place of the traced name, exactly when that name is
    a non-empty string. *)
Definition carries (srcs nms : list string) (c : Z)
  (traced : SourceMapSegmentObject) (out : SourceMapSegment) : Prop :=
  match out with
  | Seg1 _ => False
  | Seg4 c' si l k =>
      c' = c /\ JS.at_index srcs si = Some (filename (so_source traced)) /\
      l = so_line traced /\ k = so_column traced /\
      truthy (so_name traced) = false
  | Seg5 c' si l k ni =>
      c' = c /\ JS.at_index srcs si = Some (filename (so_source traced)) /\
      l = so_line traced /\ k = so_column traced /\
      truthy (so_name traced) = true /\ JS.at_index nms ni = so_name traced
  end.

(** [out] is the output segment of the root segment [segment]. *)
Definition emitted (mapNames : list string) (sources : list Graph)
  (srcs nms : list string) (out segment : SourceMapSegment) : Prop :=
  exists traced,
    trace_of mapNames sources segment = Some traced /\
    carries srcs nms (genCol segment) traced out.

(** The children of a map none of whose sources has a map of its own: one
    original source per entry of [sources], with the content
    [sourcesContent] has for it. *)
Fixpoint originals (sourcesContent : option (list (option string)))
  (l : list string) (i : nat) : list Graph :=
  match l with
  | [] => []
  | sourceFile :: l' =>
      Original (mkOriginal sourceFile
                  (match sourcesContent with
                   | Some sc => mjoin (sc !! i)
                   | None => None
                   end))
      :: originals sourcesContent l' (S i)
  end.

(** A segment of a node points at a source the node has and, when that
    source is a map, at a line that map has. *)
Definition points_inside (children : list Graph) (seg : SourceMapSegment) : Prop :=
  match seg with
  | Seg1 _ => True
  | Seg4 _ src l _ | Seg5 _ src l _ _ =>
      exists child,
        JS.at_index children src = Some child /\
        match child with
        | Original _ => True
        | SourceMapTree childMap _ => 0 <= l < Z.of_nat (length (mappings childMap))
        end
  end.

(** A graph all of whose maps point inside their sources. *)
#[local] Set Warnings "-register-all".
Inductive closed : Graph -> Prop :=
| closed_original (source : OriginalSource) : closed (Original source)
| closed_tree (map : DecodedSourceMap) (children : list Graph) :
    Forall closed children ->
    Forall (fun row => Z.of_nat (length row) <= 2 ^ 31 /\
                       Forall (points_inside children) row) (mappings map) ->
    closed (SourceMapTree map children).

End RemappingState.

(** * Properties *)

(** ** 32-bit conversions *)

Module JSFacts.

Import JS.

Lemma toUint32_range x : 0 <= toUint32 x < 2 ^ 32.
Proof. unfold toUint32. apply Z.mod_pos_bound. lia. Qed.

Lemma toInt32_range x : - 2 ^ 31 <= toInt32 x < 2 ^ 31.
Proof.
  unfold toInt32. pose proof (Z.mod_pos_bound (x + 2 ^ 31) (2 ^ 32)). lia.
Qed.

Lemma toUint32_id x : 0 <= x < 2 ^ 32 -> toUint32 x = x.
Proof. intros Hx. unfold toUint32. apply Z.mod_small. lia. Qed.

Lemma toInt32_id x : - 2 ^ 31 <= x < 2 ^ 31 -> toInt32 x = x.
Proof. intros Hx. unfold toInt32. rewrite Z.mod_small; lia. Qed.

Lemma toUint32_toInt32 x : toUint32 (toInt32 x) = toUint32 x.
Proof.
  unfold toUint32, toInt32.
  rewrite Zminus_mod, Zmod_mod, <- Zminus_mod.
  f_equal. lia.
Qed.

Lemma toInt32_toUint32 x : toInt32 (toUint32 x) = toInt32 x.
Proof.
  unfold toUint32, toInt32.
  rewrite Zplus_mod, Zmod_mod, <- Zplus_mod. reflexivity.
Qed.

Lemma toInt32_toInt32 x : toInt32 (toInt32 x) = toInt32 x.
Proof. apply toInt32_id, toInt32_range. Qed.

(** Two numbers with the same uint32 image have the same int32 image. *)
Lemma toInt32_congr x y : toUint32 x = toUint32 y -> toInt32 x = toInt32 y.
Proof. intros E. rewrite <- (toInt32_toUint32 x), E. apply toInt32_toUint32. Qed.

Lemma toUint32_add_l x y : toUint32 (toUint32 x + y) = toUint32 (x + y).
Proof. unfold toUint32. rewrite Zplus_mod_idemp_l. reflexivity. Qed.

Lemma toUint32_land_ones x : toUint32 x = Z.land x (Z.ones 32).
Proof. unfold toUint32. rewrite Z.land_ones by lia. reflexivity. Qed.

Lemma toUint32_lor x y : toUint32 (Z.lor x y) = Z.lor (toUint32 x) (toUint32 y).
Proof. rewrite !toUint32_land_ones. apply Z.land_lor_distr_l. Qed.

Lemma toUint32_land x y : toUint32 (Z.land x y) = Z.land (toUint32 x) (toUint32 y).
Proof.
  rewrite !toUint32_land_ones.
  apply Z.bits_inj'. intros n Hn. rewrite !Z.land_spec.
  destruct (Z.testbit x n), (Z.testbit y n), (Z.testbit (Z.ones 32) n); reflexivity.
Qed.

(** Low bits: [x & (2^k - 1)] of an int32 is that of its uint32 image. *)
Lemma mod_pow2_toUint32 x k : 0 <= k <= 32 -> toUint32 x mod 2 ^ k = x mod 2 ^ k.
Proof.
  intros Hk. unfold toUint32.
  apply Z.mod_mod_divide.
  exists (2 ^ (32 - k)). rewrite <- Z.pow_add_r by lia. f_equal. lia.
Qed.

Lemma land_ones_toInt32 x k :
  0 <= k <= 32 -> Z.land (toInt32 x) (Z.ones k) = toUint32 x mod 2 ^ k.
Proof.
  intros Hk. rewrite Z.land_ones by lia.
  rewrite <- (mod_pow2_toUint32 (toInt32 x)) by lia.
  rewrite toUint32_toInt32. reflexivity.
Qed.

(** Bits that do not overlap add up. *)
Lemma lor_disjoint a b k :
  0 <= k -> 0 <= a < 2 ^ k -> 0 <= b -> Z.lor a (b * 2 ^ k) = a + b * 2 ^ k.
Proof.
  intros Hk Ha Hb.
  assert (D : Z.land a (b * 2 ^ k) = 0).
  { apply Z.bits_inj'. intros n Hn. rewrite Z.land_spec, Z.bits_0.
    destruct (Z_lt_ge_dec n k).
    - rewrite Z.mul_pow2_bits_low by lia. apply andb_false_r.
    - replace a with (a mod 2 ^ k) by (apply Z.mod_small; lia).
      rewrite Z.mod_pow2_bits_high by lia. reflexivity. }
  rewrite <- Z.lxor_lor by exact D.
  symmetry. apply Z.add_nocarry_lxor. exact D.
Qed.

End JSFacts.

(** ** The VLQ codec *)

Module CodecFacts.

Import JS JSFacts Codec.

(** A property checked on every number below [n]. *)
Lemma forall_below (P : Z -> bool) (n : nat) :
  forallb P (map Z.of_nat (seq 0 n)) = true ->
  forall c, 0 <= c < Z.of_nat n -> P c = true.
Proof.
  intros Hall c Hc. rewrite forallb_forall in Hall. apply Hall.
  apply in_map_iff. exists (Z.to_nat c). split; [lia|].
  apply in_seq. lia.
Qed.

Ltac split_checks D :=
  repeat (apply andb_prop in D; destruct D as [D ?]);
  repeat match goal with
    | H : (_ =? _) = true |- _ => apply Z.eqb_eq in H
    | H : negb _ = true |- _ => apply negb_true_iff in H
    | H : (_ =? _) = false |- _ => apply Z.eqb_neq in H
    end.

(** The six-bit digits and their characters. *)
Definition digit_check (c : Z) : bool :=
  match intToChar c with
  | Some ch =>
      match charToInteger ch with
      | Some c' =>
          (c' =? c) && negb (ch =? comma) && negb (ch =? semicolon)
          && (and_undef (Some c) 31 =? c mod 32)
          && (and_undef (Some c) 32 =? (if c <? 32 then 0 else 32))
          && (if c <? 32 then JS.or c 32 =? c + 32 else true)
      | None => false
      end
  | None => false
  end.

Lemma digit_check_ok c : 0 <= c < 64 -> digit_check c = true.
Proof. apply (forall_below digit_check 64). vm_compute. reflexivity. Qed.

Lemma digit_char c :
  0 <= c < 64 ->
  exists ch, intToChar c = Some ch /\ charToInteger ch = Some c /\
             ch <> comma /\ ch <> semicolon.
Proof.
  intros Hc. pose proof (digit_check_ok c Hc) as D. unfold digit_check in D.
  destruct (intToChar c) as [ch|] eqn:E1; [|discriminate].
  destruct (charToInteger ch) as [c'|] eqn:E2; [|discriminate].
  split_checks D. subst c'.
  exists ch. repeat split; assumption.
Qed.

Lemma digit_masks c :
  0 <= c < 64 ->
  and_undef (Some c) 31 = c mod 32 /\
  and_undef (Some c) 32 = (if c <? 32 then 0 else 32).
Proof.
  intros Hc. pose proof (digit_check_ok c Hc) as D. unfold digit_check in D.
  destruct (intToChar c) as [ch|]; [|discriminate].
  destruct (charToInteger ch) as [c'|]; [|discriminate].
  split_checks D. split; assumption.
Qed.

Lemma digit_or32 c : 0 <= c < 32 -> JS.or c 32 = c + 32.
Proof.
  intros Hc. assert (Hc' : 0 <= c < 64) by lia.
  pose proof (digit_check_ok c Hc') as D. unfold digit_check in D.
  destruct (intToChar c) as [ch|]; [|discriminate].
  destruct (charToInteger ch) as [c'|]; [|discriminate].
  destruct (c <? 32) eqn:E; [|lia].
  split_checks D. assumption.
Qed.

End CodecFacts.

Module CodecFacts2.
Import JS JSFacts Codec CodecFacts.

(** *** One integer *)

Lemma shru_5 num : shru num 5 = toUint32 num / 32.
Proof.
  unfold shru. change (toUint32 5 mod 32) with 5.
  rewrite Z.shiftr_div_pow2 by lia. reflexivity.
Qed.

Lemma and_31 num : JS.and num 31 = toUint32 num mod 32.
Proof.
  unfold JS.and. change (toInt32 31) with (Z.ones 5).
  rewrite land_ones_toInt32 by lia. reflexivity.
Qed.

Lemma encodeInteger_loop_S f buf num :
  encodeInteger_loop (S f) buf num =
  let more := 0 <? toUint32 num / 32 in
  let clamped := if more then JS.or (toUint32 num mod 32) 32 else toUint32 num mod 32 in
  let buf := buf ++ [default 0 (intToChar clamped)] in
  if more then encodeInteger_loop f buf (toUint32 num / 32) else buf.
Proof. simpl. rewrite shru_5, and_31. reflexivity. Qed.

Lemma encodeInteger_loop_app f buf num :
  encodeInteger_loop f buf num = buf ++ encodeInteger_loop f [] num.
Proof.
  revert buf num. induction f as [|f IH]; intros buf num.
  - simpl. rewrite app_nil_r. reflexivity.
  - rewrite !encodeInteger_loop_S. cbv zeta.
    destruct (0 <? toUint32 num / 32).
    + rewrite IH. rewrite (IH ([] ++ _)). rewrite <- app_assoc. reflexivity.
    + reflexivity.
Qed.

(** The loop only looks at the uint32 image of [num]. *)
Lemma encodeInteger_loop_toUint32 f buf num :
  encodeInteger_loop f buf num = encodeInteger_loop f buf (toUint32 num).
Proof.
  destruct f as [|f]; [reflexivity|].
  rewrite !encodeInteger_loop_S, !(toUint32_id (toUint32 num)) by apply toUint32_range.
  reflexivity.
Qed.

(** A uint32 below [32 ^ (k + 1)] takes at most [k + 1] iterations: more
    fuel changes nothing. Seven are enough for every uint32. *)
Lemma encodeInteger_loop_fuel (k f : nat) u buf :
  0 <= u < 2 ^ (5 * Z.of_nat (S k)) -> (S k <= f)%nat ->
  encodeInteger_loop f buf u = encodeInteger_loop (S k) buf u.
Proof.
  revert f u buf. induction k as [|k IH]; intros f u buf Hu Hf.
  - destruct f as [|f]; [lia|].
    change (2 ^ (5 * Z.of_nat 1)) with 32 in Hu.
    rewrite !encodeInteger_loop_S. rewrite toUint32_id by lia.
    rewrite Z.div_small by lia. reflexivity.
  - destruct f as [|f]; [lia|].
    rewrite !encodeInteger_loop_S. cbv zeta.
    destruct (0 <? toUint32 u / 32) eqn:E; [|reflexivity].
    apply IH; [|lia].
    assert (Hdiv : 0 <= u / 32 < 2 ^ (5 * Z.of_nat (S k))).
    { replace (5 * Z.of_nat (S (S k))) with (5 * Z.of_nat (S k) + 5) in Hu by lia.
      rewrite Z.pow_add_r in Hu by lia. change (2 ^ 5) with 32 in Hu.
      split; [apply Z.div_pos; lia|]. apply Z.div_lt_upper_bound; lia. }
    unfold toUint32.
    assert (0 <= u mod 2 ^ 32 <= u)
      by (split; [apply Z.mod_pos_bound; lia|apply Z.mod_le; lia]).
    split; [apply Z.div_pos; lia|].
    apply Z.le_lt_trans with (u / 32); [|lia].
    apply Z.div_le_mono; lia.
Qed.

Lemma encodeInteger_loop_7 f num buf :
  (7 <= f)%nat -> encodeInteger_loop f buf num = encodeInteger_loop 7 buf num.
Proof.
  intros Hf. rewrite (encodeInteger_loop_toUint32 f), (encodeInteger_loop_toUint32 7).
  apply (encodeInteger_loop_fuel 6); [|exact Hf].
  pose proof (toUint32_range num).
  assert (2 ^ 32 <= 2 ^ (5 * Z.of_nat 7)) by (apply Z.pow_le_mono_r; lia).
  lia.
Qed.

(** The decoder reads back what the encoder's loop wrote: the bits of [u]
    are put at [shift] above the bits already in [value]. *)
Lemma shl_digit d sh :
  0 <= d < 32 -> 0 <= sh < 32 -> d * 2 ^ sh < 2 ^ 32 ->
  toUint32 (shl d sh) = d * 2 ^ sh.
Proof.
  intros Hd Hsh Hlt. unfold shl.
  rewrite toUint32_toInt32, (toInt32_id d) by lia.
  rewrite (toUint32_id sh) by lia. rewrite (Z.mod_small sh 32) by lia.
  rewrite Z.shiftl_mul_pow2 by lia.
  apply toUint32_id. split; [|lia]. apply Z.mul_nonneg_nonneg; [lia|].
  apply Z.pow_nonneg. lia.
Qed.

Lemma or_shl_digit v d sh :
  0 <= d < 32 -> 0 <= sh < 32 -> d * 2 ^ sh < 2 ^ 32 -> toUint32 v < 2 ^ sh ->
  toUint32 (JS.or v (shl d sh)) = toUint32 v + d * 2 ^ sh.
Proof.
  intros Hd Hsh Hlt Hv. unfold JS.or.
  rewrite toUint32_lor, !toUint32_toInt32, shl_digit by assumption.
  apply lor_disjoint; [lia| |lia].
  pose proof (toUint32_range v). lia.
Qed.

Lemma decodeInteger_loop_encodeInteger_loop f :
  forall u v sh rest,
    (1 <= f)%nat -> 0 <= u < 2 ^ (5 * Z.of_nat f) ->
    0 <= sh -> u < 2 ^ (32 - sh) -> sh mod 5 = 0 -> toUint32 v < 2 ^ sh ->
    exists v',
      decodeInteger_loop (encodeInteger_loop f [] u ++ rest) v sh = (v', rest) /\
      toUint32 v' = toUint32 v + u * 2 ^ sh.
Proof.
  induction f as [|f IH]; intros u v sh rest Hf Hu Hsh Hush Hm Hv; [lia|].
  assert (Hsh32 : sh < 32).
  { destruct (Z_lt_ge_dec sh 32); [assumption|].
    destruct (Z.eq_dec sh 32) as [->|]; [discriminate Hm|].
    rewrite Z.pow_neg_r in Hush; lia. }
  assert (Hp : 0 < 2 ^ sh) by (apply Z.pow_pos_nonneg; lia).
  assert (Hu32 : u < 2 ^ 32).
  { eapply Z.lt_le_trans; [exact Hush|]. apply Z.pow_le_mono_r; lia. }
  assert (Hd : 0 <= u mod 32 < 32) by (apply Z.mod_pos_bound; lia).
  assert (Hdu : u mod 32 <= u) by (apply Z.mod_le; lia).
  assert (Hdlt : u mod 32 * 2 ^ sh < 2 ^ 32).
  { apply Z.le_lt_trans with (u * 2 ^ sh); [nia|].
    assert (E : 2 ^ 32 = 2 ^ (32 - sh) * 2 ^ sh)
      by (rewrite <- Z.pow_add_r by lia; f_equal; lia).
    rewrite E. nia. }
  rewrite encodeInteger_loop_S. cbv zeta. rewrite (toUint32_id u) by lia.
  destruct (0 <? u / 32) eqn:More.
  - (* a continuation digit *)
    apply Z.ltb_lt in More.
    rewrite digit_or32 by assumption.
    destruct (digit_char (u mod 32 + 32)) as (ch & E1 & E2 & _); [lia|].
    rewrite E1. simpl default.
    rewrite encodeInteger_loop_app, <- app_assoc. cbn [app decodeInteger_loop].
    rewrite E2.
    destruct (digit_masks (u mod 32 + 32)) as [M1 M2]; [lia|].
    rewrite M1, M2.
    replace ((u mod 32 + 32) mod 32) with (u mod 32)
      by (rewrite <- Zplus_mod_idemp_r, Z.mod_same, Z.add_0_r, Z.mod_mod by lia; reflexivity).
    destruct (u mod 32 + 32 <? 32) eqn:F; [apply Z.ltb_lt in F; lia|].
    change (32 =? 0) with false. cbv iota.
    assert (Hge : 32 <= u).
    { destruct (Z_lt_ge_dec u 32); [|lia]. rewrite Z.div_small in More; lia. }
    assert (Hsh' : sh + 5 < 32).
    { destruct (Z_lt_ge_dec (sh + 5) 32); [assumption|].
      assert (2 ^ (32 - sh) <= 2 ^ 5) by (apply Z.pow_le_mono_r; lia).
      change (2 ^ 5) with 32 in *. lia. }
    assert (Hdiv : 0 <= u / 32 < 2 ^ (5 * Z.of_nat f)).
    { replace (5 * Z.of_nat (S f)) with (5 * Z.of_nat f + 5) in Hu by lia.
      rewrite Z.pow_add_r in Hu by lia. change (2 ^ 5) with 32 in Hu.
      split; [lia|]. apply Z.div_lt_upper_bound; lia. }
    assert (Hf' : (1 <= f)%nat).
    { destruct f; [|lia]. simpl in Hdiv. lia. }
    destruct (IH (u / 32) (JS.or v (shl (u mod 32) sh)) (sh + 5) rest)
      as (v' & Ev & Hv'); try assumption; try lia.
    + replace (32 - (sh + 5)) with (32 - sh - 5) by lia.
      apply Z.div_lt_upper_bound; [lia|].
      replace (32 - sh) with (5 + (32 - sh - 5)) in Hush by lia.
      rewrite Z.pow_add_r in Hush by lia. change (2 ^ 5) with 32 in Hush. lia.
    + rewrite <- Zplus_mod_idemp_r, Z.mod_same, Z.add_0_r by lia. assumption.
    + rewrite or_shl_digit by (assumption || lia).
      rewrite Z.pow_add_r by lia. change (2 ^ 5) with 32.
      pose proof (toUint32_range v). nia.
    + exists v'. split; [exact Ev|].
      rewrite Hv', or_shl_digit by (assumption || lia).
      rewrite Z.pow_add_r by lia. change (2 ^ 5) with 32.
      rewrite (Z.div_mod u 32) at 3 by lia. ring.
  - (* the last digit *)
    apply Z.ltb_ge in More.
    assert (Hsmall : u < 32).
    { destruct (Z_lt_ge_dec u 32); [assumption|].
      assert (0 < u / 32) by (apply Z.div_str_pos; lia). lia. }
    rewrite (Z.mod_small u 32) in * by lia.
    destruct (digit_char u) as (ch & E1 & E2 & _); [lia|].
    rewrite E1. simpl default. cbn [app decodeInteger_loop].
    rewrite E2.
    destruct (digit_masks u) as [M1 M2]; [lia|].
    rewrite M1, M2, (Z.mod_small u 32) by lia.
    destruct (u <? 32) eqn:F; [|apply Z.ltb_ge in F; lia].
    change (0 =? 0) with true. cbv iota.
    eexists. split; [reflexivity|].
    apply or_shl_digit; assumption || lia.
Qed.

Lemma encodeInteger_loop_length f num :
  (length (encodeInteger_loop f [] num) <= f)%nat.
Proof.
  revert num. induction f as [|f IH]; intros num; [simpl; lia|].
  rewrite encodeInteger_loop_S. cbv zeta.
  destruct (0 <? toUint32 num / 32).
  - rewrite encodeInteger_loop_app, length_app. specialize (IH (toUint32 num / 32)).
    simpl. lia.
  - simpl. lia.
Qed.

Lemma encodeInteger_loop_head f num :
  exists ch tl,
    encodeInteger_loop (S f) [] num = ch :: tl /\ ch <> comma /\ ch <> semicolon.
Proof.
  rewrite encodeInteger_loop_S. cbv zeta.
  assert (Hd : 0 <= toUint32 num mod 32 < 32) by (apply Z.mod_pos_bound; lia).
  destruct (0 <? toUint32 num / 32).
  - rewrite digit_or32 by assumption.
    destruct (digit_char (toUint32 num mod 32 + 32)) as (ch & E1 & _ & N1 & N2); [lia|].
    rewrite E1, encodeInteger_loop_app. simpl. eauto.
  - destruct (digit_char (toUint32 num mod 32)) as (ch & E1 & _ & N1 & N2); [lia|].
    rewrite E1. simpl. eauto.
Qed.

(** The sign is moved to bit 0: the uint32 image of the number the encoder
    writes. *)
Lemma toUint32_double_toInt32 x : toUint32 (2 * toInt32 x) = toUint32 (2 * x).
Proof.
  unfold toUint32, toInt32. rewrite (Z.mod_eq (x + 2 ^ 31)) by lia.
  replace (2 * (x + 2 ^ 31 - 2 ^ 32 * ((x + 2 ^ 31) / 2 ^ 32) - 2 ^ 31))
    with (2 * x + (- 2 * ((x + 2 ^ 31) / 2 ^ 32)) * 2 ^ 32) by ring.
  apply Z.mod_add. lia.
Qed.

Lemma toUint32_shl_1 x : toUint32 (shl x 1) = toUint32 (2 * x).
Proof.
  unfold shl. change (toUint32 1 mod 32) with 1.
  rewrite toUint32_toInt32, Z.shiftl_mul_pow2 by lia.
  change (2 ^ 1) with 2. rewrite Z.mul_comm. apply toUint32_double_toInt32.
Qed.

Definition zigzag (num : Z) : Z :=
  if num <? 0 then JS.or (shl (- num) 1) 1 else shl num 1.

Lemma toUint32_zigzag num :
  - 2 ^ 31 <= num < 2 ^ 31 ->
  toUint32 (zigzag num) =
  if num <? 0 then (if num =? - 2 ^ 31 then 1 else 2 * (- num) + 1) else 2 * num.
Proof.
  intros Hn. unfold zigzag. destruct (num <? 0) eqn:Neg.
  - apply Z.ltb_lt in Neg. unfold JS.or.
    rewrite toUint32_lor, !toUint32_toInt32, toUint32_shl_1.
    change (toUint32 1) with 1.
    destruct (num =? - 2 ^ 31) eqn:Min.
    + apply Z.eqb_eq in Min. subst num. reflexivity.
    + apply Z.eqb_neq in Min. rewrite toUint32_id by lia.
      rewrite Z.lor_comm. replace (2 * - num) with (- num * 2 ^ 1) by (change (2 ^ 1) with 2; ring).
      rewrite lor_disjoint by (change (2 ^ 1) with 2; lia). ring.
  - apply Z.ltb_ge in Neg. rewrite toUint32_shl_1. apply toUint32_id. lia.
Qed.

(** [decodeInteger] reads the integer [encodeInteger] wrote and leaves the
    same running value in its state, for a difference that fits an int32. *)
Lemma decodeInteger_encodeInteger buf st seg j next :
  field seg j = Some next ->
  - 2 ^ 31 <= next - sget j st < 2 ^ 31 ->
  exists ch tl,
    encodeInteger buf st seg j = (buf ++ ch :: tl, sset j next st) /\
    ch <> comma /\ ch <> semicolon /\ (length (ch :: tl) <= 7)%nat /\
    forall rest dst,
      sget j dst = sget j st ->
      decodeInteger (ch :: tl ++ rest) dst j = (rest, sset j next dst).
Proof.
  intros Hf Hn. unfold encodeInteger. rewrite Hf. simpl default.
  set (num := next - sget j st) in *.
  fold (zigzag num).
  destruct (encodeInteger_loop_head 6 (zigzag num)) as (ch & tl & E & N1 & N2).
  exists ch, tl. rewrite encodeInteger_loop_app, E.
  split; [reflexivity|]. split; [exact N1|]. split; [exact N2|].
  split; [rewrite <- E; apply encodeInteger_loop_length|].
  intros rest dst Hdst.
  pose proof (toUint32_range (zigzag num)) as Hr.
  destruct (decodeInteger_loop_encodeInteger_loop 7 (toUint32 (zigzag num)) 0 0 rest)
    as (v' & Ev & Hv'); try lia; try reflexivity.
  rewrite <- encodeInteger_loop_toUint32, E in Ev.
  change (toUint32 0) with 0 in Hv'. rewrite Z.add_0_l, Z.mul_1_r in Hv'.
  unfold decodeInteger. change ((ch :: tl) ++ rest) with (ch :: tl ++ rest) in Ev.
  rewrite Ev. f_equal.
  assert (Eneg : JS.and v' 1 = toUint32 v' mod 2).
  { unfold JS.and. change (toInt32 1) with (Z.ones 1).
    rewrite land_ones_toInt32 by lia. reflexivity. }
  assert (Eshr : shru v' 1 = toUint32 v' / 2).
  { unfold shru. change (toUint32 1 mod 32) with 1.
    rewrite Z.shiftr_div_pow2 by lia. reflexivity. }
  rewrite Eneg, Eshr, Hv', toUint32_zigzag by assumption.
  rewrite Hdst.
  assert (Hval :
    (if (if num <? 0 then if num =? - 2 ^ 31 then 1 else 2 * - num + 1 else 2 * num) mod 2 =? 0
     then (if num <? 0 then if num =? - 2 ^ 31 then 1 else 2 * - num + 1 else 2 * num) / 2
     else if (if num <? 0 then if num =? - 2 ^ 31 then 1 else 2 * - num + 1 else 2 * num) / 2 =? 0
          then -2147483648
          else - ((if num <? 0 then if num =? - 2 ^ 31 then 1 else 2 * - num + 1 else 2 * num) / 2))
    = num).
  { destruct (num <? 0) eqn:Neg.
    - apply Z.ltb_lt in Neg. destruct (num =? - 2 ^ 31) eqn:Min.
      + apply Z.eqb_eq in Min. rewrite Min. reflexivity.
      + apply Z.eqb_neq in Min.
        replace (2 * - num + 1) with (1 + (- num) * 2) by ring.
        rewrite Z.mod_add, Z.div_add by lia. change (1 mod 2) with 1. change (1 / 2) with 0.
        change (1 =? 0) with false. cbv iota.
        destruct (0 + - num =? 0) eqn:Z0; [apply Z.eqb_eq in Z0; lia|]. lia.
    - apply Z.ltb_ge in Neg. rewrite (Z.mul_comm 2 num), Z.mod_mul, Z.div_mul by lia.
      reflexivity. }
  rewrite Hval. unfold num. f_equal. lia.
Qed.

End CodecFacts2.

Module CodecLoop.
Import JS JSFacts Codec CodecFacts CodecFacts2.

(** *** The decoder's loop and its fuel *)

Lemma decodeInteger_loop_length rest value shift :
  (length (snd (decodeInteger_loop rest value shift)) <= length rest)%nat.
Proof.
  revert value shift. induction rest as [|c rest IH]; intros value shift; simpl.
  - lia.
  - destruct (and_undef (charToInteger c) 32 =? 0); simpl.
    + lia.
    + specialize (IH (JS.or value (shl (and_undef (charToInteger c) 31) shift)) (shift + 5)).
      lia.
Qed.

Lemma decodeInteger_length rest state j :
  (length (fst (decodeInteger rest state j)) <= length rest)%nat.
Proof.
  unfold decodeInteger.
  pose proof (decodeInteger_loop_length rest 0 0) as L.
  destruct (decodeInteger_loop rest 0 0) as [value rest']. exact L.
Qed.

Lemma decodeInteger_length_cons c rest state j :
  (length (fst (decodeInteger (c :: rest) state j)) <= length rest)%nat.
Proof.
  unfold decodeInteger. simpl.
  destruct (and_undef (charToInteger c) 32 =? 0); simpl; [lia|].
  pose proof (decodeInteger_loop_length rest
    (JS.or 0 (shl (and_undef (charToInteger c) 31) 0)) (0 + 5)) as L.
  destruct (decodeInteger_loop rest _ _) as [value rest']. exact L.
Qed.

Section Fuel.

Variable sortf : SourceMapLine -> SourceMapLine.

(** With at least [length rest] iterations allowed the loop reaches the end
    of the string: the result does not depend on the fuel. *)
Lemma decode_loop_fuel f1 :
  forall f2 rest state decoded line sorted lastCol,
    (length rest <= f1)%nat -> (length rest <= f2)%nat ->
    decode_loop sortf f1 rest state decoded line sorted lastCol =
    decode_loop sortf f2 rest state decoded line sorted lastCol.
Proof.
  induction f1 as [|f1 IH]; intros f2 rest state decoded line sorted lastCol H1 H2.
  - destruct rest; [|simpl in H1; lia]. destruct f2; reflexivity.
  - destruct rest as [|c rest]; [destruct f2; reflexivity|].
    destruct f2 as [|f2]; [simpl in H2; lia|].
    simpl in H1, H2. cbn [decode_loop].
    destruct (c =? comma); [apply IH; lia|].
    destruct (c =? semicolon); [apply IH; lia|].
    pose proof (decodeInteger_length_cons c rest state 0) as L0.
    destruct (decodeInteger (c :: rest) state 0) as [rest1 st1]. simpl in L0.
    destruct (negb (hasMoreSegments rest1)); [apply IH; lia|].
    pose proof (decodeInteger_length rest1 st1 1) as L1.
    destruct (decodeInteger rest1 st1 1) as [rest2 st2]. simpl in L1.
    pose proof (decodeInteger_length rest2 st2 2) as L2.
    destruct (decodeInteger rest2 st2 2) as [rest3 st3]. simpl in L2.
    pose proof (decodeInteger_length rest3 st3 3) as L3.
    destruct (decodeInteger rest3 st3 3) as [rest4 st4]. simpl in L3.
    destruct (negb (hasMoreSegments rest4)); [apply IH; lia|].
    pose proof (decodeInteger_length rest4 st4 4) as L4.
    destruct (decodeInteger rest4 st4 4) as [rest5 st5]. simpl in L4.
    apply IH; lia.
Qed.

(** The loop from a position on, with the fuel it needs. *)
Definition decode_from (rest : list Z) (state : Int32x5)
  (decoded : SourceMapMappings) (line : SourceMapLine) (sorted : bool)
  (lastCol : Z) : SourceMapMappings :=
  decode_loop sortf (length rest) rest state decoded line sorted lastCol.

Lemma decode_from_nil state decoded line sorted lastCol :
  decode_from [] state decoded line sorted lastCol = push_line sortf decoded sorted line.
Proof. reflexivity. Qed.

Lemma decode_from_comma rest state decoded line sorted lastCol :
  decode_from (comma :: rest) state decoded line sorted lastCol =
  decode_from rest state decoded line sorted lastCol.
Proof. reflexivity. Qed.

Lemma decode_from_semicolon rest state decoded line sorted lastCol :
  decode_from (semicolon :: rest) state decoded line sorted lastCol =
  decode_from rest (sset 0 0 state) (push_line sortf decoded sorted line) [] true 0.
Proof. reflexivity. Qed.

(** A segment of one field. *)
Lemma decode_from_seg1 c rest rest1 st1 state decoded line sorted lastCol :
  c <> comma -> c <> semicolon ->
  decodeInteger (c :: rest) state 0 = (rest1, st1) ->
  hasMoreSegments rest1 = false ->
  decode_from (c :: rest) state decoded line sorted lastCol =
  decode_from rest1 st1 decoded (line ++ [Seg1 (sget 0 st1)])
    (if sget 0 st1 <? lastCol then false else sorted) (sget 0 st1).
Proof.
  intros N1 N2 E0 M. unfold decode_from. cbn [length decode_loop].
  apply Z.eqb_neq in N1, N2. rewrite N1, N2.
  pose proof (decodeInteger_length_cons c rest state 0) as L0.
  rewrite E0 in *. simpl in L0. rewrite M. cbn [negb].
  apply decode_loop_fuel; lia.
Qed.

(** A segment of four fields. *)
Lemma decode_from_seg4 c rest rest1 st1 rest2 st2 rest3 st3 rest4 st4
  state decoded line sorted lastCol :
  c <> comma -> c <> semicolon ->
  decodeInteger (c :: rest) state 0 = (rest1, st1) ->
  hasMoreSegments rest1 = true ->
  decodeInteger rest1 st1 1 = (rest2, st2) ->
  decodeInteger rest2 st2 2 = (rest3, st3) ->
  decodeInteger rest3 st3 3 = (rest4, st4) ->
  hasMoreSegments rest4 = false ->
  decode_from (c :: rest) state decoded line sorted lastCol =
  decode_from rest4 st4 decoded
    (line ++ [Seg4 (sget 0 st1) (sget 1 st4) (sget 2 st4) (sget 3 st4)])
    (if sget 0 st1 <? lastCol then false else sorted) (sget 0 st1).
Proof.
  intros N1 N2 E0 M1 E1 E2 E3 M4. unfold decode_from. cbn [length decode_loop].
  apply Z.eqb_neq in N1, N2. rewrite N1, N2.
  pose proof (decodeInteger_length_cons c rest state 0) as L0.
  pose proof (decodeInteger_length rest1 st1 1) as L1.
  pose proof (decodeInteger_length rest2 st2 2) as L2.
  pose proof (decodeInteger_length rest3 st3 3) as L3.
  rewrite E0 in *. rewrite M1. cbn [negb].
  rewrite E1 in *. rewrite E2 in *. rewrite E3 in *. simpl in L0, L1, L2, L3.
  rewrite M4. cbn [negb].
  apply decode_loop_fuel; lia.
Qed.

(** A segment of five fields. *)
Lemma decode_from_seg5 c rest rest1 st1 rest2 st2 rest3 st3 rest4 st4 rest5 st5
  state decoded line sorted lastCol :
  c <> comma -> c <> semicolon ->
  decodeInteger (c :: rest) state 0 = (rest1, st1) ->
  hasMoreSegments rest1 = true ->
  decodeInteger rest1 st1 1 = (rest2, st2) ->
  decodeInteger rest2 st2 2 = (rest3, st3) ->
  decodeInteger rest3 st3 3 = (rest4, st4) ->
  hasMoreSegments rest4 = true ->
  decodeInteger rest4 st4 4 = (rest5, st5) ->
  decode_from (c :: rest) state decoded line sorted lastCol =
  decode_from rest5 st5 decoded
    (line ++ [Seg5 (sget 0 st1) (sget 1 st5) (sget 2 st5) (sget 3 st5) (sget 4 st5)])
    (if sget 0 st1 <? lastCol then false else sorted) (sget 0 st1).
Proof.
  intros N1 N2 E0 M1 E1 E2 E3 M4 E4. unfold decode_from. cbn [length decode_loop].
  apply Z.eqb_neq in N1, N2. rewrite N1, N2.
  pose proof (decodeInteger_length_cons c rest state 0) as L0.
  pose proof (decodeInteger_length rest1 st1 1) as L1.
  pose proof (decodeInteger_length rest2 st2 2) as L2.
  pose proof (decodeInteger_length rest3 st3 3) as L3.
  pose proof (decodeInteger_length rest4 st4 4) as L4.
  rewrite E0 in *. rewrite M1. cbn [negb].
  rewrite E1 in *. rewrite E2 in *. rewrite E3 in *. simpl in L0, L1, L2, L3.
  rewrite M4. cbn [negb]. rewrite E4 in *. simpl in L4.
  apply decode_loop_fuel; lia.
Qed.

End Fuel.

End CodecLoop.

Module CodecRoundTrip.
Import JS JSFacts Codec CodecFacts CodecFacts2 CodecLoop.

(** *** One segment *)

Definition value_ok (v : Z) : Prop := 0 <= v < 2 ^ 31.

Definition state_ok (st : Int32x5) : Prop :=
  value_ok (s0 st) /\ value_ok (s1 st) /\ value_ok (s2 st) /\ value_ok (s3 st)
  /\ value_ok (s4 st).

Definition seg_ok (s : SourceMapSegment) : Prop := Forall value_ok (seg_fields s).

Lemma nonneg_int32_ok v : nonneg_int32 v = true <-> value_ok v.
Proof. unfold nonneg_int32, value_ok. rewrite andb_true_iff, Z.leb_le, Z.ltb_lt. tauto. Qed.

Lemma state_ok_sget st j : state_ok st -> value_ok (sget j st).
Proof.
  intros (H0 & H1 & H2 & H3 & H4).
  destruct j as [|[|[|[|j]]]]; assumption.
Qed.

Lemma state_ok_sset st j v : state_ok st -> value_ok v -> state_ok (sset j v st).
Proof.
  intros (H0 & H1 & H2 & H3 & H4) Hv. unfold sset.
  rewrite toInt32_id by (unfold value_ok in Hv; lia).
  destruct j as [|[|[|[|j]]]]; repeat split; simpl; try apply Hv;
    try apply H0; try apply H1; try apply H2; try apply H3; try apply H4.
Qed.

Lemma delta_ok st j v :
  state_ok st -> value_ok v -> - 2 ^ 31 <= v - sget j st < 2 ^ 31.
Proof.
  intros Hst Hv. pose proof (state_ok_sget st j Hst) as Hs.
  unfold value_ok in *. lia.
Qed.

Lemma hasMoreSegments_digit ch rest :
  ch <> comma -> ch <> semicolon -> hasMoreSegments (ch :: rest) = true.
Proof.
  intros N1 N2. apply Z.eqb_neq in N1, N2. simpl. rewrite N1, N2. reflexivity.
Qed.

Lemma sset_sget_value st j v :
  value_ok v -> (j <= 4)%nat -> sget j (sset j v st) = v.
Proof.
  intros Hv Hj. unfold sset. rewrite toInt32_id by (unfold value_ok in Hv; lia).
  destruct j as [|[|[|[|[|j]]]]]; reflexivity.
Qed.

Ltac use_integer st seg j v ch tl E N1 N2 D :=
  let L := fresh "L" in
  destruct (decodeInteger_encodeInteger [] st seg j v) as (ch & tl & E & N1 & N2 & L & D);
  [reflexivity|apply delta_ok; assumption|].

Lemma encodeInteger_app buf st seg j :
  encodeInteger buf st seg j =
  (buf ++ fst (encodeInteger [] st seg j), snd (encodeInteger [] st seg j)).
Proof.
  unfold encodeInteger. cbn [fst snd].
  rewrite (encodeInteger_loop_app 7 buf). reflexivity.
Qed.

Lemma segment_roundtrip seg st :
  seg_ok seg -> state_ok st ->
  exists chars st',
    (forall j line buf,
        encode_segments j (seg :: line) buf st =
        encode_segments (S j) line
          ((if (0 <? j)%nat then buf ++ [comma] else buf) ++ chars) st') /\
    state_ok st' /\ sget 0 st' = genCol seg /\
    (forall sortf rest decoded line sorted lastCol,
        hasMoreSegments rest = false ->
        decode_from sortf (chars ++ rest) st decoded line sorted lastCol =
        decode_from sortf rest st' decoded (line ++ [seg])
          (if genCol seg <? lastCol then false else sorted) (genCol seg)).
Proof.
  intros Hseg Hst. destruct seg as [c|c a b d|c a b d n]; unfold seg_ok in Hseg; simpl in Hseg.
  - (* one field *)
    apply Forall_cons in Hseg as [Hc _].
    use_integer st (Seg1 c) 0%nat c ch0 tl0 E0 N01 N02 D0.
    exists (ch0 :: tl0), (sset 0 c st).
    split; [|split; [|split]].
    + intros j line buf. cbn [encode_segments seg_length].
      rewrite encodeInteger_app, E0. reflexivity.
    + apply state_ok_sset; assumption.
    + apply sset_sget_value; [assumption|lia].
    + intros sortf rest decoded line sorted lastCol M.
      change ((ch0 :: tl0) ++ rest) with (ch0 :: tl0 ++ rest).
      rewrite (decode_from_seg1 sortf ch0 (tl0 ++ rest) rest (sset 0 c st)); try assumption.
      * rewrite sset_sget_value by (assumption || lia). reflexivity.
      * apply D0. reflexivity.
  - (* four fields *)
    apply Forall_cons in Hseg as [Hc Hseg]. apply Forall_cons in Hseg as [Ha Hseg].
    apply Forall_cons in Hseg as [Hb Hseg]. apply Forall_cons in Hseg as [Hd _].
    set (seg := Seg4 c a b d).
    assert (Hst0 : state_ok (sset 0 c st)) by (apply state_ok_sset; assumption).
    assert (Hst1 : state_ok (sset 1 a (sset 0 c st))) by (apply state_ok_sset; assumption).
    assert (Hst2 : state_ok (sset 2 b (sset 1 a (sset 0 c st)))) by (apply state_ok_sset; assumption).
    use_integer st seg 0%nat c ch0 tl0 E0 N01 N02 D0.
    use_integer (sset 0 c st) seg 1%nat a ch1 tl1 E1 N11 N12 D1.
    use_integer (sset 1 a (sset 0 c st)) seg 2%nat b ch2 tl2 E2 N21 N22 D2.
    use_integer (sset 2 b (sset 1 a (sset 0 c st))) seg 3%nat d ch3 tl3 E3 N31 N32 D3.
    set (st4 := sset 3 d (sset 2 b (sset 1 a (sset 0 c st)))) in *.
    exists ((ch0 :: tl0) ++ (ch1 :: tl1) ++ (ch2 :: tl2) ++ (ch3 :: tl3)), st4.
    split; [|split; [|split]].
    + intros j line buf. cbn [encode_segments]. change (seg_length seg) with 4.
      rewrite encodeInteger_app, E0. cbn [fst snd].
      rewrite encodeInteger_app, E1. cbn [fst snd].
      rewrite encodeInteger_app, E2. cbn [fst snd].
      rewrite encodeInteger_app, E3. cbn [fst snd].
      change (4 =? 1) with false. change (4 =? 4) with true. cbv iota.
      f_equal. simpl. rewrite <- !app_assoc. reflexivity.
    + apply state_ok_sset; assumption.
    + unfold st4. destruct st. simpl. apply toInt32_id. unfold value_ok in Hc. lia.
    + intros sortf rest decoded line sorted lastCol M.
      rewrite <- !app_assoc. cbn [app].
      rewrite (decode_from_seg4 sortf ch0 _ _ _ _ _ _ _ _ st4 _ _ _ _ _ N01 N02
                 (D0 _ st eq_refl)
                 (hasMoreSegments_digit ch1 _ N11 N12)
                 (D1 _ _ eq_refl) (D2 _ _ eq_refl) (D3 _ _ eq_refl) M).
      rewrite (sset_sget_value st 0 c) by (assumption || lia).
      replace (sget 1 st4) with a; [replace (sget 2 st4) with b; [replace (sget 3 st4) with d|]|].
      * reflexivity.
      * unfold st4. destruct st. simpl. symmetry. apply toInt32_id. unfold value_ok in Hd. lia.
      * unfold st4. destruct st. simpl. symmetry. apply toInt32_id. unfold value_ok in Hb. lia.
      * unfold st4. destruct st. simpl. symmetry. apply toInt32_id. unfold value_ok in Ha. lia.
  - (* five fields *)
    apply Forall_cons in Hseg as [Hc Hseg]. apply Forall_cons in Hseg as [Ha Hseg].
    apply Forall_cons in Hseg as [Hb Hseg]. apply Forall_cons in Hseg as [Hd Hseg].
    apply Forall_cons in Hseg as [Hn _].
    set (seg := Seg5 c a b d n).
    assert (Hst0 : state_ok (sset 0 c st)) by (apply state_ok_sset; assumption).
    assert (Hst1 : state_ok (sset 1 a (sset 0 c st))) by (apply state_ok_sset; assumption).
    assert (Hst2 : state_ok (sset 2 b (sset 1 a (sset 0 c st)))) by (apply state_ok_sset; assumption).
    assert (Hst3 : state_ok (sset 3 d (sset 2 b (sset 1 a (sset 0 c st)))))
      by (apply state_ok_sset; assumption).
    use_integer st seg 0%nat c ch0 tl0 E0 N01 N02 D0.
    use_integer (sset 0 c st) seg 1%nat a ch1 tl1 E1 N11 N12 D1.
    use_integer (sset 1 a (sset 0 c st)) seg 2%nat b ch2 tl2 E2 N21 N22 D2.
    use_integer (sset 2 b (sset 1 a (sset 0 c st))) seg 3%nat d ch3 tl3 E3 N31 N32 D3.
    use_integer (sset 3 d (sset 2 b (sset 1 a (sset 0 c st)))) seg 4%nat n ch4 tl4 E4 N41 N42 D4.
    set (st5 := sset 4 n (sset 3 d (sset 2 b (sset 1 a (sset 0 c st))))) in *.
    exists ((ch0 :: tl0) ++ (ch1 :: tl1) ++ (ch2 :: tl2) ++ (ch3 :: tl3) ++ (ch4 :: tl4)), st5.
    split; [|split; [|split]].
    + intros j line buf. cbn [encode_segments]. change (seg_length seg) with 5.
      rewrite encodeInteger_app, E0. cbn [fst snd].
      rewrite encodeInteger_app, E1. cbn [fst snd].
      rewrite encodeInteger_app, E2. cbn [fst snd].
      rewrite encodeInteger_app, E3. cbn [fst snd].
      rewrite encodeInteger_app, E4. cbn [fst snd].
      change (5 =? 1) with false. change (5 =? 4) with false. cbv iota.
      f_equal. simpl. rewrite <- !app_assoc. reflexivity.
    + apply state_ok_sset; assumption.
    + unfold st5. destruct st. simpl. apply toInt32_id. unfold value_ok in Hc. lia.
    + intros sortf rest decoded line sorted lastCol M.
      rewrite <- !app_assoc. cbn [app].
      rewrite (decode_from_seg5 sortf ch0 _ _ _ _ _ _ _ _ _ _ st5 _ _ _ _ _ N01 N02
                 (D0 _ st eq_refl)
                 (hasMoreSegments_digit ch1 _ N11 N12)
                 (D1 _ _ eq_refl) (D2 _ _ eq_refl) (D3 _ _ eq_refl)
                 (hasMoreSegments_digit ch4 _ N41 N42)
                 (D4 _ _ eq_refl)).
      rewrite (sset_sget_value st 0 c) by (assumption || lia).
      replace (sget 1 st5) with a;
        [replace (sget 2 st5) with b;
         [replace (sget 3 st5) with d; [replace (sget 4 st5) with n|]|]|].
      * reflexivity.
      * unfold st5. destruct st. simpl. symmetry. apply toInt32_id. unfold value_ok in Hn. lia.
      * unfold st5. destruct st. simpl. symmetry. apply toInt32_id. unfold value_ok in Hd. lia.
      * unfold st5. destruct st. simpl. symmetry. apply toInt32_id. unfold value_ok in Hb. lia.
      * unfold st5. destruct st. simpl. symmetry. apply toInt32_id. unfold value_ok in Ha. lia.
Qed.

(** *** One line *)

Lemma nondecreasing_cons x y l :
  nondecreasing (x :: y :: l) = true <-> x <= y /\ nondecreasing (y :: l) = true.
Proof. cbn [nondecreasing]. rewrite andb_true_iff, Z.leb_le. tauto. Qed.

Lemma line_roundtrip line :
  forall j st,
    Forall seg_ok line -> state_ok st ->
    exists chars st',
      (forall buf, encode_segments j line buf st = (buf ++ chars, st')) /\
      state_ok st' /\
      ((0 < j)%nat -> forall rest,
          hasMoreSegments rest = false -> hasMoreSegments (chars ++ rest) = false) /\
      (forall sortf rest decoded acc sorted lastCol,
          hasMoreSegments rest = false ->
          nondecreasing (lastCol :: map genCol line) = true ->
          exists lastCol',
            decode_from sortf (chars ++ rest) st decoded acc sorted lastCol =
            decode_from sortf rest st' decoded (acc ++ line) sorted lastCol').
Proof.
  induction line as [|seg line IH]; intros j st Hline Hst.
  - exists [], st. split; [|split; [|split]].
    + intros buf. simpl. rewrite app_nil_r. reflexivity.
    + assumption.
    + intros _ rest M. exact M.
    + intros sortf rest decoded acc sorted lastCol M _. exists lastCol.
      simpl. rewrite app_nil_r. reflexivity.
  - apply Forall_cons in Hline as [Hseg Hline].
    destruct (segment_roundtrip seg st Hseg Hst) as (cs & st1 & Eenc & Hst1 & Hcol & Hdec).
    destruct (IH (S j) st1 Hline Hst1) as (cl & st' & Eenc' & Hst' & Hsep & Hdec').
    exists ((if (0 <? j)%nat then [comma] else []) ++ cs ++ cl), st'.
    split; [|split; [|split]].
    + intros buf. rewrite Eenc, Eenc'. f_equal.
      destruct (0 <? j)%nat; simpl; rewrite <- ?app_assoc; reflexivity.
    + assumption.
    + intros Hj rest M. apply Nat.ltb_lt in Hj. rewrite Hj. reflexivity.
    + intros sortf rest decoded acc sorted lastCol M Hsorted.
      cbn [map] in Hsorted. apply nondecreasing_cons in Hsorted as [Hle Hsorted].
      destruct (Hdec' sortf rest decoded (acc ++ [seg]) sorted (genCol seg) M Hsorted)
        as (lastCol' & Edec').
      exists lastCol'.
      assert (Estep :
        decode_from sortf (cs ++ cl ++ rest) st decoded acc sorted lastCol =
        decode_from sortf (cl ++ rest) st1 decoded (acc ++ [seg]) sorted (genCol seg)).
      { rewrite Hdec by (apply Hsep; [lia|exact M]).
        destruct (genCol seg <? lastCol) eqn:F; [apply Z.ltb_lt in F; lia|reflexivity]. }
      rewrite <- (app_assoc acc [seg] line) in Edec'. cbn [app] in Edec'.
      rewrite <- Edec', <- Estep.
      destruct (0 <? j)%nat; rewrite <- !app_assoc; cbn [app];
        [rewrite decode_from_comma|]; reflexivity.
Qed.

(** *** All lines *)

Lemma sset_0_0_idem st : sset 0 0 (sset 0 0 st) = sset 0 0 st.
Proof. reflexivity. Qed.

Lemma row_sorted_from_0 line :
  Forall seg_ok line -> row_sorted line = true ->
  nondecreasing (0 :: map genCol line) = true.
Proof.
  intros Hline Hs. destruct line as [|seg line]; [reflexivity|].
  cbn [map]. apply nondecreasing_cons. split; [|exact Hs].
  apply Forall_cons in Hline as [Hseg _].
  destruct seg; unfold seg_ok in Hseg; simpl in Hseg;
    apply Forall_cons in Hseg as [Hc _]; unfold value_ok in Hc; simpl; lia.
Qed.

Lemma lines_roundtrip d :
  forall i buf est decoded sortf,
    d <> [] -> Forall (Forall seg_ok) d -> forallb row_sorted d = true ->
    state_ok est ->
    exists chars,
      encode_lines i d buf est =
      (if (0 <? i)%nat then buf ++ [semicolon] else buf) ++ chars /\
      decode_from sortf chars (sset 0 0 est) decoded [] true 0 = decoded ++ d.
Proof.
  induction d as [|line d IH]; intros i buf est decoded sortf Hne Hd Hs Hest;
    [congruence|].
  apply Forall_cons in Hd as [Hline Hd].
  cbn [forallb] in Hs. apply andb_true_iff in Hs as [Hrow Hs].
  assert (Hest0 : state_ok (sset 0 0 est)).
  { apply state_ok_sset; [assumption|]. unfold value_ok. lia. }
  destruct (line_roundtrip line 0 (sset 0 0 est) Hline Hest0)
    as (cl & st' & Eenc & Hst' & _ & Hdec).
  (* the encoder's state after the line, and what the decoder holds then *)
  set (est' := if (length line =? 0)%nat then est else st').
  assert (Eline :
    encode_lines i (line :: d) buf est =
    encode_lines (S i) d ((if (0 <? i)%nat then buf ++ [semicolon] else buf) ++ cl) est').
  { cbn [encode_lines]. unfold est'.
    destruct (length line =? 0)%nat eqn:E.
    - apply Nat.eqb_eq in E. destruct line; [|discriminate].
      specialize (Eenc []). simpl in Eenc. injection Eenc as <- _.
      rewrite app_nil_r. reflexivity.
    - rewrite Eenc. reflexivity. }
  assert (Est' : state_ok est' /\ sset 0 0 est' = sset 0 0 st').
  { unfold est'. destruct (length line =? 0)%nat eqn:E; [|split; [assumption|reflexivity]].
    apply Nat.eqb_eq in E. destruct line; [|discriminate].
    specialize (Eenc []). simpl in Eenc. injection Eenc as _ <-.
    split; [assumption|reflexivity]. }
  destruct Est' as [Hest' Ereset].
  destruct d as [|line2 d].
  - (* the last line *)
    exists cl. split.
    + rewrite Eline. reflexivity.
    + destruct (Hdec sortf [] decoded [] true 0 eq_refl (row_sorted_from_0 line Hline Hrow))
        as (lastCol' & Edec).
      rewrite app_nil_r in Edec. rewrite Edec. reflexivity.
  - destruct (IH (S i) ((if (0 <? i)%nat then buf ++ [semicolon] else buf) ++ cl)
                est' (decoded ++ [line]) sortf) as (chars & Eenc2 & Edec2);
      [congruence|assumption|assumption|assumption|].
    exists (cl ++ semicolon :: chars). split.
    + rewrite Eline, Eenc2. cbn [Nat.ltb Nat.leb]. rewrite <- !app_assoc. reflexivity.
    + destruct (Hdec sortf (semicolon :: chars) decoded [] true 0 eq_refl
                  (row_sorted_from_0 line Hline Hrow)) as (lastCol' & Edec).
      rewrite Edec, decode_from_semicolon. cbn [app].
      rewrite <- Ereset.
      change (push_line sortf decoded true line) with (decoded ++ [line]).
      rewrite Edec2.
      rewrite <- app_assoc. reflexivity.
Qed.

Lemma all_fields_ok d :
  all_fields nonneg_int32 d = true -> Forall (Forall seg_ok) d.
Proof.
  unfold all_fields. intros H.
  apply List.Forall_forall. intros line Hin. apply List.Forall_forall. intros seg Hin2.
  unfold seg_ok. apply List.Forall_forall. intros v Hv.
  rewrite forallb_forall in H. specialize (H line Hin).
  rewrite forallb_forall in H. specialize (H seg Hin2).
  rewrite forallb_forall in H. apply nonneg_int32_ok, H, Hv.
Qed.

End CodecRoundTrip.

Module SortFacts.
Import JS Codec CodecRoundTrip.

(** *** The stable sort of a row *)

Lemma nondecreasing_tail x l : nondecreasing (x :: l) = true -> nondecreasing l = true.
Proof.
  destruct l as [|y l]; [reflexivity|]. intros H.
  apply nondecreasing_cons in H. tauto.
Qed.

Lemma nondecreasing_app_l l1 l2 :
  nondecreasing (l1 ++ l2) = true -> nondecreasing l1 = true.
Proof.
  induction l1 as [|x l1 IH]; [reflexivity|]. intros H.
  destruct l1 as [|y l1]; [reflexivity|].
  cbn [app] in *. apply nondecreasing_cons in H as [Hxy H].
  apply nondecreasing_cons. split; [assumption|]. apply IH. assumption.
Qed.

Lemma nondecreasing_snoc l x y :
  nondecreasing (l ++ [x]) = true -> x <= y -> nondecreasing (l ++ [y; y]) = true.
Proof.
  induction l as [|a l IH]; intros H Hxy.
  - cbn [app]. apply nondecreasing_cons. split; [lia|reflexivity].
  - destruct l as [|b l].
    + cbn [app] in *. apply nondecreasing_cons in H as [Hax _].
      apply nondecreasing_cons. split; [lia|]. apply (IH eq_refl Hxy).
    + cbn [app] in *. apply nondecreasing_cons in H as [Hab H].
      apply nondecreasing_cons. split; [assumption|]. apply IH; assumption.
Qed.

Lemma sort_insert_sorted a l :
  row_sorted l = true -> row_sorted (sort_insert a l) = true.
Proof.
  unfold row_sorted. induction l as [|b l IH]; intros H; [reflexivity|].
  cbn [sort_insert]. destruct (genCol b <=? genCol a) eqn:E.
  - apply Z.leb_le in E. cbn [map] in *.
    specialize (IH (nondecreasing_tail _ _ H)).
    destruct l as [|c l].
    + cbn [sort_insert map]. apply nondecreasing_cons. split; [assumption|reflexivity].
    + cbn [sort_insert map] in *. apply nondecreasing_cons in H as [Hbc H].
      destruct (genCol c <=? genCol a); cbn [map];
        apply nondecreasing_cons; (split; [assumption||lia|assumption]).
  - apply Z.leb_gt in E. cbn [map] in *.
    apply nondecreasing_cons. split; [lia|assumption].
Qed.

Lemma sort_insert_last a l :
  row_sorted (l ++ [a]) = true -> sort_insert a l = l ++ [a].
Proof.
  unfold row_sorted. induction l as [|b l IH]; intros H; [reflexivity|].
  cbn [sort_insert app map] in *.
  assert (Hba : genCol b <= genCol a).
  { clear IH. revert b H. induction l as [|c l IHl]; intros b H.
    - cbn [app map] in H. apply nondecreasing_cons in H. tauto.
    - cbn [app map] in H. apply nondecreasing_cons in H as [Hbc H].
      specialize (IHl c H). lia. }
  apply Z.leb_le in Hba. rewrite Hba. f_equal. apply IH.
  apply nondecreasing_tail in H. assumption.
Qed.

Lemma sort_fold_sorted l acc :
  row_sorted acc = true ->
  row_sorted (fold_left (fun acc a => sort_insert a acc) l acc) = true.
Proof.
  revert acc. induction l as [|a l IH]; intros acc H; [assumption|].
  simpl. apply IH, sort_insert_sorted, H.
Qed.

Lemma sort_fold_id l acc :
  row_sorted (acc ++ l) = true ->
  fold_left (fun acc a => sort_insert a acc) l acc = acc ++ l.
Proof.
  revert acc. induction l as [|a l IH]; intros acc H.
  - simpl. rewrite app_nil_r. reflexivity.
  - simpl. rewrite sort_insert_last.
    + rewrite IH; rewrite <- app_assoc; [reflexivity|assumption].
    + unfold row_sorted in *. rewrite map_app in *.
      replace (map genCol acc ++ map genCol (a :: l))
        with ((map genCol acc ++ map genCol [a]) ++ map genCol l) in H
        by (rewrite <- app_assoc; reflexivity).
      apply nondecreasing_app_l in H. assumption.
Qed.

(** [sort] gives a sorted row. *)
Lemma sort_sorted l : row_sorted (sort l) = true.
Proof. apply sort_fold_sorted. reflexivity. Qed.

(** [sort] leaves a sorted row as it is. *)
Lemma sort_id l : row_sorted l = true -> sort l = l.
Proof. intros H. apply (sort_fold_id l []). exact H. Qed.

(** [sort] permutes the row. *)
Lemma sort_insert_perm a l : sort_insert a l ≡ₚ a :: l.
Proof.
  induction l as [|b l IH]; [reflexivity|].
  cbn [sort_insert]. destruct (genCol b <=? genCol a); [|reflexivity].
  rewrite IH. apply Permutation_swap.
Qed.

Lemma sort_fold_perm l acc :
  fold_left (fun acc a => sort_insert a acc) l acc ≡ₚ acc ++ l.
Proof.
  revert acc. induction l as [|a l IH]; intros acc.
  - simpl. rewrite app_nil_r. reflexivity.
  - simpl. rewrite IH, sort_insert_perm. rewrite (Permutation_middle acc l a).
    reflexivity.
Qed.

Lemma sort_perm l : sort l ≡ₚ l.
Proof. apply (sort_fold_perm l []). Qed.

(** [sort] is stable: segments of one column keep their order. *)

Lemma at_column_greater c l :
  Forall (fun s => c < genCol s) l -> at_column c l = [].
Proof.
  induction 1 as [|s l Hs _ IH]; [reflexivity|].
  unfold at_column in *. rewrite filter_cons_False by lia. exact IH.
Qed.

Lemma sorted_after b l :
  row_sorted (b :: l) = true -> Forall (fun s => genCol b <= genCol s) l.
Proof.
  unfold row_sorted. revert b. induction l as [|c l IH]; intros b H; [constructor|].
  cbn [map] in H. apply nondecreasing_cons in H as [Hbc H].
  constructor; [assumption|].
  eapply Forall_impl; [apply IH, H|]. simpl. intros. lia.
Qed.

Lemma sort_insert_stable a l c :
  row_sorted l = true ->
  at_column c (sort_insert a l) = at_column c l ++ at_column c [a].
Proof.
  induction l as [|b l IH]; intros H.
  - reflexivity.
  - cbn [sort_insert]. destruct (genCol b <=? genCol a) eqn:E.
    + unfold at_column in *. rewrite !filter_cons.
      rewrite IH by (unfold row_sorted in *; eapply nondecreasing_tail; exact H).
      destruct (decide (genCol b = c)); reflexivity.
    + apply Z.leb_gt in E.
      change (a :: b :: l) with ([a] ++ b :: l).
      unfold at_column. rewrite filter_app. fold (at_column c [a]) (at_column c (b :: l)).
      destruct (decide (genCol a = c)) as [Eq|Ne].
      * rewrite (at_column_greater c (b :: l)).
        { rewrite app_nil_r. reflexivity. }
        constructor; [lia|].
        eapply Forall_impl; [apply sorted_after, H|]. simpl. intros. lia.
      * assert (Ea : at_column c [a] = []).
        { unfold at_column. rewrite filter_cons_False by assumption. reflexivity. }
        rewrite Ea, app_nil_r. reflexivity.
Qed.

Lemma sort_fold_stable l acc c :
  row_sorted acc = true ->
  at_column c (fold_left (fun acc a => sort_insert a acc) l acc) =
  at_column c acc ++ at_column c l.
Proof.
  revert acc. induction l as [|a l IH]; intros acc H.
  - simpl. unfold at_column. rewrite filter_nil, app_nil_r. reflexivity.
  - simpl. rewrite IH by (apply sort_insert_sorted, H).
    rewrite sort_insert_stable by assumption.
    rewrite <- app_assoc. f_equal.
    unfold at_column. rewrite <- filter_app. reflexivity.
Qed.

Lemma sort_stable l c : at_column c (sort l) = at_column c l.
Proof. apply (sort_fold_stable l [] c). reflexivity. Qed.

End SortFacts.

Module DecodeFacts.
Import JS JSFacts Codec CodecFacts CodecFacts2 CodecLoop CodecRoundTrip SortFacts.

(** *** Rows leave the decoder sorted *)

(** What the loop knows of the row it is reading: while [sorted] is set the
    row is in order and ends at or below [lastCol]. *)
Definition row_inv (line : SourceMapLine) (sorted : bool) (lastCol : Z) : Prop :=
  sorted = true -> nondecreasing (map genCol line ++ [lastCol]) = true.

Lemma row_inv_start : row_inv [] true 0.
Proof. intros _. reflexivity. Qed.

Lemma row_inv_step line sorted lastCol seg :
  row_inv line sorted lastCol ->
  row_inv (line ++ [seg]) (if genCol seg <? lastCol then false else sorted) (genCol seg).
Proof.
  unfold row_inv. intros H Hs.
  destruct (genCol seg <? lastCol) eqn:E; [discriminate|].
  apply Z.ltb_ge in E. rewrite map_app, <- app_assoc. cbn [map app].
  apply nondecreasing_snoc with lastCol; auto.
Qed.

Lemma row_inv_sorted line lastCol : row_inv line true lastCol -> row_sorted line = true.
Proof. intros H. unfold row_sorted. eapply nondecreasing_app_l. apply H. reflexivity. Qed.

Definition all_sorted (decoded : SourceMapMappings) : Prop :=
  Forall (fun row => row_sorted row = true) decoded.

Lemma push_line_sorted decoded sorted line lastCol :
  all_sorted decoded -> row_inv line sorted lastCol ->
  all_sorted (push_line sort decoded sorted line).
Proof.
  intros Hd Hl. unfold push_line, all_sorted. apply Forall_app. split; [exact Hd|].
  constructor; [|constructor].
  destruct sorted; [eapply row_inv_sorted; exact Hl|apply sort_sorted].
Qed.

Lemma decode_loop_sorted fuel :
  forall rest state decoded line sorted lastCol,
    all_sorted decoded -> row_inv line sorted lastCol ->
    all_sorted (decode_loop sort fuel rest state decoded line sorted lastCol).
Proof.
  induction fuel as [|fuel IH]; intros rest state decoded line sorted lastCol Hd Hl.
  - destruct rest; simpl; eapply push_line_sorted; eassumption.
  - destruct rest as [|c rest]; [simpl; eapply push_line_sorted; eassumption|].
    cbn [decode_loop].
    destruct (c =? comma); [apply IH; assumption|].
    destruct (c =? semicolon).
    { apply IH; [eapply push_line_sorted; eassumption|apply row_inv_start]. }
    destruct (decodeInteger (c :: rest) state 0) as [rest1 st1].
    destruct (negb (hasMoreSegments rest1)).
    { apply IH; [assumption|]. apply (row_inv_step _ _ _ (Seg1 _)), Hl. }
    destruct (decodeInteger rest1 st1 1) as [rest2 st2].
    destruct (decodeInteger rest2 st2 2) as [rest3 st3].
    destruct (decodeInteger rest3 st3 3) as [rest4 st4].
    destruct (negb (hasMoreSegments rest4)).
    { apply IH; [assumption|]. apply (row_inv_step _ _ _ (Seg4 _ _ _ _)), Hl. }
    destruct (decodeInteger rest4 st4 4) as [rest5 st5].
    apply IH; [assumption|]. apply (row_inv_step _ _ _ (Seg5 _ _ _ _ _)), Hl.
Qed.

(** The rows as read, before any sort. *)
Definition unsorted (line : SourceMapLine) : SourceMapLine := line.

Lemma push_line_map_sort decoded sorted line lastCol :
  row_inv line sorted lastCol ->
  push_line sort (map sort decoded) sorted line =
  map sort (push_line unsorted decoded sorted line).
Proof.
  intros Hl. unfold push_line, unsorted. rewrite map_app. cbn [map]. do 2 f_equal.
  destruct sorted; [|reflexivity].
  symmetry. apply sort_id. eapply row_inv_sorted. exact Hl.
Qed.

Lemma decode_loop_map_sort fuel :
  forall rest state decoded line sorted lastCol,
    row_inv line sorted lastCol ->
    decode_loop sort fuel rest state (map sort decoded) line sorted lastCol =
    map sort (decode_loop unsorted fuel rest state decoded line sorted lastCol).
Proof.
  induction fuel as [|fuel IH]; intros rest state decoded line sorted lastCol Hl.
  - destruct rest; simpl; eapply push_line_map_sort; eassumption.
  - destruct rest as [|c rest]; [simpl; eapply push_line_map_sort; eassumption|].
    cbn [decode_loop].
    destruct (c =? comma); [apply IH; assumption|].
    destruct (c =? semicolon).
    { rewrite (push_line_map_sort _ _ _ _ Hl). apply IH, row_inv_start. }
    destruct (decodeInteger (c :: rest) state 0) as [rest1 st1].
    destruct (negb (hasMoreSegments rest1)).
    { apply IH. apply (row_inv_step _ _ _ (Seg1 _)), Hl. }
    destruct (decodeInteger rest1 st1 1) as [rest2 st2].
    destruct (decodeInteger rest2 st2 2) as [rest3 st3].
    destruct (decodeInteger rest3 st3 3) as [rest4 st4].
    destruct (negb (hasMoreSegments rest4)).
    { apply IH. apply (row_inv_step _ _ _ (Seg4 _ _ _ _)), Hl. }
    destruct (decodeInteger rest4 st4 4) as [rest5 st5].
    apply IH. apply (row_inv_step _ _ _ (Seg5 _ _ _ _ _)), Hl.
Qed.

(** *** Strings outside the grammar *)

Lemma index_from_absent c l i : existsb (Z.eqb c) l = false -> index_from i c l = 0.
Proof.
  revert i. induction l as [|x l IH]; intros i H; [reflexivity|].
  cbn [existsb] in H. apply orb_false_iff in H as [Hx Hl].
  cbn [index_from]. rewrite Z.eqb_sym, Hx. apply IH, Hl.
Qed.

Lemma as_read_masks c m :
  and_undef (charToInteger (as_read c)) m = and_undef (charToInteger c) m.
Proof.
  unfold as_read. destruct (valid_char c) eqn:V; [reflexivity|].
  unfold valid_char in V. apply orb_false_iff in V as [V _].
  apply orb_false_iff in V as [V _].
  unfold charToInteger at 2.
  destruct ((0 <=? c) && (c <? 123)); [|reflexivity].
  rewrite index_from_absent by exact V. reflexivity.
Qed.

Lemma as_read_separator c sep :
  (sep = comma \/ sep = semicolon) -> (as_read c =? sep) = (c =? sep).
Proof.
  intros Hsep. unfold as_read. destruct (valid_char c) eqn:V; [reflexivity|].
  unfold valid_char in V. apply orb_false_iff in V as [V V2].
  apply orb_false_iff in V as [_ V1].
  destruct Hsep as [-> | ->]; [rewrite V1|rewrite V2]; reflexivity.
Qed.

Lemma decodeInteger_loop_as_read rest value shift :
  decodeInteger_loop (map as_read rest) value shift =
  (fst (decodeInteger_loop rest value shift),
   map as_read (snd (decodeInteger_loop rest value shift))).
Proof.
  revert value shift. induction rest as [|c rest IH]; intros value shift; [reflexivity|].
  cbn [map decodeInteger_loop]. rewrite !as_read_masks.
  destruct (and_undef (charToInteger c) 32 =? 0); [reflexivity|]. apply IH.
Qed.

Lemma decodeInteger_as_read rest state j :
  decodeInteger (map as_read rest) state j =
  (map as_read (fst (decodeInteger rest state j)), snd (decodeInteger rest state j)).
Proof.
  unfold decodeInteger. rewrite decodeInteger_loop_as_read.
  destruct (decodeInteger_loop rest 0 0) as [value rest']. reflexivity.
Qed.

Lemma hasMoreSegments_as_read rest :
  hasMoreSegments (map as_read rest) = hasMoreSegments rest.
Proof.
  destruct rest as [|c rest]; [reflexivity|]. cbn [map hasMoreSegments].
  rewrite !as_read_separator by auto. reflexivity.
Qed.

Lemma decode_loop_as_read sortf fuel :
  forall rest state decoded line sorted lastCol,
    decode_loop sortf fuel (map as_read rest) state decoded line sorted lastCol =
    decode_loop sortf fuel rest state decoded line sorted lastCol.
Proof.
  induction fuel as [|fuel IH]; intros rest state decoded line sorted lastCol.
  - destruct rest; reflexivity.
  - destruct rest as [|c rest]; [reflexivity|].
    cbn [map decode_loop].
    rewrite !as_read_separator by auto.
    destruct (c =? comma); [apply IH|].
    destruct (c =? semicolon); [apply IH|].
    change (as_read c :: map as_read rest) with (map as_read (c :: rest)).
    rewrite decodeInteger_as_read.
    destruct (decodeInteger (c :: rest) state 0) as [rest1 st1]. cbn [fst snd].
    rewrite hasMoreSegments_as_read.
    destruct (negb (hasMoreSegments rest1)); [apply IH|].
    rewrite decodeInteger_as_read.
    destruct (decodeInteger rest1 st1 1) as [rest2 st2]. cbn [fst snd].
    rewrite decodeInteger_as_read.
    destruct (decodeInteger rest2 st2 2) as [rest3 st3]. cbn [fst snd].
    rewrite decodeInteger_as_read.
    destruct (decodeInteger rest3 st3 3) as [rest4 st4]. cbn [fst snd].
    rewrite hasMoreSegments_as_read.
    destruct (negb (hasMoreSegments rest4)); [apply IH|].
    rewrite decodeInteger_as_read.
    destruct (decodeInteger rest4 st4 4) as [rest5 st5]. cbn [fst snd].
    apply IH.
Qed.

(** The loop always ends by pushing the row it holds. *)
Lemma decode_loop_last sortf fuel :
  forall rest state decoded line sorted lastCol,
    exists rows row,
      decode_loop sortf fuel rest state decoded line sorted lastCol = rows ++ [row].
Proof.
  induction fuel as [|fuel IH]; intros rest state decoded line sorted lastCol.
  - destruct rest; simpl; unfold push_line; eauto.
  - destruct rest as [|c rest]; [simpl; unfold push_line; eauto|].
    cbn [decode_loop].
    destruct (c =? comma); [apply IH|].
    destruct (c =? semicolon); [apply IH|].
    destruct (decodeInteger (c :: rest) state 0) as [rest1 st1].
    destruct (negb (hasMoreSegments rest1)); [apply IH|].
    destruct (decodeInteger rest1 st1 1) as [rest2 st2].
    destruct (decodeInteger rest2 st2 2) as [rest3 st3].
    destruct (decodeInteger rest3 st3 3) as [rest4 st4].
    destruct (negb (hasMoreSegments rest4)); [apply IH|].
    destruct (decodeInteger rest4 st4 4) as [rest5 st5].
    apply IH.
Qed.

End DecodeFacts.

Module CodecClaims.
Import JS JSFacts Codec CodecFacts CodecFacts2 CodecLoop CodecRoundTrip SortFacts DecodeFacts.

(** C1, as stated, fails on two inputs with sorted rows of 32-bit integers:
    the empty array of rows, which [encode] writes as the empty string and
    [decode] reads as one empty row; and a row whose columns differ by
    [2^31], a difference the encoder's 32-bit shift loses. *)
Lemma decode_encode_counterexample :
  (rows_sorted [] = true /\ all_fields int32 [] = true /\
   decode (encode []) = [[]] /\ decode (encode []) <> []) /\
  (rows_sorted [[Seg1 (-1); Seg1 2147483647]] = true /\
   all_fields int32 [[Seg1 (-1); Seg1 2147483647]] = true /\
   decode (encode [[Seg1 (-1); Seg1 2147483647]]) = [[Seg1 (-1); Seg1 (-1)]] /\
   decode (encode [[Seg1 (-1); Seg1 2147483647]]) <> [[Seg1 (-1); Seg1 2147483647]]).
Proof.
  repeat split; try (vm_compute; reflexivity); vm_compute; discriminate.
Qed.

(** C1 (amended): for every decoded mappings array [d] with at least one
    row, whose rows are sorted non-decreasing by generated column and whose
    values are non-negative 32-bit integers, decoding the string produced
    by [encode] yields [d] again. *)
Theorem decode_encode_roundtrip (d : SourceMapMappings) :
  d <> [] -> all_fields nonneg_int32 d = true -> rows_sorted d = true ->
  decode (encode d) = d.
Proof.
  intros Hne Hf Hs.
  destruct (lines_roundtrip d 0 [] state_new [] sort Hne (all_fields_ok d Hf) Hs)
    as (chars & Eenc & Edec).
  { repeat split; simpl; lia. }
  unfold encode, decode, decode_with. rewrite Eenc. exact Edec.
Qed.

Lemma decode_encode_roundtrip_witness :
  decode (encode [[Seg4 0 0 0 0; Seg5 9 0 0 9 0; Seg1 12]; []; [Seg4 4 0 1 2147483647]]) =
  [[Seg4 0 0 0 0; Seg5 9 0 0 9 0; Seg1 12]; []; [Seg4 4 0 1 2147483647]].
Proof.
  apply decode_encode_roundtrip; [discriminate|reflexivity|reflexivity].
Defined.

(** C2, as stated, fails: the decoder returns rows for a string with a
    character outside the base64 alphabet (["!"]) and for a string that ends
    on a character whose continuation bit is set (["g"], ["AAAAg"]). *)
Lemma decode_malformed_counterexample :
  (malformed (codes "!") = true /\ decode (codes "!") = [[Seg1 0]]) /\
  (malformed (codes "g") = true /\ decode (codes "g") = [[Seg1 0]]) /\
  (malformed (codes "AAAAg") = true /\ decode (codes "AAAAg") = [[Seg5 0 0 0 0 0]]).
Proof. repeat split; vm_compute; reflexivity. Qed.

(** C2 (amended): the decoder has no failure path. For every string,
    malformed or not, [decode] returns a decoded mappings array of at least
    one row: its loop reaches the end of the string within [length mappings]
    iterations, a character outside the grammar is read as the digit 0
    without continuation (as ['A']), and the end of the string closes an
    integer whose last character asked for more. *)
Theorem decode_total (mappings : list Z) :
  (exists rows row, decode mappings = rows ++ [row]) /\
  (forall fuel, (length mappings <= fuel)%nat ->
     decode_loop sort fuel mappings state_new [] [] true 0 = decode mappings) /\
  decode mappings = decode (map as_read mappings) /\
  (forall value shift, decodeInteger_loop [] value shift = (toInt32 value, [])).
Proof.
  split; [|split; [|split]].
  - apply decode_loop_last.
  - intros fuel Hf. apply decode_loop_fuel; [exact Hf|reflexivity].
  - unfold decode, decode_with. rewrite length_map.
    symmetry. apply decode_loop_as_read.
  - intros value shift. cbn [decodeInteger_loop and_undef]. unfold JS.or, shl.
    change (toInt32 0) with 0. rewrite Z.shiftl_0_l. change (toInt32 0) with 0.
    rewrite Z.lor_0_r. reflexivity.
Qed.



(** C9: every row of [decode mappings] is non-decreasing in generated
    column. Each emitted row is the stable sort by generated column of the
    row as it was read (the last row as well as the rows closed by [';']):
    the sort gives a sorted permutation that keeps the order of the segments
    of one column, and it leaves a row that is already in order unchanged. *)
Theorem decode_rows_sorted (mappings : list Z) :
  Forall (fun row => row_sorted row = true) (decode mappings) /\
  decode mappings = map sort (decode_with (fun line => line) mappings) /\
  (forall row,
      row_sorted (sort row) = true /\
      sort row ≡ₚ row /\
      (forall c, at_column c (sort row) = at_column c row) /\
      (row_sorted row = true -> sort row = row)).
Proof.
  split; [|split].
  - apply decode_loop_sorted; [constructor|apply row_inv_start].
  - apply (decode_loop_map_sort (length mappings) mappings state_new []).
    apply row_inv_start.
  - intros row. split; [apply sort_sorted|].
    split; [apply sort_perm|]. split; [apply sort_stable|apply sort_id].
Qed.

End CodecClaims.

(** ** The binary search *)

Module SearchFacts.
Import JS JSFacts Codec BinarySearch.

Lemma shr_1 x : 0 <= x < 2 ^ 31 -> shr x 1 = x / 2.
Proof.
  intros Hx. unfold shr. rewrite toInt32_id by lia.
  change (toUint32 1 mod 32) with 1. rewrite Z.shiftr_div_pow2 by lia.
  reflexivity.
Qed.

Lemma at_index_Some {B} (l : list B) i :
  0 <= i < Z.of_nat (length l) -> exists x, at_index l i = Some x.
Proof.
  intros Hi. unfold at_index. destruct (0 <=? i) eqn:E; [|apply Z.leb_gt in E; lia].
  apply lookup_lt_is_Some. lia.
Qed.

Lemma at_index_range {B} (l : list B) i x :
  at_index l i = Some x -> 0 <= i < Z.of_nat (length l).
Proof.
  unfold at_index. destruct (0 <=? i) eqn:E; [|discriminate].
  apply Z.leb_le in E. intros Hx. apply lookup_lt_Some in Hx. lia.
Qed.

Lemma nondecreasing_lookup l :
  nondecreasing l = true ->
  forall i j x y, l !! i = Some x -> l !! j = Some y -> (i <= j)%nat -> x <= y.
Proof.
  induction l as [|a l IH]; intros Hs i j x y Hi Hj Hij; [discriminate|].
  assert (Htl : nondecreasing l = true) by (destruct l; [reflexivity|]; simpl in Hs; apply andb_true_iff in Hs; tauto).
  destruct i as [|i], j as [|j]; simpl in Hi, Hj; try lia.
  - injection Hi as <-. injection Hj as <-. lia.
  - injection Hi as <-.
    (* a is below everything in l *)
    clear IH Hij. revert a j Hs Hj. clear Htl.
    induction l as [|b l IHl]; intros a j Hs Hj; [discriminate|].
    cbn [nondecreasing] in Hs. apply andb_true_iff in Hs as [Hab Hs]. apply Z.leb_le in Hab.
    destruct j as [|j]; simpl in Hj; [injection Hj as <-; lia|].
    specialize (IHl b j Hs Hj). lia.
  - apply (IH Htl i j); [assumption|assumption|lia].
Qed.

Section Search.

Context {A : Type} `{HasColumn A}.

Variable haystack : list A.

Local Abbreviation len := (Z.of_nat (length haystack)).

Lemma col_at_Some i : 0 <= i < len -> exists x, col_at haystack i = Some x.
Proof.
  intros Hi. destruct (at_index_Some haystack i Hi) as [a Ha].
  exists (column a). unfold col_at. rewrite Ha. reflexivity.
Qed.

Lemma col_at_range i x : col_at haystack i = Some x -> 0 <= i < len.
Proof.
  unfold col_at. destruct (at_index haystack i) as [a|] eqn:E; [|discriminate].
  intros _. eapply at_index_range, E.
Qed.

Lemma sorted_col_at :
  sorted_by_column haystack = true ->
  forall i j x y, col_at haystack i = Some x -> col_at haystack j = Some y ->
                  i <= j -> x <= y.
Proof.
  intros Hs i j x y Hi Hj Hij.
  pose proof (col_at_range _ _ Hi). pose proof (col_at_range _ _ Hj).
  unfold col_at, at_index in Hi, Hj.
  destruct (0 <=? i) eqn:Ei; [|apply Z.leb_gt in Ei; lia].
  destruct (0 <=? j) eqn:Ej; [|apply Z.leb_gt in Ej; lia].
  apply (nondecreasing_lookup _ Hs (Z.to_nat i) (Z.to_nat j)); [| |lia].
  - rewrite list_lookup_fmap. exact Hi.
  - rewrite list_lookup_fmap. exact Hj.
Qed.

(** The search returns, and its result lies in [low - 1 .. high]: no read
    falls outside the row. Rows need not be sorted for this. *)
Lemma binarySearch_loop_range fuel :
  forall needle low high,
    0 <= low -> high < len -> len <= 2 ^ 31 -> low <= high + 1 ->
    (Z.to_nat (high - low + 1) <= fuel)%nat ->
    exists r, binarySearch_loop fuel haystack needle low high = Normal r /\
              low - 1 <= r <= high.
Proof.
  induction fuel as [|fuel IH]; intros needle low high Hlow Hhigh Hlen Hle Hfuel.
  - simpl. destruct (low <=? high) eqn:E; [apply Z.leb_le in E; lia|].
    apply Z.leb_gt in E. exists (low - 1). split; [reflexivity|lia].
  - cbn [binarySearch_loop]. destruct (low <=? high) eqn:E.
    2:{ apply Z.leb_gt in E. exists (low - 1). split; [reflexivity|lia]. }
    apply Z.leb_le in E. rewrite shr_1 by lia.
    assert (Hmid : low <= low + (high - low) / 2 <= high).
    { pose proof (Z.div_pos (high - low) 2). 
      assert ((high - low) / 2 <= high - low) by (apply Z.div_le_upper_bound; lia). lia. }
    set (mid := low + (high - low) / 2) in *.
    destruct (at_index_Some haystack mid) as [item Hitem]; [lia|]. rewrite Hitem.
    destruct (column item - needle =? 0); [exists mid; split; [reflexivity|lia]|].
    destruct (column item - needle <? 0).
    + destruct (IH needle (mid + 1) high) as (r & Er & Hr); try lia.
      exists r. split; [exact Er|lia].
    + destruct (IH needle low (mid - 1)) as (r & Er & Hr); try lia.
      exists r. split; [exact Er|lia].
Qed.

Lemma gap_unique needle r r' : gap haystack needle r -> gap haystack needle r' -> r = r'.
Proof.
  intros (Hr & Hb & Ha) (Hr' & Hb' & Ha').
  destruct (Z.lt_trichotomy r r') as [Hlt|[Eq|Hgt]]; [|exact Eq|].
  - destruct (col_at_Some r') as [x Hx]; [lia|].
    pose proof (Hb' r' x (Z.le_refl _) Hx). pose proof (Ha r' x Hlt Hx). lia.
  - destruct (col_at_Some r) as [x Hx]; [lia|].
    pose proof (Hb r x (Z.le_refl _) Hx). pose proof (Ha' r x Hgt Hx). lia.
Qed.

Lemma exact_not_gap needle r r' : exact haystack needle r -> gap haystack needle r' -> False.
Proof.
  intros Hx (Hr' & Hb' & Ha').
  destruct (Z_le_gt_dec r r') as [Hle|Hgt].
  - pose proof (Hb' r needle Hle Hx). lia.
  - assert (r' < r) by lia. pose proof (Ha' r needle H0 Hx). lia.
Qed.

(** Two results for one needle are the same index, or two segments at the
    needle's column. *)
Lemma hit_agree needle r r' :
  hit haystack needle r -> hit haystack needle r' -> r = r' \/ (exact haystack needle r /\ exact haystack needle r').
Proof.
  intros [Hx|Hg] [Hx'|Hg'].
  - right. split; assumption.
  - destruct (exact_not_gap _ _ _ Hx Hg').
  - destruct (exact_not_gap _ _ _ Hx' Hg).
  - left. eapply gap_unique; eassumption.
Qed.

(** In a sorted row the search over [low .. high] finds the needle's place,
    when every column below [low] is under the needle and every column
    above [high] is over it. *)
Lemma binarySearch_loop_hit fuel :
  sorted_by_column haystack = true ->
  forall needle low high,
    0 <= low -> high < len -> len <= 2 ^ 31 -> low <= high + 1 ->
    (Z.to_nat (high - low + 1) <= fuel)%nat ->
    (forall i x, i < low -> col_at haystack i = Some x -> x < needle) ->
    (forall i x, high < i -> col_at haystack i = Some x -> needle < x) ->
    exists r, binarySearch_loop fuel haystack needle low high = Normal r /\
              low - 1 <= r <= high /\ hit haystack needle r.
Proof.
  intros Hsorted.
  induction fuel as [|fuel IH]; intros needle low high Hlow Hhigh Hlen Hle Hfuel Hb Ha.
  - simpl. destruct (low <=? high) eqn:E; [apply Z.leb_le in E; lia|].
    apply Z.leb_gt in E. exists (low - 1). split; [reflexivity|]. split; [lia|].
    right. split; [lia|]. split; intros i x Hi Hx; [apply (Hb i x)|apply (Ha i x)]; assumption || lia.
  - cbn [binarySearch_loop]. destruct (low <=? high) eqn:E.
    2:{ apply Z.leb_gt in E. exists (low - 1). split; [reflexivity|]. split; [lia|].
        right. split; [lia|].
        split; intros i x Hi Hx; [apply (Hb i x)|apply (Ha i x)]; assumption || lia. }
    apply Z.leb_le in E. rewrite shr_1 by lia.
    assert (Hmid : low <= low + (high - low) / 2 <= high).
    { pose proof (Z.div_pos (high - low) 2).
      assert ((high - low) / 2 <= high - low) by (apply Z.div_le_upper_bound; lia). lia. }
    set (mid := low + (high - low) / 2) in *.
    destruct (at_index_Some haystack mid) as [item Hitem]; [lia|]. rewrite Hitem.
    assert (Hcol : col_at haystack mid = Some (column item))
      by (unfold col_at; rewrite Hitem; reflexivity).
    destruct (column item - needle =? 0) eqn:E0.
    { apply Z.eqb_eq in E0. exists mid. split; [reflexivity|]. split; [lia|].
      left. unfold exact. rewrite Hcol. f_equal. lia. }
    apply Z.eqb_neq in E0.
    destruct (column item - needle <? 0) eqn:E1.
    + apply Z.ltb_lt in E1.
      destruct (IH needle (mid + 1) high) as (r & Er & Hr & Hhit); try lia; try assumption.
      * intros i x Hi Hx.
        assert (x <= column item) by (apply (sorted_col_at Hsorted i mid); assumption || lia).
        lia.
      * exists r. split; [exact Er|]. split; [lia|exact Hhit].
    + apply Z.ltb_ge in E1.
      destruct (IH needle low (mid - 1)) as (r & Er & Hr & Hhit); try lia; try assumption.
      * intros i x Hi Hx.
        assert (column item <= x) by (apply (sorted_col_at Hsorted mid i); assumption || lia).
        lia.
      * exists r. split; [exact Er|]. split; [lia|exact Hhit].
Qed.

Lemma binarySearch_hit needle low high :
  sorted_by_column haystack = true ->
  0 <= low -> high < len -> len <= 2 ^ 31 -> low <= high + 1 ->
  (forall i x, i < low -> col_at haystack i = Some x -> x < needle) ->
  (forall i x, high < i -> col_at haystack i = Some x -> needle < x) ->
  exists r, binarySearch haystack needle low high = Normal r /\
            hit haystack needle r.
Proof.
  intros Hs Hlow Hhigh Hlen Hle Hb Ha. unfold binarySearch.
  destruct (binarySearch_loop_hit (Z.to_nat (high - low + 1)) Hs needle low high)
    as (r & Er & _ & Hhit); try assumption; [lia|].
  exists r. split; assumption.
Qed.

(** The cold search over the whole row. *)
Lemma binarySearch_cold needle :
  sorted_by_column haystack = true -> len <= 2 ^ 31 ->
  exists c, binarySearch haystack needle 0 (len - 1) = Normal c /\
            hit haystack needle c.
Proof.
  intros Hs Hlen. apply binarySearch_hit; try assumption; try lia.
  - intros i x Hi Hx. apply col_at_range in Hx. lia.
  - intros i x Hi Hx. apply col_at_range in Hx. lia.
Qed.

Lemma hit_range needle r : hit haystack needle r -> -1 <= r < len.
Proof.
  intros [Hx|(Hr & _)]; [|exact Hr]. apply col_at_range in Hx. lia.
Qed.

(** The memoized search finds the needle's place as well, and leaves a memo
    that holds it. *)
Lemma memoizedBinarySearch_hit needle state key :
  sorted_by_column haystack = true -> len <= 2 ^ 31 ->
  memo_ok haystack key state ->
  exists r state',
    memoizedBinarySearch haystack needle state key = (Normal r, state') /\
    hit haystack needle r /\ memo_ok haystack key state'.
Proof.
  intros Hs Hlen Hmemo. unfold memoizedBinarySearch.
  destruct (key =? lastKey state) eqn:Ek.
  - apply Z.eqb_eq in Ek. symmetry in Ek. specialize (Hmemo Ek).
    pose proof (hit_range _ _ Hmemo) as Hr.
    destruct (needle =? lastNeedle state) eqn:En.
    { apply Z.eqb_eq in En. subst needle. exists (lastIndex state), state.
      split; [reflexivity|]. split; [exact Hmemo|]. intros _. exact Hmemo. }
    apply Z.eqb_neq in En.
    rewrite Z.geb_leb.
    destruct (lastNeedle state <=? needle) eqn:Eg.
    + assert (Hgt : lastNeedle state < needle) by (apply Z.leb_le in Eg; lia).
      destruct (binarySearch_hit needle (Z.max (lastIndex state) 0) (len - 1))
        as (r & Er & Hhit); try assumption; try lia.
      * intros i x Hi Hx.
        pose proof (col_at_range _ _ Hx) as Hir.
        assert (Hidx : 0 <= lastIndex state) by lia.
        destruct Hmemo as [Hex|(_ & Hb & _)].
        -- assert (x <= lastNeedle state)
             by (apply (sorted_col_at Hs i (lastIndex state)); assumption || lia).
           lia.
        -- assert (x < lastNeedle state) by (apply (Hb i x); assumption || lia). lia.
      * intros i x Hi Hx. apply col_at_range in Hx. lia.
      * rewrite Er. exists r, (mkMemo key needle r).
        split; [reflexivity|]. split; [exact Hhit|]. intros _. exact Hhit.
    + assert (Hlt : needle < lastNeedle state) by (apply Z.leb_gt in Eg; lia).
      destruct (binarySearch_hit needle 0 (lastIndex state))
        as (r & Er & Hhit); try assumption; try lia.
      * intros i x Hi Hx. apply col_at_range in Hx. lia.
      * intros i x Hi Hx.
        destruct Hmemo as [Hex|(_ & _ & Ha)].
        -- assert (lastNeedle state <= x)
             by (apply (sorted_col_at Hs (lastIndex state) i); assumption || lia).
           lia.
        -- assert (lastNeedle state < x) by (apply (Ha i x); assumption || lia). lia.
      * rewrite Er. exists r, (mkMemo key needle r).
        split; [reflexivity|]. split; [exact Hhit|]. intros _. exact Hhit.
  - destruct (binarySearch_cold needle Hs Hlen) as (r & Er & Hhit).
    rewrite Er. exists r, (mkMemo key needle r).
    split; [reflexivity|]. split; [exact Hhit|]. intros _. exact Hhit.
Qed.

Lemma memo_ok_fresh key : key <> -1 -> memo_ok haystack key memoizedState.
Proof. intros Hk E. simpl in E. congruence. Qed.

Lemma run_queries_agree needles :
  forall state key,
    sorted_by_column haystack = true -> len <= 2 ^ 31 ->
    memo_ok haystack key state ->
    Forall2 (agrees_with_cold haystack) needles (run_queries haystack key needles state).
Proof.
  induction needles as [|needle needles IH]; intros state key Hs Hlen Hmemo;
    [constructor|].
  cbn [run_queries].
  destruct (memoizedBinarySearch_hit needle state key Hs Hlen Hmemo)
    as (r & state' & Er & Hhit & Hmemo').
  rewrite Er. constructor; [|apply IH; assumption].
  destruct (binarySearch_cold needle Hs Hlen) as (c & Ec & Hc).
  exists r, c. split; [reflexivity|]. split; [exact Ec|].
  destruct (Z.eq_dec r c) as [->|Hne]; [left; reflexivity|right].
  destruct (hit_agree _ _ _ Hhit Hc) as [E|[Hx Hx']]; [contradiction|].
  split; [exact Hne|]. split; assumption.
Qed.

End Search.

End SearchFacts.

Module BiasFacts.
Import JS JSFacts Codec BinarySearch TraceMapping SearchFacts.

Section Bias.

Context {A : Type} `{HasColumn A}.

Variable haystack : list A.

Local Abbreviation len := (Z.of_nat (length haystack)).

Lemma found_exact needle r : found haystack needle r = true <-> exact haystack needle r.
Proof.
  unfold found, exact, col_at. destruct (at_index haystack r) as [item|]; simpl.
  - rewrite Z.eqb_eq. split; [intros ->; reflexivity|congruence].
  - split; discriminate.
Qed.

Lemma col_at_nat (i : nat) : col_at haystack (Z.of_nat i) = column <$> haystack !! i.
Proof.
  unfold col_at, at_index. destruct (0 <=? Z.of_nat i) eqn:E; [|apply Z.leb_gt in E; lia].
  rewrite Nat2Z.id. reflexivity.
Qed.

Lemma lowerBound_loop_spec needle (n : nat) :
  (n <= length haystack)%nat ->
  exists l : nat,
    lowerBound_loop haystack needle n = Z.of_nat l /\ (l <= n)%nat /\
    (forall i, (l <= i < n)%nat -> col_at haystack (Z.of_nat i) = Some needle) /\
    (l = 0%nat \/ exists x, col_at haystack (Z.of_nat l - 1) = Some x /\ x <> needle).
Proof.
  induction n as [|m IH]; intros Hn.
  - exists 0%nat. repeat split; [lia| |left; reflexivity]. intros i Hi. lia.
  - cbn [lowerBound_loop].
    destruct (haystack !! m) as [item|] eqn:Em.
    2:{ apply lookup_ge_None in Em. lia. }
    destruct (column item =? needle) eqn:Ec.
    + apply Z.eqb_eq in Ec. destruct IH as (l & El & Hl & Hrun & Hstop); [lia|].
      exists l. split; [exact El|]. split; [lia|]. split; [|exact Hstop].
      intros i Hi. destruct (Nat.eq_dec i m) as [->|Hne].
      * rewrite col_at_nat, Em. simpl. congruence.
      * apply Hrun. lia.
    + apply Z.eqb_neq in Ec. exists (S m). split; [reflexivity|]. split; [lia|].
      split; [intros i Hi; lia|]. right. exists (column item).
      replace (Z.of_nat (S m) - 1) with (Z.of_nat m) by lia.
      rewrite col_at_nat, Em. split; [reflexivity|exact Ec].
Qed.

(** In a sorted row [lowerBound] takes an index at the needle's column to
    the least index at that column. *)
Lemma lowerBound_least needle r :
  sorted_by_column haystack = true -> exact haystack needle r ->
  least_eq haystack needle (lowerBound haystack needle r).
Proof.
  intros Hs Hx. pose proof (col_at_range _ _ _ Hx) as Hr.
  unfold lowerBound. destruct (r <? 0) eqn:E; [apply Z.ltb_lt in E; lia|].
  destruct (lowerBound_loop_spec needle (Z.to_nat r)) as (l & El & Hl & Hrun & Hstop); [lia|].
  rewrite El. split.
  - destruct (Nat.eq_dec l (Z.to_nat r)) as [->|Hne].
    + rewrite Z2Nat.id by lia. exact Hx.
    + apply Hrun. lia.
  - intros i Hi. destruct (Z_le_gt_dec (Z.of_nat l) i) as [Hle|Hgt]; [exact Hle|].
    exfalso. destruct Hstop as [->|(x & Hprev & Hne)]; [apply col_at_range in Hi; lia|].
    assert (needle <= x)
      by (apply (sorted_col_at _ Hs i (Z.of_nat l - 1)); assumption || lia).
    assert (x <= needle)
      by (apply (sorted_col_at _ Hs (Z.of_nat l - 1) r); assumption || lia).
    lia.
Qed.

Lemma gap_not_occurs needle r : gap haystack needle r -> ~ occurs haystack needle.
Proof. intros Hg [i Hi]. eapply exact_not_gap; eassumption. Qed.

Lemma exact_occurs needle r : exact haystack needle r -> occurs haystack needle.
Proof. intros Hx. exists r. exact Hx. Qed.

Lemma gap_greatest_le needle r : gap haystack needle r -> greatest_le haystack needle r.
Proof.
  intros (Hr & Hb & Ha). split.
  - destruct (Z.eq_dec r (-1)) as [->|Hne]; [left; reflexivity|right].
    destruct (col_at_Some haystack r) as [x Hx]; [lia|].
    exists x. split; [exact Hx|]. pose proof (Hb r x (Z.le_refl _) Hx). lia.
  - intros i x Hi Hle. destruct (Z_le_gt_dec i r) as [|Hgt]; [assumption|].
    assert (needle < x) by (apply (Ha i x); assumption || lia). lia.
Qed.

Lemma gap_least_ge needle r :
  gap haystack needle r -> least_ge haystack needle (in_row haystack (r + 1)).
Proof.
  intros (Hr & Hb & Ha). unfold in_row.
  destruct (r + 1 =? -1) eqn:E1; [apply Z.eqb_eq in E1; lia|].
  destruct (r + 1 =? len) eqn:E2; cbn [orb].
  - apply Z.eqb_eq in E2. split; [left; reflexivity|].
    intros i x Hi Hle. pose proof (col_at_range _ _ _ Hi).
    assert (x < needle) by (apply (Hb i x); assumption || lia). lia.
  - apply Z.eqb_neq in E2. split.
    + right. destruct (col_at_Some haystack (r + 1)) as [x Hx]; [lia|].
      exists x. split; [exact Hx|].
      assert (needle < x) by (apply (Ha (r + 1) x); assumption || lia). lia.
    + intros i x Hi Hle. split; [lia|].
      destruct (Z_le_gt_dec (r + 1) i) as [|Hgt]; [assumption|].
      assert (x < needle) by (apply (Hb i x); assumption || lia). lia.
Qed.

Section Tracer.

Variable upperBound : forall (A : Type), HasColumn A -> list A -> Z -> Z -> Z.

Lemma traceSegmentInternal_glb memo line column :
  sorted_by_column haystack = true -> len <= 2 ^ 31 ->
  memo_ok haystack line memo ->
  exists r memo',
    traceSegmentInternal upperBound haystack memo line column GREATEST_LOWER_BOUND
    = (Normal r, memo') /\
    memo_ok haystack line memo' /\ glb_result haystack column r.
Proof.
  intros Hs Hlen Hmemo. unfold traceSegmentInternal.
  destruct (memoizedBinarySearch_hit haystack column memo line Hs Hlen Hmemo)
    as (r & memo' & Er & Hhit & Hmemo').
  rewrite Er. change (GREATEST_LOWER_BOUND =? LEAST_UPPER_BOUND) with false. cbv iota.
  destruct (found haystack column r) eqn:Ef.
  - apply found_exact in Ef.
    pose proof (lowerBound_least column r Hs Ef) as Hleast.
    pose proof (col_at_range _ _ _ (proj1 Hleast)) as Hl.
    set (l := lowerBound haystack column r) in *.
    destruct (l =? -1) eqn:E1; [apply Z.eqb_eq in E1; lia|].
    destruct (l =? len) eqn:E2; [apply Z.eqb_eq in E2; lia|]. cbn [orb].
    exists l, memo'. split; [reflexivity|]. split; [exact Hmemo'|].
    split; [intros _; exact Hleast|].
    intros Hno. destruct Hno. eapply exact_occurs, Ef.
  - assert (Hg : gap haystack column r).
    { destruct Hhit as [Hx|Hg]; [|exact Hg].
      apply found_exact in Hx. congruence. }
    assert (Hres : glb_result haystack column r).
    { split; [intros Ho; destruct (gap_not_occurs _ _ Hg Ho)|].
      intros _. apply gap_greatest_le, Hg. }
    destruct Hg as (Hr & _).
    destruct (r =? -1) eqn:E1.
    + apply Z.eqb_eq in E1. subst r. cbn [orb].
      exists (-1), memo'. split; [reflexivity|]. split; assumption.
    + destruct (r =? len) eqn:E2; [apply Z.eqb_eq in E2; lia|]. cbn [orb].
      exists r, memo'. split; [reflexivity|]. split; assumption.
Qed.

Lemma traceSegmentInternal_lub memo line column :
  sorted_by_column haystack = true -> len <= 2 ^ 31 ->
  memo_ok haystack line memo ->
  exists r memo',
    traceSegmentInternal upperBound haystack memo line column LEAST_UPPER_BOUND
    = (Normal r, memo') /\
    memo_ok haystack line memo' /\ lub_result upperBound haystack column r.
Proof.
  intros Hs Hlen Hmemo. unfold traceSegmentInternal.
  destruct (memoizedBinarySearch_hit haystack column memo line Hs Hlen Hmemo)
    as (r & memo' & Er & Hhit & Hmemo').
  rewrite Er. change (LEAST_UPPER_BOUND =? LEAST_UPPER_BOUND) with true. cbv iota.
  destruct (found haystack column r) eqn:Ef.
  - apply found_exact in Ef.
    exists (in_row haystack (upperBound A _ haystack column r)), memo'.
    split; [unfold in_row; destruct (_ || _); reflexivity|].
    split; [exact Hmemo'|]. split.
    + intros Hno. destruct Hno. eapply exact_occurs, Ef.
    + intros _. exists r. split; [exact Ef|reflexivity].
  - assert (Hg : gap haystack column r).
    { destruct Hhit as [Hx|Hg]; [|exact Hg].
      apply found_exact in Hx. congruence. }
    exists (in_row haystack (r + 1)), memo'.
    split; [unfold in_row; destruct (_ || _); reflexivity|].
    split; [exact Hmemo'|]. split.
    + intros _. apply gap_least_ge, Hg.
    + intros Ho. destruct (gap_not_occurs _ _ Hg Ho).
Qed.

End Tracer.

Lemma occurs_dec needle : occurs haystack needle \/ ~ occurs haystack needle.
Proof.
  destruct (decide (needle ∈ column <$> haystack)) as [Hin|Hout].
  - left. apply list_elem_of_lookup in Hin as [i Hi].
    exists (Z.of_nat i). rewrite col_at_nat, <- list_lookup_fmap. exact Hi.
  - right. intros [i Hi]. apply Hout.
    pose proof (col_at_range _ _ _ Hi) as Hr.
    apply list_elem_of_lookup. exists (Z.to_nat i).
    rewrite list_lookup_fmap, <- col_at_nat, Z2Nat.id by lia. exact Hi.
Qed.

(** *** [upperBound] *)

Lemma upperBound_loop_spec needle (rest : list A) :
  forall index,
  exists k : nat,
    upperBound_loop rest needle index = index + Z.of_nat k /\ (k <= length rest)%nat /\
    (forall j, (j < k)%nat -> column <$> rest !! j = Some needle) /\
    (k = length rest \/ exists x, column <$> rest !! k = Some x /\ x <> needle).
Proof.
  induction rest as [|item rest IH]; intros index.
  - exists 0%nat. cbn [upperBound_loop length]. split; [lia|]. split; [lia|].
    split; [intros j Hj; lia|left; reflexivity].
  - cbn [upperBound_loop]. destruct (column item =? needle) eqn:Ec.
    + apply Z.eqb_eq in Ec. destruct (IH (index + 1)) as (k & Ek & Hk & Hrun & Hstop).
      exists (S k). split; [rewrite Ek; lia|]. split; [simpl; lia|]. split.
      * intros [|j] Hj; [simpl; congruence|]. apply Hrun. lia.
      * destruct Hstop as [->|Hstop]; [left; reflexivity|right; exact Hstop].
    + apply Z.eqb_neq in Ec. exists 0%nat. split; [lia|]. split; [simpl; lia|].
      split; [intros j Hj; lia|]. right. exists (column item). split; [reflexivity|exact Ec].
Qed.

(** In a sorted row [upperBound] takes an index at the needle's column to
    the greatest index at that column. *)
Lemma upperBound_spec_greatest needle r :
  sorted_by_column haystack = true -> exact haystack needle r ->
  greatest_eq haystack needle (upperBound_spec haystack needle r).
Proof.
  intros Hs Hx. pose proof (col_at_range _ _ _ Hx) as Hr.
  unfold upperBound_spec. destruct (r <? 0) eqn:E; [apply Z.ltb_lt in E; lia|].
  destruct (upperBound_loop_spec needle (drop (S (Z.to_nat r)) haystack) r)
    as (k & Ek & Hk & Hrun & Hstop).
  rewrite Ek. rewrite length_drop in *.
  assert (Hat : forall j : nat,
    column <$> drop (S (Z.to_nat r)) haystack !! j = col_at haystack (r + 1 + Z.of_nat j)).
  { intros j. rewrite lookup_drop.
    replace (r + 1 + Z.of_nat j) with (Z.of_nat (S (Z.to_nat r) + j)) by lia.
    rewrite col_at_nat. reflexivity. }
  split.
  - destruct k as [|k]; [rewrite Z.add_0_r; exact Hx|].
    replace (r + Z.of_nat (S k)) with (r + 1 + Z.of_nat k) by lia.
    rewrite <- Hat. apply Hrun. lia.
  - intros i Hi. destruct (Z_le_gt_dec i (r + Z.of_nat k)) as [Hle|Hgt]; [exact Hle|].
    exfalso. pose proof (col_at_range _ _ _ Hi) as Ri.
    destruct Hstop as [->|(x & Hnext & Hne)]; [lia|].
    rewrite Hat in Hnext.
    assert (needle <= x)
      by (apply (sorted_col_at _ Hs r (r + 1 + Z.of_nat k)); assumption || lia).
    assert (x <= needle)
      by (apply (sorted_col_at _ Hs (r + 1 + Z.of_nat k) i); assumption || lia).
    lia.
Qed.

(** With at most one segment at the needle's column, the index at that
    column is the greatest index whose column is at most the needle and the
    least index whose column is at least the needle. *)
Lemma once_greatest_le needle r :
  sorted_by_column haystack = true -> at_most_once haystack needle ->
  exact haystack needle r -> greatest_le haystack needle r.
Proof.
  intros Hs Honce Hx. split; [right; exists needle; split; [exact Hx|lia]|].
  intros i x Hi Hle. destruct (Z_le_gt_dec i r) as [|Hgt]; [assumption|].
  assert (needle <= x) by (apply (sorted_col_at _ Hs r i); assumption || lia).
  assert (x = needle) by lia. subst x. rewrite (Honce i r Hi Hx). lia.
Qed.

Lemma once_least_ge needle r :
  sorted_by_column haystack = true -> at_most_once haystack needle ->
  exact haystack needle r -> least_ge haystack needle r.
Proof.
  intros Hs Honce Hx. pose proof (col_at_range _ _ _ Hx) as Hr.
  split; [right; exists needle; split; [exact Hx|lia]|].
  intros i x Hi Hle. split; [lia|].
  destruct (Z_le_gt_dec r i) as [|Hgt]; [assumption|].
  assert (x <= needle) by (apply (sorted_col_at _ Hs i r); assumption || lia).
  assert (x = needle) by lia. subst x. rewrite (Honce i r Hi Hx). lia.
Qed.

(** The lookup with the [upperBound] above. *)
Lemma traceSegmentInternal_lub_found memo line column :
  sorted_by_column haystack = true -> len <= 2 ^ 31 ->
  memo_ok haystack line memo ->
  exists r memo',
    traceSegmentInternal (@upperBound_spec) haystack memo line column LEAST_UPPER_BOUND
    = (Normal r, memo') /\
    memo_ok haystack line memo' /\ lub_found haystack column r.
Proof.
  intros Hs Hlen Hmemo.
  destruct (traceSegmentInternal_lub (@upperBound_spec) memo line column Hs Hlen Hmemo)
    as (r & memo' & Er & Hmemo' & Hno & Hyes).
  exists r, memo'. split; [exact Er|]. split; [exact Hmemo'|]. split; [|exact Hno].
  intros Ho. destruct (Hyes Ho) as (i & Hi & ->).
  pose proof (upperBound_spec_greatest column i Hs Hi) as Hg.
  pose proof (col_at_range _ _ _ (proj1 Hg)) as Hu.
  unfold in_row.
  destruct (upperBound_spec haystack column i =? -1) eqn:E1; [apply Z.eqb_eq in E1; lia|].
  destruct (upperBound_spec haystack column i =? len) eqn:E2; [apply Z.eqb_eq in E2; lia|].
  exact Hg.
Qed.

End Bias.

End BiasFacts.

(** ** The tracer's queries *)

Module TracerFacts.
Import JS JSFacts Codec BinarySearch TraceMapping SearchFacts BiasFacts.

Section Ranges.

Context {A : Type} `{HasColumn A}.

Variable haystack : list A.

Local Abbreviation len := (Z.of_nat (length haystack)).

Lemma binarySearch_range needle low high :
  0 <= low -> high < len -> len <= 2 ^ 31 -> low <= high + 1 ->
  exists r, binarySearch haystack needle low high = Normal r /\ low - 1 <= r <= high.
Proof.
  intros. unfold binarySearch. apply binarySearch_loop_range; try assumption. lia.
Qed.

(** The memoized search returns an index of the row or -1, whatever the
    order of the row, and leaves it in the memo under the key. *)
Lemma memoizedBinarySearch_range needle state key :
  len <= 2 ^ 31 ->
  (lastKey state = key -> -1 <= lastIndex state < len) ->
  exists r state',
    memoizedBinarySearch haystack needle state key = (Normal r, state') /\
    -1 <= r < len /\ lastKey state' = key /\ lastIndex state' = r.
Proof.
  intros Hlen Hmemo. unfold memoizedBinarySearch.
  destruct (key =? lastKey state) eqn:Ek.
  - apply Z.eqb_eq in Ek. symmetry in Ek. specialize (Hmemo Ek).
    destruct (needle =? lastNeedle state).
    { exists (lastIndex state), state. repeat split; assumption || lia. }
    destruct (needle >=? lastNeedle state).
    + destruct (binarySearch_range needle (Z.max (lastIndex state) 0) (len - 1))
        as (r & Er & Hr); try lia.
      rewrite Er. exists r, (mkMemo key needle r). repeat split; simpl; lia.
    + destruct (binarySearch_range needle 0 (lastIndex state))
        as (r & Er & Hr); try lia.
      rewrite Er. exists r, (mkMemo key needle r). repeat split; simpl; lia.
  - destruct (binarySearch_range needle 0 (len - 1)) as (r & Er & Hr); try lia.
    rewrite Er. exists r, (mkMemo key needle r). repeat split; simpl; lia.
Qed.

Lemma lowerBound_range needle r :
  0 <= r < len -> 0 <= lowerBound haystack needle r <= r.
Proof.
  intros Hr. unfold lowerBound. destruct (r <? 0) eqn:E; [apply Z.ltb_lt in E; lia|].
  destruct (lowerBound_loop_spec haystack needle (Z.to_nat r)) as (l & El & Hl & _); [lia|].
  rewrite El. lia.
Qed.

Lemma upperBound_loop_range (rest : list A) needle index :
  index <= upperBound_loop rest needle index <= index + Z.of_nat (length rest).
Proof.
  revert index. induction rest as [|item rest IH]; intros index; simpl; [lia|].
  destruct (column item =? needle); [|lia].
  specialize (IH (index + 1)). lia.
Qed.

Lemma upperBound_spec_range needle index :
  0 <= index < len -> -1 <= upperBound_spec haystack needle index <= len.
Proof.
  intros Hi. unfold upperBound_spec.
  destruct (index <? 0) eqn:E; [apply Z.ltb_lt in E; lia|].
  pose proof (upperBound_loop_range (drop (S (Z.to_nat index)) haystack) needle index) as Hr.
  rewrite length_drop in Hr. lia.
Qed.

Variable upperBound : forall (A : Type), HasColumn A -> list A -> Z -> Z -> Z.

Hypothesis upperBound_ok : upperBound_in_range upperBound.

(** The lookup returns -1 or an index of the row. *)
Lemma traceSegmentInternal_range memo line column bias :
  len <= 2 ^ 31 ->
  (lastKey memo = line -> -1 <= lastIndex memo < len) ->
  exists r memo',
    traceSegmentInternal upperBound haystack memo line column bias = (Normal r, memo') /\
    (r = -1 \/ 0 <= r < len) /\
    lastKey memo' = line /\ -1 <= lastIndex memo' < len.
Proof.
  intros Hlen Hmemo. unfold traceSegmentInternal.
  destruct (memoizedBinarySearch_range column memo line Hlen Hmemo)
    as (r & memo' & Er & Hr & Hk & Hi).
  rewrite Er.
  set (index :=
    if found haystack column r
    then if bias =? LEAST_UPPER_BOUND then upperBound A _ haystack column r
         else lowerBound haystack column r
    else if bias =? LEAST_UPPER_BOUND then r + 1 else r).
  assert (Hindex : -1 <= index <= len).
  { unfold index. destruct (found haystack column r) eqn:Ef.
    - apply found_exact in Ef. apply col_at_range in Ef.
      destruct (bias =? LEAST_UPPER_BOUND).
      + apply upperBound_ok. exact Ef.
      + pose proof (lowerBound_range column r Ef). lia.
    - destruct (bias =? LEAST_UPPER_BOUND); lia. }
  destruct (index =? -1) eqn:E1; cbn [orb].
  { exists (-1), memo'. repeat split; lia. }
  destruct (index =? len) eqn:E2.
  { exists (-1), memo'. repeat split; lia. }
  apply Z.eqb_neq in E1, E2.
  exists index, memo'. repeat split; lia.
Qed.

End Ranges.

Lemma upperBound_spec_in_range : upperBound_in_range (@upperBound_spec).
Proof. intros A H segments needle index Hi. apply upperBound_spec_range, Hi. Qed.

Lemma indexOf_from_range {B} `{EqDecision B} (l : list B) (x : B) i :
  indexOf_from i l x = -1 \/ i <= indexOf_from i l x < i + Z.of_nat (length l).
Proof.
  revert i. induction l as [|y l IH]; intros i; simpl; [left; reflexivity|].
  destruct (decide (y = x)); [right; lia|].
  destruct (IH (i + 1)) as [E|Hr]; [left; exact E|right; lia].
Qed.

Lemma indexOf_range {B} `{EqDecision B} (l : list B) (x : B) :
  indexOf l x = -1 \/ 0 <= indexOf l x < Z.of_nat (length l).
Proof. unfold indexOf. pose proof (indexOf_from_range l x 0). lia. Qed.

(** *** The by-source index *)

Lemma rev_insert_length a l : length (rev_insert a l) = S (length l).
Proof.
  induction l as [|b l IH]; [reflexivity|]. simpl.
  destruct (rev_column b <=? rev_column a); simpl; lia.
Qed.

Lemma rev_sort_length l : length (rev_sort l) = length l.
Proof.
  unfold rev_sort.
  assert (G : forall acc, length (fold_left (fun acc a => rev_insert a acc) l acc)
                          = (length acc + length l)%nat).
  { induction l as [|a l IH]; intros acc; simpl; [lia|].
    rewrite IH, rev_insert_length. lia. }
  rewrite G. reflexivity.
Qed.

(** Every row of the index under construction holds at most [n] segments. *)
Definition rows_within (n : nat) (acc : list Source) : Prop :=
  forall (i : nat) (rows : Source) (l : Z) segments,
    acc !! i = Some rows -> rows !! l = Some segments -> (length segments <= n)%nat.

Lemma bySource_add_length genLine acc seg :
  length (bySource_add genLine acc seg) = length acc.
Proof.
  unfold bySource_add. destruct seg; try reflexivity;
    destruct (_ && _); try reflexivity; apply length_alter.
Qed.

Lemma bySource_add_within n genLine acc seg :
  rows_within n acc -> rows_within (S n) (bySource_add genLine acc seg).
Proof.
  intros Hacc.
  assert (Hweak : rows_within (S n) acc).
  { intros i rows l segments Hi Hl. specialize (Hacc i rows l segments Hi Hl). lia. }
  assert (Hstep : forall src l0 k c,
    rows_within (S n)
      (alter (fun rows : Source =>
                <[l0 := default [] (rows !! l0) ++ [mkRev k genLine c]]> rows)
         (Z.to_nat src) acc)).
  { intros src l0 k c i rows l segments Hi Hl.
    destruct (decide (i = Z.to_nat src)) as [->|Hne].
    - rewrite list_lookup_alter_eq in Hi.
      destruct (acc !! Z.to_nat src) as [rows0|] eqn:E0; [|discriminate].
      simpl in Hi. injection Hi as <-.
      destruct (decide (l = l0)) as [->|Hnl].
      + rewrite lookup_insert_eq in Hl. injection Hl as <-.
        rewrite length_app. simpl.
        destruct (rows0 !! l0) as [segs0|] eqn:E1; simpl; [|lia].
        specialize (Hacc _ _ _ _ E0 E1). lia.
      + rewrite lookup_insert_ne in Hl by congruence.
        apply (Hweak _ _ _ _ E0 Hl).
    - rewrite list_lookup_alter_ne in Hi by congruence.
      apply (Hweak _ _ _ _ Hi Hl). }
  unfold bySource_add. destruct seg; [exact Hweak| |];
    destruct (_ && _); try exact Hweak; apply Hstep.
Qed.

Lemma bySource_line_within line :
  forall n genLine acc,
    rows_within n acc ->
    rows_within (n + length line) (fold_left (bySource_add genLine) line acc).
Proof.
  induction line as [|seg line IH]; intros n genLine acc Hacc; simpl.
  - rewrite Nat.add_0_r. exact Hacc.
  - replace (n + S (length line))%nat with (S n + length line)%nat by lia.
    apply IH, bySource_add_within, Hacc.
Qed.

Lemma bySource_line_length line genLine acc :
  length (fold_left (bySource_add genLine) line acc) = length acc.
Proof.
  revert acc. induction line as [|seg line IH]; intros acc; simpl; [reflexivity|].
  rewrite IH. apply bySource_add_length.
Qed.

Lemma bySource_lines_within decoded :
  forall n genLine acc,
    rows_within n acc ->
    rows_within (n + length (concat decoded)) (bySource_lines genLine decoded acc).
Proof.
  induction decoded as [|line decoded IH]; intros n genLine acc Hacc; simpl.
  - rewrite Nat.add_0_r. exact Hacc.
  - rewrite length_app.
    replace (n + (length line + length (concat decoded)))%nat
      with ((n + length line) + length (concat decoded))%nat by lia.
    apply IH, bySource_line_within, Hacc.
Qed.

Lemma bySource_lines_length decoded genLine acc :
  length (bySource_lines genLine decoded acc) = length acc.
Proof.
  revert genLine acc. induction decoded as [|line decoded IH]; intros genLine acc; simpl;
    [reflexivity|].
  rewrite IH. apply bySource_line_length.
Qed.

Lemma buildBySources_length decoded memos :
  length (buildBySources decoded memos) = length memos.
Proof.
  unfold buildBySources. rewrite length_map, bySource_lines_length, length_replicate.
  reflexivity.
Qed.

Lemma buildBySources_within decoded memos :
  rows_within (length (concat decoded)) (buildBySources decoded memos).
Proof.
  intros i rows l segments Hi Hl. unfold buildBySources in Hi.
  rewrite list_lookup_fmap in Hi.
  destruct (bySource_lines 0 decoded (replicate (length memos) ∅) !! i)
    as [rows0|] eqn:E0; [|discriminate].
  simpl in Hi. injection Hi as <-.
  rewrite lookup_fmap in Hl.
  destruct (rows0 !! l) as [segs0|] eqn:E1; [|discriminate].
  simpl in Hl. injection Hl as <-. rewrite rev_sort_length.
  assert (Hinit : rows_within 0 (replicate (length memos) (∅ : Source))).
  { intros i' rows' l' segments' Hi' Hl'.
    apply lookup_replicate in Hi' as [-> _]. rewrite lookup_empty in Hl'. discriminate. }
  apply (bySource_lines_within decoded 0 0 _ Hinit i rows0 l segs0 E0 E1).
Qed.

End TracerFacts.

Module QueryFacts.
Import JS JSFacts Codec BinarySearch TraceMapping SearchFacts BiasFacts TracerFacts.

Lemma row_within_concat {B} (rows : list (list B)) i row :
  at_index rows i = Some row -> (length row <= length (concat rows))%nat.
Proof.
  unfold at_index. destruct (0 <=? i); [|discriminate].
  generalize (Z.to_nat i). clear i. intros i. revert i.
  induction rows as [|r rows IH]; intros i Hi; [discriminate|].
  simpl. rewrite length_app. destruct i as [|i]; simpl in Hi.
  - injection Hi as ->. lia.
  - specialize (IH i Hi). lia.
Qed.

Lemma decodedMappings_ok map :
  map_ok map ->
  exists decoded map1,
    decoded_of map = Some decoded /\
    decodedMappings map = (Normal decoded, map1) /\
    map_ok map1 /\ decoded_of map1 = Some decoded /\
    sources map1 = sources map /\ resolvedSources map1 = resolvedSources map /\
    names map1 = names map /\ _decodedMemo map1 = _decodedMemo map /\
    _bySources map1 = _bySources map /\ _bySourceMemos map1 = _bySourceMemos map.
Proof.
  intros [(decoded & Ed & Hn & Hsrc & Hmemo) Hres Hby].
  unfold decodedMappings. unfold decoded_of in Ed.
  destruct (_decoded map) as [d|] eqn:E.
  - injection Ed as ->. exists decoded, map.
    assert (Ed : decoded_of map = Some decoded) by (unfold decoded_of; rewrite E; reflexivity).
    split; [exact Ed|]. split; [reflexivity|].
    split; [|split_and!; try reflexivity; exact Ed].
    constructor; [|assumption|assumption].
    exists decoded. split_and!; assumption.
  - destruct (_encoded map) as [e|] eqn:E'; [|discriminate].
    simpl in Ed. injection Ed as <-.
    eexists _, _. split; [unfold decoded_of; rewrite E, E'; reflexivity|].
    split; [reflexivity|].
    split; [|split_and!; reflexivity].
    constructor;
      cbn [sources resolvedSources _bySources _bySourceMemos _decodedMemo];
      [|assumption|assumption].
    exists (decode e). split_and!; try assumption. reflexivity.
Qed.

Section Queries.

Variable upperBound : forall (A : Type), HasColumn A -> list A -> Z -> Z -> Z.

Hypothesis upperBound_ok : upperBound_in_range upperBound.

Definition null_original : OriginalMapping := OMapping None None None None.

Lemma originalPositionFor_ok map needle :
  map_ok map ->
  map_ok (snd (originalPositionFor upperBound map needle)) /\
  (line needle < 1 ->
   fst (originalPositionFor upperBound map needle) = Throw (Error LINE_GTR_ZERO)) /\
  (1 <= line needle -> column_ needle < 0 ->
   fst (originalPositionFor upperBound map needle) = Throw (Error COL_GTR_EQ_ZERO)) /\
  (1 <= line needle -> 0 <= column_ needle ->
   exists m,
     fst (originalPositionFor upperBound map needle) = Normal m /\
     (forall decoded,
         decoded_of map = Some decoded ->
         Z.of_nat (length decoded) < line needle -> m = null_original)).
Proof.
  intros Hok. unfold originalPositionFor.
  destruct (line needle - 1 <? 0) eqn:El.
  { apply Z.ltb_lt in El. cbn [fst snd]. split_and!; try assumption; intros; lia || reflexivity. }
  apply Z.ltb_ge in El.
  destruct (column_ needle <? 0) eqn:Ec.
  { apply Z.ltb_lt in Ec. cbn [fst snd]. split_and!; try assumption; intros; lia || reflexivity. }
  apply Z.ltb_ge in Ec.
  destruct (decodedMappings_ok map Hok)
    as (decoded & map1 & Ed & Edm & Hok1 & Ed1 & Hs1 & Hr1 & Hn1 & Hm1 & Hb1 & Hbm1).
  rewrite Edm.
  destruct (line needle - 1 >=? Z.of_nat (length decoded)) eqn:Eg.
  { cbn [fst snd]. split; [exact Hok1|]. split; [intros; lia|]. split; [intros; lia|].
    intros _ _. exists null_original. split; [reflexivity|]. intros; reflexivity. }
  rewrite Z.geb_leb in Eg. apply Z.leb_gt in Eg.
  destruct (at_index_Some decoded (line needle - 1)) as [segments Hseg]; [lia|].
  rewrite Hseg.
  destruct Hok1 as [(decoded' & Ed' & Hn & Hsrc & Hmemo) Hres Hby].
  rewrite Ed1 in Ed'. injection Ed' as <-.
  pose proof (row_within_concat _ _ _ Hseg) as Hrow.
  destruct (traceSegmentInternal_range segments upperBound upperBound_ok
              (_decodedMemo map1) (line needle - 1) (column_ needle)
              (bias_or (bias needle) GREATEST_LOWER_BOUND))
    as (r & memo' & Er & Hr & Hk & Hi); [lia| |].
  { intros Hkey. apply Hmemo. rewrite Hkey. exact Hseg. }
  rewrite Er.
  assert (Hok' : map_ok (set_decodedMemo map1 memo')).
  { constructor; cbn [set_decodedMemo sources resolvedSources _bySources _bySourceMemos _decodedMemo];
      [|assumption|assumption].
    exists decoded. split; [exact Ed1|]. split; [assumption|]. split; [assumption|].
    intros haystack Hh. rewrite Hk, Hseg in Hh. injection Hh as <-. exact Hi. }
  assert (Hnull : forall d : SourceMapMappings,
    decoded_of map = Some d -> Z.of_nat (length d) < line needle ->
    forall m : OriginalMapping, m = null_original).
  { intros d Hd Hlt. rewrite Ed in Hd. injection Hd as <-. lia. }
  destruct (r =? -1) eqn:E1.
  { cbn [fst snd]. split; [exact Hok'|]. split; [intros; lia|]. split; [intros; lia|].
    intros _ _. exists null_original. split; [reflexivity|]. intros; reflexivity. }
  apply Z.eqb_neq in E1.
  destruct (at_index_Some segments r) as [segment Hsegment]; [lia|].
  rewrite Hsegment.
  destruct segment; cbn [fst snd];
    (split; [exact Hok'|]; split; [intros; lia|]; split; [intros; lia|];
     intros _ _; eexists; split; [reflexivity|]; intros d Hd Hlt; eapply Hnull; eassumption).
Qed.

Definition null_generated : GeneratedResult := One (GMapping None None).

(** The by-source index is there once asked for. *)
Lemma bySources_ok map :
  map_ok map ->
  exists generated memos map2,
    bySources map = (Normal generated, map2) /\
    map_ok map2 /\
    _bySources map2 = Some generated /\ _bySourceMemos map2 = Some memos /\
    sources map2 = sources map /\ resolvedSources map2 = resolvedSources map.
Proof.
  intros Hok. unfold bySources.
  destruct (_bySources map) as [generated|] eqn:Eg.
  - pose proof (ok_bySources map Hok) as Hby. rewrite Eg in Hby.
    destruct (_bySourceMemos map) as [memos|] eqn:Em; [|contradiction].
    exists generated, memos, map. split_and!; assumption || reflexivity.
  - destruct (decodedMappings_ok map Hok)
      as (decoded & map1 & Ed & Edm & Hok1 & Ed1 & Hs1 & Hr1 & Hn1 & Hm1 & Hb1 & Hbm1).
    rewrite Edm.
    eexists _, _, _. split; [reflexivity|].
    split; [|split_and!;
               cbn [set_bySources sources resolvedSources _bySources _bySourceMemos];
               assumption || reflexivity].
    destruct Hok1 as [(decoded' & Ed' & Hn & Hsrc & Hmemo) Hres Hby].
    rewrite Ed1 in Ed'. injection Ed' as <-.
    constructor;
      cbn [set_bySources sources resolvedSources _bySources _bySourceMemos _decodedMemo];
      [|assumption|].
    + exists decoded. split_and!; assumption.
    + split; [rewrite buildBySources_length, length_fmap; reflexivity|].
      split; [apply length_fmap|].
      intros i rows memo Hi Hmi. split.
      * intros l segments Hl.
        pose proof (buildBySources_within _ _ i rows l segments Hi Hl). lia.
      * rewrite list_lookup_fmap in Hmi.
        destruct (sources map1 !! i); [|discriminate]. simpl in Hmi. injection Hmi as <-.
        intros haystack _. simpl. lia.
Qed.

Lemma generatedPosition_ok map source line column bias :
  map_ok map ->
  map_ok (snd (generatedPosition upperBound map source line column bias false)) /\
  (line < 1 ->
   fst (generatedPosition upperBound map source line column bias false)
   = Throw (Error LINE_GTR_ZERO)) /\
  (1 <= line -> column < 0 ->
   fst (generatedPosition upperBound map source line column bias false)
   = Throw (Error COL_GTR_EQ_ZERO)) /\
  (1 <= line -> 0 <= column ->
   exists m,
     fst (generatedPosition upperBound map source line column bias false)
     = Normal (One m)).
Proof.
  intros Hok. unfold generatedPosition.
  destruct (line - 1 <? 0) eqn:El.
  { apply Z.ltb_lt in El. cbn [fst snd]. split_and!; try assumption; intros; lia || reflexivity. }
  apply Z.ltb_ge in El.
  destruct (column <? 0) eqn:Ec.
  { apply Z.ltb_lt in Ec. cbn [fst snd]. split_and!; try assumption; intros; lia || reflexivity. }
  apply Z.ltb_ge in Ec.
  set (sourceIndex :=
    if indexOf (sources map) (Some source) =? -1
    then indexOf (resolvedSources map) source
    else indexOf (sources map) (Some source)).
  destruct (sourceIndex =? -1) eqn:Es.
  { cbn [fst snd]. split; [exact Hok|]. split; [intros; lia|]. split; [intros; lia|].
    intros _ _. eexists. reflexivity. }
  apply Z.eqb_neq in Es.
  assert (Hsi : 0 <= sourceIndex < Z.of_nat (length (sources map))).
  { unfold sourceIndex in *.
    pose proof (indexOf_range (sources map) (Some source)) as H1.
    pose proof (indexOf_range (resolvedSources map) source) as H2.
    rewrite (ok_resolved map Hok) in H2.
    destruct (indexOf (sources map) (Some source) =? -1) eqn:E; [lia|].
    apply Z.eqb_neq in E. lia. }
  destruct (bySources_ok map Hok)
    as (generated & memos & map2 & Eby & Hok2 & Eg & Em & Hs2 & Hr2).
  rewrite Eby.
  pose proof (ok_bySources map2 Hok2) as Hby. rewrite Eg, Em in Hby.
  destruct Hby as (Hlg & Hlm & Hrows). rewrite Hs2 in Hlg, Hlm.
  destruct (at_index_Some generated sourceIndex) as [rows Hrow]; [lia|].
  rewrite Hrow.
  destruct (rows !! (line - 1)) as [segments|] eqn:Eseg.
  2:{ cbn [fst snd]. split; [exact Hok2|]. split; [intros; lia|]. split; [intros; lia|].
      intros _ _. eexists. reflexivity. }
  rewrite Em. cbn [mbind option_bind].
  destruct (at_index_Some memos sourceIndex) as [memo Hmemo]; [lia|].
  rewrite Hmemo.
  assert (Hgi : generated !! Z.to_nat sourceIndex = Some rows).
  { unfold at_index in Hrow. destruct (0 <=? sourceIndex); [exact Hrow|discriminate]. }
  assert (Hmi : memos !! Z.to_nat sourceIndex = Some memo).
  { unfold at_index in Hmemo. destruct (0 <=? sourceIndex); [exact Hmemo|discriminate]. }
  destruct (Hrows _ _ _ Hgi Hmi) as [Hbound Hrange].
  destruct (traceSegmentInternal_range segments upperBound upperBound_ok
              memo (line - 1) column bias)
    as (r & memo' & Er & Hr & Hk & Hi).
  { apply (Hbound _ _ Eseg). }
  { intros Hkey. apply Hrange. rewrite Hkey. exact Eseg. }
  rewrite Er.
  assert (Hok' : map_ok (set_bySourceMemos map2
                           (<[Z.to_nat sourceIndex := memo']> <$> Some memos))).
  { destruct Hok2 as [Hdec Hres _].
    constructor;
      cbn [set_bySourceMemos sources resolvedSources _bySources _bySourceMemos _decodedMemo];
      [exact Hdec|exact Hres|].
    rewrite Eg. cbn [fmap option_fmap option_map].
    rewrite Hs2. split; [exact Hlg|]. split; [rewrite length_insert; exact Hlm|].
    intros i rows0 memo0 Hi0 Hm0.
    destruct (decide (i = Z.to_nat sourceIndex)) as [->|Hne].
    - rewrite list_lookup_insert_eq in Hm0 by lia. injection Hm0 as <-.
      rewrite Hgi in Hi0. injection Hi0 as <-.
      split; [exact Hbound|].
      intros haystack Hh. rewrite Hk, Eseg in Hh. injection Hh as <-. exact Hi.
    - rewrite list_lookup_insert_ne in Hm0 by congruence.
      apply (Hrows _ _ _ Hi0 Hm0). }
  destruct (r =? -1) eqn:E1.
  { cbn [fst snd]. split; [exact Hok'|]. split; [intros; lia|]. split; [intros; lia|].
    intros _ _. eexists. reflexivity. }
  apply Z.eqb_neq in E1.
  destruct (at_index_Some segments r) as [segment Hsegment]; [lia|].
  rewrite Hsegment. cbn [fst snd].
  split; [exact Hok'|]. split; [intros; lia|]. split; [intros; lia|].
  intros _ _. eexists. reflexivity.
Qed.

End Queries.

End QueryFacts.

Module TracerClaims.
Import JS JSFacts Codec BinarySearch TraceMapping SearchFacts BiasFacts TracerFacts QueryFacts.

Lemma exact_NoDup {A} `{HasColumn A} (haystack : list A) needle i c :
  NoDup (map column haystack) ->
  col_at haystack i = Some needle -> col_at haystack c = Some needle -> i = c.
Proof.
  intros Hnd Hi Hc.
  pose proof (col_at_range _ _ _ Hi) as Ri. pose proof (col_at_range _ _ _ Hc) as Rc.
  unfold col_at, at_index in Hi, Hc.
  destruct (0 <=? i) eqn:Ei; [|apply Z.leb_gt in Ei; lia].
  destruct (0 <=? c) eqn:Ec; [|apply Z.leb_gt in Ec; lia].
  rewrite <- list_lookup_fmap in Hi, Hc.
  pose proof (NoDup_lookup _ _ _ _ Hnd Hi Hc). lia.
Qed.

(** C3, as stated, fails in a row with several segments at one column: after
    a search for column 3 the memoized search for column 5 starts at index
    1 and returns index 3, where the cold search of the whole row returns
    index 2. *)
Lemma memoized_search_counterexample :
  sorted_by_column (map Seg1 [1; 3; 5; 5; 5; 5]) = true /\
  run_queries (map Seg1 [1; 3; 5; 5; 5; 5]) 0 [3; 5] memoizedState
  = [Normal 1; Normal 3] /\
  binarySearch (map Seg1 [1; 3; 5; 5; 5; 5]) 5 0 5 = Normal 2.
Proof. repeat split; vm_compute; reflexivity. Qed.

(** C3 (amended): for every row of at most [2^31] segments sorted
    non-decreasing by column and every sequence of queries against that
    row under one key (a row index, so not -1) starting from a fresh memo,
    each memoized search returns, as the cold search of the whole row does,
    and the two indices are equal or are two indices that both hold the
    needle's column; they are always equal in a row without two segments
    at one column. *)
Theorem memoized_search_agrees {A : Type} `{HasColumn A} (haystack : list A)
  (key : Z) (needles : list Z) :
  sorted_by_column haystack = true ->
  Z.of_nat (length haystack) <= 2 ^ 31 ->
  key <> -1 ->
  Forall2 (agrees_with_cold haystack) needles
    (run_queries haystack key needles memoizedState) /\
  (NoDup (map column haystack) ->
   run_queries haystack key needles memoizedState =
   map (fun needle => binarySearch haystack needle 0 (Z.of_nat (length haystack) - 1))
     needles).
Proof.
  intros Hs Hlen Hkey.
  pose proof (run_queries_agree haystack needles memoizedState key Hs Hlen
                (memo_ok_fresh haystack key Hkey)) as Hagree.
  split; [exact Hagree|].
  intros Hnd. induction Hagree as [|needle r needles rs Hr _ IH]; [reflexivity|].
  cbn [map]. f_equal; [|exact IH].
  destruct Hr as (i & c & -> & Ec & [->|(Hne & Hi & Hc)]); [symmetry; exact Ec|].
  destruct Hne. eapply exact_NoDup; eassumption.
Qed.

Lemma memoized_search_agrees_witness :
  Forall2 (agrees_with_cold (map Seg1 [1; 3; 5; 7])) [3; 7; 1; 5; 5]
    (run_queries (map Seg1 [1; 3; 5; 7]) 0 [3; 7; 1; 5; 5] memoizedState) /\
  (NoDup (map column (map Seg1 [1; 3; 5; 7])) ->
   run_queries (map Seg1 [1; 3; 5; 7]) 0 [3; 7; 1; 5; 5] memoizedState =
   map (fun needle =>
          binarySearch (map Seg1 [1; 3; 5; 7]) needle 0
            (Z.of_nat (length (map Seg1 [1; 3; 5; 7])) - 1))
     [3; 7; 1; 5; 5]).
Proof.
  apply (memoized_search_agrees (map Seg1 [1; 3; 5; 7]) 0 [3; 7; 1; 5; 5]);
    [reflexivity|simpl; lia|lia].
Defined.

(** C4, as stated, fails in a row with two segments at the needle's column:
    with the [GREATEST_LOWER_BOUND] bias the lookup returns index 0, the
    lowest of them, and not the greatest index whose column is at most the
    needle, which is 1; with the [LEAST_UPPER_BOUND] bias it returns index
    1, the highest of them, and not the least index whose column is at
    least the needle, which is 0. *)
Lemma traceSegmentInternal_counterexample :
  sorted_by_column (map Seg1 [5; 5]) = true /\
  fst (traceSegmentInternal (@upperBound_spec) (map Seg1 [5; 5]) memoizedState 0 5
         GREATEST_LOWER_BOUND) = Normal 0 /\
  ~ greatest_le (map Seg1 [5; 5]) 5 0 /\
  fst (traceSegmentInternal (@upperBound_spec) (map Seg1 [5; 5]) memoizedState 0 5
         LEAST_UPPER_BOUND) = Normal 1 /\
  ~ least_ge (map Seg1 [5; 5]) 5 1.
Proof.
  split; [reflexivity|]. split; [reflexivity|]. split; [|split; [reflexivity|]].
  - intros [_ Hg]. specialize (Hg 1 5 eq_refl). lia.
  - intros [_ Hl]. specialize (Hl 0 5 eq_refl). lia.
Qed.

(** C4 (amended): in a row of at most [2^31] segments sorted
    non-decreasing by column, searched with a memo that is fresh or was left
    by earlier lookups in that row, the lookup returns an index or -1 and:
    with [GREATEST_LOWER_BOUND], the lowest index at the needle's column
    when the row has that column, else the greatest index whose column is
    below the needle, -1 when there is none; with [LEAST_UPPER_BOUND], the
    highest index at the needle's column when the row has that column, else
    the least index whose column is above the needle (the index found plus
    one), -1 when there is none. When at most one segment of the row is at
    the needle's column, that is the greatest index whose column is at most
    the needle, and the least index whose column is at least the needle. *)
Theorem traceSegmentInternal_bias {A : Type} `{HasColumn A} (segments : list A)
  (memo : MemoState) (line column : Z) :
  sorted_by_column segments = true ->
  Z.of_nat (length segments) <= 2 ^ 31 ->
  memo_ok segments line memo ->
  bias_spec segments memo line column.
Proof.
  intros Hs Hlen Hmemo. split.
  - destruct (traceSegmentInternal_glb segments (@upperBound_spec) memo line column
                Hs Hlen Hmemo) as (r & memo' & Er & Hmemo' & Hres).
    exists r, memo'. split; [exact Er|]. split; [exact Hmemo'|]. split; [exact Hres|].
    intros Honce. destruct Hres as [Hyes Hno].
    destruct (occurs_dec segments column) as [Ho|Ho]; [|exact (Hno Ho)].
    apply once_greatest_le; [exact Hs|exact Honce|exact (proj1 (Hyes Ho))].
  - destruct (traceSegmentInternal_lub_found segments memo line column Hs Hlen Hmemo)
      as (r & memo' & Er & Hmemo' & Hres).
    exists r, memo'. split; [exact Er|]. split; [exact Hmemo'|]. split; [exact Hres|].
    intros Honce. destruct Hres as [Hyes Hno].
    destruct (occurs_dec segments column) as [Ho|Ho]; [|exact (Hno Ho)].
    apply once_least_ge; [exact Hs|exact Honce|exact (proj1 (Hyes Ho))].
Qed.

Lemma traceSegmentInternal_bias_witness :
  bias_spec (map Seg1 [1; 5; 5; 9]) memoizedState 0 5 /\
  bias_spec (map Seg1 [1; 5; 9]) memoizedState 0 5.
Proof.
  split; apply traceSegmentInternal_bias;
    (reflexivity || (simpl; lia) || (intros E; discriminate E)).
Defined.

(** In the row [1; 5; 5; 9]: the lowest and the highest index at column 5,
    and the neighbours of the missing column 6. *)
Example traceSegmentInternal_biases :
  map (fun '(column, bias) =>
         fst (traceSegmentInternal (@upperBound_spec) (map Seg1 [1; 5; 5; 9])
                memoizedState 0 column bias))
    [(5, GREATEST_LOWER_BOUND); (5, LEAST_UPPER_BOUND);
     (6, GREATEST_LOWER_BOUND); (6, LEAST_UPPER_BOUND);
     (0, GREATEST_LOWER_BOUND); (10, LEAST_UPPER_BOUND)]
  = [Normal 1; Normal 2; Normal 2; Normal 3; Normal (-1); Normal (-1)].
Proof. reflexivity. Qed.

End TracerClaims.

(** ** The remapper *)

Module RemapFacts.
Import JS Codec Remapping.

Section Build.

Variable decode : list Z -> completion SourceMapMappings.
Variable resolve : string -> option string -> string.
Variable loader : string -> option SourceMapInput.

Local Abbreviation decodeSourceMap := (Remapping.decodeSourceMap decode).
Local Abbreviation buildChildren := (Remapping.buildChildren decode resolve loader).
Local Abbreviation buildSourceMapGraph :=
  (Remapping.buildSourceMapGraph decode resolve loader).
Local Abbreviation decode_error := (Remapping.decode_error decode loader).
Local Abbreviation loads := (Remapping.loads decode resolve loader).

(** The calls for the entries of one map, given its children. *)
Definition entries_loads (map : DecodedSourceMap) (cs : list Graph) (l : list string)
  : list string :=
  concat (zip_with (fun child sourceFile =>
                      resolve sourceFile (sourceRoot map) :: graph_loads resolve child)
            cs l).

Lemma graph_loads_tree map cs :
  graph_loads resolve (SourceMapTree map cs) = entries_loads map cs (sources map).
Proof.
  cbn [graph_loads]. unfold entries_loads. generalize (sources map) as l.
  induction cs as [|c cs IH]; intros l; [reflexivity|].
  destruct l as [|s l]; [reflexivity|].
  cbn [zip_with concat]. rewrite <- IH. reflexivity.
Qed.

Definition children_entries (cs : list Graph) : nat :=
  foldr (fun child n => (graph_entries child + n)%nat) 0%nat cs.

Lemma graph_entries_tree map cs :
  graph_entries (SourceMapTree map cs) = (length (sources map) + children_entries cs)%nat.
Proof.
  reflexivity.
Qed.

(** One step of the loop: the child of an entry, then the rest. *)
Lemma buildChildren_cons build map sourceFile l i :
  buildChildren build map (sourceFile :: l) i =
  let file := resolve sourceFile (sourceRoot map) in
  match
    match loader file with
    | None =>
        Some (Normal (Original (mkOriginal sourceFile
                                  match sourcesContent map with
                                  | Some sc => mjoin (sc !! i)
                                  | None => None
                                  end)), [])
    | Some sourceMap =>
        match decodeSourceMap sourceMap with
        | Throw e => Some (Throw e, [])
        | Normal decoded => build (Decoded decoded)
        end
    end
  with
  | None => None
  | Some (Throw e, calls1) => Some (Throw e, file :: calls1)
  | Some (Normal g, calls1) =>
      match buildChildren build map l (S i) with
      | None => None
      | Some (Throw e, calls2) => Some (Throw e, file :: calls1 ++ calls2)
      | Some (Normal gs, calls2) => Some (Normal (g :: gs), file :: calls1 ++ calls2)
      end
  end.
Proof. reflexivity. Qed.

(** What a recursive call gives for a child map. *)
Definition build_ok (build : SourceMapInput -> option (completion Graph * list string))
  : Prop :=
  forall map g calls,
    build map = Some (Normal g, calls) ->
    calls = graph_loads resolve g /\ length calls = graph_entries g.

Lemma buildChildren_spec build map l :
  build_ok build ->
  forall i gs calls,
    buildChildren build map l i = Some (Normal gs, calls) ->
    length gs = length l /\
    calls = entries_loads map gs l /\
    length calls = (length l + children_entries gs)%nat.
Proof.
  intros Hbuild. induction l as [|sourceFile l IH]; intros i gs calls Hb.
  - simpl in Hb. injection Hb as <- <-. repeat split.
  - rewrite buildChildren_cons in Hb. cbv zeta in Hb.
    destruct (loader (resolve sourceFile (sourceRoot map))) as [sourceMap|].
    + destruct (decodeSourceMap sourceMap) as [decoded|e]; [|discriminate].
      destruct (build (Decoded decoded)) as [[[g|e] calls1]|] eqn:Eg; try discriminate.
      destruct (buildChildren build map l (S i)) as [[[gs'|e] calls2]|] eqn:Ec;
        try discriminate.
      injection Hb as <- <-.
      destruct (IH _ _ _ Ec) as (Hlen & Hcalls & Hcount).
      destruct (Hbuild _ _ _ Eg) as (Hg & Hgn).
      split; [simpl; lia|]. split.
      * unfold entries_loads. cbn [zip_with concat].
        fold (entries_loads map gs' l). rewrite <- Hcalls, <- Hg. reflexivity.
      * cbn [children_entries foldr length]. fold (children_entries gs').
        rewrite length_app. lia.
    + destruct (buildChildren build map l (S i)) as [[[gs'|e] calls2]|] eqn:Ec;
        try discriminate.
      injection Hb as <- <-.
      destruct (IH _ _ _ Ec) as (Hlen & Hcalls & Hcount).
      split; [simpl; lia|]. split.
      * unfold entries_loads. cbn [zip_with concat graph_loads app].
        fold (entries_loads map gs' l). rewrite <- Hcalls. reflexivity.
      * cbn [children_entries foldr length graph_entries app]. fold (children_entries gs').
        lia.
Qed.

Lemma buildSourceMapGraph_spec fuel :
  forall map g calls,
    buildSourceMapGraph fuel map = Some (Normal g, calls) ->
    calls = graph_loads resolve g /\ length calls = graph_entries g /\
    exists d children,
      decodeSourceMap map = Normal d /\
      g = SourceMapTree d children /\
      length children = length (sources d).
Proof.
  induction fuel as [|fuel IH]; intros map g calls Hb; [discriminate|].
  cbn [Remapping.buildSourceMapGraph] in Hb.
  destruct (decodeSourceMap map) as [d|e] eqn:Ed; [|discriminate].
  destruct (buildChildren (buildSourceMapGraph fuel) d (sources d) 0)
    as [[[gs|e] calls']|] eqn:Ec; try discriminate.
  injection Hb as <- <-.
  destruct (buildChildren_spec _ _ _
              (fun m g c H => let '(conj a (conj b _)) := IH m g c H in conj a b)
              _ _ _ Ec) as (Hlen & Hcalls & Hcount).
  rewrite graph_loads_tree, graph_entries_tree.
  split; [exact Hcalls|]. split; [exact Hcount|].
  exists d, gs. split; [reflexivity|]. split; [reflexivity|exact Hlen].
Qed.

(** *** Errors *)

Lemma decode_error_cons e file calls :
  decode_error e calls -> decode_error e (file :: calls).
Proof.
  intros (f & input & Hin & Hl & Hd). exists f, input.
  split; [right; exact Hin|]. split; assumption.
Qed.

Lemma decode_error_app e calls1 calls2 :
  decode_error e calls1 \/ decode_error e calls2 -> decode_error e (calls1 ++ calls2).
Proof.
  intros [(f & input & Hin & Hl & Hd)|(f & input & Hin & Hl & Hd)];
    exists f, input; (split; [|split; assumption]);
    apply elem_of_app; [left|right]; exact Hin.
Qed.

(** The only error of the loop is that of a map that did not decode. *)
Lemma buildChildren_error build map l :
  (forall d e calls, build (Decoded d) = Some (Throw e, calls) -> decode_error e calls) ->
  forall i e calls,
    buildChildren build map l i = Some (Throw e, calls) -> decode_error e calls.
Proof.
  intros Hbuild. induction l as [|sourceFile l IH]; intros i e calls Hb; [discriminate|].
  rewrite buildChildren_cons in Hb. cbv zeta in Hb.
  destruct (loader (resolve sourceFile (sourceRoot map))) as [sourceMap|] eqn:El.
  - destruct (decodeSourceMap sourceMap) as [decoded|e'] eqn:Ed.
    + destruct (build (Decoded decoded)) as [[[g|e'] calls1]|] eqn:Eg; try discriminate.
      * destruct (buildChildren build map l (S i)) as [[[gs'|e'] calls2]|] eqn:Ec;
          try discriminate.
        injection Hb as <- <-. apply decode_error_cons, decode_error_app.
        right. eapply IH, Ec.
      * injection Hb as <- <-. apply decode_error_cons. eapply Hbuild, Eg.
    + injection Hb as <- <-. exists (resolve sourceFile (sourceRoot map)), sourceMap.
      split; [left|]. split; assumption.
  - destruct (buildChildren build map l (S i)) as [[[gs'|e'] calls2]|] eqn:Ec;
      try discriminate.
    injection Hb as <- <-. apply decode_error_cons. cbn [app]. eapply IH, Ec.
Qed.

Lemma buildSourceMapGraph_error fuel :
  forall map e calls,
    buildSourceMapGraph fuel map = Some (Throw e, calls) ->
    (decodeSourceMap map = Throw e /\ calls = []) \/ decode_error e calls.
Proof.
  induction fuel as [|fuel IH]; intros map e calls Hb; [discriminate|].
  cbn [Remapping.buildSourceMapGraph] in Hb.
  destruct (decodeSourceMap map) as [d|e'] eqn:Ed.
  - destruct (buildChildren (buildSourceMapGraph fuel) d (sources d) 0)
      as [[[gs|e'] calls']|] eqn:Ec; try discriminate.
    injection Hb as <- <-. right.
    eapply buildChildren_error; [|exact Ec].
    intros d' e0 calls0 H0. destruct (IH _ _ _ H0) as [[Hd _]|Herr]; [discriminate|exact Herr].
  - injection Hb as <- <-. left. split; reflexivity.
Qed.

(** *** The bound on the recursion *)

(** More fuel does not change a result. *)
Lemma buildChildren_mono
  (build build' : SourceMapInput -> option (completion Graph * list string)) map :
  (forall m r, build m = Some r -> build' m = Some r) ->
  forall l i r,
    buildChildren build map l i = Some r ->
    buildChildren build' map l i = Some r.
Proof.
  intros Hbuild. induction l as [|sourceFile l IH]; intros i r Hb; [exact Hb|].
  rewrite buildChildren_cons in Hb |- *. cbv zeta in Hb |- *.
  destruct (loader (resolve sourceFile (sourceRoot map))) as [sourceMap|].
  - destruct (decodeSourceMap sourceMap) as [decoded|e]; [|exact Hb].
    destruct (build (Decoded decoded)) as [[[g|e] calls1]|] eqn:Eg; try discriminate;
      rewrite (Hbuild _ _ Eg); [|exact Hb].
    destruct (buildChildren build map l (S i)) as [[gs calls2]|] eqn:Ec;
      [|discriminate].
    rewrite (IH _ _ Ec). exact Hb.
  - destruct (buildChildren build map l (S i)) as [[gs calls2]|] eqn:Ec;
      [|discriminate].
    rewrite (IH _ _ Ec). exact Hb.
Qed.

Lemma buildSourceMapGraph_fuel fuel :
  forall fuel' map r,
    (fuel <= fuel')%nat ->
    buildSourceMapGraph fuel map = Some r ->
    buildSourceMapGraph fuel' map = Some r.
Proof.
  induction fuel as [|fuel IH]; intros fuel' map r Hle Hb; [discriminate|].
  destruct fuel' as [|fuel']; [lia|].
  cbn [Remapping.buildSourceMapGraph] in Hb |- *.
  destruct (decodeSourceMap map) as [d|e]; [|exact Hb].
  destruct (buildChildren (buildSourceMapGraph fuel) d (sources d) 0)
    as [[gs calls]|] eqn:Ec; [|discriminate].
  rewrite (buildChildren_mono _ (buildSourceMapGraph fuel') _
             (fun m r' H => IH fuel' m r' ltac:(lia) H) _ _ _ Ec).
  exact Hb.
Qed.

(** The loop returns when the recursive calls for the maps the loader
    returns do. *)
Lemma buildChildren_returns
  (build : nat -> SourceMapInput -> option (completion Graph * list string)) map l :
  (forall fuel fuel' m r, (fuel <= fuel')%nat ->
     build fuel m = Some r -> build fuel' m = Some r) ->
  (forall sourceFile input d,
     sourceFile ∈ l ->
     loader (resolve sourceFile (sourceRoot map)) = Some input ->
     decodeSourceMap input = Normal d ->
     exists fuel r, build fuel (Decoded d) = Some r) ->
  forall i, exists fuel r, buildChildren (build fuel) map l i = Some r.
Proof.
  intros Hmono. induction l as [|sourceFile l IH]; intros Hl i.
  - exists 0%nat. eexists. reflexivity.
  - destruct (IH (fun sf input d Hin => Hl sf input d (list_elem_of_further _ _ _ Hin))
                (S i)) as (f2 & r2 & E2).
    assert (Hchild : exists f1 r1,
      match loader (resolve sourceFile (sourceRoot map)) with
      | None =>
          Some (Normal (Original (mkOriginal sourceFile
                                    match sourcesContent map with
                                    | Some sc => mjoin (sc !! i)
                                    | None => None
                                    end)), [])
      | Some sourceMap =>
          match decodeSourceMap sourceMap with
          | Throw e => Some (Throw e, [])
          | Normal decoded => build f1 (Decoded decoded)
          end
      end = Some r1).
    { destruct (loader (resolve sourceFile (sourceRoot map))) as [sourceMap|] eqn:El.
      - destruct (decodeSourceMap sourceMap) as [decoded|e] eqn:Ed.
        + destruct (Hl sourceFile sourceMap decoded (list_elem_of_here _ _) El Ed)
            as (f1 & r1 & E1).
          exists f1, r1. exact E1.
        + exists 0%nat. eexists. reflexivity.
      - exists 0%nat. eexists. reflexivity. }
    destruct Hchild as (f1 & r1 & E1).
    exists (Nat.max f1 f2).
    rewrite buildChildren_cons. cbv zeta.
    assert (E1' :
      match loader (resolve sourceFile (sourceRoot map)) with
      | None =>
          Some (Normal (Original (mkOriginal sourceFile
                                    match sourcesContent map with
                                    | Some sc => mjoin (sc !! i)
                                    | None => None
                                    end)), [])
      | Some sourceMap =>
          match decodeSourceMap sourceMap with
          | Throw e => Some (Throw e, [])
          | Normal decoded => build (Nat.max f1 f2) (Decoded decoded)
          end
      end = Some r1).
    { destruct (loader (resolve sourceFile (sourceRoot map))) as [sourceMap|];
        [|exact E1].
      destruct (decodeSourceMap sourceMap) as [decoded|e]; [|exact E1].
      apply (Hmono f1); [lia|exact E1]. }
    rewrite E1'.
    rewrite (buildChildren_mono (build f2) (build (Nat.max f1 f2)) map
               (fun m r => Hmono f2 (Nat.max f1 f2) m r (Nat.le_max_r f1 f2)) _ _ _ E2).
    destruct r1 as [[g|e] calls1]; [|eexists; reflexivity].
    destruct r2 as [[gs|e] calls2]; eexists; reflexivity.
Qed.

Lemma buildSourceMapGraph_decoded fuel map d :
  decodeSourceMap map = Normal d ->
  buildSourceMapGraph fuel map = buildSourceMapGraph fuel (Decoded d).
Proof.
  intros Hd. destruct fuel as [|fuel]; [reflexivity|].
  cbn [Remapping.buildSourceMapGraph Remapping.decodeSourceMap]. rewrite Hd. reflexivity.
Qed.

(** The construction returns for a map below which the maps the loader
    returns nest to a finite depth. *)
Lemma buildSourceMapGraph_returns d :
  Acc loads d ->
  exists fuel r, buildSourceMapGraph fuel (Decoded d) = Some r.
Proof.
  induction 1 as [d _ IH].
  assert (Hmono : forall fuel fuel' m r, (fuel <= fuel')%nat ->
    buildSourceMapGraph fuel m = Some r -> buildSourceMapGraph fuel' m = Some r).
  { intros fuel fuel' m r Hle. apply buildSourceMapGraph_fuel, Hle. }
  assert (Hl : forall sourceFile input d',
    sourceFile ∈ sources d ->
    loader (resolve sourceFile (sourceRoot d)) = Some input ->
    decodeSourceMap input = Normal d' ->
    exists fuel r, buildSourceMapGraph fuel (Decoded d') = Some r).
  { intros sourceFile input d' Hin Hl Hd. apply IH.
    exists sourceFile, input. split; [exact Hin|]. split; assumption. }
  destruct (buildChildren_returns buildSourceMapGraph d (sources d) Hmono Hl 0%nat)
    as (fuel & r & E).
  exists (S fuel). cbn [Remapping.buildSourceMapGraph Remapping.decodeSourceMap].
  rewrite E. destruct r as [[gs|e] calls]; eexists; reflexivity.
Qed.

End Build.

(** The chain of two maps ends at ["original.js"]. *)
Lemma chain_ends : Acc (loads reject_mappings resolve_id chain_loader) root_map.
Proof.
  constructor. intros d1 (sourceFile & input & Hin & Hl & Hd).
  apply list_elem_of_singleton in Hin. subst sourceFile.
  vm_compute in Hl. injection Hl as <-. cbn in Hd. injection Hd as <-.
  constructor. intros d2 (sourceFile & input & Hin & Hl & Hd).
  apply list_elem_of_singleton in Hin. subst sourceFile.
  vm_compute in Hl. discriminate Hl.
Qed.

End RemapFacts.

Module ComposeFacts.
Import JS Codec Remapping RemapFacts.

(** *** Tracing through a graph node *)

Lemma traceSegment_tree map sources line column name :
  traceSegment (SourceMapTree map sources) line column name =
  match at_index (mappings map) line with
  | None => Throw (Error INVALID_LINE)
  | Some segments =>
      match binarySearch segments column with
      | Throw e => Throw e
      | Normal index =>
          if index <? 0 then Normal None
          else
            match at_index segments index with
            | None => Throw TypeError
            | Some (Seg1 _) => Normal None
            | Some (Seg4 _ src l c) => traceSource sources src l c name
            | Some (Seg5 _ src l c n) =>
                traceSource sources src l c (at_index (names map) n)
            end
      end
  end.
Proof.
  cbn [traceSegment].
  assert (Hsrc : forall l i line column name,
    (fix trace_source (l : list Graph) (i : nat) (line column : Z) (name : option string)
       {struct l} : completion (option SourceMapSegmentObject) :=
       match l with
       | [] => Throw TypeError
       | source :: l' =>
           match i with
           | O => traceSegment source line column name
           | S i' => trace_source l' i' line column name
           end
       end) l i line column name =
    match l !! i with
    | None => Throw TypeError
    | Some source => traceSegment source line column name
    end).
  { induction l as [|g l IH]; intros i line' column' name'; [reflexivity|].
    destruct i as [|i]; [reflexivity|]. apply IH. }
  destruct (at_index (mappings map) line) as [segments|]; [|reflexivity].
  destruct (binarySearch segments column) as [index|e]; [|reflexivity].
  destruct (index <? 0); [reflexivity|].
  destruct (at_index segments index) as [[g|g src l c|g src l c n]|]; try reflexivity.
  - destruct (src <? 0) eqn:E1; [apply Z.ltb_lt in E1|apply Z.ltb_ge in E1].
    + unfold traceSource, at_index.
      destruct (0 <=? src) eqn:E2; [apply Z.leb_le in E2; lia|reflexivity].
    + rewrite Hsrc. unfold traceSource, at_index.
      destruct (0 <=? src) eqn:E2; [reflexivity|apply Z.leb_gt in E2; lia].
  - destruct (src <? 0) eqn:E1; [apply Z.ltb_lt in E1|apply Z.ltb_ge in E1].
    + unfold traceSource. unfold at_index at 1.
      destruct (0 <=? src) eqn:E2; [apply Z.leb_le in E2; lia|reflexivity].
    + rewrite Hsrc. unfold traceSource. unfold at_index at 2.
      destruct (0 <=? src) eqn:E2; [reflexivity|apply Z.leb_gt in E2; lia].
Qed.

(** *** The tables *)

Lemma fast_ok_new : fast_ok FastStringArray_new.
Proof.
  intros key index Hk. unfold FastStringArray_new in Hk. cbn [indexes] in Hk.
  rewrite lookup_empty in Hk. discriminate.
Qed.

Lemma at_index_app_l {B} (l1 l2 : list B) i x :
  at_index l1 i = Some x -> at_index (l1 ++ l2) i = Some x.
Proof.
  unfold at_index. destruct (0 <=? i); [|discriminate].
  intros Hx. apply lookup_app_l_Some. exact Hx.
Qed.

Lemma at_index_snoc {B} (l : list B) x :
  at_index (l ++ [x]) (Z.of_nat (length l)) = Some x.
Proof.
  unfold at_index. destruct (0 <=? Z.of_nat (length l)) eqn:E; [|apply Z.leb_gt in E; lia].
  rewrite Nat2Z.id. apply list_lookup_middle. reflexivity.
Qed.

(** [put] returns the place of the key, and only ever appends. *)
Lemma put_spec strarr key :
  fast_ok strarr ->
  fast_ok (snd (put strarr key)) /\
  at_index (array (snd (put strarr key))) (fst (put strarr key)) = Some key /\
  exists suffix, array (snd (put strarr key)) = array strarr ++ suffix.
Proof.
  intros Hok. unfold put.
  destruct (indexes strarr !! key) as [index|] eqn:E; cbn [fst snd array].
  - split; [exact Hok|]. split; [apply Hok, E|]. exists []. rewrite app_nil_r. reflexivity.
  - split; [|split; [apply at_index_snoc|eexists; reflexivity]].
    intros k i Hk. cbn [indexes array] in *.
    destruct (decide (k = key)) as [->|Hne].
    + rewrite lookup_insert_eq in Hk. injection Hk as <-. apply at_index_snoc.
    + rewrite lookup_insert_ne in Hk by congruence.
      apply at_index_app_l, Hok, Hk.
Qed.

(** *** One segment of the root map *)

Lemma traceMappings_segment_traced mapNames sources segment tracedSegments tb
  c src l k t :
  seg_fields segment = [c; src; l; k] \/
  (exists n, seg_fields segment = [c; src; l; k; n]) ->
  traceSource sources src l k (root_name mapNames segment) = Normal (Some t) ->
  fast_ok (t_names tb) ->
  exists seg' tb',
    traceMappings_segment mapNames sources segment tracedSegments tb
    = Normal (tracedSegments ++ [seg'], tb') /\
    fast_ok (t_names tb') /\
    (exists suffix, array (t_names tb') = array (t_names tb) ++ suffix) /\
    if truthy (so_name t)
    then exists si ni,
        seg' = Seg5 c si (so_line t) (so_column t) ni /\
        at_index (array (t_names tb')) ni = so_name t
    else exists si,
        seg' = Seg4 c si (so_line t) (so_column t) /\ t_names tb' = t_names tb.
Proof.
  intros Hseg Ht Hok.
  assert (Hbody :
    traceMappings_segment mapNames sources segment tracedSegments tb =
    let '(sourceIndex, srcs) := put (t_sources tb) (filename (so_source t)) in
    let sourcesContent :=
      array_set None (t_sourcesContent tb) sourceIndex (content (so_source t)) in
    if truthy (so_name t) then
      let '(nameIndex, nms) := put (t_names tb) (default ""%string (so_name t)) in
      Normal (tracedSegments ++ [Seg5 c sourceIndex (so_line t) (so_column t) nameIndex],
              mkTables nms srcs sourcesContent)
    else
      Normal (tracedSegments ++ [Seg4 c sourceIndex (so_line t) (so_column t)],
              mkTables (t_names tb) srcs sourcesContent)).
  { destruct Hseg as [Hf|[n Hf]]; destruct segment; try discriminate;
      injection Hf as -> -> -> ->; try subst; cbn [traceMappings_segment];
      cbn [root_name] in Ht; rewrite Ht; reflexivity. }
  rewrite Hbody.
  destruct (put (t_sources tb) (filename (so_source t))) as [sourceIndex srcs].
  destruct (truthy (so_name t)) eqn:Etr.
  - pose proof (put_spec (t_names tb) (default ""%string (so_name t)) Hok)
      as (Hok' & Hat & Hsuf).
    destruct (put (t_names tb) (default ""%string (so_name t))) as [nameIndex nms].
    cbn [fst snd] in *.
    eexists _, _. split; [reflexivity|]. cbn [t_names].
    split; [exact Hok'|]. split; [exact Hsuf|].
    exists sourceIndex, nameIndex. split; [reflexivity|].
    rewrite Hat. destruct (so_name t); [reflexivity|discriminate].
  - eexists _, _. split; [reflexivity|]. cbn [t_names].
    split; [exact Hok|]. split; [exists []; rewrite app_nil_r; reflexivity|].
    exists sourceIndex. split; reflexivity.
Qed.

(** [if (name)] holds exactly for a string that is not empty. *)
Lemma truthy_spec name :
  (truthy name = true <-> exists s, name = Some s /\ s <> ""%string) /\
  (truthy name = false <-> name = None \/ name = Some ""%string).
Proof.
  destruct name as [s|]; cbn [truthy];
    [destruct (String.eqb_spec s "") as [->|Hne]; cbn [negb]|];
    (split; split; intros Hx); try discriminate; try reflexivity; eauto;
    try (destruct Hx as (s' & E & Hs'); congruence);
    try (destruct Hx as [E|E]; congruence).
Qed.

(** The segment that comes out for a traced root segment: five fields, the
    last the place of the traced name in the names of the output, for a
    traced name that is a string and not empty; four fields for the empty
    string and for no name. *)
Lemma traceMappings_segment_named mapNames sources segment tracedSegments tb
  c src l k t :
  seg_fields segment = [c; src; l; k] \/
  (exists n, seg_fields segment = [c; src; l; k; n]) ->
  traceSource sources src l k (root_name mapNames segment) = Normal (Some t) ->
  fast_ok (t_names tb) ->
  exists seg' tb',
    traceMappings_segment mapNames sources segment tracedSegments tb
    = Normal (tracedSegments ++ [seg'], tb') /\
    fast_ok (t_names tb') /\
    (exists suffix, array (t_names tb') = array (t_names tb) ++ suffix) /\
    (forall s, so_name t = Some s -> s <> ""%string ->
       exists si ni,
         seg' = Seg5 c si (so_line t) (so_column t) ni /\
         at_index (array (t_names tb')) ni = Some s) /\
    (so_name t = None \/ so_name t = Some ""%string ->
       exists si,
         seg' = Seg4 c si (so_line t) (so_column t) /\ t_names tb' = t_names tb).
Proof.
  intros Hseg Ht Hok.
  destruct (traceMappings_segment_traced mapNames sources segment tracedSegments
              tb c src l k t Hseg Ht Hok) as (seg' & tb' & E & Hok' & Hsuf & Hname).
  exists seg', tb'. split; [exact E|]. split; [exact Hok'|]. split; [exact Hsuf|].
  destruct (truthy_spec (so_name t)) as [Hyes Hno].
  destruct (truthy (so_name t)) eqn:Etr.
  - split.
    + intros s Es _. destruct Hname as (si & ni & -> & Hat).
      exists si, ni. split; [reflexivity|]. rewrite Hat. exact Es.
    + intros Hnone. apply Hno in Hnone. discriminate.
  - split.
    + intros s Es Hs. assert (false = true) as Habs; [|discriminate].
      apply Hyes. exists s. split; assumption.
    + intros _. exact Hname.
Qed.

(** *** Rows *)

Lemma traceMappings_segment_cols mapNames sources segment tracedSegments tb out tb' :
  traceMappings_segment mapNames sources segment tracedSegments tb = Normal (out, tb') ->
  out = tracedSegments ++ drop (length tracedSegments) out /\
  map genCol (drop (length tracedSegments) out) =
  map genCol (List.filter (contributes mapNames sources) [segment]).
Proof.
  intros Hs.
  assert (Hdrop : forall (x : SourceMapSegment),
    drop (length tracedSegments) (tracedSegments ++ [x]) = [x]).
  { intros x. rewrite drop_app_length. reflexivity. }
  assert (Hnil : drop (length tracedSegments) tracedSegments = []).
  { apply drop_all. }
  destruct segment as [c|c src l k|c src l k n];
    cbn [traceMappings_segment List.filter contributes] in *.
  - injection Hs as <- <-. rewrite Hnil, app_nil_r. split; reflexivity.
  - destruct (traceSource sources src l k (Some ""%string)) as [[t|]|e]; [| |discriminate].
    + destruct (put (t_sources tb) (filename (so_source t))) as [si srcs].
      destruct (truthy (so_name t)).
      * destruct (put (t_names tb) _) as [ni nms]. injection Hs as <- <-.
        rewrite Hdrop. split; reflexivity.
      * injection Hs as <- <-. rewrite Hdrop. split; reflexivity.
    + injection Hs as <- <-. rewrite Hnil, app_nil_r. split; reflexivity.
  - destruct (traceSource sources src l k (at_index mapNames n)) as [[t|]|e]; [| |discriminate].
    + destruct (put (t_sources tb) (filename (so_source t))) as [si srcs].
      destruct (truthy (so_name t)).
      * destruct (put (t_names tb) _) as [ni nms]. injection Hs as <- <-.
        rewrite Hdrop. split; reflexivity.
      * injection Hs as <- <-. rewrite Hdrop. split; reflexivity.
    + injection Hs as <- <-. rewrite Hnil, app_nil_r. split; reflexivity.
Qed.

Lemma traceMappings_row_cols mapNames sources segments :
  forall tracedSegments tb out tb',
    traceMappings_row mapNames sources segments tracedSegments tb = Normal (out, tb') ->
    map genCol out =
    map genCol tracedSegments ++
    map genCol (List.filter (contributes mapNames sources) segments).
Proof.
  induction segments as [|segment segments IH]; intros tracedSegments tb out tb' Hr.
  - simpl in Hr. injection Hr as <- <-. simpl. rewrite app_nil_r. reflexivity.
  - cbn [traceMappings_row] in Hr.
    destruct (traceMappings_segment mapNames sources segment tracedSegments tb)
      as [[mid tb1]|e] eqn:Es; [|discriminate].
    destruct (traceMappings_segment_cols _ _ _ _ _ _ _ Es) as (Hmid & Hcols).
    rewrite (IH _ _ _ _ Hr). rewrite Hmid at 1. rewrite map_app, Hcols, <- app_assoc.
    f_equal. change (segment :: segments) with ([segment] ++ segments).
    rewrite List.filter_app, map_app. reflexivity.
Qed.

Lemma traceMappings_rows_spec mapNames sources mapMappings :
  forall mappings tb out tb',
    traceMappings_rows mapNames sources mapMappings mappings tb = Normal (out, tb') ->
    exists rows,
      out = mappings ++ rows /\
      Forall2 (row_kept mapNames sources) rows mapMappings.
Proof.
  induction mapMappings as [|segments mapMappings IH]; intros mappings tb out tb' Hr.
  - simpl in Hr. injection Hr as <- <-. exists []. rewrite app_nil_r.
    split; [reflexivity|constructor].
  - cbn [traceMappings_rows] in Hr.
    destruct (traceMappings_row mapNames sources segments [] tb)
      as [[row tb1]|e] eqn:Erow; [|discriminate].
    destruct (IH _ _ _ _ Hr) as (rows & Hout & Hrows).
    exists (row :: rows). split.
    + rewrite Hout, <- app_assoc. reflexivity.
    + constructor; [|exact Hrows].
      unfold row_kept. rewrite (traceMappings_row_cols _ _ _ _ _ _ _ Erow). reflexivity.
Qed.

End ComposeFacts.

Module RemapClaims.
Import JS Codec Remapping RemapFacts ComposeFacts.




(** The chain of two maps: the loader is asked for the child, then for the
    child's source. When the loader returns a child whose mappings the
    decoder rejects, the construction ends with the error of the decoder,
    after the one call. *)
Example build_chain :
  buildSourceMapGraph reject_mappings resolve_id chain_loader 2 (Decoded root_map) =
  Some (Normal (SourceMapTree root_map [SourceMapTree child_map [Original original_js]]),
        ["child.js"%string; "original.js"%string]) /\
  buildSourceMapGraph reject_mappings resolve_id raw_loader 2 (Decoded root_map) =
  Some (Throw (Error INVALID_CHARACTER), ["child.js"%string]).
Proof. split; reflexivity. Qed.



(** The chain of two maps: the root segment named ["rootName"] comes out
    with the child's ["childName"]. *)
Example compose_chain :
  traceMappings root_map root_sources = Normal composed_map.
Proof. vm_compute. reflexivity. Qed.

(** C10: when [traceMappings] returns, the composed map has one row per row
    of the root map, in the same order, and each row holds, in order, the
    generated columns of the root segments of that row that have a source
    and whose trace ends at an original source; the other root segments
    (one field, or a trace that finds no child segment) leave nothing in
    the row, and the row stays, empty or not. *)
Theorem traceMappings_keeps_rows (map : DecodedSourceMap) (sources : list Graph)
  (out : DecodedSourceMap) :
  traceMappings map sources = Normal out ->
  length (mappings out) = length (mappings map) /\
  Forall2 (row_kept (names map) sources) (mappings out) (mappings map).
Proof.
  unfold traceMappings. intros Ht.
  destruct (traceMappings_rows (names map) sources (mappings map) []
              (mkTables FastStringArray_new FastStringArray_new []))
    as [[rows tb]|e] eqn:Er; [|discriminate].
  injection Ht as <-. cbn [mappings].
  destruct (traceMappings_rows_spec _ _ _ _ _ _ _ Er) as (rows' & -> & Hrows).
  cbn [app]. split; [|exact Hrows].
  apply Forall2_length in Hrows. exact Hrows.
Qed.

Lemma traceMappings_keeps_rows_witness :
  length (mappings composed_map) = length (mappings root_map) /\
  Forall2 (row_kept (names root_map) root_sources)
    (mappings composed_map) (mappings root_map).
Proof.
  apply (traceMappings_keeps_rows root_map root_sources composed_map).
  vm_compute. reflexivity.
Defined.

End RemapClaims.

(** * Further properties *)

(** ** The byte buffer of [encode] *)

Module BufferFacts.
Import JS Codec.

(** The buffer holds [out] in its first [pos] bytes. *)
Definition holds (buf : list Z) (pos : nat) (out : list Z) : Prop :=
  (pos <= length buf)%nat /\ take pos buf = out.

Lemma intToChar_byte c : 0 <= default 0 (intToChar c) < 256.
Proof.
  unfold intToChar. destruct ((0 <=? c) && (c <? 65)); [|simpl; lia].
  destruct (chars !! Z.to_nat c) as [ch|] eqn:E; [|simpl; lia].
  simpl. apply list_elem_of_lookup_2 in E.
  assert (H : forallb (fun ch => (0 <=? ch) && (ch <? 256)) chars = true)
    by (vm_compute; reflexivity).
  rewrite forallb_forall in H. apply list_elem_of_In, H in E.
  apply andb_prop in E as [E1 E2]. apply Z.leb_le in E1. apply Z.ltb_lt in E2. lia.
Qed.

Lemma store_holds buf pos v out :
  (pos < length buf)%nat -> 0 <= v < 256 -> holds buf pos out ->
  holds (Buffer.store buf pos v) (S pos) (out ++ [v]) /\
  length (Buffer.store buf pos v) = length buf.
Proof.
  intros Hlt Hv [Hle <-]. unfold Buffer.store, holds. rewrite !length_insert.
  split; [|reflexivity]. split; [lia|].
  rewrite (take_S_r _ _ (v mod 256)) by (apply list_lookup_insert_eq; lia).
  rewrite take_insert_ge by lia. rewrite Z.mod_small by lia. reflexivity.
Qed.

Lemma reserve_holds buf pos count out :
  holds buf pos out -> (count < length buf)%nat ->
  holds (Buffer.reserve buf pos count) pos out /\
  (pos + count < length (Buffer.reserve buf pos count))%nat /\
  (length buf <= length (Buffer.reserve buf pos count))%nat.
Proof.
  intros [Hle <-] Hc. unfold Buffer.reserve.
  destruct (pos + count <? length buf)%nat eqn:E.
  - apply Nat.ltb_lt in E. repeat split; lia.
  - rewrite length_app, length_replicate.
    split; [|lia]. split; [rewrite length_app, length_replicate; lia|].
    apply take_app_le. lia.
Qed.

Lemma encodeInteger_loop_holds fuel :
  forall buf pos num out,
    (pos + fuel <= length buf)%nat -> holds buf pos out ->
    exists buf' pos',
      Buffer.encodeInteger_loop fuel buf pos num = (buf', pos') /\
      length buf' = length buf /\ (pos <= pos' <= pos + fuel)%nat /\
      holds buf' pos' (encodeInteger_loop fuel out num).
Proof.
  induction fuel as [|fuel IH]; intros buf pos num out Hroom Hh.
  - exists buf, pos. repeat split; try lia; apply Hh.
  - cbn [Buffer.encodeInteger_loop encodeInteger_loop].
    set (more := 0 <? shru num 5).
    set (clamped := if more then JS.or (JS.and num 31) 32 else JS.and num 31).
    destruct (store_holds buf pos (default 0 (intToChar clamped)) out)
      as [Hh' Hlen]; [lia|apply intToChar_byte|exact Hh|].
    destruct more.
    + destruct (IH _ (S pos) (shru num 5) _ ltac:(rewrite Hlen; lia) Hh')
        as (buf' & pos' & E & Hl & Hp & Hr).
      exists buf', pos'. rewrite E. repeat split; try lia; apply Hr.
    + eexists _, _. split; [reflexivity|]. repeat split; try lia; apply Hh'.
Qed.

Lemma encodeInteger_holds buf pos state segment j out :
  (pos + 7 <= length buf)%nat -> holds buf pos out ->
  exists buf' pos',
    Buffer.encodeInteger buf pos state segment j =
      (buf', pos', snd (encodeInteger out state segment j)) /\
    length buf' = length buf /\ (pos <= pos' <= pos + 7)%nat /\
    holds buf' pos' (fst (encodeInteger out state segment j)).
Proof.
  intros Hroom Hh. unfold Buffer.encodeInteger, encodeInteger. cbn [fst snd].
  set (num := if _ <? 0 then _ else _).
  destruct (encodeInteger_loop_holds 7 buf pos num out Hroom Hh)
    as (buf' & pos' & E & Hl & Hp & Hr).
  exists buf', pos'. rewrite E. repeat split; try lia; apply Hr.
Qed.

(** One segment: at most 36 bytes are written. *)
Ltac step_integer buf pos state segment j out Hh buf' pos' out' state' Hl Hp Hr :=
  let E := fresh "E" in
  destruct (encodeInteger_holds buf pos state segment j out ltac:(lia) Hh)
    as (buf' & pos' & E & Hl & Hp & Hr);
  rewrite E; clear E;
  destruct (encodeInteger out state segment j) as [out' state'];
  cbn [fst snd] in *.

Lemma encode_segments_holds line :
  forall j buf pos state out,
    (36 < length buf)%nat -> holds buf pos out ->
    exists buf' pos',
      Buffer.encode_segments j line buf pos state =
        (buf', pos', snd (encode_segments j line out state)) /\
      (36 < length buf')%nat /\
      holds buf' pos' (fst (encode_segments j line out state)).
Proof.
  induction line as [|segment line IH]; intros j buf pos state out Hlen Hh.
  - exists buf, pos. repeat split; try assumption; apply Hh.
  - cbn [Buffer.encode_segments encode_segments].
    destruct (reserve_holds buf pos 36 out Hh Hlen) as (Hh0 & Hroom & Hgrow).
    set (buf0 := Buffer.reserve buf pos 36) in *.
    assert (Hcomma : exists buf1 pos1,
      (if (0 <? j)%nat then (Buffer.store buf0 pos comma, S pos) else (buf0, pos))
      = (buf1, pos1) /\ length buf1 = length buf0 /\ (pos1 <= pos + 1)%nat /\
      holds buf1 pos1 (if (0 <? j)%nat then out ++ [comma] else out)).
    { destruct (0 <? j)%nat.
      - destruct (store_holds buf0 pos comma out) as [H1 H2];
          [lia|unfold comma; lia|exact Hh0|].
        eexists _, _. split; [reflexivity|]. repeat split; try lia; apply H1.
      - exists buf0, pos. repeat split; try lia; apply Hh0. }
    destruct Hcomma as (buf1 & pos1 & -> & Hl1 & Hp1 & Hh1).
    set (out1 := if (0 <? j)%nat then out ++ [comma] else out) in *.
    step_integer buf1 pos1 state segment 0%nat out1 Hh1 buf2 pos2 out2 state2 Hl2 Hp2 Hh2.
    destruct (seg_length segment =? 1).
    { apply IH; [lia|assumption]. }
    step_integer buf2 pos2 state2 segment 1%nat out2 Hh2 buf3 pos3 out3 state3 Hl3 Hp3 Hh3.
    step_integer buf3 pos3 state3 segment 2%nat out3 Hh3 buf4 pos4 out4 state4 Hl4 Hp4 Hh4.
    step_integer buf4 pos4 state4 segment 3%nat out4 Hh4 buf5 pos5 out5 state5 Hl5 Hp5 Hh5.
    destruct (seg_length segment =? 4).
    { apply IH; [lia|assumption]. }
    step_integer buf5 pos5 state5 segment 4%nat out5 Hh5 buf6 pos6 out6 state6 Hl6 Hp6 Hh6.
    apply IH; [lia|assumption].
Qed.

Lemma encode_lines_holds decoded :
  forall i buf pos state out,
    (36 < length buf)%nat -> holds buf pos out ->
    exists buf' pos',
      Buffer.encode_lines i decoded buf pos state = (buf', pos') /\
      holds buf' pos' (encode_lines i decoded out state).
Proof.
  induction decoded as [|line decoded IH]; intros i buf pos state out Hlen Hh.
  - exists buf, pos. split; [reflexivity|exact Hh].
  - cbn [Buffer.encode_lines encode_lines].
    assert (Hsemi : exists buf1 pos1,
      (if (0 <? i)%nat
       then (Buffer.store (Buffer.reserve buf pos 1) pos semicolon, S pos)
       else (buf, pos)) = (buf1, pos1) /\ (36 < length buf1)%nat /\
      holds buf1 pos1 (if (0 <? i)%nat then out ++ [semicolon] else out)).
    { destruct (0 <? i)%nat.
      - destruct (reserve_holds buf pos 1 out Hh ltac:(lia)) as (Hh0 & Hroom & Hgrow).
        destruct (store_holds (Buffer.reserve buf pos 1) pos semicolon out)
          as [H1 H2]; [lia|unfold semicolon; lia|exact Hh0|].
        eexists _, _. split; [reflexivity|]. split; [lia|exact H1].
      - exists buf, pos. repeat split; try lia; apply Hh. }
    destruct Hsemi as (buf1 & pos1 & -> & Hl1 & Hh1).
    destruct (length line =? 0)%nat; [apply IH; assumption|].
    destruct (encode_segments_holds line 0%nat buf1 pos1 (sset 0 0 state) _ Hl1 Hh1)
      as (buf2 & pos2 & E & Hl2 & Hh2).
    rewrite E. destruct (encode_segments 0 line _ (sset 0 0 state)) as [out2 state2].
    cbn [fst snd] in *. apply IH; assumption.
Qed.

Lemma buffer_encode decoded : Buffer.encode decoded = encode decoded.
Proof.
  unfold Buffer.encode, encode.
  destruct (encode_lines_holds decoded 0%nat (replicate 1000 0) 0%nat state_new [])
    as (buf & pos & E & Hle & Ht).
  - rewrite length_replicate. lia.
  - split; [lia|reflexivity].
  - rewrite E. exact Ht.
Qed.

End BufferFacts.

(** ** What [encode] writes *)

Module EncodeFacts.
Import JS JSFacts Codec CodecFacts CodecFacts2 CodecShape.

(** A text that ends where an integer ends: every character is of the
    grammar, and the last one, if any, does not ask for more. *)
Definition closed (out : list Z) : Prop :=
  Forall (fun c => valid_char c = true) out /\
  match last out with
  | Some c => continues c = false
  | None => True
  end.

(** The character of a digit is of the grammar, and it asks for more
    exactly when the digit has bit 32. *)
Definition digit_closed (c : Z) : bool :=
  match intToChar c with
  | Some ch => valid_char ch && Bool.eqb (continues ch) (32 <=? c)
  | None => false
  end.

Lemma digit_closed_ok c :
  0 <= c < 64 ->
  exists ch, intToChar c = Some ch /\ valid_char ch = true /\
             continues ch = (32 <=? c).
Proof.
  intros Hc.
  assert (H : digit_closed c = true).
  { apply (forall_below digit_closed 64); [vm_compute; reflexivity|exact Hc]. }
  unfold digit_closed in H. destruct (intToChar c) as [ch|]; [|discriminate].
  apply andb_prop in H as [H1 H2]. apply eqb_prop in H2. eauto.
Qed.

Lemma closed_snoc out c :
  Forall (fun c => valid_char c = true) out ->
  valid_char c = true -> continues c = false -> closed (out ++ [c]).
Proof.
  intros Ho Hv Hc. split.
  - apply Forall_app. split; [exact Ho|]. constructor; [exact Hv|constructor].
  - rewrite last_snoc. exact Hc.
Qed.

Lemma encodeInteger_loop_closed k :
  forall u out,
    0 <= u < 2 ^ (5 * Z.of_nat (S k)) ->
    Forall (fun c => valid_char c = true) out ->
    closed (encodeInteger_loop (S k) out u).
Proof.
  induction k as [|k IH]; intros u out Hu Ho.
  - rewrite encodeInteger_loop_S. cbv zeta.
    rewrite toUint32_id by (change (2 ^ (5 * Z.of_nat 1)) with 32 in Hu; lia).
    change (2 ^ (5 * Z.of_nat 1)) with 32 in Hu.
    rewrite (Z.div_small u 32) by lia. change (0 <? 0) with false. cbv iota.
    rewrite Z.mod_small by lia.
    destruct (digit_closed_ok u) as (ch & -> & Hv & Hc); [lia|]; simpl default.
    apply closed_snoc; [exact Ho|exact Hv|].
    rewrite Hc. apply Z.leb_gt. lia.
  - rewrite encodeInteger_loop_S. cbv zeta.
    assert (Hpow : 2 ^ (5 * Z.of_nat (S (S k))) = 32 * 2 ^ (5 * Z.of_nat (S k))).
    { replace (5 * Z.of_nat (S (S k))) with (5 + 5 * Z.of_nat (S k)) by lia.
      rewrite Z.pow_add_r by lia. reflexivity. }
    assert (H32 : 2 ^ (5 * Z.of_nat (S (S k))) <= 2 ^ 32 \/
                  2 ^ 32 <= 2 ^ (5 * Z.of_nat (S (S k)))) by lia.
    destruct (Z_lt_ge_dec u (2 ^ 32)) as [Hlt|Hge].
    + rewrite toUint32_id by lia.
      pose proof (Z.mod_pos_bound u 32 ltac:(lia)) as Hm.
      destruct (0 <? u / 32) eqn:E.
      * rewrite digit_or32 by lia.
        destruct (digit_closed_ok (u mod 32 + 32)) as (ch & -> & Hv & Hc); [lia|]; simpl default.
        apply IH.
        { split; [apply Z.div_pos; lia|]. apply Z.div_lt_upper_bound; lia. }
        apply Forall_app. split; [exact Ho|]. constructor; [exact Hv|constructor].
      * destruct (digit_closed_ok (u mod 32)) as (ch & -> & Hv & Hc); [lia|]; simpl default.
        apply closed_snoc; [exact Ho|exact Hv|].
        rewrite Hc. apply Z.leb_gt. lia.
    + pose proof (toUint32_range u) as Hr.
      pose proof (Z.mod_pos_bound (toUint32 u) 32 ltac:(lia)) as Hm.
      destruct (0 <? toUint32 u / 32) eqn:E.
      * rewrite digit_or32 by lia.
        destruct (digit_closed_ok (toUint32 u mod 32 + 32)) as (ch & -> & Hv & Hc); [lia|]; simpl default.
        apply IH.
        { split; [apply Z.div_pos; lia|]. apply Z.div_lt_upper_bound; lia. }
        apply Forall_app. split; [exact Ho|]. constructor; [exact Hv|constructor].
      * destruct (digit_closed_ok (toUint32 u mod 32)) as (ch & -> & Hv & Hc); [lia|]; simpl default.
        apply closed_snoc; [exact Ho|exact Hv|].
        rewrite Hc. apply Z.leb_gt. lia.
Qed.

Lemma digit_ok_char c :
  0 <= c < 64 -> exists ch, intToChar c = Some ch /\ digit_ok ch.
Proof.
  intros Hc. destruct (digit_char c Hc) as (ch & E1 & _ & N1 & N2).
  destruct (digit_closed_ok c Hc) as (ch' & E2 & Hv & _).
  rewrite E1 in E2. injection E2 as <-. exists ch. repeat split; assumption.
Qed.

Lemma encodeInteger_loop_digits f :
  forall num, Forall digit_ok (encodeInteger_loop f [] num).
Proof.
  induction f as [|f IH]; intros num; [constructor|].
  rewrite encodeInteger_loop_S. cbv zeta.
  pose proof (toUint32_range num) as Hr.
  pose proof (Z.mod_pos_bound (toUint32 num) 32 ltac:(lia)) as Hm.
  destruct (0 <? toUint32 num / 32).
  - rewrite digit_or32 by lia.
    destruct (digit_ok_char (toUint32 num mod 32 + 32) ltac:(lia)) as (ch & -> & Hd).
    simpl default. rewrite encodeInteger_loop_app.
    apply Forall_app. split; [constructor; [exact Hd|constructor]|apply IH].
  - destruct (digit_ok_char (toUint32 num mod 32) ltac:(lia)) as (ch & -> & Hd).
    simpl default. constructor; [exact Hd|constructor].
Qed.

Lemma encodeInteger_closed out state segment j :
  Forall (fun c => valid_char c = true) out ->
  closed (fst (encodeInteger out state segment j)).
Proof.
  intros Ho. unfold encodeInteger. cbn [fst].
  rewrite encodeInteger_loop_toUint32.
  apply encodeInteger_loop_closed; [|exact Ho].
  pose proof (toUint32_range (if default 0 (field segment j) - sget j state <? 0
     then JS.or (shl (- (default 0 (field segment j) - sget j state)) 1) 1
     else shl (default 0 (field segment j) - sget j state) 1)) as Hr.
  change (2 ^ (5 * Z.of_nat 7)) with (2 ^ 35). lia.
Qed.

Lemma closed_valid out : closed out -> Forall (fun c => valid_char c = true) out.
Proof. intros [H _]. exact H. Qed.

Lemma closed_separator out c :
  closed out -> c = comma \/ c = semicolon -> closed (out ++ [c]).
Proof.
  intros Ho Hc. apply closed_snoc; [apply closed_valid, Ho| |];
    destruct Hc as [->| ->]; reflexivity.
Qed.

Ltac next_integer out state segment j Hc out' state' Hc' :=
  pose proof (encodeInteger_closed out state segment j (closed_valid _ Hc)) as Hc';
  destruct (encodeInteger out state segment j) as [out' state'];
  cbn [fst] in Hc'.

Lemma encode_segments_closed line :
  forall j out state,
    closed out -> closed (fst (encode_segments j line out state)).
Proof.
  induction line as [|segment line IH]; intros j out state Hc; [exact Hc|].
  cbn [encode_segments].
  assert (Hc0 : closed (if (0 <? j)%nat then out ++ [comma] else out)).
  { destruct (0 <? j)%nat; [apply closed_separator; auto|exact Hc]. }
  next_integer (if (0 <? j)%nat then out ++ [comma] else out) state segment 0%nat
    Hc0 out1 state1 Hc1.
  destruct (seg_length segment =? 1); [apply IH, Hc1|].
  next_integer out1 state1 segment 1%nat Hc1 out2 state2 Hc2.
  next_integer out2 state2 segment 2%nat Hc2 out3 state3 Hc3.
  next_integer out3 state3 segment 3%nat Hc3 out4 state4 Hc4.
  destruct (seg_length segment =? 4); [apply IH, Hc4|].
  next_integer out4 state4 segment 4%nat Hc4 out5 state5 Hc5.
  apply IH, Hc5.
Qed.

Lemma encode_lines_closed decoded :
  forall i out state, closed out -> closed (encode_lines i decoded out state).
Proof.
  induction decoded as [|line decoded IH]; intros i out state Hc; [exact Hc|].
  cbn [encode_lines].
  assert (Hc0 : closed (if (0 <? i)%nat then out ++ [semicolon] else out)).
  { destruct (0 <? i)%nat; [apply closed_separator; auto|exact Hc]. }
  destruct (length line =? 0)%nat; [apply IH, Hc0|].
  pose proof (encode_segments_closed line 0%nat _ (sset 0 0 state) Hc0) as Hc1.
  destruct (encode_segments 0 line _ (sset 0 0 state)) as [out1 state1].
  apply IH, Hc1.
Qed.

Lemma closed_not_malformed out : closed out -> malformed out = false.
Proof.
  intros [Hv Hl]. unfold malformed. apply orb_false_iff. split.
  - apply not_true_is_false. intros H. apply existsb_exists in H as (c & Hin & Hc).
    rewrite List.Forall_forall in Hv. rewrite (Hv c Hin) in Hc. discriminate.
  - destruct (last out); [exact Hl|reflexivity].
Qed.

End EncodeFacts.

(** ** What [decode] returns *)

Module DecodeRange.
Import JS JSFacts Codec CodecFacts CodecFacts2 CodecLoop SortFacts.

Definition is_int32 (v : Z) : Prop := - 2 ^ 31 <= v < 2 ^ 31.

(** The five slots of the [Int32Array] hold 32-bit integers. *)
Definition state_int32 (st : Int32x5) : Prop :=
  is_int32 (s0 st) /\ is_int32 (s1 st) /\ is_int32 (s2 st) /\
  is_int32 (s3 st) /\ is_int32 (s4 st).

Definition seg_int32 (s : SourceMapSegment) : Prop := Forall is_int32 (seg_fields s).

Lemma state_int32_sget st j : state_int32 st -> is_int32 (sget j st).
Proof.
  intros (H0 & H1 & H2 & H3 & H4).
  destruct j as [|[|[|[|j]]]]; assumption.
Qed.

Lemma state_int32_sset st j v : state_int32 st -> state_int32 (sset j v st).
Proof.
  intros (H0 & H1 & H2 & H3 & H4). pose proof (toInt32_range v) as Hv.
  destruct j as [|[|[|[|j]]]]; repeat split; cbn [sset s0 s1 s2 s3 s4]; try apply Hv;
    first [apply H0|apply H1|apply H2|apply H3|apply H4].
Qed.

Lemma decodeInteger_int32 rest st j :
  state_int32 st -> state_int32 (snd (decodeInteger rest st j)).
Proof.
  intros H. unfold decodeInteger.
  destruct (decodeInteger_loop rest 0 0) as [value rest']. cbn [snd].
  apply state_int32_sset, H.
Qed.

Lemma is_int32_int32 v : is_int32 v -> int32 v = true.
Proof.
  unfold is_int32, int32. intros H. apply andb_true_intro. split.
  - apply Z.leb_le. lia.
  - apply Z.ltb_lt. lia.
Qed.

Definition rows_int32 (decoded : SourceMapMappings) : Prop :=
  Forall (Forall seg_int32) decoded.

Lemma push_line_int32 sortf decoded sorted line :
  (forall l, sortf l ≡ₚ l) ->
  rows_int32 decoded -> Forall seg_int32 line ->
  rows_int32 (push_line sortf decoded sorted line).
Proof.
  intros Hp Hd Hl. unfold push_line, rows_int32. apply Forall_app. split; [exact Hd|].
  constructor; [|constructor].
  destruct sorted; [exact Hl|]. rewrite Hp. exact Hl.
Qed.

Lemma snoc_int32 line seg :
  Forall seg_int32 line -> seg_int32 seg -> Forall seg_int32 (line ++ [seg]).
Proof. intros Hl Hs. apply Forall_app. split; [exact Hl|]. constructor; [exact Hs|constructor]. Qed.

Lemma decode_loop_int32 sortf fuel :
  (forall l, sortf l ≡ₚ l) ->
  forall rest state decoded line sorted lastCol,
    state_int32 state -> rows_int32 decoded -> Forall seg_int32 line ->
    rows_int32 (decode_loop sortf fuel rest state decoded line sorted lastCol).
Proof.
  intros Hp.
  induction fuel as [|fuel IH]; intros rest state decoded line sorted lastCol Hs Hd Hl.
  - destruct rest; simpl; apply push_line_int32; assumption.
  - destruct rest as [|c rest]; [simpl; apply push_line_int32; assumption|].
    cbn [decode_loop].
    destruct (c =? comma); [apply IH; assumption|].
    destruct (c =? semicolon).
    { apply IH; [apply state_int32_sset, Hs|apply push_line_int32; assumption|constructor]. }
    pose proof (decodeInteger_int32 (c :: rest) state 0 Hs) as H1.
    destruct (decodeInteger (c :: rest) state 0) as [rest1 st1]. cbn [snd] in H1.
    destruct (negb (hasMoreSegments rest1)).
    { apply IH; [assumption|assumption|]. apply snoc_int32; [exact Hl|].
      repeat constructor; apply (state_int32_sget st1 0), H1. }
    pose proof (decodeInteger_int32 rest1 st1 1 H1) as H2.
    destruct (decodeInteger rest1 st1 1) as [rest2 st2]. cbn [snd] in H2.
    pose proof (decodeInteger_int32 rest2 st2 2 H2) as H3.
    destruct (decodeInteger rest2 st2 2) as [rest3 st3]. cbn [snd] in H3.
    pose proof (decodeInteger_int32 rest3 st3 3 H3) as H4.
    destruct (decodeInteger rest3 st3 3) as [rest4 st4]. cbn [snd] in H4.
    destruct (negb (hasMoreSegments rest4)).
    { apply IH; [assumption|assumption|]. apply snoc_int32; [exact Hl|].
      unfold seg_int32. cbn [seg_fields].
      repeat constructor; first [apply (state_int32_sget st1 0), H1
                                |apply (state_int32_sget st4), H4]. }
    pose proof (decodeInteger_int32 rest4 st4 4 H4) as H5.
    destruct (decodeInteger rest4 st4 4) as [rest5 st5]. cbn [snd] in H5.
    apply IH; [assumption|assumption|]. apply snoc_int32; [exact Hl|].
    unfold seg_int32. cbn [seg_fields].
    repeat constructor; first [apply (state_int32_sget st1 0), H1
                              |apply (state_int32_sget st5), H5].
Qed.

Lemma rows_int32_all_fields decoded :
  rows_int32 decoded -> all_fields int32 decoded = true.
Proof.
  intros H. unfold all_fields. apply forallb_forall. intros line Hin.
  apply forallb_forall. intros seg Hin2. apply forallb_forall. intros v Hv.
  unfold rows_int32 in H. rewrite List.Forall_forall in H. specialize (H line Hin).
  rewrite List.Forall_forall in H. specialize (H seg Hin2).
  unfold seg_int32 in H. rewrite List.Forall_forall in H.
  apply is_int32_int32, H, Hv.
Qed.

Lemma decode_int32 mappings : all_fields int32 (decode mappings) = true.
Proof.
  apply rows_int32_all_fields. unfold decode, decode_with.
  apply decode_loop_int32; [apply sort_perm| |constructor|constructor].
  repeat split; simpl; lia.
Qed.

End DecodeRange.

(** ** The tracer with one memo slot *)

Module MemoTracerFacts.
Import JS JSFacts Codec BinarySearch SearchFacts MemoTracer.

Lemma memoizedBinarySearch_state {A} `{HasColumn A} (haystack : list A)
  needle state key r state' :
  memoizedBinarySearch haystack needle state key = (r, state') ->
  state' = state \/ lastKey state' = key.
Proof.
  unfold memoizedBinarySearch. intros E.
  repeat match type of E with
  | (if ?b then _ else _) = _ => destruct b
  | (match ?x with _ => _ end) = _ => destruct x
  end; injection E as <- <-; auto.
Qed.

Lemma elem_of_col_at (row : SourceMapLine) s :
  s ∈ row -> exists i, col_at row i = Some (genCol s) /\ at_index row i = Some s.
Proof.
  intros Hin. apply list_elem_of_lookup in Hin as [i Hi].
  exists (Z.of_nat i). unfold col_at, at_index.
  destruct (0 <=? Z.of_nat i) eqn:E; [|apply Z.leb_gt in E; lia].
  rewrite Nat2Z.id, Hi. split; reflexivity.
Qed.

Lemma at_index_elem_of {B} (l : list B) i x : at_index l i = Some x -> x ∈ l.
Proof.
  unfold at_index. destruct (0 <=? i); [|discriminate].
  intros Hi. apply list_elem_of_lookup. eauto.
Qed.

(** What a search result means for the segments of the row. *)
Lemma hit_nearest (row : SourceMapLine) column r :
  sorted_by_column row = true -> hit row column r ->
  if r <? 0 then forall s, s ∈ row -> column < genCol s
  else exists seg, at_index row r = Some seg /\ nearest_below row column seg.
Proof.
  intros Hs Hh. pose proof (hit_range row column r Hh) as Hr.
  destruct (r <? 0) eqn:E.
  - apply Z.ltb_lt in E. destruct Hh as [He|(_ & _ & Hgt)].
    + unfold exact in He. apply col_at_range in He. lia.
    + intros s Hin. destruct (elem_of_col_at row s Hin) as (i & Hi & _).
      pose proof (col_at_range _ _ _ Hi). apply (Hgt i); [lia|exact Hi].
  - apply Z.ltb_ge in E.
    destruct (at_index_Some row r ltac:(lia)) as [seg Hseg].
    exists seg. split; [exact Hseg|].
    assert (Hc : col_at row r = Some (genCol seg)).
    { unfold col_at. rewrite Hseg. reflexivity. }
    split; [eapply at_index_elem_of; exact Hseg|].
    destruct Hh as [He|(_ & Hlt & Hgt)].
    + unfold exact in He. rewrite Hc in He. injection He as He.
      split; [lia|]. intros s _ Hle. lia.
    + pose proof (Hlt r _ ltac:(lia) Hc) as Hlt'.
      split; [lia|]. intros s Hin Hle.
      destruct (elem_of_col_at row s Hin) as (i & Hi & _).
      destruct (Z_le_gt_dec i r) as [Hir|Hir].
      * exact (sorted_col_at row Hs i r _ _ Hi Hc Hir).
      * pose proof (Hgt i _ ltac:(lia) Hi). lia.
Qed.

Lemma searchable_row map line row :
  searchable map -> at_index (_decoded map) line = Some row ->
  sorted_by_column row = true /\ Z.of_nat (length row) <= 2 ^ 31 /\
  memo_ok row line (_binarySearchMemo map).
Proof.
  intros [Hrows Hmemo] Hrow. apply at_index_elem_of in Hrow as Hin.
  rewrite Forall_forall in Hrows. destruct (Hrows row Hin) as [Hs Hl].
  split; [exact Hs|]. split; [exact Hl|].
  intros Hk. apply Hmemo. rewrite Hk. exact Hrow.
Qed.

Lemma traceSegment_traced map line column :
  searchable map -> 0 <= line ->
  exists r memo,
    traceSegment map line column = (Normal r, set_memo map memo) /\
    traced map line column r /\ searchable (set_memo map memo).
Proof.
  intros Hok Hline. unfold traceSegment, traced.
  destruct (line >=? Z.of_nat (length (_decoded map))) eqn:E.
  - rewrite Z.geb_leb in E. apply Z.leb_le in E.
    exists None, (_binarySearchMemo map).
    assert (Hn : at_index (_decoded map) line = None).
    { destruct (at_index (_decoded map) line) eqn:En; [|reflexivity].
      apply at_index_range in En. lia. }
    rewrite Hn. destruct map; split; [reflexivity|]. split; [reflexivity|exact Hok].
  - rewrite Z.geb_leb in E. apply Z.leb_gt in E.
    destruct (at_index_Some (_decoded map) line ltac:(lia)) as [row Hrow].
    rewrite Hrow.
    destruct (searchable_row map line row Hok Hrow) as (Hs & Hl & Hm).
    destruct (memoizedBinarySearch_hit row column (_binarySearchMemo map) line Hs Hl Hm)
      as (r & memo & Em & Hh & Hm').
    rewrite Em.
    assert (Hok' : searchable (set_memo map memo)).
    { destruct Hok as [Hrows Hmemo]. split; [exact Hrows|].
      cbn [set_memo _decoded _binarySearchMemo]. intros row' Hrow'.
      destruct (memoizedBinarySearch_state _ _ _ _ _ _ Em) as [->|Hk].
      - apply Hmemo, Hrow'.
      - rewrite Hk, Hrow in Hrow'. injection Hrow' as <-. apply Hm', Hk. }
    pose proof (hit_nearest row column r Hs Hh) as Hn.
    destruct (r <? 0).
    + exists None, memo. split; [reflexivity|]. split; [exact Hn|exact Hok'].
    + destruct Hn as (seg & Hseg & Hnear).
      exists (Some seg), memo. rewrite Hseg.
      split; [reflexivity|]. split; [exact Hnear|exact Hok'].
Qed.

Lemma traceSegment_negative map line column :
  line < 0 -> traceSegment map line column = (Throw TypeError, map).
Proof.
  intros Hl. unfold traceSegment.
  destruct (line >=? Z.of_nat (length (_decoded map))) eqn:E.
  { rewrite Z.geb_leb in E. apply Z.leb_le in E. lia. }
  unfold at_index. destruct (0 <=? line) eqn:E0; [apply Z.leb_le in E0; lia|].
  reflexivity.
Qed.

Lemma originalPositionFor_traced map needle :
  searchable map ->
  (line needle < 1 ->
   originalPositionFor map needle = (Throw (Error LINE_GTR_ZERO), map)) /\
  (1 <= line needle -> column_ needle < 0 ->
   originalPositionFor map needle = (Throw (Error COL_GTR_EQ_ZERO), map)) /\
  (1 <= line needle -> 0 <= column_ needle ->
   exists seg memo,
     originalPositionFor map needle =
       (Normal (mapping_of map seg), set_memo map memo) /\
     traced map (line needle - 1) (column_ needle) seg /\
     searchable (set_memo map memo)).
Proof.
  intros Hok. unfold originalPositionFor. split; [|split].
  - intros Hl. destruct (line needle <? 1) eqn:E; [reflexivity|].
    apply Z.ltb_ge in E. lia.
  - intros Hl Hc. destruct (line needle <? 1) eqn:E; [apply Z.ltb_lt in E; lia|].
    destruct (column_ needle <? 0) eqn:E0; [reflexivity|]. apply Z.ltb_ge in E0. lia.
  - intros Hl Hc. destruct (line needle <? 1) eqn:E; [apply Z.ltb_lt in E; lia|].
    destruct (column_ needle <? 0) eqn:E0; [apply Z.ltb_lt in E0; lia|].
    destruct (traceSegment_traced map (line needle - 1) (column_ needle) Hok ltac:(lia))
      as (seg & memo & -> & Ht & Hok').
    exists seg, memo. split; [reflexivity|]. split; [exact Ht|exact Hok'].
Qed.

End MemoTracerFacts.

(** ** The other queries of the tracer *)

Module TraceQueriesFacts.
Import JS JSFacts Codec BinarySearch TraceMapping SearchFacts BiasFacts TracerFacts
  QueryFacts SortFacts DecodeFacts TraceQueries.

(** *** [indexOf] *)

Lemma indexOf_from_first {B} `{EqDecision B} (l : list B) (x : B) :
  forall k (i : nat),
    l !! i = Some x -> (forall j, (j < i)%nat -> l !! j <> Some x) ->
    indexOf_from k l x = k + Z.of_nat i.
Proof.
  induction l as [|y l IH]; intros k i Hi Hfirst; [discriminate|].
  cbn [indexOf_from]. destruct (decide (y = x)) as [->|Hne].
  - destruct i as [|i]; [lia|]. destruct (Hfirst 0%nat ltac:(lia)). reflexivity.
  - destruct i as [|i]; [simpl in Hi; congruence|].
    rewrite (IH (k + 1) i Hi); [lia|].
    intros j Hj. apply (Hfirst (S j)). lia.
Qed.

Lemma indexOf_from_absent {B} `{EqDecision B} (l : list B) (x : B) k :
  x ∉ l -> indexOf_from k l x = -1.
Proof.
  revert k. induction l as [|y l IH]; intros k Hx; [reflexivity|].
  cbn [indexOf_from]. apply not_elem_of_cons in Hx as [Hne Hx].
  destruct (decide (y = x)); [congruence|]. apply IH, Hx.
Qed.

Lemma indexOf_first {B} `{EqDecision B} (l : list B) (x : B) (i : nat) :
  l !! i = Some x -> (forall j, (j < i)%nat -> l !! j <> Some x) ->
  indexOf l x = Z.of_nat i.
Proof. intros Hi Hf. unfold indexOf. rewrite (indexOf_from_first l x 0 i Hi Hf). lia. Qed.

Lemma indexOf_absent {B} `{EqDecision B} (l : list B) (x : B) :
  x ∉ l -> indexOf l x = -1.
Proof. apply indexOf_from_absent. Qed.

Lemma at_index_nat {B} (l : list B) (i : nat) : at_index l (Z.of_nat i) = l !! i.
Proof.
  unfold at_index. destruct (0 <=? Z.of_nat i) eqn:E; [|apply Z.leb_gt in E; lia].
  rewrite Nat2Z.id. reflexivity.
Qed.

(** *** [sourceContentFor] *)

Lemma sourceContentFor_spec map content source :
  sourceContentFor map None source = None /\
  (forall i : nat,
      sources map !! i = Some (Some source) ->
      (forall j, (j < i)%nat -> sources map !! j <> Some (Some source)) ->
      sourceContentFor map (Some content) source = mjoin (content !! i)) /\
  (forall i : nat,
      Some source ∉ sources map ->
      resolvedSources map !! i = Some source ->
      (forall j, (j < i)%nat -> resolvedSources map !! j <> Some source) ->
      sourceContentFor map (Some content) source = mjoin (content !! i)) /\
  (Some source ∉ sources map -> source ∉ resolvedSources map ->
   sourceContentFor map (Some content) source = None).
Proof.
  split; [reflexivity|]. unfold sourceContentFor. split; [|split].
  - intros i Hi Hf. rewrite (indexOf_first _ _ i Hi Hf).
    destruct (Z.of_nat i =? -1) eqn:E; [apply Z.eqb_eq in E; lia|].
    rewrite E, at_index_nat. reflexivity.
  - intros i Hs Hi Hf. rewrite (indexOf_absent _ _ Hs). change (-1 =? -1) with true.
    cbv iota. rewrite (indexOf_first _ _ i Hi Hf).
    destruct (Z.of_nat i =? -1) eqn:E; [apply Z.eqb_eq in E; lia|].
    rewrite at_index_nat. reflexivity.
  - intros Hs Hr. rewrite (indexOf_absent _ _ Hs). change (-1 =? -1) with true.
    cbv iota. rewrite (indexOf_absent _ _ Hr). reflexivity.
Qed.

(** *** [eachMapping] *)

Lemma eachMapping_lines_length map decoded :
  forall i, length (eachMapping_lines map i decoded) = length (concat decoded).
Proof.
  induction decoded as [|line decoded IH]; intros i; [reflexivity|].
  cbn [eachMapping_lines concat]. rewrite !length_app, length_map, IH. reflexivity.
Qed.

Lemma each_segment_position map i seg :
  generatedLine (each_segment map i seg) = i + 1 /\
  generatedColumn (each_segment map i seg) = genCol seg.
Proof. destruct seg; split; reflexivity. Qed.

Lemma eachMapping_lines_line map decoded :
  forall i,
    Forall (fun m => i + 1 <= generatedLine m <= i + Z.of_nat (length decoded))
      (eachMapping_lines map i decoded).
Proof.
  induction decoded as [|line decoded IH]; intros i; [constructor|].
  cbn [eachMapping_lines]. apply Forall_app. split.
  - apply Forall_forall. intros m Hm.
    apply list_elem_of_fmap in Hm as (seg & -> & _).
    destruct (each_segment_position map i seg) as [-> _]. simpl length. lia.
  - eapply Forall_impl; [apply (IH (i + 1))|].
    intros m Hm. simpl in *. lia.
Qed.

Lemma StronglySorted_app {B} (R : B -> B -> Prop) l1 l2 :
  Sorted.StronglySorted R l1 -> Sorted.StronglySorted R l2 ->
  (forall x y, x ∈ l1 -> y ∈ l2 -> R x y) ->
  Sorted.StronglySorted R (l1 ++ l2).
Proof.
  intros H1 H2 H12. induction H1 as [|a l1 Hs IH Ha]; [exact H2|].
  cbn [app]. constructor.
  - apply IH. intros x y Hx Hy. apply H12; [right; exact Hx|exact Hy].
  - apply List.Forall_forall. intros y Hy. apply list_elem_of_In in Hy.
    apply elem_of_app in Hy as [Hy|Hy].
    + rewrite List.Forall_forall in Ha. apply Ha, list_elem_of_In, Hy.
    + apply H12; [left|exact Hy].
Qed.

Lemma each_row_sorted map i line :
  row_sorted line = true ->
  Sorted.StronglySorted position_le (List.map (each_segment map i) line).
Proof.
  induction line as [|a line IH]; intros Hs; [constructor|].
  cbn [List.map]. constructor.
  - apply IH. unfold row_sorted in *. eapply nondecreasing_tail. exact Hs.
  - apply List.Forall_forall. intros m Hm. apply in_map_iff in Hm as (s & <- & Hin).
    right. destruct (each_segment_position map i a) as [-> ->].
    destruct (each_segment_position map i s) as [-> ->].
    split; [reflexivity|].
    pose proof (sorted_after a line Hs) as Hall.
    rewrite List.Forall_forall in Hall. apply Hall, Hin.
Qed.

Lemma eachMapping_lines_sorted map decoded :
  forall i,
    rows_sorted decoded = true ->
    Sorted.StronglySorted position_le (eachMapping_lines map i decoded).
Proof.
  induction decoded as [|line decoded IH]; intros i Hs; [constructor|].
  cbn [eachMapping_lines]. unfold rows_sorted in Hs. cbn [forallb] in Hs.
  apply andb_prop in Hs as [Hrow Hrest].
  apply StronglySorted_app.
  - apply each_row_sorted, Hrow.
  - apply IH, Hrest.
  - intros x y Hx Hy. left.
    apply list_elem_of_fmap in Hx as (seg & -> & _).
    destruct (each_segment_position map i seg) as [-> _].
    pose proof (eachMapping_lines_line map decoded (i + 1)) as Hl.
    rewrite Forall_forall in Hl. specialize (Hl y Hy). simpl in Hl. lia.
Qed.

Lemma filter_all {B} (f : B -> bool) l :
  Forall (fun x => f x = true) l -> List.filter f l = l.
Proof.
  induction 1 as [|x l Hx _ IH]; [reflexivity|].
  cbn [List.filter]. rewrite Hx, IH. reflexivity.
Qed.

Lemma filter_none {B} (f : B -> bool) l :
  Forall (fun x => f x = false) l -> List.filter f l = [].
Proof.
  induction 1 as [|x l Hx _ IH]; [reflexivity|].
  cbn [List.filter]. rewrite Hx, IH. reflexivity.
Qed.

(** The calls for row [j] of the rows from [i] on are the calls with line
    [i + j + 1]: one per segment of the row, in the order of the row. *)
Lemma eachMapping_lines_row map decoded :
  forall i (j : nat) row,
    decoded !! j = Some row ->
    List.filter (fun m => generatedLine m =? i + Z.of_nat j + 1)
      (eachMapping_lines map i decoded)
    = List.map (each_segment map (i + Z.of_nat j)) row.
Proof.
  induction decoded as [|line decoded IH]; intros i j row Hj; [discriminate|].
  cbn [eachMapping_lines]. rewrite List.filter_app.
  destruct j as [|j]; cbn [lookup list_lookup] in Hj.
  - injection Hj as ->. rewrite Z.add_0_r.
    rewrite filter_all, filter_none; [apply app_nil_r| |].
    + eapply Forall_impl; [apply (eachMapping_lines_line map decoded (i + 1))|].
      intros m Hm. simpl in Hm. apply Z.eqb_neq. lia.
    + apply Forall_forall. intros m Hm.
      apply list_elem_of_fmap in Hm as (seg & -> & _).
      destruct (each_segment_position map i seg) as [-> _]. apply Z.eqb_refl.
  - rewrite filter_none.
    + cbn [app]. replace (i + Z.of_nat (S j)) with (i + 1 + Z.of_nat j) by lia.
      apply IH. exact Hj.
    + apply Forall_forall. intros m Hm.
      apply list_elem_of_fmap in Hm as (seg & -> & _).
      destruct (each_segment_position map i seg) as [-> _]. apply Z.eqb_neq. lia.
Qed.

Lemma each_segment_ext map1 map i seg :
  names map1 = names map -> resolvedSources map1 = resolvedSources map ->
  each_segment map1 i seg = each_segment map i seg.
Proof. intros Hn Hr. unfold each_segment. rewrite Hn, Hr. reflexivity. Qed.

Lemma all_sorted_rows_sorted decoded : all_sorted decoded -> rows_sorted decoded = true.
Proof.
  unfold all_sorted, rows_sorted. intros H. apply forallb_forall. intros row Hin.
  rewrite List.Forall_forall in H. apply H, Hin.
Qed.

Lemma decode_sorted mappings : rows_sorted (decode mappings) = true.
Proof.
  apply all_sorted_rows_sorted. apply decode_loop_sorted; [constructor|apply row_inv_start].
Qed.

End TraceQueriesFacts.

Module TraceSegmentFacts.
Import JS JSFacts Codec BinarySearch TraceMapping SearchFacts BiasFacts TracerFacts
  QueryFacts TraceQueries MemoTracerFacts TraceQueriesFacts.

(** With the [GREATEST_LOWER_BOUND] bias the lookup never calls
    [upperBound]. *)
Lemma traceSegmentInternal_glb_indep
  (ub1 ub2 : forall (A : Type), HasColumn A -> list A -> Z -> Z -> Z)
  {A} `{HasColumn A} (segments : list A) memo line column :
  traceSegmentInternal ub1 segments memo line column GREATEST_LOWER_BOUND =
  traceSegmentInternal ub2 segments memo line column GREATEST_LOWER_BOUND.
Proof.
  unfold traceSegmentInternal.
  change (GREATEST_LOWER_BOUND =? LEAST_UPPER_BOUND) with false. reflexivity.
Qed.

Section Tracer.

Variable upperBound : forall (A : Type), HasColumn A -> list A -> Z -> Z -> Z.

Lemma traceSegment_originalPositionFor map line column b :
  map_ok map -> 0 <= line -> 0 <= column ->
  bias_or b GREATEST_LOWER_BOUND = GREATEST_LOWER_BOUND ->
  exists seg map',
    traceSegment upperBound map line column = (Normal seg, map') /\
    originalPositionFor upperBound map (mkNeedle (line + 1) column b)
    = (Normal (mapping_of map seg), map') /\
    map_ok map' /\
    match seg with
    | None => True
    | Some s =>
        exists decoded row,
          decoded_of map = Some decoded /\ at_index decoded line = Some row /\
          s ∈ row
    end.
Proof.
  intros Hok Hline Hcol Hb. unfold traceSegment, originalPositionFor.
  cbn [TraceMapping.line column_ bias]. rewrite Hb.
  replace (line + 1 - 1) with line by lia.
  destruct (line <? 0) eqn:El; [apply Z.ltb_lt in El; lia|].
  destruct (column <? 0) eqn:Ec; [apply Z.ltb_lt in Ec; lia|].
  destruct (decodedMappings_ok map Hok)
    as (decoded & map1 & Ed & Edm & Hok1 & Ed1 & Hs1 & Hr1 & Hn1 & Hm1 & Hb1 & Hbm1).
  rewrite Edm.
  destruct (line >=? Z.of_nat (length decoded)) eqn:Eg.
  { exists None, map1. split; [reflexivity|]. split; [reflexivity|]. split; [exact Hok1|exact I]. }
  rewrite Z.geb_leb in Eg. apply Z.leb_gt in Eg.
  destruct (at_index_Some decoded line) as [segments Hseg]; [lia|].
  rewrite Hseg.
  rewrite (traceSegmentInternal_glb_indep upperBound (@upperBound_spec)).
  destruct Hok1 as [(decoded' & Ed' & Hn & Hsrc & Hmemo) Hres Hby].
  rewrite Ed1 in Ed'. injection Ed' as <-.
  pose proof (row_within_concat _ _ _ Hseg) as Hrow.
  destruct (traceSegmentInternal_range segments (@upperBound_spec) upperBound_spec_in_range
              (_decodedMemo map1) line column GREATEST_LOWER_BOUND)
    as (r & memo' & Er & Hr & Hk & Hi); [lia| |].
  { intros Hkey. apply Hmemo. rewrite Hkey. exact Hseg. }
  rewrite Er.
  assert (Hok' : map_ok (set_decodedMemo map1 memo')).
  { constructor; cbn [set_decodedMemo sources resolvedSources _bySources _bySourceMemos _decodedMemo];
      [|assumption|assumption].
    exists decoded. split; [exact Ed1|]. split; [assumption|]. split; [assumption|].
    intros haystack Hh. rewrite Hk, Hseg in Hh. injection Hh as <-. exact Hi. }
  destruct (r =? -1) eqn:E1.
  { exists None, (set_decodedMemo map1 memo').
    split; [reflexivity|]. split; [reflexivity|]. split; [exact Hok'|exact I]. }
  apply Z.eqb_neq in E1.
  destruct (at_index_Some segments r) as [segment Hsegment]; [lia|].
  rewrite Hsegment.
  exists (Some segment), (set_decodedMemo map1 memo').
  split; [reflexivity|]. split.
  - unfold mapping_of. cbn [set_decodedMemo resolvedSources names].
    rewrite Hr1, Hn1. destruct segment; reflexivity.
  - split; [exact Hok'|]. exists decoded, segments.
    split; [exact Ed|]. split; [exact Hseg|]. eapply at_index_elem_of. exact Hsegment.
Qed.

(** A source the map does not list: the queries by source return their
    empty answers and leave the map as it is. *)
Lemma generatedPosition_unknown map source line column bias all :
  1 <= line -> 0 <= column ->
  Some source ∉ sources map -> source ∉ resolvedSources map ->
  generatedPosition upperBound map source line column bias all =
  (Normal (if all then All [] else One (GMapping None None)), map).
Proof.
  intros Hl Hc Hs Hr. unfold generatedPosition.
  destruct (line - 1 <? 0) eqn:El; [apply Z.ltb_lt in El; lia|].
  destruct (column <? 0) eqn:Ec; [apply Z.ltb_lt in Ec; lia|].
  rewrite (indexOf_absent _ _ Hs). change (-1 =? -1) with true. cbv iota.
  rewrite (indexOf_absent _ _ Hr). reflexivity.
Qed.

End Tracer.

End TraceSegmentFacts.

(** ** [FastStringArray] as a set with indices *)

Module FastStringArrayFacts.
Import JS Codec Remapping SearchFacts ComposeFacts RemappingState.

Lemma fast_inv_new : fast_inv FastStringArray_new.
Proof.
  intros key index. unfold FastStringArray_new. cbn [indexes array]. split.
  - rewrite lookup_empty. discriminate.
  - unfold at_index. destruct (0 <=? index); discriminate.
Qed.

Lemma fast_inv_absent strarr key :
  fast_inv strarr -> indexes strarr !! key = None <-> key ∉ array strarr.
Proof.
  intros Hinv. split.
  - intros Hn Hin. apply list_elem_of_lookup in Hin as [i Hi].
    assert (H : at_index (array strarr) (Z.of_nat i) = Some key).
    { unfold at_index. destruct (0 <=? Z.of_nat i) eqn:E; [|apply Z.leb_gt in E; lia].
      rewrite Nat2Z.id. exact Hi. }
    apply Hinv in H. congruence.
  - intros Hnin. destruct (indexes strarr !! key) as [i|] eqn:E; [|reflexivity].
    apply Hinv in E. destruct Hnin. unfold at_index in E.
    destruct (0 <=? i); [|discriminate]. apply list_elem_of_lookup. eauto.
Qed.

Lemma at_index_snoc_inv {B} (l : list B) (x y : B) i :
  at_index (l ++ [x]) i = Some y ->
  at_index l i = Some y \/ (i = Z.of_nat (length l) /\ y = x).
Proof.
  unfold at_index. destruct (0 <=? i) eqn:E; [|discriminate].
  apply Z.leb_le in E. intros H.
  destruct (decide (Z.to_nat i < length l)%nat) as [Hlt|Hge].
  - left. rewrite lookup_app_l in H by exact Hlt. exact H.
  - right. rewrite lookup_app_r in H by lia.
    destruct (Z.to_nat i - length l)%nat as [|n] eqn:En; [|destruct n; discriminate].
    injection H as <-. split; [lia|reflexivity].
Qed.

Lemma put_inv strarr key :
  fast_inv strarr ->
  fast_inv (snd (put strarr key)) /\
  at_index (array (snd (put strarr key))) (fst (put strarr key)) = Some key /\
  (key ∈ array strarr -> snd (put strarr key) = strarr) /\
  (key ∉ array strarr ->
   fst (put strarr key) = Z.of_nat (length (array strarr)) /\
   array (snd (put strarr key)) = array strarr ++ [key]).
Proof.
  intros Hinv. pose proof (fast_inv_absent strarr key Hinv) as Habs.
  unfold put. destruct (indexes strarr !! key) as [index|] eqn:E; cbn [fst snd array].
  - split; [exact Hinv|]. split; [apply Hinv, E|]. split; [reflexivity|].
    intros Hn. apply Habs in Hn. discriminate.
  - split; [|split; [apply at_index_snoc|split; [|split; reflexivity]]].
    + intros k i. cbn [indexes array]. split.
      * intros Hk. destruct (decide (k = key)) as [->|Hne].
        -- rewrite lookup_insert_eq in Hk. injection Hk as <-. apply at_index_snoc.
        -- rewrite lookup_insert_ne in Hk by congruence.
           apply at_index_app_l, Hinv, Hk.
      * intros Hk. apply at_index_snoc_inv in Hk as [Hk|[-> ->]].
        -- assert (k <> key).
           { intros ->. apply Hinv in Hk. congruence. }
           rewrite lookup_insert_ne by congruence. apply Hinv, Hk.
        -- apply lookup_insert_eq.
    + intros Hin. destruct (proj1 Habs eq_refl Hin).
Qed.

Lemma fast_inv_NoDup strarr : fast_inv strarr -> NoDup (array strarr).
Proof.
  intros Hinv. apply NoDup_alt. intros i j x Hi Hj.
  assert (H : forall n : nat, array strarr !! n = Some x ->
                              indexes strarr !! x = Some (Z.of_nat n)).
  { intros n Hn. apply Hinv. unfold at_index.
    destruct (0 <=? Z.of_nat n) eqn:E; [|apply Z.leb_gt in E; lia].
    rewrite Nat2Z.id. exact Hn. }
  pose proof (H i Hi) as H1. pose proof (H j Hj) as H2.
  rewrite H1 in H2. injection H2 as H2. lia.
Qed.

(** After a sequence of [put]s. *)
Lemma puts_from keys :
  forall strarr,
    fast_inv strarr ->
    fast_inv (fold_left (fun s key => snd (put s key)) keys strarr) /\
    forall k,
      k ∈ array (fold_left (fun s key => snd (put s key)) keys strarr) <->
      k ∈ array strarr \/ k ∈ keys.
Proof.
  induction keys as [|key keys IH]; intros strarr Hinv.
  - simpl. split; [exact Hinv|]. intros k. split; [auto|].
    intros [H|H]; [exact H|]. apply elem_of_nil in H. destruct H.
  - cbn [fold_left]. destruct (put_inv strarr key Hinv) as (Hinv' & Hat & Hold & Hnew).
    destruct (IH _ Hinv') as (Hinv'' & Hmem). split; [exact Hinv''|].
    intros k. rewrite Hmem. clear Hmem.
    destruct (decide (key ∈ array strarr)) as [Hin|Hnin].
    + rewrite (Hold Hin). split.
      * intros [H|H]; [left; exact H|right; right; exact H].
      * intros [H|H]; [left; exact H|].
        apply elem_of_cons in H as [->|H]; [left; exact Hin|right; exact H].
    + destruct (Hnew Hnin) as [_ ->]. rewrite elem_of_app, list_elem_of_singleton.
      rewrite elem_of_cons. tauto.
Qed.

Lemma put_again strarr key :
  fast_inv strarr -> key ∈ array strarr ->
  exists index,
    put strarr key = (index, strarr) /\ at_index (array strarr) index = Some key.
Proof.
  intros Hinv Hin. unfold put.
  destruct (indexes strarr !! key) as [index|] eqn:E.
  - exists index. split; [reflexivity|apply Hinv, E].
  - apply (fast_inv_absent strarr key Hinv) in E. contradiction.
Qed.

End FastStringArrayFacts.

(** ** What [traceMappings] builds *)

Module TablesFacts.
Import JS Codec Remapping SearchFacts ComposeFacts RemappingState FastStringArrayFacts.

(** The tables between two segments: both string arrays are sets with
    indices, [sourcesContent] is parallel to the sources, and no name is
    empty. *)
Definition tables_ok (tb : Tables) : Prop :=
  fast_inv (t_names tb) /\ fast_inv (t_sources tb) /\
  length (t_sourcesContent tb) = length (array (t_sources tb)) /\
  ""%string ∉ array (t_names tb).

Definition row_in (tb : Tables) (row : SourceMapLine) : Prop :=
  Forall (seg_in_tables (length (array (t_sources tb))) (length (array (t_names tb)))) row.

(** The tables only grow. *)
Definition grows (tb tb' : Tables) : Prop :=
  (length (array (t_sources tb)) <= length (array (t_sources tb')))%nat /\
  (length (array (t_names tb)) <= length (array (t_names tb')))%nat.

Lemma seg_in_tables_mono ns nn ns' nn' seg :
  (ns <= ns')%nat -> (nn <= nn')%nat ->
  seg_in_tables ns nn seg -> seg_in_tables ns' nn' seg.
Proof. destruct seg; simpl; intros; lia. Qed.

Lemma row_in_grows tb tb' row : grows tb tb' -> row_in tb row -> row_in tb' row.
Proof.
  intros [Hs Hn] Hr. unfold row_in in *. eapply Forall_impl; [exact Hr|].
  intros seg. apply seg_in_tables_mono; assumption.
Qed.

Lemma grows_refl tb : grows tb tb.
Proof. split; lia. Qed.

Lemma grows_trans a b c : grows a b -> grows b c -> grows a c.
Proof. intros [? ?] [? ?]. split; lia. Qed.

Lemma put_length strarr key :
  fast_inv strarr ->
  (length (array strarr) <= length (array (snd (put strarr key))))%nat /\
  0 <= fst (put strarr key) < Z.of_nat (length (array (snd (put strarr key)))) /\
  (fst (put strarr key) < Z.of_nat (length (array strarr)) ->
   array (snd (put strarr key)) = array strarr) /\
  (Z.of_nat (length (array strarr)) <= fst (put strarr key) ->
   fst (put strarr key) = Z.of_nat (length (array strarr)) /\
   array (snd (put strarr key)) = array strarr ++ [key]).
Proof.
  intros Hinv. destruct (put_inv strarr key Hinv) as (_ & Hat & Hold & Hnew).
  apply at_index_range in Hat.
  destruct (decide (key ∈ array strarr)) as [Hin|Hnin].
  - rewrite (Hold Hin) in *. split; [lia|]. split; [exact Hat|]. split; [reflexivity|]. lia.
  - destruct (Hnew Hnin) as [Hi Ha]. rewrite Ha, Hi in *. rewrite length_app. simpl.
    split; [lia|]. rewrite length_app in Hat. simpl in Hat.
    split; [lia|]. split; [lia|]. intros _. split; reflexivity.
Qed.

Lemma array_set_length (sc : list (option string)) (si : Z) v (key : string)
  (old new : list string) :
  length sc = length old ->
  0 <= si < Z.of_nat (length new) ->
  (si < Z.of_nat (length old) -> new = old) ->
  (Z.of_nat (length old) <= si -> si = Z.of_nat (length old) /\ new = old ++ [key]) ->
  length (array_set None sc si v) = length new.
Proof.
  intros Hlen Hsi Hold Hnew. unfold array_set.
  destruct (si <? 0) eqn:E0; [apply Z.ltb_lt in E0; lia|].
  destruct (si <? Z.of_nat (length sc)) eqn:E1.
  - apply Z.ltb_lt in E1. rewrite length_insert. rewrite Hold by lia. exact Hlen.
  - apply Z.ltb_ge in E1. destruct (Hnew ltac:(lia)) as [Hi ->].
    rewrite !length_app, length_replicate. simpl. lia.
Qed.

Lemma traceMappings_segment_tables mapNames sources segment tracedSegments tb out tb' :
  tables_ok tb -> row_in tb tracedSegments ->
  traceMappings_segment mapNames sources segment tracedSegments tb = Normal (out, tb') ->
  tables_ok tb' /\ row_in tb' out /\ grows tb tb'.
Proof.
  intros Hok Hrow Hs.
  assert (Hsame : out = tracedSegments -> tb' = tb ->
                  tables_ok tb' /\ row_in tb' out /\ grows tb tb').
  { intros -> ->. split; [exact Hok|]. split; [exact Hrow|apply grows_refl]. }
  unfold traceMappings_segment in Hs.
  destruct segment as [c|c src l k|c src l k n].
  { injection Hs as <- <-. apply Hsame; reflexivity. }
  all: match type of Hs with
       | match traceSource ?a ?b ?c ?d ?e with _ => _ end = _ =>
           destruct (traceSource a b c d e) as [[t|]|e0]
       end; [| injection Hs as <- <-; apply Hsame; reflexivity | discriminate].
  all: destruct Hok as (Hn & Hsrc & Hlen & Hempty);
    pose proof (put_length (t_sources tb) (filename (so_source t)) Hsrc)
      as (Hg & Hsi & Hold & Hnew);
    pose proof (put_inv (t_sources tb) (filename (so_source t)) Hsrc) as (Hsrc' & _);
    destruct (put (t_sources tb) (filename (so_source t))) as [si srcs];
    cbn [fst snd] in *;
    pose proof (array_set_length (t_sourcesContent tb) si (content (so_source t))
                  (filename (so_source t)) _ _ Hlen Hsi Hold Hnew) as Hsc;
    destruct (truthy (so_name t)) eqn:Et.
  all: try (
    pose proof (put_length (t_names tb) (default ""%string (so_name t)) Hn)
      as (Hgn & Hni & Holdn & Hnewn);
    pose proof (put_inv (t_names tb) (default ""%string (so_name t)) Hn) as (Hn' & _);
    destruct (put (t_names tb) (default ""%string (so_name t))) as [ni nms];
    cbn [fst snd] in *;
    injection Hs as <- <-;
    assert (Hg' : grows tb (mkTables nms srcs
                    (array_set None (t_sourcesContent tb) si (content (so_source t)))))
      by (split; cbn [t_sources t_names]; lia);
    split; [|split; [|exact Hg']];
    [ split; [exact Hn'|]; split; [exact Hsrc'|]; split; [exact Hsc|];
      cbn [t_names];
      destruct (Z_lt_ge_dec ni (Z.of_nat (length (array (t_names tb))))) as [Hlt|Hge];
      [ rewrite (Holdn Hlt); exact Hempty
      | destruct (Hnewn ltac:(lia)) as [_ ->];
        rewrite elem_of_app, list_elem_of_singleton; intros [H|H]; [tauto|];
        destruct (so_name t) as [s|]; [|discriminate];
        simpl in H; subst s; discriminate ]
    | apply Forall_app; split; [eapply row_in_grows; eassumption|];
      constructor; [|constructor]; cbn [seg_in_tables t_sources t_names]; lia ]).
  all: injection Hs as <- <-;
    assert (Hg' : grows tb (mkTables (t_names tb) srcs
                    (array_set None (t_sourcesContent tb) si (content (so_source t)))))
      by (split; cbn [t_sources t_names]; lia);
    split; [|split; [|exact Hg']];
    [ split; [exact Hn|]; split; [exact Hsrc'|]; split; [exact Hsc|exact Hempty]
    | apply Forall_app; split; [eapply row_in_grows; eassumption|];
      constructor; [|constructor]; cbn [seg_in_tables t_sources t_names]; lia ].
Qed.

Lemma traceMappings_row_tables mapNames sources segments :
  forall tracedSegments tb out tb',
    tables_ok tb -> row_in tb tracedSegments ->
    traceMappings_row mapNames sources segments tracedSegments tb = Normal (out, tb') ->
    tables_ok tb' /\ row_in tb' out /\ grows tb tb'.
Proof.
  induction segments as [|segment segments IH]; intros tracedSegments tb out tb' Hok Hrow Hr.
  - simpl in Hr. injection Hr as <- <-. split; [exact Hok|]. split; [exact Hrow|apply grows_refl].
  - cbn [traceMappings_row] in Hr.
    destruct (traceMappings_segment mapNames sources segment tracedSegments tb)
      as [[mid tb1]|e] eqn:Es; [|discriminate].
    destruct (traceMappings_segment_tables _ _ _ _ _ _ _ Hok Hrow Es) as (Hok1 & Hrow1 & Hg1).
    destruct (IH _ _ _ _ Hok1 Hrow1 Hr) as (Hok2 & Hrow2 & Hg2).
    split; [exact Hok2|]. split; [exact Hrow2|]. eapply grows_trans; eassumption.
Qed.

Lemma traceMappings_rows_tables mapNames sources mapMappings :
  forall mappings tb out tb',
    tables_ok tb -> Forall (row_in tb) mappings ->
    traceMappings_rows mapNames sources mapMappings mappings tb = Normal (out, tb') ->
    tables_ok tb' /\ Forall (row_in tb') out.
Proof.
  induction mapMappings as [|segments mapMappings IH]; intros mappings tb out tb' Hok Hrows Hr.
  - simpl in Hr. injection Hr as <- <-. split; assumption.
  - cbn [traceMappings_rows] in Hr.
    destruct (traceMappings_row mapNames sources segments [] tb)
      as [[row tb1]|e] eqn:Er; [|discriminate].
    destruct (traceMappings_row_tables _ _ _ _ _ _ _ Hok (Forall_nil_2 _) Er)
      as (Hok1 & Hrow1 & Hg1).
    apply (IH (mappings ++ [row]) tb1 out tb' Hok1); [|exact Hr].
    apply Forall_app. split; [|constructor; [exact Hrow1|constructor]].
    eapply Forall_impl; [exact Hrows|]. intros r. apply row_in_grows, Hg1.
Qed.

Lemma tables_ok_new : tables_ok (mkTables FastStringArray_new FastStringArray_new []).
Proof.
  split; [apply fast_inv_new|]. split; [apply fast_inv_new|]. split; [reflexivity|].
  cbn [t_names FastStringArray_new array]. apply not_elem_of_nil.
Qed.

(** *** When [traceMappings] returns *)

Lemma traceMappings_segment_normal mapNames sources segment tracedSegments tb :
  trace_throws mapNames sources segment = false <->
  exists out tb',
    traceMappings_segment mapNames sources segment tracedSegments tb = Normal (out, tb').
Proof.
  unfold trace_throws, traceMappings_segment, root_name.
  destruct segment as [c|c src l k|c src l k n].
  - split; [eauto|reflexivity].
  - destruct (traceSource sources src l k (Some ""%string)) as [[t|]|e].
    + split; [|reflexivity]. intros _.
      destruct (put (t_sources tb) _) as [si srcs].
      destruct (truthy (so_name t)); [destruct (put (t_names tb) _)|]; eauto.
    + split; [eauto|reflexivity].
    + split; [discriminate|]. intros (out & tb' & H). discriminate.
  - destruct (traceSource sources src l k (at_index mapNames n)) as [[t|]|e].
    + split; [|reflexivity]. intros _.
      destruct (put (t_sources tb) _) as [si srcs].
      destruct (truthy (so_name t)); [destruct (put (t_names tb) _)|]; eauto.
    + split; [eauto|reflexivity].
    + split; [discriminate|]. intros (out & tb' & H). discriminate.
Qed.

Lemma traceMappings_row_normal mapNames sources segments :
  forall tracedSegments tb,
    forallb (fun seg => negb (trace_throws mapNames sources seg)) segments = true <->
    exists out tb',
      traceMappings_row mapNames sources segments tracedSegments tb = Normal (out, tb').
Proof.
  induction segments as [|segment segments IH]; intros tracedSegments tb.
  - simpl. split; [eauto|reflexivity].
  - cbn [forallb traceMappings_row]. rewrite andb_true_iff, negb_true_iff.
    rewrite (traceMappings_segment_normal _ _ _ tracedSegments tb). split.
    + intros [(mid & tb1 & ->) Hrest]. apply IH, Hrest.
    + intros (out & tb' & Hr).
      destruct (traceMappings_segment mapNames sources segment tracedSegments tb)
        as [[mid tb1]|e]; [|discriminate].
      split; [eauto|]. apply (IH mid tb1). eauto.
Qed.

Lemma traceMappings_rows_normal mapNames sources mapMappings :
  forall mappings tb,
    forallb (fun seg => negb (trace_throws mapNames sources seg)) (concat mapMappings)
    = true <->
    exists out tb',
      traceMappings_rows mapNames sources mapMappings mappings tb = Normal (out, tb').
Proof.
  induction mapMappings as [|segments mapMappings IH]; intros mappings tb.
  - simpl. split; [eauto|reflexivity].
  - cbn [concat traceMappings_rows]. rewrite forallb_app, andb_true_iff.
    rewrite (traceMappings_row_normal _ _ _ [] tb). split.
    + intros [(row & tb1 & ->) Hrest]. apply IH, Hrest.
    + intros (out & tb' & Hr).
      destruct (traceMappings_row mapNames sources segments [] tb)
        as [[row tb1]|e]; [|discriminate].
      split; [eauto|]. apply (IH (mappings ++ [row]) tb1). eauto.
Qed.

(** *** A graph of original sources *)

Lemma buildChildren_originals decode resolve loader build map l :
  Forall (fun sourceFile => loader (resolve sourceFile (sourceRoot map)) = None) l ->
  forall i,
    buildChildren decode resolve loader build map l i =
    Some (Normal (originals (sourcesContent map) l i),
          List.map (fun sourceFile => resolve sourceFile (sourceRoot map)) l).
Proof.
  induction 1 as [|sourceFile l Hnone _ IH]; intros i; [reflexivity|].
  cbn [buildChildren originals List.map]. rewrite Hnone, IH. reflexivity.
Qed.

End TablesFacts.

(** ** Where the binary search would splice *)

Module SpliceFacts.
Import JS JSFacts Codec BinarySearch SearchFacts BiasFacts CodecRoundTrip Splice.

Lemma nondecreasing_insert needle :
  forall (n : nat) (l : list Z),
    nondecreasing l = true ->
    (forall i x, (i < n)%nat -> l !! i = Some x -> x <= needle) ->
    (forall i x, (n <= i)%nat -> l !! i = Some x -> needle <= x) ->
    nondecreasing (take n l ++ needle :: drop n l) = true.
Proof.
  induction n as [|n IH]; intros l Hs Hlow Hhigh.
  - rewrite take_0, drop_0. cbn [app]. destruct l as [|y l]; [reflexivity|].
    apply nondecreasing_cons. split; [|exact Hs].
    apply (Hhigh 0%nat); [lia|reflexivity].
  - destruct l as [|x l]; [reflexivity|]. cbn [take drop app].
    assert (Hrec : nondecreasing (take n l ++ needle :: drop n l) = true).
    { apply IH.
      - destruct l; [reflexivity|]. apply nondecreasing_cons in Hs. apply Hs.
      - intros i y Hi Hy. apply (Hlow (S i)); [lia|exact Hy].
      - intros i y Hi Hy. apply (Hhigh (S i)); [lia|exact Hy]. }
    destruct (take n l ++ needle :: drop n l) as [|y rest] eqn:E.
    { destruct (take n l); discriminate. }
    apply nondecreasing_cons. split; [|exact Hrec].
    destruct n as [|n].
    + rewrite take_0 in E. injection E as <- _. apply (Hlow 0%nat); [lia|reflexivity].
    + destruct l as [|z l].
      * injection E as <- _. apply (Hlow 0%nat); [lia|reflexivity].
      * injection E as <- _. apply nondecreasing_cons in Hs. apply Hs.
Qed.

Section Splice.

Context {A : Type} `{HasColumn A}.

Variable haystack : list A.

Lemma lookup_col_at (i : nat) x :
  map column haystack !! i = Some x -> col_at haystack (Z.of_nat i) = Some x.
Proof.
  intros Hi. rewrite col_at_nat. change (map column haystack) with (column <$> haystack) in Hi.
  rewrite list_lookup_fmap in Hi. exact Hi.
Qed.

Lemma hit_spliced needle r :
  sorted_by_column haystack = true -> hit haystack needle r ->
  nondecreasing (spliced haystack needle r) = true.
Proof.
  intros Hs Hh. pose proof (hit_range haystack needle r Hh) as Hr.
  unfold spliced. apply nondecreasing_insert; [exact Hs| |].
  - intros i x Hi Hx. apply lookup_col_at in Hx.
    destruct Hh as [He|(_ & Hlt & _)].
    + apply (sorted_col_at haystack Hs (Z.of_nat i) r x needle Hx He). lia.
    + pose proof (Hlt (Z.of_nat i) x ltac:(lia) Hx). lia.
  - intros i x Hi Hx. apply lookup_col_at in Hx.
    destruct Hh as [He|(_ & _ & Hgt)].
    + apply (sorted_col_at haystack Hs r (Z.of_nat i) needle x He Hx). lia.
    + pose proof (Hgt (Z.of_nat i) x ltac:(lia) Hx). lia.
Qed.

End Splice.

End SpliceFacts.

Module EachMappingFacts.
Import JS JSFacts Codec BinarySearch TraceMapping SearchFacts BiasFacts TracerFacts
  QueryFacts TraceQueries MemoTracerFacts TraceQueriesFacts TraceSegmentFacts.

Lemma as_original_each_segment map i seg :
  as_original (each_segment map i seg) = mapping_of map (Some seg).
Proof. destruct seg; reflexivity. Qed.

Lemma decodedMappings_decoded map decoded :
  decoded_of map = Some decoded ->
  exists map1,
    decodedMappings map = (Normal decoded, map1) /\
    _decoded map1 = Some decoded /\ decoded_of map1 = Some decoded /\
    names map1 = names map /\ resolvedSources map1 = resolvedSources map /\
    _decodedMemo map1 = _decodedMemo map.
Proof.
  unfold decoded_of, decodedMappings. intros Hd.
  destruct (_decoded map) as [d|] eqn:E.
  - injection Hd as ->. exists map. rewrite E. repeat split; reflexivity.
  - destruct (_encoded map) as [e|]; [|discriminate]. injection Hd as <-.
    eexists. split; [reflexivity|]. repeat split; reflexivity.
Qed.

Section Tracer.

Variable upperBound : forall (A : Type), HasColumn A -> list A -> Z -> Z -> Z.

Lemma originalPositionFor_first map decoded row seg i j b :
  searchable map -> decoded_of map = Some decoded ->
  at_index decoded i = Some row -> at_index row j = Some seg ->
  (forall j', col_at row j' = Some (genCol seg) -> j <= j') ->
  0 <= genCol seg ->
  bias_or b GREATEST_LOWER_BOUND = GREATEST_LOWER_BOUND ->
  exists map',
    originalPositionFor upperBound map (mkNeedle (i + 1) (genCol seg) b)
    = (Normal (as_original (each_segment map i seg)), map') /\
    searchable map' /\ decoded_of map' = Some decoded.
Proof.
  intros (decoded' & Hd' & Hrows & Hmemo) Hd Hrow Hseg Hfirst Hcol Hb.
  rewrite Hd in Hd'. injection Hd' as <-.
  pose proof (at_index_range _ _ _ Hrow) as Hi.
  unfold originalPositionFor. cbn [TraceMapping.line column_ bias]. rewrite Hb.
  replace (i + 1 - 1) with i by lia.
  destruct (i <? 0) eqn:El; [apply Z.ltb_lt in El; lia|].
  destruct (genCol seg <? 0) eqn:Ec; [apply Z.ltb_lt in Ec; lia|].
  destruct (decodedMappings_decoded map decoded Hd)
    as (map1 & -> & Hd1 & Hdo1 & Hn1 & Hr1 & Hm1).
  destruct (i >=? Z.of_nat (length decoded)) eqn:Eg.
  { rewrite Z.geb_leb in Eg. apply Z.leb_le in Eg. lia. }
  rewrite Hrow.
  assert (Hin : row ∈ decoded) by (eapply at_index_elem_of; exact Hrow).
  rewrite Forall_forall in Hrows. destruct (Hrows row Hin) as [Hs Hl].
  destruct (traceSegmentInternal_glb (H := SourceMapSegment_column) row upperBound
              (_decodedMemo map1) i (genCol seg)
              Hs Hl) as (r & memo' & Er & Hm' & Hocc & _).
  { intros Hk. rewrite Hm1 in *. apply Hmemo. rewrite Hk. exact Hrow. }
  rewrite Er.
  assert (Hc : col_at row j = Some (genCol seg)).
  { unfold col_at. rewrite Hseg. reflexivity. }
  destruct (Hocc (ex_intro _ j Hc)) as [Hr Hleast].
  assert (r = j) by (pose proof (Hleast j Hc); pose proof (Hfirst r Hr); lia).
  subst r. pose proof (at_index_range _ _ _ Hseg) as Hj.
  destruct (j =? -1) eqn:E1; [apply Z.eqb_eq in E1; lia|].
  rewrite Hseg. rewrite as_original_each_segment.
  exists (set_decodedMemo map1 memo'). split.
  - unfold mapping_of. cbn [set_decodedMemo resolvedSources names].
    rewrite Hr1, Hn1. destruct seg; reflexivity.
  - split.
    + exists decoded. split.
      { unfold decoded_of. cbn [set_decodedMemo _decoded]. rewrite Hd1. reflexivity. }
      split; [apply Forall_forall; exact Hrows|].
      cbn [set_decodedMemo _decodedMemo]. intros row' Hrow'.
      unfold traceSegmentInternal in *.
      assert (Hk : memo' = _decodedMemo map1 \/ lastKey memo' = i).
      { destruct (memoizedBinarySearch row (genCol seg) (_decodedMemo map1) i)
          as [r0 m0] eqn:Em.
        pose proof (memoizedBinarySearch_state _ _ _ _ _ _ Em) as Hst.
        destruct r0; [|discriminate].
        match goal with
        | H : (if ?b then _ else _) = _ |- _ => destruct b; injection H as _ <-
        end; exact Hst. }
      destruct Hk as [->|Hk].
      * rewrite Hm1 in *. apply Hmemo, Hrow'.
      * rewrite Hk, Hrow in Hrow'. injection Hrow' as <-. apply Hm', Hk.
    + unfold decoded_of. cbn [set_decodedMemo _decoded]. rewrite Hd1. reflexivity.
Qed.

End Tracer.

End EachMappingFacts.

(** ** The codec and the search: further properties *)

Module CodecProperties.
Import JS JSFacts Codec CodecFacts CodecFacts2 BinarySearch SearchFacts BiasFacts
  BufferFacts EncodeFacts DecodeRange SpliceFacts CodecShape Splice.

(** X1: [encode] never writes past its buffer. With the buffer as the
    code has it, 1000 bytes doubled by [reserve] when fewer than [count + 1]
    bytes are free, every byte lands inside the buffer: at the end [pos] is
    within the buffer and the text returned is the bytes written, the same
    text the encoder gives when the buffer is a growing list. *)
Theorem encode_buffer_fits (decoded : SourceMapMappings) :
  exists buf pos,
    Buffer.encode_lines 0 decoded (replicate 1000 0) 0 state_new = (buf, pos) /\
    (pos <= length buf)%nat /\
    take pos buf = encode decoded /\
    Buffer.encode decoded = encode decoded.
Proof.
  destruct (encode_lines_holds decoded 0%nat (replicate 1000 0) 0%nat state_new [])
    as (buf & pos & E & Hle & Ht).
  - rewrite length_replicate. lia.
  - split; [lia|reflexivity].
  - exists buf, pos. split; [exact E|]. split; [exact Hle|]. split; [exact Ht|].
    unfold Buffer.encode. rewrite E. exact Ht.
Qed.

(** X2: what [encode] writes is never malformed, whatever the values of
    the segments: every character is a base64 character, a comma or a
    semicolon, and the text does not end on a character with the
    continuation bit; so [decode] reads every character of it as written. *)
Theorem encode_well_formed (decoded : SourceMapMappings) :
  malformed (encode decoded) = false /\
  Forall (fun c => valid_char c = true) (encode decoded) /\
  map as_read (encode decoded) = encode decoded.
Proof.
  assert (Hc : closed (encode decoded)).
  { unfold encode. apply encode_lines_closed. split; [constructor|exact I]. }
  split; [apply closed_not_malformed, Hc|]. split; [apply Hc|].
  destruct Hc as [Hv _]. induction Hv as [|c l Hc _ IH]; [reflexivity|].
  cbn [map]. unfold as_read at 1. rewrite Hc, IH. reflexivity.
Qed.

(** X3: every value [decode] returns is a 32-bit integer, for every
    string: the running values live in an [Int32Array], and the sort only
    reorders segments. *)
Theorem decode_fields_int32 (mappings : list Z) :
  all_fields int32 (decode mappings) = true.
Proof.
  apply rows_int32_all_fields. unfold decode, decode_with.
  apply decode_loop_int32; [apply SortFacts.sort_perm| |constructor|constructor].
  repeat split; simpl; lia.
Qed.

(** X4: [encodeInteger] writes between one and seven characters for a
    field, whatever its value, and leaves the field, wrapped to 32 bits, in
    its state: "each int can take at most 7 chars". *)
Theorem encodeInteger_length (buf : list Z) (state : Int32x5)
  (segment : SourceMapSegment) (j : nat) :
  exists written,
    encodeInteger buf state segment j =
      (buf ++ written, sset j (default 0 (field segment j)) state) /\
    (1 <= length written <= 7)%nat /\
    Forall digit_ok written.
Proof.
  unfold encodeInteger.
  set (num := if _ <? 0 then _ else _).
  exists (encodeInteger_loop 7 [] num).
  split; [rewrite (encodeInteger_loop_app 7 buf); reflexivity|].
  pose proof (encodeInteger_loop_length 7 num) as Hlen.
  destruct (encodeInteger_loop_head 6 num) as (ch & tl & E & _).
  split; [rewrite E in Hlen |- *; cbn [length] in Hlen |- *; lia|].
  apply encodeInteger_loop_digits.
Qed.

Example encodeInteger_length_example :
  encodeInteger (codes "AAgB") state_new (Seg4 0 0 16 (- 2147483647)) 3 =
  (codes "AAgB" ++ codes "//////D", sset 3 (- 2147483647) state_new).
Proof. vm_compute. reflexivity. Qed.

(** X5: for every difference that fits in 32 bits, negative ones and the
    extremes included, [decodeInteger] reads back what [encodeInteger]
    wrote: it consumes exactly the characters written, whatever follows
    them, and leaves in its state the value the encoder left in its own. *)
Theorem integer_roundtrip (buf : list Z) (state : Int32x5)
  (segment : SourceMapSegment) (j : nat) (next : Z) :
  field segment j = Some next ->
  - 2 ^ 31 <= next - sget j state < 2 ^ 31 ->
  exists written,
    encodeInteger buf state segment j = (buf ++ written, sset j next state) /\
    forall rest dst,
      sget j dst = sget j state ->
      decodeInteger (written ++ rest) dst j = (rest, sset j next dst).
Proof.
  intros Hf Hn.
  destruct (decodeInteger_encodeInteger buf state segment j next Hf Hn)
    as (ch & tl & E & _ & _ & _ & Hd).
  exists (ch :: tl). split; [exact E|]. intros rest dst Hdst.
  apply (Hd rest dst Hdst).
Qed.

Lemma integer_roundtrip_witness :
  exists written,
    encodeInteger [] (mkState 0 3 2147483647 0 0) (Seg4 0 0 (-1) 7) 2 =
      ([] ++ written, sset 2 (-1) (mkState 0 3 2147483647 0 0)) /\
    forall rest dst,
      sget 2 dst = sget 2 (mkState 0 3 2147483647 0 0) ->
      decodeInteger (written ++ rest) dst 2 = (rest, sset 2 (-1) dst).
Proof.
  apply (integer_roundtrip [] (mkState 0 3 2147483647 0 0) (Seg4 0 0 (-1) 7) 2 (-1)).
  - reflexivity.
  - cbn [sget s2]. lia.
Defined.

(** X6: on a row sorted by column, the search of the whole row returns the
    index of a segment at the needle's column when there is one, and else
    the left index: the greatest index whose column is below the needle,
    -1 when there is none. Either way, splicing the needle in at the next
    index keeps the columns sorted. *)
Theorem binarySearch_left_index {A : Type} `{HasColumn A} (haystack : list A)
  (needle : Z) :
  sorted_by_column haystack = true ->
  Z.of_nat (length haystack) <= 2 ^ 31 ->
  exists index,
    binarySearch haystack needle 0 (Z.of_nat (length haystack) - 1) = Normal index /\
    -1 <= index < Z.of_nat (length haystack) /\
    (occurs haystack needle -> col_at haystack index = Some needle) /\
    (~ occurs haystack needle -> greatest_le haystack needle index) /\
    nondecreasing (spliced haystack needle index) = true.
Proof.
  intros Hs Hlen.
  destruct (binarySearch_cold haystack needle Hs Hlen) as (index & E & Hh).
  exists index. split; [exact E|]. split; [apply (hit_range haystack needle), Hh|].
  split; [|split].
  - intros Ho. destruct Hh as [He|Hg]; [exact He|].
    destruct (gap_not_occurs haystack needle index Hg Ho).
  - intros Hno. destruct Hh as [He|Hg]; [|apply gap_greatest_le, Hg].
    destruct Hno. eapply exact_occurs. exact He.
  - apply hit_spliced; assumption.
Qed.

Lemma binarySearch_left_index_witness :
  exists index,
    binarySearch (map Seg1 [1; 3]) 2 0 (Z.of_nat (length (map Seg1 [1; 3])) - 1)
    = Normal index /\
    -1 <= index < Z.of_nat (length (map Seg1 [1; 3])) /\
    (occurs (map Seg1 [1; 3]) 2 -> col_at (map Seg1 [1; 3]) index = Some 2) /\
    (~ occurs (map Seg1 [1; 3]) 2 -> greatest_le (map Seg1 [1; 3]) 2 index) /\
    nondecreasing (spliced (map Seg1 [1; 3]) 2 index) = true.
Proof.
  apply (binarySearch_left_index (map Seg1 [1; 3]) 2); [reflexivity|simpl; lia].
Defined.

(** The example of the search's documentation: in [[1, 3]] the needle 2 is
    at the left index 0, and spliced in at index 1. *)
Example binarySearch_splice_example :
  binarySearch (map Seg1 [1; 3]) 2 0 1 = Normal 0 /\
  spliced (map Seg1 [1; 3]) 2 0 = [1; 2; 3].
Proof. split; reflexivity. Qed.

End CodecProperties.

(** ** The tracer: further properties *)

Module MemoTracerProperties.
Import JS JSFacts Codec BinarySearch SearchFacts MemoTracer MemoTracerFacts.

Lemma test_map_searchable : searchable test_map.
Proof.
  split.
  - repeat constructor; simpl; lia.
  - intros row Hrow. discriminate Hrow.
Qed.

(** X7: on a map with sorted rows, [traceSegment] at a line of the map
    returns a segment of that row at the greatest generated column that is
    not above the column asked for, and [null] when every segment of the
    row is above it or the line is past the last row; the memo it leaves
    serves the next query. A negative line is a [TypeError]. *)
Theorem traceSegment_nearest_below (map : TraceMap) (line column : Z) :
  searchable map ->
  (line < 0 -> traceSegment map line column = (Throw TypeError, map)) /\
  (0 <= line ->
   exists r memo,
     traceSegment map line column = (Normal r, set_memo map memo) /\
     traced map line column r /\ searchable (set_memo map memo)).
Proof.
  intros Hok. split.
  - apply traceSegment_negative.
  - intros Hline. apply traceSegment_traced; assumption.
Qed.

Lemma traceSegment_nearest_below_witness :
  (1 < 0 -> traceSegment test_map 1 13 = (Throw TypeError, test_map)) /\
  (0 <= 1 ->
   exists r memo,
     traceSegment test_map 1 13 = (Normal r, set_memo test_map memo) /\
     traced test_map 1 13 r /\ searchable (set_memo test_map memo)).
Proof. apply (traceSegment_nearest_below test_map 1 13 test_map_searchable). Defined.

Example traceSegment_example :
  fst (traceSegment test_map 1 13) = Normal (Some (Seg5 12 0 1 14 2)) /\
  fst (traceSegment test_map 3 0) = Normal None /\
  fst (traceSegment test_map 9 0) = Normal None.
Proof. repeat split; reflexivity. Qed.

(** X8: on a map with sorted rows, [originalPositionFor] throws exactly
    when the needle has [line < 1] or [column < 0]; for every other needle
    it returns the record of the segment [traceSegment] finds at
    [line - 1]: the all-null record when there is none or when the
    segment has no source, else the resolved source, the source line plus
    one, the source column and the name of the segment. *)
Theorem originalPositionFor_nearest_below (map : TraceMap) (needle : Needle) :
  searchable map ->
  (TraceMapping.throws (fst (originalPositionFor map needle)) <->
   line needle < 1 \/ column_ needle < 0) /\
  (1 <= line needle -> 0 <= column_ needle ->
   exists seg memo,
     originalPositionFor map needle =
       (Normal (mapping_of map seg), set_memo map memo) /\
     traced map (line needle - 1) (column_ needle) seg /\
     searchable (set_memo map memo)).
Proof.
  intros Hok.
  destruct (originalPositionFor_traced map needle Hok) as (Hl & Hc & Hn).
  split; [|exact Hn]. split.
  - intros [e He].
    destruct (Z_lt_ge_dec (line needle) 1); [left; assumption|].
    destruct (Z_lt_ge_dec (column_ needle) 0); [right; assumption|].
    destruct Hn as (seg & memo & E & _); [lia|lia|].
    rewrite E in He. discriminate He.
  - intros [Hlt|Hlt].
    + rewrite (Hl Hlt). eexists. reflexivity.
    + destruct (Z_lt_ge_dec (line needle) 1) as [Hl1|Hl1].
      * rewrite (Hl Hl1). eexists. reflexivity.
      * rewrite (Hc ltac:(lia) Hlt). eexists. reflexivity.
Qed.

Lemma originalPositionFor_nearest_below_witness :
  (TraceMapping.throws (fst (originalPositionFor test_map (mkNeedle 2 13))) <->
   line (mkNeedle 2 13) < 1 \/ column_ (mkNeedle 2 13) < 0) /\
  (1 <= line (mkNeedle 2 13) -> 0 <= column_ (mkNeedle 2 13) ->
   exists seg memo,
     originalPositionFor test_map (mkNeedle 2 13) =
       (Normal (mapping_of test_map seg), set_memo test_map memo) /\
     traced test_map (line (mkNeedle 2 13) - 1) (column_ (mkNeedle 2 13)) seg /\
     searchable (set_memo test_map memo)).
Proof.
  apply (originalPositionFor_nearest_below test_map (mkNeedle 2 13) test_map_searchable).
Defined.

Example originalPositionFor_example :
  fst (originalPositionFor test_map (mkNeedle 2 13)) =
  Normal (mkMapping (Some "https://astexplorer.net/input.js"%string) (Some 2)
            (Some 14) (Some "Error"%string)) /\
  fst (originalPositionFor test_map (mkNeedle 100 13)) = Normal INVALID_MAPPING /\
  fst (originalPositionFor test_map (mkNeedle 0 13)) = Throw (Error LINE_GTR_ZERO).
Proof. repeat split; reflexivity. Qed.

End MemoTracerProperties.

Module TracerProperties.
Import JS JSFacts Codec BinarySearch TraceMapping SearchFacts BiasFacts TracerFacts
  QueryFacts SortFacts DecodeFacts TraceQueries MemoTracerFacts TraceQueriesFacts
  TraceSegmentFacts EachMappingFacts.

Lemma test_map_in_state : map_ok test_map.
Proof.
  constructor.
  - eexists. split; [reflexivity|]. split; [simpl; lia|].
    split; [repeat constructor; simpl; lia|].
    intros haystack Hh. discriminate Hh.
  - reflexivity.
  - exact I.
Qed.

Lemma test_map_can_search : searchable test_map.
Proof.
  eexists. split; [reflexivity|]. split.
  - repeat constructor; simpl; lia.
  - intros row Hrow. discriminate Hrow.
Qed.

(** X9: for a 0-based line and a column that are not negative,
    [traceSegment] and [originalPositionFor] with the default bias at the
    1-based line find the same segment: both return, the mapping is the
    record of the segment traced, and they leave the map in the same state,
    in which it can be queried again. When a segment is returned it is a
    segment of that line. *)
Theorem traceSegment_originalPositionFor_agree
  (upperBound : forall (A : Type), HasColumn A -> list A -> Z -> Z -> Z)
  (map : TraceMap) (line column : Z) (b : option Z) :
  map_ok map -> 0 <= line -> 0 <= column ->
  bias_or b GREATEST_LOWER_BOUND = GREATEST_LOWER_BOUND ->
  exists seg map',
    traceSegment upperBound map line column = (Normal seg, map') /\
    originalPositionFor upperBound map (mkNeedle (line + 1) column b)
    = (Normal (mapping_of map seg), map') /\
    map_ok map' /\
    match seg with
    | None => True
    | Some s =>
        exists decoded row,
          decoded_of map = Some decoded /\ at_index decoded line = Some row /\
          s ∈ row
    end.
Proof. apply traceSegment_originalPositionFor. Qed.

Lemma traceSegment_originalPositionFor_agree_witness :
  exists seg map',
    traceSegment (@upperBound_spec) test_map 1 13 = (Normal seg, map') /\
    originalPositionFor (@upperBound_spec) test_map (mkNeedle (1 + 1) 13 None)
    = (Normal (mapping_of test_map seg), map') /\
    map_ok map' /\
    match seg with
    | None => True
    | Some s =>
        exists decoded row,
          decoded_of test_map = Some decoded /\ at_index decoded 1 = Some row /\
          s ∈ row
    end.
Proof.
  apply (traceSegment_originalPositionFor_agree (@upperBound_spec) test_map 1 13 None
           test_map_in_state); [lia|lia|reflexivity].
Defined.

(** X10: [eachMapping] calls back once for every segment of the decoded
    mappings, row by row: the calls with generated line [i + 1] are the
    calls for the segments of row [i], one per segment in the order of the
    row, and the call for a segment carries the generated column of the
    segment and, as its original position, the record that
    [originalPositionFor] makes of the segment. When the rows are sorted by
    generated column, as they always are for a map that came with encoded
    mappings, the calls are in generated position order. *)
Theorem eachMapping_in_order (map : TraceMap) (decoded : SourceMapMappings) :
  decoded_of map = Some decoded ->
  exists calls map',
    eachMapping map = (Normal calls, map') /\
    decoded_of map' = Some decoded /\
    length calls = length (concat decoded) /\
    Forall (fun m => 1 <= generatedLine m <= Z.of_nat (length decoded)) calls /\
    (forall i row,
        at_index decoded i = Some row ->
        List.filter (fun m => generatedLine m =? i + 1) calls
        = List.map (each_segment map i) row) /\
    (forall i seg,
        generatedLine (each_segment map i seg) = i + 1 /\
        generatedColumn (each_segment map i seg) = genCol seg /\
        as_original (each_segment map i seg) = mapping_of map (Some seg)) /\
    (_decoded map = None \/ rows_sorted decoded = true ->
     Sorted.StronglySorted position_le calls).
Proof.
  intros Hd. unfold eachMapping.
  destruct (decodedMappings_decoded map decoded Hd)
    as (map1 & -> & Hd1 & Hdo1 & Hn1 & Hr1 & _).
  exists (eachMapping_lines map1 0 decoded), map1.
  split; [reflexivity|]. split; [exact Hdo1|].
  split; [apply eachMapping_lines_length|]. split; [|split; [|split]].
  - eapply Forall_impl; [apply (eachMapping_lines_line map1 decoded 0)|].
    intros m Hm. simpl in Hm. lia.
  - intros i row Hrow. pose proof (at_index_range _ _ _ Hrow) as Hi.
    unfold at_index in Hrow. destruct (0 <=? i); [|discriminate].
    pose proof (eachMapping_lines_row map1 decoded 0 (Z.to_nat i) row Hrow) as Hf.
    rewrite Z.add_0_l, Z2Nat.id in Hf by lia. rewrite Hf.
    apply List.map_ext. intros seg. apply each_segment_ext; assumption.
  - intros i seg. destruct (each_segment_position map i seg) as [Hl Hc].
    split; [exact Hl|]. split; [exact Hc|]. apply as_original_each_segment.
  - intros Hs. apply eachMapping_lines_sorted.
    destruct Hs as [Hnone|Hs]; [|exact Hs].
    unfold decoded_of in Hd. rewrite Hnone in Hd.
    destruct (_encoded map) as [e|]; [|discriminate].
    injection Hd as <-. apply decode_sorted.
Qed.

Lemma eachMapping_in_order_witness :
  exists calls map',
    eachMapping
      (mkTraceMap ["x"%string] [Some "a.js"%string] ["a.js"%string]
         (Some (codes "AAAAA,E;;EACA")) None memoizedState None None)
    = (Normal calls, map') /\
    decoded_of map' = Some [[Seg5 0 0 0 0 0; Seg1 2]; []; [Seg4 2 0 1 0]] /\
    length calls = length (concat [[Seg5 0 0 0 0 0; Seg1 2]; []; [Seg4 2 0 1 0]]) /\
    Forall (fun m => 1 <= generatedLine m <=
                     Z.of_nat (length [[Seg5 0 0 0 0 0; Seg1 2]; []; [Seg4 2 0 1 0]]))
      calls /\
    (forall i row,
        at_index [[Seg5 0 0 0 0 0; Seg1 2]; []; [Seg4 2 0 1 0]] i = Some row ->
        List.filter (fun m => generatedLine m =? i + 1) calls
        = List.map
            (each_segment
               (mkTraceMap ["x"%string] [Some "a.js"%string] ["a.js"%string]
                  (Some (codes "AAAAA,E;;EACA")) None memoizedState None None) i)
            row) /\
    (forall i seg,
        generatedLine
          (each_segment
             (mkTraceMap ["x"%string] [Some "a.js"%string] ["a.js"%string]
                (Some (codes "AAAAA,E;;EACA")) None memoizedState None None) i seg)
        = i + 1 /\
        generatedColumn
          (each_segment
             (mkTraceMap ["x"%string] [Some "a.js"%string] ["a.js"%string]
                (Some (codes "AAAAA,E;;EACA")) None memoizedState None None) i seg)
        = genCol seg /\
        as_original
          (each_segment
             (mkTraceMap ["x"%string] [Some "a.js"%string] ["a.js"%string]
                (Some (codes "AAAAA,E;;EACA")) None memoizedState None None) i seg)
        = mapping_of
            (mkTraceMap ["x"%string] [Some "a.js"%string] ["a.js"%string]
               (Some (codes "AAAAA,E;;EACA")) None memoizedState None None)
            (Some seg)) /\
    (_decoded
       (mkTraceMap ["x"%string] [Some "a.js"%string] ["a.js"%string]
          (Some (codes "AAAAA,E;;EACA")) None memoizedState None None) = None \/
     rows_sorted [[Seg5 0 0 0 0 0; Seg1 2]; []; [Seg4 2 0 1 0]] = true ->
     Sorted.StronglySorted position_le calls).
Proof.
  apply (eachMapping_in_order
           (mkTraceMap ["x"%string] [Some "a.js"%string] ["a.js"%string]
              (Some (codes "AAAAA,E;;EACA")) None memoizedState None None)).
  reflexivity.
Defined.

(** The calls for that map: the segment with one field is reported with no
    original position, the empty row with no call. *)
Example eachMapping_calls :
  fst (eachMapping
         (mkTraceMap ["x"%string] [Some "a.js"%string] ["a.js"%string]
            (Some (codes "AAAAA,E;;EACA")) None memoizedState None None))
  = Normal [mkEach 1 0 (Some "a.js"%string) (Some 1) (Some 0) (Some "x"%string);
            mkEach 1 2 None None None None;
            mkEach 3 2 (Some "a.js"%string) (Some 2) (Some 0) None].
Proof. vm_compute. reflexivity. Qed.

(** X11: on a searchable map, [originalPositionFor] with the default bias,
    asked for the generated position of a segment that is the first of its
    row at its column, returns the original position [eachMapping] reports
    for that segment, and leaves the map searchable. In a row without two
    segments at one column that is every segment. *)
Theorem originalPositionFor_each_mapping
  (upperBound : forall (A : Type), HasColumn A -> list A -> Z -> Z -> Z)
  (map : TraceMap) (decoded : SourceMapMappings) (row : SourceMapLine)
  (seg : SourceMapSegment) (i j : Z) (b : option Z) :
  searchable map -> decoded_of map = Some decoded ->
  at_index decoded i = Some row -> at_index row j = Some seg ->
  (forall j', col_at row j' = Some (genCol seg) -> j <= j') ->
  0 <= genCol seg ->
  bias_or b GREATEST_LOWER_BOUND = GREATEST_LOWER_BOUND ->
  exists map',
    originalPositionFor upperBound map (mkNeedle (i + 1) (genCol seg) b)
    = (Normal (as_original (each_segment map i seg)), map') /\
    searchable map' /\ decoded_of map' = Some decoded.
Proof. apply originalPositionFor_first. Qed.

Lemma originalPositionFor_each_mapping_witness :
  exists map',
    originalPositionFor (@upperBound_spec) test_map
      (mkNeedle (1 + 1) (genCol (Seg5 12 0 1 14 2)) None)
    = (Normal (as_original (each_segment test_map 1 (Seg5 12 0 1 14 2))), map') /\
    searchable map' /\
    decoded_of map' = decoded_of test_map.
Proof.
  apply (originalPositionFor_each_mapping (@upperBound_spec) test_map _
           [Seg4 4 0 1 4; Seg4 8 0 1 10; Seg5 12 0 1 14 2; Seg4 17 0 1 10;
            Seg4 18 0 1 20; Seg4 32 0 1 10; Seg4 33 0 1 4]
           (Seg5 12 0 1 14 2) 1 2 None test_map_can_search);
    [reflexivity|reflexivity|reflexivity| |simpl; lia|reflexivity].
  intros j' Hj'. pose proof (col_at_range _ _ _ Hj') as Hr. simpl in Hr.
  assert (Hcases : j' = 0 \/ j' = 1 \/ j' = 2 \/ j' = 3 \/ j' = 4 \/ j' = 5 \/ j' = 6)
    by lia.
  destruct Hcases as [->|[->|[->|[->|[->|[->| ->]]]]]]; try discriminate Hj'; lia.
Defined.

(** X12: [sourceContentFor] returns [null] when the map has no
    [sourcesContent]; it returns the content at the first place of the
    source in [sources], else at the first place of the source in
    [resolvedSources], and [null] for a source in neither. *)
Theorem sourceContentFor_lookup (map : TraceMap)
  (content : list (option string)) (source : string) :
  sourceContentFor map None source = None /\
  (forall i : nat,
      sources map !! i = Some (Some source) ->
      (forall j, (j < i)%nat -> sources map !! j <> Some (Some source)) ->
      sourceContentFor map (Some content) source = mjoin (content !! i)) /\
  (forall i : nat,
      Some source ∉ sources map ->
      resolvedSources map !! i = Some source ->
      (forall j, (j < i)%nat -> resolvedSources map !! j <> Some source) ->
      sourceContentFor map (Some content) source = mjoin (content !! i)) /\
  (Some source ∉ sources map -> source ∉ resolvedSources map ->
   sourceContentFor map (Some content) source = None).
Proof. apply sourceContentFor_spec. Qed.

Example sourceContentFor_example :
  sourceContentFor test_map (Some [Some "let x;"%string]) "input.js" =
    Some "let x;"%string /\
  sourceContentFor test_map (Some [Some "let x;"%string])
    "https://astexplorer.net/input.js" = Some "let x;"%string /\
  sourceContentFor test_map (Some [Some "let x;"%string]) "foo.js" = None.
Proof. repeat split; reflexivity. Qed.

(** X13: for a source that is neither in [sources] nor in
    [resolvedSources], and a needle with [line >= 1] and [column >= 0],
    [generatedPositionFor] returns the all-null record and
    [allGeneratedPositionsFor] the empty array, and the map is left as it
    was: the by-source index is not built. *)
Theorem generatedPosition_unknown_source
  (upperBound : forall (A : Type), HasColumn A -> list A -> Z -> Z -> Z)
  (map : TraceMap) (needle : SourceNeedle) :
  1 <= sn_line needle -> 0 <= sn_column needle ->
  Some (sn_source needle) ∉ sources map ->
  sn_source needle ∉ resolvedSources map ->
  generatedPositionFor upperBound map needle =
    (Normal (One (GMapping None None)), map) /\
  allGeneratedPositionsFor upperBound map needle = (Normal (All []), map).
Proof.
  intros Hl Hc Hs Hr. unfold generatedPositionFor, allGeneratedPositionsFor.
  split; apply generatedPosition_unknown; assumption.
Qed.

Lemma generatedPosition_unknown_source_witness :
  generatedPositionFor (@upperBound_spec) test_map (mkSourceNeedle "foo.js" 1 0 None) =
    (Normal (One (GMapping None None)), test_map) /\
  allGeneratedPositionsFor (@upperBound_spec) test_map
    (mkSourceNeedle "foo.js" 1 0 None) = (Normal (All []), test_map).
Proof.
  apply (generatedPosition_unknown_source (@upperBound_spec) test_map
           (mkSourceNeedle "foo.js" 1 0 None)); cbn [sn_line sn_column sn_source];
    [lia|lia| |].
  - intros Hin. apply list_elem_of_singleton in Hin. discriminate Hin.
  - intros Hin. apply list_elem_of_singleton in Hin. discriminate Hin.
Defined.

End TracerProperties.

(** ** The remapper: further properties *)

Module RemapProperties.
Import JS Codec Remapping SearchFacts RemapFacts ComposeFacts RemappingState
  FastStringArrayFacts TablesFacts.

(** X14: a [FastStringArray] is a set with indices. After any sequence of
    [put]s into a new one, the backing array holds exactly the keys that
    were put, each once, and [indexes] is the inverse of the array; putting
    one of those keys again returns its index in the array and changes
    nothing, and putting a new key appends it and returns its index, the
    length the array had. *)
Theorem put_keeps_a_set (keys : list string) :
  NoDup (array (puts keys)) /\
  (forall key, key ∈ array (puts keys) <-> key ∈ keys) /\
  fast_inv (puts keys) /\
  (forall key, key ∈ keys ->
     exists index,
       put (puts keys) key = (index, puts keys) /\
       at_index (array (puts keys)) index = Some key) /\
  (forall key, key ∉ keys ->
     fst (put (puts keys) key) = Z.of_nat (length (array (puts keys))) /\
     array (snd (put (puts keys) key)) = array (puts keys) ++ [key]).
Proof.
  destruct (puts_from keys FastStringArray_new fast_inv_new) as (Hinv & Hmem).
  fold (puts keys) in Hinv, Hmem.
  assert (Hiff : forall key, key ∈ array (puts keys) <-> key ∈ keys).
  { intros key. rewrite Hmem. cbn [FastStringArray_new array]. split.
    - intros [H|H]; [apply elem_of_nil in H; destruct H|exact H].
    - intros H. right. exact H. }
  split; [apply fast_inv_NoDup, Hinv|]. split; [exact Hiff|]. split; [exact Hinv|].
  split.
  - intros key Hin. apply put_again; [exact Hinv|]. apply Hiff, Hin.
  - intros key Hnin. destruct (put_inv (puts keys) key Hinv) as (_ & _ & _ & Hnew).
    apply Hnew. rewrite Hiff. exact Hnin.
Qed.

Example puts_example :
  array (puts ["a.js"; "b.js"; "a.js"; "c.js"; "b.js"]%string) =
    ["a.js"; "b.js"; "c.js"]%string /\
  fst (put (puts ["a.js"; "b.js"; "a.js"; "c.js"; "b.js"]%string) "b.js") = 1.
Proof. split; vm_compute; reflexivity. Qed.

(** X15: the map [traceMappings] returns is well formed: its names and its
    sources hold no string twice, no name is empty, [sourcesContent] has
    one entry per source, and every segment has a source and indices within
    the tables: a source index below the number of sources and, with five
    fields, a names index below the number of names. *)
Theorem traceMappings_well_formed (map : DecodedSourceMap) (sources : list Graph)
  (out : DecodedSourceMap) :
  traceMappings map sources = Normal out ->
  NoDup (Remapping.names out) /\ NoDup (Remapping.sources out) /\
  (""%string ∉ Remapping.names out) /\
  (exists content,
      sourcesContent out = Some content /\
      length content = length (Remapping.sources out)) /\
  Forall (Forall (seg_in_tables (length (Remapping.sources out))
                    (length (Remapping.names out))))
    (mappings out).
Proof.
  unfold traceMappings. intros Ht.
  destruct (traceMappings_rows (Remapping.names map) sources (mappings map) []
              (mkTables FastStringArray_new FastStringArray_new []))
    as [[rows tb]|e] eqn:Er; [|discriminate].
  injection Ht as <-. cbn [Remapping.names Remapping.sources sourcesContent mappings].
  destruct (traceMappings_rows_tables _ _ _ _ _ _ _ tables_ok_new (Forall_nil_2 _) Er)
    as ((Hn & Hs & Hlen & Hempty) & Hrows).
  split; [apply fast_inv_NoDup, Hn|]. split; [apply fast_inv_NoDup, Hs|].
  split; [exact Hempty|]. split; [exists (t_sourcesContent tb); split; [reflexivity|exact Hlen]|].
  exact Hrows.
Qed.

Lemma traceMappings_well_formed_witness :
  NoDup (Remapping.names composed_map) /\ NoDup (Remapping.sources composed_map) /\
  (""%string ∉ Remapping.names composed_map) /\
  (exists content,
      sourcesContent composed_map = Some content /\
      length content = length (Remapping.sources composed_map)) /\
  Forall (Forall (seg_in_tables (length (Remapping.sources composed_map))
                    (length (Remapping.names composed_map))))
    (mappings composed_map).
Proof.
  apply (traceMappings_well_formed root_map root_sources composed_map).
  vm_compute. reflexivity.
Defined.

(** X16: [traceMappings] returns a map exactly when no trace of a segment
    of the root map throws: neither building the tables nor pushing the
    rows can fail, so the only errors are those of [traceSegment], a line
    the child map does not have or a source the node does not have. *)
Theorem traceMappings_returns_iff (map : DecodedSourceMap) (sources : list Graph) :
  (exists out, traceMappings map sources = Normal out) <->
  forallb (fun seg => negb (trace_throws (Remapping.names map) sources seg))
    (concat (mappings map)) = true.
Proof.
  rewrite (traceMappings_rows_normal (Remapping.names map) sources (mappings map) []
             (mkTables FastStringArray_new FastStringArray_new [])).
  unfold traceMappings. split.
  - intros [out Ho].
    destruct (traceMappings_rows (Remapping.names map) sources (mappings map) []
                (mkTables FastStringArray_new FastStringArray_new []))
      as [[rows tb]|e]; [eauto|discriminate].
  - intros (rows & tb & ->). eauto.
Qed.

Example traceMappings_invalid_line :
  traceMappings
    (mkMap None [] None ["child.js"%string] None [[Seg4 0 0 5 0]]) root_sources
  = Throw (Error INVALID_LINE) /\
  traceMappings
    (mkMap None [] None ["child.js"%string] None [[Seg4 0 3 0 0]]) root_sources
  = Throw TypeError.
Proof. split; reflexivity. Qed.

(** X17: when the loader has no map for any source of a map that decodes,
    the graph is the map over one original source per entry of its sources,
    each with its name as listed and the content [sourcesContent] has at
    its index, [null] without [sourcesContent]; the loader was asked once
    per entry, for the resolved name, and the construction ends at the
    first level. For a map that does not decode, the construction ends
    with the error of the decoder and the loader is not asked. *)
Theorem buildSourceMapGraph_originals
  (decode : list Z -> completion SourceMapMappings)
  (resolve : string -> option string -> string)
  (loader : string -> option SourceMapInput) (fuel : nat) (map : SourceMapInput) :
  (forall d,
      decodeSourceMap decode map = Normal d ->
      Forall (fun sourceFile => loader (resolve sourceFile (sourceRoot d)) = None)
        (Remapping.sources d) ->
      buildSourceMapGraph decode resolve loader (S fuel) map =
      Some (Normal (SourceMapTree d
                      (originals (sourcesContent d) (Remapping.sources d) 0)),
            List.map (fun sourceFile => resolve sourceFile (sourceRoot d))
              (Remapping.sources d))) /\
  (forall e,
      decodeSourceMap decode map = Throw e ->
      buildSourceMapGraph decode resolve loader (S fuel) map = Some (Throw e, [])).
Proof.
  split.
  - intros d Hd Hnone. cbn [buildSourceMapGraph]. rewrite Hd.
    rewrite (buildChildren_originals decode resolve loader _ _ _ Hnone). reflexivity.
  - intros e He. cbn [buildSourceMapGraph]. rewrite He. reflexivity.
Qed.

Lemma buildSourceMapGraph_originals_witness :
  buildSourceMapGraph reject_mappings resolve_id no_loader 1 (Decoded child_map) =
  Some (Normal (SourceMapTree child_map
                  (originals (sourcesContent child_map) (Remapping.sources child_map) 0)),
        List.map (fun sourceFile => resolve_id sourceFile (sourceRoot child_map))
          (Remapping.sources child_map)) /\
  buildSourceMapGraph reject_mappings resolve_id no_loader 1
    (Raw (mkRaw None [] None ["a.js"%string] None (codes "!")))
  = Some (Throw (Error INVALID_CHARACTER), []).
Proof.
  split.
  - apply (buildSourceMapGraph_originals reject_mappings resolve_id no_loader 0
             (Decoded child_map)); [reflexivity|].
    repeat constructor.
  - apply (buildSourceMapGraph_originals reject_mappings resolve_id no_loader 0
             (Raw (mkRaw None [] None ["a.js"%string] None (codes "!")))).
    reflexivity.
Defined.

End RemapProperties.

(** ** What the output segments of [traceMappings] point at *)

Module EmittedFacts.
Import JS Codec Remapping SearchFacts RemapFacts ComposeFacts RemappingState
  FastStringArrayFacts TablesFacts.

(** Both string arrays of [tb'] start with those of [tb]. *)
Definition extends (tb tb' : Tables) : Prop :=
  (exists suffix, array (t_sources tb') = array (t_sources tb) ++ suffix) /\
  (exists suffix, array (t_names tb') = array (t_names tb) ++ suffix).

Lemma extends_refl tb : extends tb tb.
Proof. split; exists []; rewrite app_nil_r; reflexivity. Qed.

Lemma extends_trans a b c : extends a b -> extends b c -> extends a c.
Proof.
  intros [[s1 H1] [n1 H2]] [[s2 H3] [n2 H4]]. split.
  - exists (s1 ++ s2). rewrite H3, H1, app_assoc. reflexivity.
  - exists (n1 ++ n2). rewrite H4, H2, app_assoc. reflexivity.
Qed.

Lemma carries_extends tb tb' c t o :
  extends tb tb' ->
  carries (array (t_sources tb)) (array (t_names tb)) c t o ->
  carries (array (t_sources tb')) (array (t_names tb')) c t o.
Proof.
  intros [[s ->] [n ->]]. destruct o as [c'|c' si l k|c' si l k ni]; cbn [carries].
  - tauto.
  - intros (? & Hs & ?). split; [assumption|]. split; [apply at_index_app_l, Hs|assumption].
  - intros (? & Hs & ? & ? & ? & Hn). split; [assumption|].
    split; [apply at_index_app_l, Hs|].
    split; [assumption|]. split; [assumption|]. split; [assumption|].
    destruct (so_name t) as [nm|] eqn:E; [|discriminate].
    apply at_index_app_l, Hn.
Qed.

Lemma emitted_extends mapNames sources tb tb' o r :
  extends tb tb' ->
  emitted mapNames sources (array (t_sources tb)) (array (t_names tb)) o r ->
  emitted mapNames sources (array (t_sources tb')) (array (t_names tb')) o r.
Proof.
  intros He (t & Ht & Hc). exists t. split; [exact Ht|].
  eapply carries_extends; eassumption.
Qed.

Lemma put_extends strarr key :
  fast_inv strarr ->
  (exists suffix, array (snd (put strarr key)) = array strarr ++ suffix) /\
  at_index (array (snd (put strarr key))) (fst (put strarr key)) = Some key.
Proof.
  intros Hinv. destruct (put_inv strarr key Hinv) as (_ & Hat & Hold & Hnew).
  split; [|exact Hat].
  destruct (decide (key ∈ array strarr)) as [Hin|Hnin].
  - rewrite (Hold Hin). exists []. rewrite app_nil_r. reflexivity.
  - destruct (Hnew Hnin) as [_ ->]. eexists. reflexivity.
Qed.

Lemma contributes_trace_of mapNames sources segment :
  contributes mapNames sources segment = true <->
  is_Some (trace_of mapNames sources segment).
Proof.
  unfold contributes, trace_of, root_name.
  destruct segment as [c|c src l k|c src l k n].
  - split; [discriminate|intros [? ?]; discriminate].
  - destruct (traceSource sources src l k (Some ""%string)) as [[t|]|e];
      (split; [intros H; try discriminate H; eauto|intros [? H]; try discriminate H; reflexivity]).
  - destruct (traceSource sources src l k (at_index mapNames n)) as [[t|]|e];
      (split; [intros H; try discriminate H; eauto|intros [? H]; try discriminate H; reflexivity]).
Qed.

Lemma traceMappings_segment_emitted mapNames sources segment tracedSegments tb out tb' :
  tables_ok tb ->
  traceMappings_segment mapNames sources segment tracedSegments tb = Normal (out, tb') ->
  extends tb tb' /\
  exists new,
    out = tracedSegments ++ new /\
    Forall2 (emitted mapNames sources (array (t_sources tb')) (array (t_names tb')))
      new (List.filter (contributes mapNames sources) [segment]).
Proof.
  intros (Hn & Hsrc & _ & _) Hs.
  assert (Hnone : trace_of mapNames sources segment = None ->
                  out = tracedSegments -> tb' = tb ->
                  extends tb tb' /\
                  exists new,
                    out = tracedSegments ++ new /\
                    Forall2 (emitted mapNames sources (array (t_sources tb'))
                               (array (t_names tb')))
                      new (List.filter (contributes mapNames sources) [segment])).
  { intros Hno -> ->. split; [apply extends_refl|]. exists [].
    rewrite app_nil_r. split; [reflexivity|]. cbn [List.filter].
    destruct (contributes mapNames sources segment) eqn:Ec; [|constructor].
    apply contributes_trace_of in Ec as [t Ht]. congruence. }
  assert (Hsome : forall t seg' tb1,
    trace_of mapNames sources segment = Some t ->
    out = tracedSegments ++ [seg'] -> tb' = tb1 -> extends tb tb1 ->
    carries (array (t_sources tb1)) (array (t_names tb1)) (genCol segment) t seg' ->
    extends tb tb' /\
    exists new,
      out = tracedSegments ++ new /\
      Forall2 (emitted mapNames sources (array (t_sources tb')) (array (t_names tb')))
        new (List.filter (contributes mapNames sources) [segment])).
  { intros t seg' tb1 Ht -> -> He Hc. split; [exact He|]. exists [seg'].
    split; [reflexivity|]. cbn [List.filter].
    assert (Ec : contributes mapNames sources segment = true).
    { apply contributes_trace_of. rewrite Ht. eauto. }
    rewrite Ec. constructor; [|constructor]. exists t. split; [exact Ht|exact Hc]. }
  unfold traceMappings_segment in Hs.
  destruct segment as [c|c src l k|c src l k n].
  { injection Hs as <- <-. apply Hnone; reflexivity. }
  all: unfold trace_of, root_name in Hnone, Hsome;
    match type of Hs with
    | match traceSource ?a ?b ?c ?d ?e with _ => _ end = _ =>
        destruct (traceSource a b c d e) as [[t|]|e0]
    end; [| injection Hs as <- <-; apply Hnone; reflexivity | discriminate].
  all: destruct (put_extends (t_sources tb) (filename (so_source t)) Hsrc) as (Hes & Hats);
    destruct (put (t_sources tb) (filename (so_source t))) as [si srcs];
    cbn [fst snd] in *;
    destruct (truthy (so_name t)) eqn:Et.
  all: try (
    destruct (put_extends (t_names tb) (default ""%string (so_name t)) Hn) as (Hen & Hatn);
    destruct (put (t_names tb) (default ""%string (so_name t))) as [ni nms];
    cbn [fst snd] in *;
    injection Hs as <- <-;
    eapply (Hsome t); [reflexivity|reflexivity|reflexivity|split; assumption|];
    cbn [carries genCol t_sources t_names];
    split; [reflexivity|]; split; [exact Hats|]; split; [reflexivity|];
    split; [reflexivity|]; split; [exact Et|];
    rewrite Hatn; destruct (so_name t); [reflexivity|discriminate]).
  all: injection Hs as <- <-;
    eapply (Hsome t); [reflexivity|reflexivity|reflexivity| |];
    [ split; [exact Hes|exists []; rewrite app_nil_r; reflexivity]
    | cbn [carries genCol t_sources t_names];
      split; [reflexivity|]; split; [exact Hats|]; split; [reflexivity|];
      split; [reflexivity|exact Et] ].
Qed.

Lemma Forall2_emitted_extends mapNames sources tb tb' l1 l2 :
  extends tb tb' ->
  Forall2 (emitted mapNames sources (array (t_sources tb)) (array (t_names tb))) l1 l2 ->
  Forall2 (emitted mapNames sources (array (t_sources tb')) (array (t_names tb'))) l1 l2.
Proof.
  intros He H. eapply Forall2_impl; [exact H|].
  intros o r. apply emitted_extends, He.
Qed.

Lemma traceMappings_row_emitted mapNames sources segments :
  forall tracedSegments tb out tb',
    tables_ok tb -> row_in tb tracedSegments ->
    traceMappings_row mapNames sources segments tracedSegments tb = Normal (out, tb') ->
    extends tb tb' /\
    exists new,
      out = tracedSegments ++ new /\
      Forall2 (emitted mapNames sources (array (t_sources tb')) (array (t_names tb')))
        new (List.filter (contributes mapNames sources) segments).
Proof.
  induction segments as [|segment segments IH]; intros tracedSegments tb out tb' Hok Hrow Hr.
  - simpl in Hr. injection Hr as <- <-. split; [apply extends_refl|].
    exists []. rewrite app_nil_r. split; [reflexivity|constructor].
  - cbn [traceMappings_row] in Hr.
    destruct (traceMappings_segment mapNames sources segment tracedSegments tb)
      as [[mid tb1]|e] eqn:Es; [|discriminate].
    destruct (traceMappings_segment_tables _ _ _ _ _ _ _ Hok Hrow Es) as (Hok1 & Hrow1 & _).
    destruct (traceMappings_segment_emitted _ _ _ _ _ _ _ Hok Es)
      as (He1 & new1 & -> & Hnew1).
    destruct (IH _ _ _ _ Hok1 Hrow1 Hr) as (He2 & new2 & -> & Hnew2).
    split; [eapply extends_trans; eassumption|].
    exists (new1 ++ new2). split; [rewrite app_assoc; reflexivity|].
    change (segment :: segments) with ([segment] ++ segments).
    rewrite List.filter_app. apply Forall2_app; [|exact Hnew2].
    eapply Forall2_emitted_extends; eassumption.
Qed.

Lemma traceMappings_rows_emitted mapNames sources mapMappings :
  forall mappings tb out tb',
    tables_ok tb -> Forall (row_in tb) mappings ->
    traceMappings_rows mapNames sources mapMappings mappings tb = Normal (out, tb') ->
    extends tb tb' /\
    exists new,
      out = mappings ++ new /\
      Forall2 (Forall2 (emitted mapNames sources (array (t_sources tb'))
                          (array (t_names tb'))))
        new (List.map (List.filter (contributes mapNames sources)) mapMappings).
Proof.
  induction mapMappings as [|segments mapMappings IH]; intros mappings tb out tb' Hok Hrows Hr.
  - simpl in Hr. injection Hr as <- <-. split; [apply extends_refl|].
    exists []. rewrite app_nil_r. split; [reflexivity|constructor].
  - cbn [traceMappings_rows] in Hr.
    destruct (traceMappings_row mapNames sources segments [] tb)
      as [[row tb1]|e] eqn:Er; [|discriminate].
    destruct (traceMappings_row_tables _ _ _ _ _ _ _ Hok (Forall_nil_2 _) Er)
      as (Hok1 & Hrow1 & Hg1).
    destruct (traceMappings_row_emitted _ _ _ _ _ _ _ Hok (Forall_nil_2 _) Er)
      as (He1 & new1 & Hrow & Hnew1).
    cbn [app] in Hrow. subst new1.
    assert (Hrows1 : Forall (row_in tb1) (mappings ++ [row])).
    { apply Forall_app. split; [|constructor; [exact Hrow1|constructor]].
      eapply Forall_impl; [exact Hrows|]. intros r. apply row_in_grows, Hg1. }
    destruct (IH (mappings ++ [row]) tb1 out tb' Hok1 Hrows1 Hr) as (He2 & new2 & -> & Hnew2).
    split; [eapply extends_trans; eassumption|].
    exists (row :: new2). split; [rewrite <- app_assoc; reflexivity|].
    cbn [List.map]. constructor; [|exact Hnew2].
    eapply Forall2_emitted_extends; eassumption.
Qed.

End EmittedFacts.

(** ** The shape of a map through [encode] and [decode] *)

Module ShapeFacts.
Import JS JSFacts Codec CodecFacts CodecFacts2 CodecLoop CodecRoundTrip SortFacts
  DecodeFacts EncodeFacts CodecShape.

(** The decoder consumes the characters of an integer as written,
    whatever its value. *)
Lemma decodeInteger_loop_consumes f :
  forall u v sh rest,
    0 <= u < 2 ^ 32 -> u < 2 ^ (5 * Z.of_nat (S f)) ->
    exists v', decodeInteger_loop (encodeInteger_loop (S f) [] u ++ rest) v sh = (v', rest).
Proof.
  induction f as [|f IH]; intros u v sh rest Hu Hf.
  - rewrite encodeInteger_loop_S. cbv zeta. rewrite toUint32_id by lia.
    change (2 ^ (5 * Z.of_nat 1)) with 32 in Hf.
    rewrite (Z.div_small u 32) by lia. change (0 <? 0) with false. cbv iota.
    rewrite Z.mod_small by lia.
    destruct (digit_char u ltac:(lia)) as (ch & -> & Hch & _).
    destruct (digit_masks u ltac:(lia)) as [_ Hm].
    simpl default. cbn [app decodeInteger_loop]. rewrite Hch, Hm.
    destruct (u <? 32) eqn:E; [|apply Z.ltb_ge in E; lia].
    change (0 =? 0) with true. cbv iota. eauto.
  - rewrite encodeInteger_loop_S. cbv zeta. rewrite toUint32_id by lia.
    pose proof (Z.mod_pos_bound u 32 ltac:(lia)) as Hm.
    assert (Hpow : 2 ^ (5 * Z.of_nat (S (S f))) = 32 * 2 ^ (5 * Z.of_nat (S f))).
    { replace (5 * Z.of_nat (S (S f))) with (5 + 5 * Z.of_nat (S f)) by lia.
      rewrite Z.pow_add_r by lia. reflexivity. }
    destruct (0 <? u / 32) eqn:E.
    + rewrite digit_or32 by lia.
      destruct (digit_char (u mod 32 + 32) ltac:(lia)) as (ch & -> & Hch & _).
      destruct (digit_masks (u mod 32 + 32) ltac:(lia)) as [_ Hmask].
      simpl default. rewrite encodeInteger_loop_app. rewrite <- app_assoc.
      cbn [app decodeInteger_loop]. rewrite Hch, Hmask.
      destruct (u mod 32 + 32 <? 32) eqn:E2; [apply Z.ltb_lt in E2; lia|].
      change (32 =? 0) with false. cbv iota.
      apply IH.
      * split; [apply Z.div_pos; lia|]. apply Z.div_lt_upper_bound; lia.
      * apply Z.div_lt_upper_bound; lia.
    + destruct (digit_char (u mod 32) ltac:(lia)) as (ch & -> & Hch & _).
      destruct (digit_masks (u mod 32) ltac:(lia)) as [_ Hmask].
      simpl default. cbn [app decodeInteger_loop]. rewrite Hch, Hmask.
      destruct (u mod 32 <? 32) eqn:E2; [|apply Z.ltb_ge in E2; lia].
      change (0 =? 0) with true. cbv iota. eauto.
Qed.

Lemma encodeInteger_consumed buf st seg j :
  exists ch tl,
    encodeInteger buf st seg j =
      (buf ++ ch :: tl, sset j (default 0 (field seg j)) st) /\
    ch <> comma /\ ch <> semicolon /\
    forall rest dst, exists dst', decodeInteger (ch :: tl ++ rest) dst j = (rest, dst').
Proof.
  unfold encodeInteger.
  set (num := if _ <? 0 then _ else _).
  destruct (encodeInteger_loop_head 6 num) as (ch & tl & E & N1 & N2).
  exists ch, tl. rewrite (encodeInteger_loop_app 7 buf), E.
  split; [reflexivity|]. split; [exact N1|]. split; [exact N2|].
  intros rest dst. unfold decodeInteger.
  destruct (decodeInteger_loop_consumes 6 (toUint32 num) 0 0 rest) as (v' & Ev).
  - apply toUint32_range.
  - pose proof (toUint32_range num). change (2 ^ (5 * Z.of_nat 7)) with (2 ^ 35). lia.
  - rewrite <- encodeInteger_loop_toUint32, E in Ev.
    change ((ch :: tl) ++ rest) with (ch :: tl ++ rest) in Ev. rewrite Ev.
    eexists. reflexivity.
Qed.

Ltac consume st seg j ch tl E N1 N2 D :=
  destruct (encodeInteger_consumed [] st seg j) as (ch & tl & E & N1 & N2 & D).

Lemma segment_shape seg est :
  exists chars est',
    (forall j line buf,
        encode_segments j (seg :: line) buf est =
        encode_segments (S j) line
          ((if (0 <? j)%nat then buf ++ [comma] else buf) ++ chars) est') /\
    (forall rest dst decoded line sorted lastCol,
        hasMoreSegments rest = false ->
        exists dst' seg' sorted' lastCol',
          same_arity seg' seg /\
          decode_from unsorted (chars ++ rest) dst decoded line sorted lastCol =
          decode_from unsorted rest dst' decoded (line ++ [seg']) sorted' lastCol').
Proof.
  destruct seg as [c|c a b d|c a b d n].
  - consume est (Seg1 c) 0%nat ch0 tl0 E0 N01 N02 D0.
    eexists (ch0 :: tl0), _. split.
    + intros j line buf. cbn [encode_segments seg_length].
      rewrite encodeInteger_app, E0. reflexivity.
    + intros rest dst decoded line sorted lastCol M.
      destruct (D0 rest dst) as (dst1 & Ed0).
      change ((ch0 :: tl0) ++ rest) with (ch0 :: tl0 ++ rest).
      rewrite (decode_from_seg1 unsorted ch0 (tl0 ++ rest) rest dst1); try assumption.
      eexists _, _, _, _. split; [|reflexivity]. reflexivity.
  - set (seg := Seg4 c a b d).
    consume est seg 0%nat ch0 tl0 E0 N01 N02 D0.
    consume (sset 0 (default 0 (field seg 0)) est) seg 1%nat ch1 tl1 E1 N11 N12 D1.
    consume (sset 1 (default 0 (field seg 1)) (sset 0 (default 0 (field seg 0)) est))
      seg 2%nat ch2 tl2 E2 N21 N22 D2.
    consume (sset 2 (default 0 (field seg 2))
               (sset 1 (default 0 (field seg 1)) (sset 0 (default 0 (field seg 0)) est)))
      seg 3%nat ch3 tl3 E3 N31 N32 D3.
    eexists ((ch0 :: tl0) ++ (ch1 :: tl1) ++ (ch2 :: tl2) ++ (ch3 :: tl3)), _. split.
    + intros j line buf. cbn [encode_segments]. change (seg_length seg) with 4.
      rewrite encodeInteger_app, E0. cbn [fst snd].
      rewrite encodeInteger_app, E1. cbn [fst snd].
      rewrite encodeInteger_app, E2. cbn [fst snd].
      rewrite encodeInteger_app, E3. cbn [fst snd].
      change (4 =? 1) with false. change (4 =? 4) with true. cbv iota.
      f_equal. cbn [app]. rewrite <- !app_assoc. reflexivity.
    + intros rest dst decoded line sorted lastCol M.
      rewrite <- !app_assoc. cbn [app].
      destruct (D0 ((ch1 :: tl1) ++ (ch2 :: tl2) ++ (ch3 :: tl3) ++ rest) dst) as (dst1 & Ed0).
      destruct (D1 ((ch2 :: tl2) ++ (ch3 :: tl3) ++ rest) dst1) as (dst2 & Ed1).
      destruct (D2 ((ch3 :: tl3) ++ rest) dst2) as (dst3 & Ed2).
      destruct (D3 rest dst3) as (dst4 & Ed3).
      cbn [app] in Ed0, Ed1, Ed2.
      rewrite (decode_from_seg4 unsorted ch0 _ _ _ _ _ _ _ _ dst4 _ _ _ _ _ N01 N02
                 Ed0 (hasMoreSegments_digit ch1 _ N11 N12) Ed1 Ed2 Ed3 M).
      eexists _, _, _, _. split; [|reflexivity]. reflexivity.
  - set (seg := Seg5 c a b d n).
    consume est seg 0%nat ch0 tl0 E0 N01 N02 D0.
    consume (sset 0 (default 0 (field seg 0)) est) seg 1%nat ch1 tl1 E1 N11 N12 D1.
    consume (sset 1 (default 0 (field seg 1)) (sset 0 (default 0 (field seg 0)) est))
      seg 2%nat ch2 tl2 E2 N21 N22 D2.
    consume (sset 2 (default 0 (field seg 2))
               (sset 1 (default 0 (field seg 1)) (sset 0 (default 0 (field seg 0)) est)))
      seg 3%nat ch3 tl3 E3 N31 N32 D3.
    consume (sset 3 (default 0 (field seg 3))
               (sset 2 (default 0 (field seg 2))
                  (sset 1 (default 0 (field seg 1))
                     (sset 0 (default 0 (field seg 0)) est))))
      seg 4%nat ch4 tl4 E4 N41 N42 D4.
    eexists ((ch0 :: tl0) ++ (ch1 :: tl1) ++ (ch2 :: tl2) ++ (ch3 :: tl3) ++ (ch4 :: tl4)), _.
    split.
    + intros j line buf. cbn [encode_segments]. change (seg_length seg) with 5.
      rewrite encodeInteger_app, E0. cbn [fst snd].
      rewrite encodeInteger_app, E1. cbn [fst snd].
      rewrite encodeInteger_app, E2. cbn [fst snd].
      rewrite encodeInteger_app, E3. cbn [fst snd].
      rewrite encodeInteger_app, E4. cbn [fst snd].
      change (5 =? 1) with false. change (5 =? 4) with false. cbv iota.
      f_equal. cbn [app]. rewrite <- !app_assoc. reflexivity.
    + intros rest dst decoded line sorted lastCol M.
      rewrite <- !app_assoc. cbn [app].
      destruct (D0 ((ch1 :: tl1) ++ (ch2 :: tl2) ++ (ch3 :: tl3) ++ (ch4 :: tl4) ++ rest) dst)
        as (dst1 & Ed0).
      destruct (D1 ((ch2 :: tl2) ++ (ch3 :: tl3) ++ (ch4 :: tl4) ++ rest) dst1) as (dst2 & Ed1).
      destruct (D2 ((ch3 :: tl3) ++ (ch4 :: tl4) ++ rest) dst2) as (dst3 & Ed2).
      destruct (D3 ((ch4 :: tl4) ++ rest) dst3) as (dst4 & Ed3).
      destruct (D4 rest dst4) as (dst5 & Ed4).
      cbn [app] in Ed0, Ed1, Ed2, Ed3.
      rewrite (decode_from_seg5 unsorted ch0 _ _ _ _ _ _ _ _ _ _ dst5 _ _ _ _ _ N01 N02
                 Ed0 (hasMoreSegments_digit ch1 _ N11 N12) Ed1 Ed2 Ed3
                 (hasMoreSegments_digit ch4 _ N41 N42) Ed4).
      eexists _, _, _, _. split; [|reflexivity]. reflexivity.
Qed.

Lemma line_shape line :
  forall j est,
    exists chars est',
      (forall buf, encode_segments j line buf est = (buf ++ chars, est')) /\
      ((0 < j)%nat -> forall rest,
          hasMoreSegments rest = false -> hasMoreSegments (chars ++ rest) = false) /\
      (forall rest dst decoded acc sorted lastCol,
          hasMoreSegments rest = false ->
          exists dst' line' sorted' lastCol',
            Forall2 same_arity line' line /\
            decode_from unsorted (chars ++ rest) dst decoded acc sorted lastCol =
            decode_from unsorted rest dst' decoded (acc ++ line') sorted' lastCol').
Proof.
  induction line as [|seg line IH]; intros j est.
  - exists [], est. split; [|split].
    + intros buf. simpl. rewrite app_nil_r. reflexivity.
    + intros _ rest M. exact M.
    + intros rest dst decoded acc sorted lastCol M.
      exists dst, [], sorted, lastCol. split; [constructor|].
      rewrite app_nil_r. reflexivity.
  - destruct (segment_shape seg est) as (cs & est1 & Eenc & Hdec).
    destruct (IH (S j) est1) as (cl & est' & Eenc' & Hsep & Hdec').
    exists ((if (0 <? j)%nat then [comma] else []) ++ cs ++ cl), est'.
    split; [|split].
    + intros buf. rewrite Eenc, Eenc'. f_equal.
      destruct (0 <? j)%nat; simpl; rewrite <- ?app_assoc; reflexivity.
    + intros Hj rest M. apply Nat.ltb_lt in Hj. rewrite Hj. reflexivity.
    + intros rest dst decoded acc sorted lastCol M.
      destruct (Hdec (cl ++ rest) dst decoded acc sorted lastCol)
        as (dst1 & seg' & sorted1 & lastCol1 & Ha & Estep).
      { apply Hsep; [lia|exact M]. }
      destruct (Hdec' rest dst1 decoded (acc ++ [seg']) sorted1 lastCol1 M)
        as (dst' & line' & sorted' & lastCol' & Hl & Edec').
      exists dst', (seg' :: line'), sorted', lastCol'.
      split; [constructor; assumption|].
      rewrite <- (app_assoc acc [seg'] line') in Edec'. cbn [app] in Edec'.
      rewrite <- Edec', <- Estep.
      destruct (0 <? j)%nat; rewrite <- !app_assoc; cbn [app];
        [rewrite decode_from_comma|]; reflexivity.
Qed.

Lemma push_line_unsorted decoded sorted line :
  push_line unsorted decoded sorted line = decoded ++ [line].
Proof. unfold push_line, unsorted. destruct sorted; reflexivity. Qed.

Lemma lines_shape d :
  forall i buf est decoded dst,
    d <> [] ->
    exists chars rows,
      encode_lines i d buf est =
      (if (0 <? i)%nat then buf ++ [semicolon] else buf) ++ chars /\
      Forall2 (Forall2 same_arity) rows d /\
      decode_from unsorted chars dst decoded [] true 0 = decoded ++ rows.
Proof.
  induction d as [|line d IH]; intros i buf est decoded dst Hne; [congruence|].
  destruct (line_shape line 0 (sset 0 0 est)) as (cl & st' & Eenc & _ & Hdec).
  set (est' := if (length line =? 0)%nat then est else st').
  assert (Eline :
    encode_lines i (line :: d) buf est =
    encode_lines (S i) d ((if (0 <? i)%nat then buf ++ [semicolon] else buf) ++ cl) est').
  { cbn [encode_lines]. unfold est'.
    destruct (length line =? 0)%nat eqn:E.
    - apply Nat.eqb_eq in E. destruct line; [|discriminate].
      specialize (Eenc []). simpl in Eenc. injection Eenc as <- _.
      rewrite app_nil_r. reflexivity.
    - rewrite Eenc. reflexivity. }
  destruct d as [|line2 d].
  - destruct (Hdec [] dst decoded [] true 0 eq_refl)
      as (dst' & line' & sorted' & lastCol' & Hl & Edec).
    exists cl, [line']. split; [rewrite Eline; reflexivity|].
    split; [constructor; [exact Hl|constructor]|].
    rewrite app_nil_r in Edec. rewrite Edec, decode_from_nil.
    apply push_line_unsorted.
  - assert (Hrest : forall chars,
      exists dst' line' sorted' lastCol',
        Forall2 same_arity line' line /\
        decode_from unsorted (cl ++ semicolon :: chars) dst decoded [] true 0 =
        decode_from unsorted (semicolon :: chars) dst' decoded ([] ++ line') sorted' lastCol').
    { intros chars. apply Hdec. reflexivity. }
    assert (Hne2 : line2 :: d <> []) by congruence.
    (* the text of the rest does not depend on the decoder *)
    destruct (IH (S i) ((if (0 <? i)%nat then buf ++ [semicolon] else buf) ++ cl)
                est' [] state_new Hne2) as (chars & _ & Eenc2 & _ & _).
    destruct (Hrest chars) as (dst' & line' & sorted' & lastCol' & Hl & Edec).
    destruct (IH (S i) ((if (0 <? i)%nat then buf ++ [semicolon] else buf) ++ cl)
                est' (decoded ++ [line']) (sset 0 0 dst') Hne2)
      as (chars2 & rows & Eenc3 & Hrows & Edec2).
    assert (chars2 = chars).
    { rewrite Eenc2 in Eenc3. apply app_inv_head in Eenc3. congruence. }
    subst chars2.
    exists (cl ++ semicolon :: chars), (line' :: rows). split.
    + rewrite Eline, Eenc2. cbn [Nat.ltb Nat.leb]. rewrite <- !app_assoc. reflexivity.
    + split; [constructor; assumption|].
      rewrite Edec, decode_from_semicolon. cbn [app].
      rewrite push_line_unsorted.
      rewrite Edec2. rewrite <- app_assoc. reflexivity.
Qed.

Lemma encode_decode_unsorted d :
  d <> [] ->
  Forall2 (Forall2 same_arity) (decode_with unsorted (encode d)) d.
Proof.
  intros Hne.
  destruct (lines_shape d 0 [] state_new [] state_new Hne) as (chars & rows & Eenc & Hrows & Edec).
  unfold encode, decode_with. rewrite Eenc. cbn [Nat.ltb Nat.leb app].
  unfold decode_from in Edec. rewrite Edec. exact Hrows.
Qed.

End ShapeFacts.

Module ShapeProperties.
Import JS JSFacts Codec CodecFacts CodecFacts2 CodecLoop SortFacts DecodeFacts
  CodecShape ShapeFacts Remapping RemappingState TablesFacts EmittedFacts.

(** X18: whatever the values of its segments, a map with at least one row
    keeps its shape through [encode] and [decode]: the text [encode]
    writes is read back as the same number of rows; before the rows are
    sorted, each row has the segments of the row encoded, in order, each
    with the number of fields it had; after the sort each row still has as
    many segments. *)
Theorem encode_decode_shape (d : SourceMapMappings) :
  d <> [] ->
  Forall2 (Forall2 same_arity) (decode_with (fun line => line) (encode d)) d /\
  map length (decode (encode d)) = map length d.
Proof.
  intros Hne. pose proof (encode_decode_unsorted d Hne) as Hshape.
  split; [exact Hshape|].
  assert (Hsort : decode (encode d) = map sort (decode_with unsorted (encode d))).
  { apply (decode_loop_map_sort (length (encode d)) (encode d) state_new []).
    apply row_inv_start. }
  rewrite Hsort. rewrite map_map. clear Hsort Hne.
  induction Hshape as [|row1 row2 rows1 rows2 Hrow _ IH]; [reflexivity|].
  cbn [map]. rewrite IH. f_equal.
  rewrite (Permutation_length (sort_perm row1)).
  apply (Forall2_length _ _ _ Hrow).
Qed.

Lemma encode_decode_shape_witness :
  Forall2 (Forall2 same_arity)
    (decode_with (fun line => line)
       (encode [[Seg1 7; Seg4 3 (-1) 4294967296 0]; []; [Seg5 (-9) 0 0 0 2147483648]]))
    [[Seg1 7; Seg4 3 (-1) 4294967296 0]; []; [Seg5 (-9) 0 0 0 2147483648]] /\
  map length
    (decode (encode [[Seg1 7; Seg4 3 (-1) 4294967296 0]; []; [Seg5 (-9) 0 0 0 2147483648]]))
  = map length [[Seg1 7; Seg4 3 (-1) 4294967296 0]; []; [Seg5 (-9) 0 0 0 2147483648]].
Proof.
  apply (encode_decode_shape
           [[Seg1 7; Seg4 3 (-1) 4294967296 0]; []; [Seg5 (-9) 0 0 0 2147483648]]).
  discriminate.
Defined.

(** X19: every segment of the map [traceMappings] returns points at what
    the trace of its root segment found. Row by row, the output segments
    are those of the root segments whose trace ends at an original source,
    in order; each keeps the generated column of its root segment, holds
    the traced line and column, has as source index the place of the
    traced file name in the output sources, and has a names index, the
    place of the traced name in the output names, exactly when that name
    is a non-empty string. *)
Theorem traceMappings_emits (map : DecodedSourceMap) (sources : list Graph)
  (out : DecodedSourceMap) :
  traceMappings map sources = Normal out ->
  Forall2
    (Forall2 (emitted (Remapping.names map) sources (Remapping.sources out)
                (Remapping.names out)))
    (mappings out)
    (List.map (List.filter (contributes (Remapping.names map) sources)) (mappings map)).
Proof.
  unfold traceMappings. intros Ht.
  destruct (traceMappings_rows (Remapping.names map) sources (mappings map) []
              (mkTables FastStringArray_new FastStringArray_new []))
    as [[rows tb]|e] eqn:Er; [|discriminate].
  injection Ht as <-. cbn [Remapping.names Remapping.sources mappings].
  destruct (traceMappings_rows_emitted _ _ _ _ _ _ _ tables_ok_new (Forall_nil_2 _) Er)
    as (_ & new & -> & Hnew).
  exact Hnew.
Qed.

Lemma traceMappings_emits_witness :
  Forall2
    (Forall2 (emitted (Remapping.names root_map) root_sources
                (Remapping.sources composed_map) (Remapping.names composed_map)))
    (mappings composed_map)
    (List.map (List.filter (contributes (Remapping.names root_map) root_sources))
       (mappings root_map)).
Proof.
  apply (traceMappings_emits root_map root_sources composed_map).
  vm_compute. reflexivity.
Defined.

End ShapeProperties.

(** ** Graphs that trace without error *)

Module ClosedFacts.
Import JS Codec BinarySearch Remapping SearchFacts TracerFacts RemapFacts ComposeFacts
  RemappingState MemoTracerFacts TablesFacts.

Lemma Graph_children_ind (P : Graph -> Prop) :
  (forall source, P (Original source)) ->
  (forall map children, Forall P children -> P (SourceMapTree map children)) ->
  forall g, P g.
Proof.
  intros Horiginal Htree. fix IH 1. intros [source|map children].
  - apply Horiginal.
  - apply Htree. induction children as [|child children IHc]; constructor.
    + apply IH.
    + exact IHc.
Qed.

Lemma closed_traceSegment g :
  closed g ->
  forall line column name,
    match g with
    | Original _ => True
    | SourceMapTree map _ => 0 <= line < Z.of_nat (length (mappings map))
    end ->
    exists r, traceSegment g line column name = Normal r.
Proof.
  induction g as [source|map children IH] using Graph_children_ind;
    intros Hc line column name Hline.
  - eexists. reflexivity.
  - inversion Hc as [|map' children' Hchildren Hrows]; subst.
    rewrite traceSegment_tree.
    destruct (at_index_Some (mappings map) line Hline) as [segments Hseg].
    rewrite Hseg.
    assert (Hin : segments ∈ mappings map) by (eapply at_index_elem_of; exact Hseg).
    rewrite Forall_forall in Hrows. destruct (Hrows segments Hin) as [Hlen Hpoints].
    unfold Remapping.binarySearch.
    destruct (binarySearch_range (H := SourceMapSegment_column) segments column 0 (Z.of_nat (length segments) - 1))
      as (index & -> & Hindex); [lia|lia|exact Hlen|lia|].
    destruct (index <? 0) eqn:E; [eauto|]. apply Z.ltb_ge in E.
    destruct (at_index_Some segments index ltac:(lia)) as [seg Hs]. rewrite Hs.
    assert (Hp : points_inside children seg).
    { rewrite Forall_forall in Hpoints. apply Hpoints.
      eapply at_index_elem_of. exact Hs. }
    assert (Hsource : forall src l c name',
      (exists child,
          at_index children src = Some child /\
          match child with
          | Original _ => True
          | SourceMapTree childMap _ => 0 <= l < Z.of_nat (length (mappings childMap))
          end) ->
      exists r, traceSource children src l c name' = Normal r).
    { intros src l c name' (child & Hchild & Hl). unfold traceSource. rewrite Hchild.
      assert (Hcin : child ∈ children) by (eapply at_index_elem_of; exact Hchild).
      rewrite Forall_forall in IH, Hchildren.
      apply (IH child Hcin (Hchildren child Hcin)). exact Hl. }
    destruct seg as [c|c src l k|c src l k n]; [eauto| |]; apply Hsource; exact Hp.
Qed.

Lemma closed_no_throw map children seg row :
  closed (SourceMapTree map children) ->
  row ∈ mappings map -> seg ∈ row ->
  trace_throws (names map) children seg = false.
Proof.
  intros Hc Hrow Hseg.
  inversion Hc as [|map' children' Hchildren Hrows]; subst.
  rewrite Forall_forall in Hrows. destruct (Hrows row Hrow) as [_ Hpoints].
  rewrite Forall_forall in Hpoints. specialize (Hpoints seg Hseg).
  unfold trace_throws.
  destruct seg as [c|c src l k|c src l k n]; [reflexivity| |];
    destruct Hpoints as (child & Hchild & Hl); unfold traceSource; rewrite Hchild;
    (assert (Hcin : child ∈ children) by (eapply at_index_elem_of; exact Hchild));
    rewrite Forall_forall in Hchildren;
    match goal with
    | |- context [traceSegment child l k ?nm] =>
        destruct (closed_traceSegment child (Hchildren child Hcin) l k nm Hl) as [r ->]
    end; reflexivity.
Qed.

Lemma closed_traceMappings map children :
  closed (SourceMapTree map children) ->
  exists out, traceMappings map children = Normal out.
Proof.
  intros Hc.
  assert (Hall : forallb (fun seg => negb (trace_throws (names map) children seg))
                   (concat (mappings map)) = true).
  { apply forallb_forall. intros seg Hin.
    apply in_concat in Hin as (row & Hrow & Hseg).
    apply list_elem_of_In in Hrow, Hseg.
    rewrite (closed_no_throw map children seg row Hc Hrow Hseg). reflexivity. }
  apply (traceMappings_rows_normal (names map) children (mappings map) []
           (mkTables FastStringArray_new FastStringArray_new [])) in Hall
    as (rows & tb & Hr).
  unfold traceMappings. rewrite Hr. eauto.
Qed.

End ClosedFacts.

Module ClosedProperties.
Import JS Codec Remapping RemappingState ClosedFacts.

Lemma root_graph_closed : closed (SourceMapTree root_map root_sources).
Proof.
  assert (Hchild : closed (SourceMapTree child_map [Original original_js])).
  { constructor.
    - constructor; [constructor|constructor].
    - constructor; [|constructor]. split; [simpl; lia|].
      constructor; [|constructor]. exists (Original original_js). split; [reflexivity|exact I]. }
  constructor.
  - constructor; [exact Hchild|constructor].
  - assert (Hp : forall l, 0 <= l < 1 ->
                 exists child,
                   at_index root_sources 0 = Some child /\
                   match child with
                   | Original _ => True
                   | SourceMapTree childMap _ =>
                       0 <= l < Z.of_nat (length (mappings childMap))
                   end).
    { intros l Hl. eexists. split; [reflexivity|]. exact Hl. }
    constructor; [|constructor; [|constructor]].
    + split; [simpl; lia|].
      constructor; [apply (Hp 0); lia|].
      constructor; [exact I|].
      constructor; [apply (Hp 0); lia|constructor].
    + split; [simpl; lia|constructor].
Qed.

(** X20: a graph in which every segment of every map points at a source
    its node has and, when that source is a map, at a line of that map,
    traces without error: [traceSegment] at any line of the root map
    returns, a traced segment or [null], for every column and name, and
    [traceMappings] returns a map. *)
Theorem closed_graph_traces (map : DecodedSourceMap) (children : list Graph) :
  closed (SourceMapTree map children) ->
  (exists out, traceMappings map children = Normal out) /\
  (forall line column name,
      0 <= line < Z.of_nat (length (mappings map)) ->
      exists r, traceSegment (SourceMapTree map children) line column name = Normal r).
Proof.
  intros Hc. split.
  - apply closed_traceMappings, Hc.
  - intros line column name Hline.
    apply (closed_traceSegment (SourceMapTree map children) Hc line column name Hline).
Qed.

Lemma closed_graph_traces_witness :
  (exists out, traceMappings root_map root_sources = Normal out) /\
  (forall line column name,
      0 <= line < Z.of_nat (length (mappings root_map)) ->
      exists r,
        traceSegment (SourceMapTree root_map root_sources) line column name = Normal r).
Proof. apply (closed_graph_traces root_map root_sources root_graph_closed). Defined.

End ClosedProperties.

(** ** The by-source index and the decoded mappings *)

Module IndexFacts.
Import JS JSFacts Codec CodecRoundTrip BinarySearch TraceMapping SearchFacts BiasFacts
  TracerFacts QueryFacts TraceQueries.

(** *** The rows of the index are sorted *)

Lemma rev_insert_sorted a l :
  sorted_by_column l = true -> sorted_by_column (rev_insert a l) = true.
Proof.
  unfold sorted_by_column. induction l as [|b l IH]; intros H; [reflexivity|].
  cbn [rev_insert]. destruct (rev_column b <=? rev_column a) eqn:E.
  - apply Z.leb_le in E. cbn [map] in *.
    specialize (IH (SortFacts.nondecreasing_tail _ _ H)).
    destruct l as [|c l].
    + cbn [rev_insert map]. apply nondecreasing_cons. split; [assumption|reflexivity].
    + cbn [rev_insert map] in *. apply nondecreasing_cons in H as [Hbc H].
      destruct (rev_column c <=? rev_column a); cbn [map];
        apply nondecreasing_cons; (split; [assumption||lia|assumption]).
  - apply Z.leb_gt in E. cbn [map] in *.
    apply nondecreasing_cons. split; [unfold column, ReverseSegment_column; lia|assumption].
Qed.

Lemma rev_sort_sorted l : sorted_by_column (rev_sort l) = true.
Proof.
  unfold rev_sort.
  assert (G : forall acc, sorted_by_column acc = true ->
    sorted_by_column (fold_left (fun acc a => rev_insert a acc) l acc) = true).
  { induction l as [|a l IH]; intros acc Hacc; [exact Hacc|].
    simpl. apply IH, rev_insert_sorted, Hacc. }
  apply G. reflexivity.
Qed.

Lemma rev_insert_elem a l x : x ∈ rev_insert a l <-> x = a \/ x ∈ l.
Proof.
  induction l as [|b l IH]; cbn [rev_insert].
  - rewrite list_elem_of_singleton. split; [intros ->; left; reflexivity|].
    intros [->|H]; [reflexivity|inversion H].
  - destruct (rev_column b <=? rev_column a).
    + rewrite !elem_of_cons, IH. tauto.
    + rewrite !elem_of_cons. tauto.
Qed.

Lemma rev_sort_elem l x : x ∈ rev_sort l <-> x ∈ l.
Proof.
  unfold rev_sort.
  assert (G : forall acc,
    x ∈ fold_left (fun acc a => rev_insert a acc) l acc <-> x ∈ acc \/ x ∈ l).
  { induction l as [|a l IH]; intros acc; simpl.
    - split; [tauto|]. intros [H|H]; [exact H|inversion H].
    - rewrite IH, rev_insert_elem, elem_of_cons. tauto. }
  rewrite G. split; [intros [H|H]; [inversion H|exact H]|tauto].
Qed.

(** *** Where the reverse segments come from *)

(** Every row of the index under construction has a segment, and its
    segments come from segments of the decoded mappings that point at the
    line of the row. *)
Definition rows_sound (decoded : SourceMapMappings) (acc : list Source) : Prop :=
  forall (i : nat) (rows : Source) (l : Z) segments,
    acc !! i = Some rows -> rows !! l = Some segments ->
    segments <> [] /\
    forall rs, rs ∈ segments -> points_at decoded (Z.of_nat i) l (rev_column rs).

Lemma bySource_add_sound decoded genLine acc row seg :
  row ∈ decoded -> seg ∈ row ->
  rows_sound decoded acc -> rows_sound decoded (bySource_add genLine acc seg).
Proof.
  intros Hrow Hseg Hacc.
  assert (Hstep : forall c src l0 k,
    0 <= src ->
    points_at decoded src l0 k ->
    rows_sound decoded
      (alter (fun rows : Source =>
                <[l0 := default [] (rows !! l0) ++ [mkRev k genLine c]]> rows)
         (Z.to_nat src) acc)).
  { intros c src l0 k Hsrc Hp i rows l segments Hi Hl.
    destruct (decide (i = Z.to_nat src)) as [->|Hne].
    - rewrite list_lookup_alter_eq in Hi.
      destruct (acc !! Z.to_nat src) as [rows0|] eqn:E0; [|discriminate].
      simpl in Hi. injection Hi as <-.
      destruct (decide (l = l0)) as [->|Hnl].
      + rewrite lookup_insert_eq in Hl. injection Hl as <-.
        split; [intros E; apply app_eq_nil in E as [_ E]; discriminate|].
        intros rs Hrs. apply elem_of_app in Hrs as [Hrs|Hrs].
        * destruct (rows0 !! l0) as [segs0|] eqn:E1; [|inversion Hrs].
          apply (Hacc _ _ _ _ E0 E1), Hrs.
        * apply list_elem_of_singleton in Hrs. subst rs. cbn [rev_column].
          rewrite Z2Nat.id by lia. exact Hp.
      + rewrite lookup_insert_ne in Hl by congruence.
        apply (Hacc _ _ _ _ E0 Hl).
    - rewrite list_lookup_alter_ne in Hi by congruence.
      apply (Hacc _ _ _ _ Hi Hl). }
  unfold bySource_add. destruct seg as [c|c src l k|c src l k n]; [exact Hacc| |];
    (destruct ((0 <=? src) && (src <? Z.of_nat (length acc))) eqn:E; [|exact Hacc]);
    apply andb_prop in E as [E _]; apply Z.leb_le in E;
    (apply Hstep; [exact E|]);
    eexists row, _; (split; [exact Hrow|]); (split; [exact Hseg|]);
    cbn; repeat split.
Qed.

Lemma bySource_line_sound decoded genLine row line :
  row ∈ decoded -> (forall seg, seg ∈ line -> seg ∈ row) ->
  forall acc,
    rows_sound decoded acc ->
    rows_sound decoded (fold_left (bySource_add genLine) line acc).
Proof.
  intros Hrow. induction line as [|seg line IH]; intros Hline acc Hacc; [exact Hacc|].
  simpl. apply IH.
  - intros s Hs. apply Hline. right. exact Hs.
  - eapply bySource_add_sound; [exact Hrow| |exact Hacc]. apply Hline. left.
Qed.

Lemma bySource_lines_sound decoded rest :
  (forall row, row ∈ rest -> row ∈ decoded) ->
  forall genLine acc,
    rows_sound decoded acc ->
    rows_sound decoded (bySource_lines genLine rest acc).
Proof.
  induction rest as [|line rest IH]; intros Hrest genLine acc Hacc; [exact Hacc|].
  simpl. apply IH.
  - intros row Hr. apply Hrest. right. exact Hr.
  - apply (bySource_line_sound decoded genLine line line); [apply Hrest; left|tauto|exact Hacc].
Qed.

(** A row of the by-source index is sorted by original column, has a
    segment, and every segment of it comes from a segment of the decoded
    mappings that points at that line of that source. *)
Lemma buildBySources_row decoded memos sourceIndex rows l segments :
  at_index (buildBySources decoded memos) sourceIndex = Some rows ->
  rows !! l = Some segments ->
  sorted_by_column segments = true /\
  segments <> [] /\
  forall rs, rs ∈ segments -> points_at decoded sourceIndex l (rev_column rs).
Proof.
  intros Hi Hl. pose proof (at_index_range _ _ _ Hi) as Hr.
  unfold at_index in Hi. destruct (0 <=? sourceIndex); [|discriminate].
  unfold buildBySources in Hi. rewrite list_lookup_fmap in Hi.
  destruct (bySource_lines 0 decoded (replicate (length memos) ∅) !! Z.to_nat sourceIndex)
    as [rows0|] eqn:E0; [|discriminate].
  simpl in Hi. injection Hi as <-.
  rewrite lookup_fmap in Hl.
  destruct (rows0 !! l) as [segs0|] eqn:E1; [|discriminate].
  simpl in Hl. injection Hl as <-.
  assert (Hinit : rows_sound decoded (replicate (length memos) (∅ : Source))).
  { intros i' rows' l' segments' Hi' Hl'.
    apply lookup_replicate in Hi' as [-> _]. rewrite lookup_empty in Hl'. discriminate. }
  destruct (bySource_lines_sound decoded decoded (fun _ H => H) 0 _ Hinit _ _ _ _ E0 E1)
    as [Hne Hfrom].
  split; [apply rev_sort_sorted|]. split.
  - intros E. apply (f_equal length) in E. rewrite rev_sort_length in E.
    destruct segs0; [apply Hne; reflexivity|discriminate].
  - intros rs Hrs. apply (proj1 (rev_sort_elem _ _)) in Hrs.
    rewrite <- (Z2Nat.id sourceIndex) by lia. apply Hfrom, Hrs.
Qed.

Lemma buildBySources_memos decoded memos memos' :
  length memos' = length memos ->
  buildBySources decoded memos' = buildBySources decoded memos.
Proof. intros E. unfold buildBySources. rewrite E. reflexivity. Qed.

End IndexFacts.

(** ** What the position queries do not find *)

Module NotFoundFacts.
Import JS JSFacts Codec BinarySearch TraceMapping SearchFacts BiasFacts TracerFacts
  QueryFacts TraceQueries MemoTracerFacts TraceQueriesFacts TraceSegmentFacts
  EachMappingFacts IndexFacts.

Section Lookup.

Variable upperBound : forall (A : Type), HasColumn A -> list A -> Z -> Z -> Z.

Hypothesis upperBound_ok : upperBound_in_range upperBound.

Context {A : Type} `{HasColumn A}.

Variable haystack : list A.

(** The lookup in a sorted row, with any bias: it returns -1 or an index of
    the row, and leaves a memo for that row. *)
Lemma traceSegmentInternal_memo memo line column bias :
  sorted_by_column haystack = true -> Z.of_nat (length haystack) <= 2 ^ 31 ->
  memo_ok haystack line memo ->
  exists r memo',
    traceSegmentInternal upperBound haystack memo line column bias = (Normal r, memo') /\
    (r = -1 \/ 0 <= r < Z.of_nat (length haystack)) /\
    lastKey memo' = line /\ memo_ok haystack line memo'.
Proof.
  intros Hs Hlen Hmemo.
  destruct (traceSegmentInternal_range haystack upperBound upperBound_ok memo line
              column bias Hlen) as (r & memo' & Er & Hr & Hk & _).
  { intros Hkey. apply (hit_range haystack _ _ (Hmemo Hkey)). }
  exists r, memo'. split; [exact Er|]. split; [exact Hr|]. split; [exact Hk|].
  unfold traceSegmentInternal in Er.
  destruct (memoizedBinarySearch_hit haystack column memo line Hs Hlen Hmemo)
    as (r0 & m0 & E0 & _ & Hm0).
  rewrite E0 in Er.
  match type of Er with
  | (if ?b then _ else _) = _ => destruct b
  end; injection Er as _ <-; exact Hm0.
Qed.

(** With the [GREATEST_LOWER_BOUND] bias, a column before every segment of
    the row finds no segment. *)
Lemma traceSegmentInternal_before memo line column r memo' :
  sorted_by_column haystack = true -> Z.of_nat (length haystack) <= 2 ^ 31 ->
  memo_ok haystack line memo ->
  (forall i x, col_at haystack i = Some x -> column < x) ->
  traceSegmentInternal upperBound haystack memo line column GREATEST_LOWER_BOUND
  = (Normal r, memo') ->
  r = -1.
Proof.
  intros Hs Hlen Hmemo Hall Er.
  destruct (traceSegmentInternal_glb haystack upperBound memo line column Hs Hlen Hmemo)
    as (r0 & m0 & E0 & _ & _ & Hno).
  rewrite Er in E0. injection E0 as <- <-.
  destruct Hno as [[E|(x & Hx & Hle)] _]; [|exact E|].
  - intros [i Hi]. specialize (Hall i column Hi). lia.
  - specialize (Hall r x Hx). lia.
Qed.

(** With the [LEAST_UPPER_BOUND] bias, a column after every segment of the
    row finds no segment. *)
Lemma traceSegmentInternal_after memo line column r memo' :
  sorted_by_column haystack = true -> Z.of_nat (length haystack) <= 2 ^ 31 ->
  memo_ok haystack line memo ->
  (forall i x, col_at haystack i = Some x -> x < column) ->
  traceSegmentInternal upperBound haystack memo line column LEAST_UPPER_BOUND
  = (Normal r, memo') ->
  r = -1.
Proof.
  intros Hs Hlen Hmemo Hall Er.
  destruct (traceSegmentInternal_lub haystack upperBound memo line column Hs Hlen Hmemo)
    as (r0 & m0 & E0 & _ & Hno & _).
  rewrite Er in E0. injection E0 as <- <-.
  destruct Hno as [[E|(x & Hx & Hle)] _]; [|exact E|].
  - intros [i Hi]. specialize (Hall i column Hi). lia.
  - specialize (Hall r x Hx). lia.
Qed.

End Lookup.

Lemma col_at_elem_of {A} `{HasColumn A} (haystack : list A) i x :
  col_at haystack i = Some x -> exists item, item ∈ haystack /\ column item = x.
Proof.
  unfold col_at. destruct (at_index haystack i) as [item|] eqn:E; [|discriminate].
  intros Hx. injection Hx as <-. exists item. split; [|reflexivity].
  eapply at_index_elem_of, E.
Qed.

(** The by-source index, once asked for, is the index of the decoded
    mappings. *)
Lemma bySources_indexed map decoded :
  map_ok map -> indexed map -> decoded_of map = Some decoded ->
  exists generated memos map2,
    bySources map = (Normal generated, map2) /\
    map_ok map2 /\ indexed map2 /\
    _bySources map2 = Some generated /\ _bySourceMemos map2 = Some memos /\
    generated = buildBySources decoded memos /\
    decoded_of map2 = Some decoded /\
    sources map2 = sources map /\ resolvedSources map2 = resolvedSources map.
Proof.
  intros Hok Hix Hd.
  destruct (bySources_ok map Hok)
    as (generated & memos & map2 & Eby & Hok2 & Eg2 & Em2 & Hs2 & Hr2).
  exists generated, memos, map2. split; [exact Eby|]. split; [exact Hok2|].
  unfold bySources in Eby. destruct (_bySources map) as [g|] eqn:Eg.
  - injection Eby as -> ->. unfold indexed in Hix. rewrite Eg, Em2 in Hix.
    destruct Hix as [(decoded' & Hd' & Hg) Hmemos].
    rewrite Hd in Hd'. injection Hd' as <-.
    split; [unfold indexed; rewrite Eg, Em2; split; [eauto|exact Hmemos]|].
    split; [exact Eg|]. split; [exact Em2|]. split; [exact Hg|].
    split; [exact Hd|]. split; reflexivity.
  - destruct (decodedMappings_decoded map decoded Hd)
      as (map1 & Edm & Hd1 & Hdo1 & Hn1 & Hr1 & Hm1).
    rewrite Edm in Eby. injection Eby as <- <-.
    cbn [set_bySources _bySourceMemos] in Em2. injection Em2 as <-.
    assert (Hdo2 : decoded_of
                     (set_bySources map1
                        (buildBySources decoded ((fun _ => memoizedState) <$> sources map1))
                        ((fun _ => memoizedState) <$> sources map1)) = Some decoded).
    { unfold decoded_of. cbn [set_bySources _decoded]. rewrite Hd1. reflexivity. }
    split.
    + unfold indexed. cbn [set_bySources _bySources _bySourceMemos]. split.
      * exists decoded. split; [exact Hdo2|reflexivity].
      * intros i rows memo l segments _ Hm _ Hl0.
        rewrite list_lookup_fmap in Hm.
        destruct (sources map1 !! i); [|discriminate]. simpl in Hm. injection Hm as <-.
        apply memo_ok_fresh. lia.
    + split; [reflexivity|]. split; [reflexivity|]. split; [reflexivity|].
      split; [exact Hdo2|]. split; assumption.
Qed.

(** *** What the queries leave of the map *)

(** Two states of a map with the same mappings and the same by-source
    index, or with the same mappings and the same memo of the decoded
    rows. *)
Lemma indexed_same map map' :
  decoded_of map' = decoded_of map -> _bySources map' = _bySources map ->
  _bySourceMemos map' = _bySourceMemos map ->
  indexed map -> indexed map'.
Proof. unfold indexed. intros -> -> ->. tauto. Qed.

Lemma searchable_same map map' :
  decoded_of map' = decoded_of map -> _decodedMemo map' = _decodedMemo map ->
  searchable map -> searchable map'.
Proof. unfold searchable. intros -> ->. tauto. Qed.

Section Queries.

Variable upperBound : forall (A : Type), HasColumn A -> list A -> Z -> Z -> Z.

Hypothesis upperBound_ok : upperBound_in_range upperBound.

Lemma originalPositionFor_not_found map :
  map_ok map -> searchable map -> original_not_found upperBound map.
Proof.
  intros Hok (decoded' & Hd' & Hrows & Hmemo) needle decoded Hl Hc Hd. cbv zeta.
  rewrite Hd in Hd'. injection Hd' as <-.
  unfold originalPositionFor.
  destruct (line needle - 1 <? 0) eqn:El; [apply Z.ltb_lt in El; lia|].
  destruct (column_ needle <? 0) eqn:Ec; [apply Z.ltb_lt in Ec; lia|].
  destruct (decodedMappings_decoded map decoded Hd)
    as (map1 & -> & Hd1 & Hdo1 & Hn1 & Hr1 & Hm1).
  assert (Hsearch1 : forall memo,
    (forall row, at_index decoded (lastKey memo) = Some row ->
                 hit row (lastNeedle memo) (lastIndex memo)) ->
    searchable (set_decodedMemo map1 memo)).
  { intros memo Hm. exists decoded. split.
    - unfold decoded_of. cbn [set_decodedMemo _decoded]. rewrite Hd1. reflexivity.
    - split; [exact Hrows|]. cbn [set_decodedMemo _decodedMemo]. exact Hm. }
  destruct (line needle - 1 >=? Z.of_nat (length decoded)) eqn:Eg.
  { rewrite Z.geb_leb in Eg. apply Z.leb_le in Eg. cbn [fst snd]. split.
    - exists decoded. split; [exact Hdo1|]. split; [exact Hrows|].
      rewrite Hm1. exact Hmemo.
    - split; [reflexivity|]. intros row Hrow.
      apply at_index_range in Hrow. lia. }
  rewrite Z.geb_leb in Eg. apply Z.leb_gt in Eg.
  destruct (at_index_Some decoded (line needle - 1)) as [segments Hseg]; [lia|].
  rewrite Hseg.
  assert (Hin : segments ∈ decoded) by (eapply at_index_elem_of; exact Hseg).
  rewrite Forall_forall in Hrows. destruct (Hrows segments Hin) as [Hs Hlen].
  assert (Hmemo1 : memo_ok segments (line needle - 1) (_decodedMemo map1)).
  { intros Hk. rewrite Hm1 in *. apply Hmemo. rewrite Hk. exact Hseg. }
  destruct (traceSegmentInternal_memo upperBound upperBound_ok
              (H := SourceMapSegment_column) segments
              (_decodedMemo map1) (line needle - 1) (column_ needle)
              (bias_or (bias needle) GREATEST_LOWER_BOUND) Hs Hlen Hmemo1)
    as (r & memo' & Er & Hr & Hk & Hm').
  rewrite Er.
  set (result :=
    if r =? -1 then (Normal (OMapping None None None None), set_decodedMemo map1 memo')
    else
      match at_index segments r with
      | None => (Throw TypeError, set_decodedMemo map1 memo')
      | Some (Seg1 _) =>
          (Normal (OMapping None None None None), set_decodedMemo map1 memo')
      | Some (Seg4 _ src l c) =>
          (Normal
             (OMapping (at_index (resolvedSources (set_decodedMemo map1 memo')) src)
                (Some (l + 1)) (Some c) None), set_decodedMemo map1 memo')
      | Some (Seg5 _ src l c n) =>
          (Normal
             (OMapping (at_index (resolvedSources (set_decodedMemo map1 memo')) src)
                (Some (l + 1)) (Some c)
                (at_index (names (set_decodedMemo map1 memo')) n)),
           set_decodedMemo map1 memo')
      end).
  assert (Hres : result =
    (Normal (mapping_of map (at_index segments r)), set_decodedMemo map1 memo')).
  { unfold result. destruct (r =? -1) eqn:E1.
    - apply Z.eqb_eq in E1. subst r. reflexivity.
    - apply Z.eqb_neq in E1.
      destruct (at_index_Some segments r) as [segment Hsegment]; [lia|].
      rewrite Hsegment. unfold mapping_of.
      cbn [set_decodedMemo resolvedSources names]. rewrite Hr1, Hn1.
      destruct segment; reflexivity. }
  fold result. rewrite Hres. cbn [fst snd]. split.
  - apply Hsearch1. intros row Hrow. rewrite Hk, Hseg in Hrow. injection Hrow as <-.
    apply Hm', Hk.
  - split; [intros; lia|]. intros row Hrow. injection Hrow as <-.
    rewrite <- Hm1. split; [|split].
    + exists r, memo'. split; [exact Er|]. split; [reflexivity|]. split.
      * intros c Hc1. rewrite Hc1. reflexivity.
      * intros Hb. rewrite Hb in Er.
        destruct (traceSegmentInternal_glb (H := SourceMapSegment_column) segments
                    upperBound (_decodedMemo map1)
                    (line needle - 1) (column_ needle) Hs Hlen Hmemo1)
          as (r0 & m0 & E0 & _ & Hglb).
        rewrite Er in E0. injection E0 as <- <-. exact Hglb.
    + intros Hb Hall. rewrite Hb in Er.
      assert (Hall' : forall i x, col_at segments i = Some x -> column_ needle < x).
      { intros i x Hx. apply col_at_elem_of in Hx as (seg & Hseg' & <-).
        apply Hall, Hseg'. }
      rewrite (traceSegmentInternal_before upperBound (H := SourceMapSegment_column)
                 segments _ _ _ _ _ Hs Hlen Hmemo1 Hall' Er).
      reflexivity.
    + intros Hb Hall. rewrite Hb in Er.
      assert (Hall' : forall i x, col_at segments i = Some x -> x < column_ needle).
      { intros i x Hx. apply col_at_elem_of in Hx as (seg & Hseg' & <-).
        apply Hall, Hseg'. }
      rewrite (traceSegmentInternal_after upperBound (H := SourceMapSegment_column)
                 segments _ _ _ _ _ Hs Hlen Hmemo1 Hall' Er).
      reflexivity.
Qed.

Lemma generatedPositionFor_not_found map :
  map_ok map -> indexed map -> generated_not_found upperBound map.
Proof.
  intros Hok Hix needle decoded Hl Hc Hd. cbv zeta.
  unfold generatedPositionFor, generatedPosition, source_index. cbv zeta.
  set (source := sn_source needle).
  set (sourceIndex :=
    if indexOf (sources map) (Some source) =? -1
    then indexOf (resolvedSources map) source
    else indexOf (sources map) (Some source)).
  destruct (sn_line needle - 1 <? 0) eqn:El; [apply Z.ltb_lt in El; lia|].
  destruct (sn_column needle <? 0) eqn:Ec; [apply Z.ltb_lt in Ec; lia|].
  destruct (sourceIndex =? -1) eqn:Es.
  { cbn [fst snd]. split; [exact Hix|]. repeat split; intros; reflexivity. }
  apply Z.eqb_neq in Es.
  assert (Hsi : 0 <= sourceIndex < Z.of_nat (length (sources map))).
  { unfold sourceIndex in *.
    pose proof (indexOf_range (sources map) (Some source)) as H1.
    pose proof (indexOf_range (resolvedSources map) source) as H2.
    rewrite (ok_resolved map Hok) in H2.
    destruct (indexOf (sources map) (Some source) =? -1) eqn:E; [lia|].
    apply Z.eqb_neq in E. lia. }
  destruct (bySources_indexed map decoded Hok Hix Hd)
    as (generated & memos & map2 & Eby & Hok2 & Hix2 & Eg & Em & Hgen & Hd2 & Hs2 & Hr2).
  rewrite Eby.
  pose proof (ok_bySources map2 Hok2) as Hby. rewrite Eg, Em in Hby.
  destruct Hby as (Hlg & Hlm & Hrows). rewrite Hs2 in Hlg, Hlm.
  destruct (at_index_Some generated sourceIndex) as [rows Hrow]; [lia|].
  rewrite Hrow.
  destruct (rows !! (sn_line needle - 1)) as [segments|] eqn:Eseg.
  2:{ cbn [fst snd]. split; [exact Hix2|]. repeat split; intros; reflexivity. }
  rewrite Em. cbn [mbind option_bind].
  destruct (at_index_Some memos sourceIndex) as [memo Hmemo]; [lia|].
  rewrite Hmemo.
  assert (Hgi : generated !! Z.to_nat sourceIndex = Some rows).
  { unfold at_index in Hrow. destruct (0 <=? sourceIndex); [exact Hrow|discriminate]. }
  assert (Hmi : memos !! Z.to_nat sourceIndex = Some memo).
  { unfold at_index in Hmemo. destruct (0 <=? sourceIndex); [exact Hmemo|discriminate]. }
  destruct (Hrows _ _ _ Hgi Hmi) as [Hbound _].
  pose proof (Hbound _ _ Eseg) as Hlen.
  rewrite Hgen in Hrow.
  destruct (buildBySources_row decoded memos sourceIndex rows (sn_line needle - 1)
              segments Hrow Eseg) as (Hsorted & Hne & Hfrom).
  assert (Hmemo_ok : memo_ok segments (sn_line needle - 1) memo).
  { unfold indexed in Hix2. rewrite Eg, Em in Hix2. destruct Hix2 as [_ Hmemos].
    apply (Hmemos _ _ _ _ _ Hgi Hmi Eseg). lia. }
  destruct (traceSegmentInternal_memo upperBound upperBound_ok
              (H := ReverseSegment_column) segments memo (sn_line needle - 1)
              (sn_column needle) (bias_or (sn_bias needle) GREATEST_LOWER_BOUND)
              Hsorted Hlen Hmemo_ok)
    as (r & memo' & Er & Hr & Hk & Hm').
  rewrite Er. cbn [fmap option_fmap option_map].
  set (map3 := set_bySourceMemos map2 (Some (<[Z.to_nat sourceIndex := memo']> memos))).
  assert (Hix3 : indexed map3).
  { unfold indexed, map3. cbn [set_bySourceMemos _bySources _bySourceMemos].
    rewrite Eg. split.
    - exists decoded. split.
      + unfold decoded_of in *. cbn [set_bySourceMemos _decoded _encoded]. exact Hd2.
      + rewrite Hgen. symmetry. apply buildBySources_memos, length_insert.
    - intros i rows0 memo0 l segs Hi Hm Hl0 Hl1.
      unfold indexed in Hix2. rewrite Eg, Em in Hix2. destruct Hix2 as [_ Hmemos].
      destruct (decide (i = Z.to_nat sourceIndex)) as [->|Hne'].
      + rewrite list_lookup_insert_eq in Hm by lia. injection Hm as <-.
        rewrite Hgi in Hi. injection Hi as <-.
        intros Hkey. rewrite Hk in Hkey. subst l.
        rewrite Eseg in Hl0. injection Hl0 as <-. apply Hm', Hk.
      + rewrite list_lookup_insert_ne in Hm by congruence.
        apply (Hmemos _ _ _ _ _ Hi Hm Hl0 Hl1). }
  assert (Hnull : r = -1 ->
    fst (if r =? -1
         then (Normal (One (GMapping None None)), map3)
         else
           match at_index segments r with
           | Some segment =>
               (Normal
                  (One (GMapping (Some (rev_generated_line segment + 1))
                          (Some (rev_generated_column segment)))), map3)
           | None => (Throw TypeError, map3)
           end) = Normal (One (GMapping None None))).
  { intros ->. reflexivity. }
  assert (Hcols : forall P : Z -> Prop,
    (forall k, points_at decoded sourceIndex (sn_line needle - 1) k -> P k) ->
    forall i x, col_at segments i = Some x -> P x).
  { intros P HP i x Hx. apply col_at_elem_of in Hx as (rs & Hrs & <-).
    apply HP, Hfrom, Hrs. }
  split.
  - destruct (r =? -1); [exact Hix3|].
    destruct (at_index segments r); exact Hix3.
  - split; [intros E; lia|]. split; [|split].
    + intros Hnone. destruct segments as [|rs segments]; [destruct Hne; reflexivity|].
      destruct (Hnone (rev_column rs)). apply Hfrom. left.
    + intros Hb Hall. rewrite Hb in Er. apply Hnull.
      apply (traceSegmentInternal_before upperBound (H := ReverseSegment_column)
               segments _ _ _ _ _ Hsorted Hlen Hmemo_ok
               (Hcols (fun k => sn_column needle < k) Hall) Er).
    + intros Hb Hall. rewrite Hb in Er. apply Hnull.
      apply (traceSegmentInternal_after upperBound (H := ReverseSegment_column)
               segments _ _ _ _ _ Hsorted Hlen Hmemo_ok
               (Hcols (fun k => k < sn_column needle) Hall) Er).
Qed.

Lemma originalPositionFor_index map needle :
  map_ok map ->
  decoded_of (snd (originalPositionFor upperBound map needle)) = decoded_of map /\
  _bySources (snd (originalPositionFor upperBound map needle)) = _bySources map /\
  _bySourceMemos (snd (originalPositionFor upperBound map needle)) = _bySourceMemos map.
Proof.
  intros Hok. unfold originalPositionFor.
  destruct (line needle - 1 <? 0); [repeat split|].
  destruct (column_ needle <? 0); [repeat split|].
  destruct (decodedMappings_ok map Hok)
    as (decoded & map1 & Ed & Edm & Hok1 & Ed1 & Hs1 & Hr1 & Hn1 & Hm1 & Hb1 & Hbm1).
  rewrite Edm.
  assert (H1 : decoded_of map1 = decoded_of map /\ _bySources map1 = _bySources map /\
               _bySourceMemos map1 = _bySourceMemos map).
  { split; [congruence|]. split; assumption. }
  assert (H2 : forall memo,
    decoded_of (set_decodedMemo map1 memo) = decoded_of map /\
    _bySources (set_decodedMemo map1 memo) = _bySources map /\
    _bySourceMemos (set_decodedMemo map1 memo) = _bySourceMemos map).
  { intros memo. exact H1. }
  destruct (line needle - 1 >=? Z.of_nat (length decoded)); [exact H1|].
  destruct (at_index decoded (line needle - 1)) as [segments|]; [|exact H1].
  destruct (traceSegmentInternal upperBound segments (_decodedMemo map1)
              (line needle - 1) (column_ needle)
              (bias_or (bias needle) GREATEST_LOWER_BOUND)) as [[r|e] memo];
    [|apply H2].
  destruct (r =? -1); [apply H2|].
  destruct (at_index segments r) as [[c|c src l k|c src l k n]|]; apply H2.
Qed.

Lemma bySources_memo map :
  map_ok map ->
  decoded_of (snd (bySources map)) = decoded_of map /\
  _decodedMemo (snd (bySources map)) = _decodedMemo map.
Proof.
  intros Hok. unfold bySources. destruct (_bySources map); [split; reflexivity|].
  destruct (decodedMappings_ok map Hok)
    as (decoded & map1 & Ed & Edm & Hok1 & Ed1 & Hs1 & Hr1 & Hn1 & Hm1 & Hb1 & Hbm1).
  rewrite Edm. cbn [snd]. split; [|exact Hm1].
  rewrite Ed, <- Ed1. reflexivity.
Qed.

Lemma generatedPositionFor_memo map needle :
  map_ok map ->
  decoded_of (snd (generatedPositionFor upperBound map needle)) = decoded_of map /\
  _decodedMemo (snd (generatedPositionFor upperBound map needle)) = _decodedMemo map.
Proof.
  intros Hok. unfold generatedPositionFor, generatedPosition. cbv zeta.
  destruct (sn_line needle - 1 <? 0); [split; reflexivity|].
  destruct (sn_column needle <? 0); [split; reflexivity|].
  match goal with |- context [if ?b then (Normal _, map) else _] => destruct b end;
    [split; reflexivity|].
  pose proof (bySources_memo map Hok) as H2.
  destruct (bySources map) as [[generated|e] map2]; cbn [snd] in H2; [|exact H2].
  assert (H3 : forall memos,
    decoded_of (set_bySourceMemos map2 memos) = decoded_of map /\
    _decodedMemo (set_bySourceMemos map2 memos) = _decodedMemo map).
  { intros memos. exact H2. }
  match goal with |- context [match ?x with Some rows => _ | None => _ end] =>
    destruct x as [rows|] end; [|exact H2].
  destruct (rows !! (sn_line needle - 1)) as [segments|]; [|exact H2].
  match goal with |- context [match ?x with Some memo => _ | None => _ end] =>
    destruct x as [memo|] end; [|exact H2].
  destruct (traceSegmentInternal upperBound segments memo (sn_line needle - 1)
              (sn_column needle) (bias_or (sn_bias needle) GREATEST_LOWER_BOUND))
    as [[r|e] memo']; [|apply H3].
  destruct (r =? -1); [apply H3|].
  destruct (at_index segments r); apply H3.
Qed.

Lemma queries_keep_ok map :
  map_ok map -> queries_keep upperBound map.
Proof.
  intros Hok needle sneedle. split.
  - intros Hs. split.
    + destruct (Z_lt_ge_dec (line needle) 1) as [Hl|Hl];
        [|destruct (Z_lt_ge_dec (column_ needle) 0) as [Hc|Hc]].
      * unfold originalPositionFor.
        destruct (line needle - 1 <? 0) eqn:E; [exact Hs|apply Z.ltb_ge in E; lia].
      * unfold originalPositionFor.
        destruct (line needle - 1 <? 0); [exact Hs|].
        destruct (column_ needle <? 0) eqn:E; [exact Hs|apply Z.ltb_ge in E; lia].
      * destruct Hs as (decoded & Hd & Hrest).
        apply (originalPositionFor_not_found map Hok
                 (ex_intro _ decoded (conj Hd Hrest)) needle decoded);
          [lia|lia|exact Hd].
    + destruct (generatedPositionFor_memo map sneedle Hok) as [Hd Hm].
      eapply searchable_same; [exact Hd|exact Hm|exact Hs].
  - intros Hix. split.
    + destruct (originalPositionFor_index map needle Hok) as (Hd & Hb & Hm).
      eapply indexed_same; [exact Hd|exact Hb|exact Hm|exact Hix].
    + destruct (Z_lt_ge_dec (sn_line sneedle) 1) as [Hl|Hl];
        [|destruct (Z_lt_ge_dec (sn_column sneedle) 0) as [Hc|Hc]].
      * unfold generatedPositionFor, generatedPosition.
        destruct (sn_line sneedle - 1 <? 0) eqn:E; [exact Hix|apply Z.ltb_ge in E; lia].
      * unfold generatedPositionFor, generatedPosition.
        destruct (sn_line sneedle - 1 <? 0); [exact Hix|].
        destruct (sn_column sneedle <? 0) eqn:E; [exact Hix|apply Z.ltb_ge in E; lia].
      * destruct (ok_decoded map Hok) as (decoded & Hd & _).
        apply (generatedPositionFor_not_found map Hok Hix
                 sneedle decoded); [lia|lia|exact Hd].
Qed.

End Queries.

End NotFoundFacts.

Module QueryClaims.
Import JS JSFacts Codec BinarySearch TraceMapping SearchFacts BiasFacts TracerFacts
  QueryFacts TraceQueries IndexFacts NotFoundFacts.

(** C7: on a map in the state its constructor and its queries leave it in,
    with integer coordinates, [originalPositionFor] and
    [generatedPositionFor] throw if and only if the needle has [line < 1]
    or [column < 0]; for every other needle they return a record, and the
    map can be queried again: the queries keep its rows searchable and its
    by-source index that of its mappings. On a map whose rows are sorted,
    [originalPositionFor] returns the record of the segment its lookup
    finds, and the all-null record when the line is past the last row, when
    the column is before every segment of the row (after every segment,
    with the [LEAST_UPPER_BOUND] bias), and when the segment found has one
    field. On a map whose by-source index, if built, is the index of its
    mappings, [generatedPositionFor] returns the all-null record for a
    source the map does not list, for a line of the source that no segment
    points at, and for a column before every column of the line that a
    segment points at (after every such column, with the
    [LEAST_UPPER_BOUND] bias). *)
Theorem position_queries_throw_iff
  (upperBound : forall (A : Type), HasColumn A -> list A -> Z -> Z -> Z)
  (map : TraceMap) :
  upperBound_in_range upperBound -> map_ok map ->
  queries_spec upperBound map /\
  queries_keep upperBound map /\
  (searchable map -> original_not_found upperBound map) /\
  (indexed map -> generated_not_found upperBound map).
Proof.
  intros Hub Hok.
  assert (Ho : forall needle,
    throws (fst (originalPositionFor upperBound map needle)) <->
    line needle < 1 \/ column_ needle < 0).
  { intros needle.
    destruct (originalPositionFor_ok upperBound Hub map needle Hok)
      as (_ & Hl & Hc & Hn).
    split.
    - intros [e He].
      destruct (Z_lt_ge_dec (line needle) 1); [left; assumption|].
      destruct (Z_lt_ge_dec (column_ needle) 0); [right; assumption|].
      destruct Hn as (m & Em & _); [lia|lia|]. congruence.
    - intros [Hlt|Hlt].
      + eexists. apply Hl, Hlt.
      + destruct (Z_lt_ge_dec (line needle) 1).
        * eexists. apply Hl. assumption.
        * eexists. apply Hc; [lia|assumption]. }
  assert (Hg : forall needle,
    throws (fst (generatedPositionFor upperBound map needle)) <->
    sn_line needle < 1 \/ sn_column needle < 0).
  { intros needle. unfold generatedPositionFor.
    destruct (generatedPosition_ok upperBound Hub map (sn_source needle)
                (sn_line needle) (sn_column needle)
                (bias_or (sn_bias needle) GREATEST_LOWER_BOUND) Hok)
      as (_ & Hl & Hc & Hn).
    split.
    - intros [e He].
      destruct (Z_lt_ge_dec (sn_line needle) 1); [left; assumption|].
      destruct (Z_lt_ge_dec (sn_column needle) 0); [right; assumption|].
      destruct Hn as (m & Em); [lia|lia|]. congruence.
    - intros [Hlt|Hlt].
      + eexists. apply Hl, Hlt.
      + destruct (Z_lt_ge_dec (sn_line needle) 1).
        * eexists. apply Hl. assumption.
        * eexists. apply Hc; [lia|assumption]. }
  split; [|split; [|split]].
  - split; [exact Ho|]. split; [exact Hg|]. split; [|split].
    + intros needle. apply originalPositionFor_ok; assumption.
    + intros needle. apply generatedPosition_ok; assumption.
    + intros needle decoded Hl Hc Hd Hlt.
      destruct (originalPositionFor_ok upperBound Hub map needle Hok)
        as (_ & _ & _ & Hn).
      destruct (Hn Hl Hc) as (m & Em & Hnull).
      rewrite Em. f_equal. apply (Hnull decoded Hd Hlt).
  - apply queries_keep_ok; assumption.
  - intros Hs. apply originalPositionFor_not_found; assumption.
  - intros Hix. apply generatedPositionFor_not_found; assumption.
Qed.

Lemma sparse_map_ok : map_ok sparse_map.
Proof.
  constructor.
  - eexists. split; [reflexivity|]. split; [simpl; lia|].
    split; [repeat constructor; simpl; lia|].
    intros haystack Hh. discriminate Hh.
  - reflexivity.
  - exact I.
Qed.

Lemma sparse_map_searchable : searchable sparse_map.
Proof.
  eexists. split; [reflexivity|]. split.
  - repeat constructor; simpl; lia.
  - intros row Hrow. discriminate Hrow.
Qed.

Lemma position_queries_throw_iff_witness :
  queries_spec (@upperBound_spec) sparse_map /\
  queries_keep (@upperBound_spec) sparse_map /\
  original_not_found (@upperBound_spec) sparse_map /\
  generated_not_found (@upperBound_spec) sparse_map.
Proof.
  destruct (position_queries_throw_iff (@upperBound_spec) sparse_map
              upperBound_spec_in_range sparse_map_ok) as (Hq & Hk & Ho & Hg).
  split; [exact Hq|]. split; [exact Hk|].
  split; [apply Ho, sparse_map_searchable|apply Hg; exact I].
Defined.

(** In [sparse_map] the segment at column 2 of the first row has one
    field, the second row is empty and the third row starts at column 4.
    The records for a column on the segment with one field, before the
    first segment, in the empty row, before the first segment of the third
    row, past the last row, and on a segment with a source and a name. *)
Example originalPositionFor_not_found_example :
  map (fun '(l, c) =>
         fst (originalPositionFor (@upperBound_spec) sparse_map (mkNeedle l c None)))
    [(1, 3); (1, 1); (2, 0); (3, 2); (9, 0); (1, 6)]
  = [Normal (OMapping None None None None);
     Normal (OMapping None None None None);
     Normal (OMapping None None None None);
     Normal (OMapping None None None None);
     Normal (OMapping None None None None);
     Normal (OMapping (Some "/src/a.js"%string) (Some 1) (Some 0) (Some "x"%string))].
Proof. vm_compute. reflexivity. Qed.

(** The records for a source the map does not list, for a line of its
    source no segment points at, for a column before the only column of
    line 4 a segment points at, for that column, and for the resolved name
    of the source. *)
Example generatedPositionFor_not_found_example :
  map (fun '(s, l, c) =>
         fst (generatedPositionFor (@upperBound_spec) sparse_map
                (mkSourceNeedle s l c None)))
    [("b.js"%string, 1, 0); ("a.js"%string, 2, 0); ("a.js"%string, 4, 3);
     ("a.js"%string, 4, 7); ("/src/a.js"%string, 1, 0)]
  = [Normal (One (GMapping None None));
     Normal (One (GMapping None None));
     Normal (One (GMapping None None));
     Normal (One (GMapping (Some 3) (Some 4)));
     Normal (One (GMapping (Some 1) (Some 5)))].
Proof. vm_compute. reflexivity. Qed.

End QueryClaims.
